(** * Prereq Flow: the prerequisite parser and the status engine

    A shallow embedding of [parse-courses.js] / [utils.js] of the
    prereq-flow repository (the second, fuller revision of the module in
    the source tree: the one with [newConditionalNode], [newNodeData],
    [updateNodeStatus] and [updateAllNodes]), followed by the properties
    proved about it.

    The older revision of [generateInitialElements] that the source tree
    also holds differs in one branch of the second pass: for alternatives
    of an either-clause that are already elements it pushes one direct
    edge per alternative and never a gate.

    Layout:
    - [Regex]    : a backtracking matcher for the fragment of JavaScript
                   regular expressions the module uses, and the patterns
                   of the module written in it;
    - [Flow]     : elements (nodes and edges), [generateInitialElements];
    - [Meta]     : [newNodeData], [discoverMaxDepths], [sortElementsByDepth];
    - [Status]   : [setNodeStatus], [updateNodeStatus], [updateAllNodes];
    - [Props]    : the predicates of the statements;
    - [Examples] : concrete arrays and course lists;
    - [ParserProps], [GraphProps], [App], [StatusProps], ... : the callers
                   of the module in the application and further
                   predicates;
    - the properties, component by component. *)

From Stdlib Require Import Ascii String.
From stdpp Require Import gmap strings list fin_maps sorting.

Local Open Scope bool_scope.
#[local] Set Warnings "-clear-no-such-hyp".

(** ** JavaScript regular expressions, as far as the module needs them *)

Module Regex.

(** The syntax covers what occurs in [CRS], [DOUBLE_EITHER_REGEX],
    [TRIPLE_EITHER_REGEX] and [CONCURRENT_REGEX]: character classes,
    sequencing, alternation, greedy [?] and [+], capturing groups and the
    end anchor [$] (no [m] flag, so it only matches at the end of input). *)
Inductive regex : Type :=
| Eps
| Eos
| Class (p : ascii → bool)
| Seq (r1 r2 : regex)
| Alt (r1 r2 : regex)
| Opt (r : regex)
| Plus (r : regex)
| Group (r : regex).

Definition chr (c : ascii) : regex := Class (Ascii.eqb c).

Fixpoint lit (s : string) : regex :=
  match s with
  | EmptyString => Eps
  | String c t => Seq (chr c) (lit t)
  end.

(** [s] minus its suffix [rest]: the text consumed between two positions. *)
Definition consumed (s rest : string) : string :=
  String.substring 0 (String.length s - String.length rest) s.

Definition orElse {R} (a b : option R) : option R :=
  match a with Some x => Some x | None => b end.

Section Matcher.
Context {R : Type}.

(** A continuation receives the rest of the input and the captures made
    so far (in the order the groups close, which for the patterns here
    is the order of their numbers). *)
Definition cont : Type := string → list string → option R.

(** The repetition [r+], given the matcher [body] of [r]: one more
    iteration is tried before the continuation (greedy); an iteration
    that consumes nothing is not repeated, which also bounds the number
    of iterations by the length of the input. *)
Fixpoint plusLoop (body : string → list string → cont → option R)
    (k : cont) (fuel : nat) (s : string) (caps : list string) : option R :=
  match fuel with
  | 0 => None
  | S fuel' =>
      body s caps (fun s1 c1 =>
        orElse
          (if String.length s1 <? String.length s
           then plusLoop body k fuel' s1 c1 else None)
          (k s1 c1))
  end.

(** Backtracking in priority order: the first alternative, and the
    longer repetition, are tried first; a failure of the continuation
    falls back to the next choice. *)
Fixpoint rmatch (r : regex) (s : string) (caps : list string) (k : cont)
  : option R :=
  match r with
  | Eps => k s caps
  | Eos => match s with EmptyString => k s caps | String _ _ => None end
  | Class p =>
      match s with
      | String c t => if p c then k t caps else None
      | EmptyString => None
      end
  | Seq r1 r2 => rmatch r1 s caps (fun s1 c1 => rmatch r2 s1 c1 k)
  | Alt r1 r2 => orElse (rmatch r1 s caps k) (rmatch r2 s caps k)
  | Opt r1 => orElse (rmatch r1 s caps k) (k s caps)
  | Group r1 =>
      rmatch r1 s caps (fun s1 c1 => k s1 (c1 ++ [consumed s s1]))
  | Plus r1 => plusLoop (rmatch r1) k (S (String.length s)) s caps
  end.
End Matcher.

(** A successful match: the array JavaScript returns ([full :: captures])
    and the input left after the match. *)
Definition matchAt (r : regex) (s : string) : option (list string * string) :=
  rmatch r s [] (fun rest caps => Some (consumed s rest :: caps, rest)).

(** [RegExp.prototype.exec] from position 0 for a pattern without the [g]
    flag: the leftmost position at which the pattern matches. *)
Fixpoint exec (r : regex) (s : string) : option (list string * string) :=
  match matchAt r s with
  | Some m => Some m
  | None =>
      match s with
      | EmptyString => None
      | String _ t => exec r t
      end
  end.

(** [str.match(re)] for [re] without [g]: [null] or [full :: captures]. *)
Definition match_ (r : regex) (s : string) : option (list string) :=
  fst <$> exec r s.

(** [re.test(str)] for [re] without [g]. *)
Definition test (r : regex) (s : string) : bool :=
  bool_decide (is_Some (exec r s)).

(** [str.match(re)] for [re] with [g]: all matches, left to right, each
    search resuming where the previous match ended (one further when the
    match was empty). [skip] counts the characters of the last match still
    to step over. JavaScript returns [null] in place of the empty list. *)
Fixpoint matchAllFrom (r : regex) (skip : nat) (s : string) : list string :=
  match s with
  | EmptyString =>
      match skip, matchAt r s with
      | 0, Some (full :: _, _) => [full]
      | _, _ => []
      end
  | String _ t =>
      match skip with
      | S skip' => matchAllFrom r skip' t
      | 0 =>
          match matchAt r s with
          | Some (full :: _, _) =>
              full :: matchAllFrom r (String.length full - 1) t
          | _ => matchAllFrom r 0 t
          end
      end
  end.

Definition matchAll (r : regex) (s : string) : list string :=
  matchAllFrom r 0 s.

(** [re.test(str)] for [re] with [g]: the search starts at [lastIndex];
    the result comes with the new [lastIndex] (the end of the match, or 0
    after a failure). *)
Fixpoint dropS (n : nat) (s : string) : option string :=
  match n, s with
  | 0, _ => Some s
  | S n', String _ t => dropS n' t
  | S _, EmptyString => None
  end.

Definition testG (r : regex) (lastIndex : nat) (s : string) : bool * nat :=
  match dropS lastIndex s with
  | None => (false, 0)
  | Some s' =>
      match exec r s' with
      | Some (_, rest) => (true, String.length s - String.length rest)
      | None => (false, 0)
      end
  end.

(** [str.split(sep)] for a one-character separator. *)
Fixpoint splitOn (sep : ascii) (s : string) : list string :=
  match s with
  | EmptyString => [EmptyString]
  | String c t =>
      if Ascii.eqb c sep then EmptyString :: splitOn sep t
      else match splitOn sep t with
           | [] => [String c EmptyString]
           | x :: xs => String c x :: xs
           end
  end.

(** *** The patterns of the module *)

Definition upperAmp (c : ascii) : bool :=
  let n := nat_of_ascii c in ((65 <=? n) && (n <=? 90)) || (n =? 38).

Definition digit (c : ascii) : bool :=
  let n := nat_of_ascii c in (48 <=? n) && (n <=? 57).

(** [CRS = (?:[A-Z&]+ )+\d{3}] *)
Definition CRS : regex :=
  Seq (Plus (Seq (Plus (Class upperAmp)) (chr " ")))
      (Seq (Class digit) (Seq (Class digit) (Class digit))).

(** [COURSE_REGEX = new RegExp(CRS, "g")] *)
Definition COURSE_REGEX : regex := CRS.

Definition eitherPrefix : regex :=
  Opt (Seq (Alt (chr "E") (chr "e")) (lit "ither ")).

(** [(?:[Ee]ither )?(CRS) or (CRS)] *)
Definition DOUBLE_EITHER_REGEX : regex :=
  Seq eitherPrefix (Seq (Group CRS) (Seq (lit " or ") (Group CRS))).

(** [(?:[Ee]ither )?(CRS), (CRS),? or (CRS)] *)
Definition TRIPLE_EITHER_REGEX : regex :=
  Seq eitherPrefix
    (Seq (Group CRS) (Seq (lit ", ") (Seq (Group CRS)
       (Seq (Opt (chr ",")) (Seq (lit " or ") (Group CRS)))))).

(** [(?:either of )?which may be taken concurrently(?:\. Instructor|\.?$)] *)
Definition CONCURRENT_REGEX : regex :=
  Seq (Opt (lit "either of "))
    (Seq (lit "which may be taken concurrently")
       (Alt (lit ". Instructor") (Seq (Opt (chr ".")) Eos))).

End Regex.


(** ** Elements, and the parser [generateInitialElements] *)

Module Flow.
Import Regex.

(** A course record as the catalogue delivers it. The fields other than
    [id] and [prerequisite] are display fields that the parser only
    copies into the node. *)
Record CourseData : Type := {
  cid : string;
  prerequisite : string;
  display : list (string * string);
}.

(** [node.data]: the course record (absent for a gate) and the two fields
    the module adds. [nodeStatus] is [None] when JavaScript has
    [undefined] there. *)
Record NodeData : Type := {
  course : option CourseData;
  nodeStatus : option string;
  nodeConnected : bool;
}.

(** A node object. [nclassName] is the property [className], which a node
    only has after [setNodeStatus] has rebuilt it with an object spread
    (see there); [None] is [undefined] or absent. *)
Record FlowNode : Type := {
  nid : string;
  type : string;
  position : Z * Z;
  data : NodeData;
  nclassName : option string;
}.

(** An edge object; the last two fields are present only on an edge that
    carries [CONCURRENT_LABEL]. *)
Record FlowEdge : Type := {
  eid : string;
  source : string;
  target : string;
  className : option string;
  label : option string;
  labelBgPadding : option (list Z);
  labelBgBorderRadius : option Z;
}.

(** React Flow keeps nodes and edges in one array and tells them apart by
    the presence of [source] and [target]. *)
Inductive Element : Type :=
| ENode (n : FlowNode)
| EEdge (e : FlowEdge).

Definition elemId (x : Element) : string :=
  match x with ENode n => nid n | EEdge e => eid e end.

Definition isNode (x : Element) : bool :=
  match x with ENode _ => true | EEdge _ => false end.

Definition isEdge (x : Element) : bool :=
  match x with ENode _ => false | EEdge _ => true end.

Definition ZERO_POSITION : Z * Z := (0, 0)%Z.

Definition newCourseNode (courseData : CourseData) : FlowNode :=
  {| nid := cid courseData;
     type := "course";
     position := ZERO_POSITION;
     data := {| course := Some courseData;
                nodeStatus := Some "over-one-away";
                nodeConnected := false |};
     nclassName := None |}.

(** [String.prototype.toUpperCase] on ASCII letters. *)
Definition toUpperAscii (c : ascii) : ascii :=
  let n := nat_of_ascii c in
  if (97 <=? n) && (n <=? 122) then ascii_of_nat (n - 32) else c.

Fixpoint toUpperCase (s : string) : string :=
  match s with
  | EmptyString => EmptyString
  | String c t => String (toUpperAscii c) (toUpperCase t)
  end.

(** [fresh] is the value [nanoid()] returns at this call. *)
Definition newConditionalNode (fresh : string) (ty : string)
    (pos : Z * Z) : FlowNode :=
  {| nid := toUpperCase ty +:+ "-" +:+ fresh;
     type := ty;
     position := pos;
     data := {| course := None;
                nodeStatus := Some "completed";
                nodeConnected := false |};
     nclassName := None |}.

Definition edgeArrowId (source target : string) : string :=
  source +:+ " -> " +:+ target.

Definition newEdge (source target : string) (id : option string) : FlowEdge :=
  let edgeId := default (edgeArrowId source target) id in
  {| eid := edgeId;
     source := source;
     target := target;
     className := Some "over-one-away";
     label := None;
     labelBgPadding := None;
     labelBgBorderRadius := None |}.

(** [{ ...edge, ...CONCURRENT_LABEL }] *)
Definition withConcurrentLabel (e : FlowEdge) : FlowEdge :=
  {| eid := eid e;
     source := source e;
     target := target e;
     className := className e;
     label := Some "CC";
     labelBgPadding := Some [2; 2]%Z;
     labelBgBorderRadius := Some 4%Z |}.

(** The state the parser threads through its loops: the [elements] array,
    the [elementIds] set, the [secondPass] map (a JavaScript [Map], which
    iterates in insertion order), the [lastIndex] of the global
    [COURSE_REGEX] object, and the number of [nanoid()] calls made. *)
Record ParseState : Type := {
  elements : list Element;
  elementIds : gset string;
  secondPass : list (string * list string);
  lastIndex : nat;
  nanoidCalls : nat;
}.

Definition withElements (st : ParseState) (els : list Element)
    (ids : gset string) : ParseState :=
  {| elements := els; elementIds := ids; secondPass := secondPass st;
     lastIndex := lastIndex st; nanoidCalls := nanoidCalls st |}.

Definition withLastIndex (st : ParseState) (i : nat) : ParseState :=
  {| elements := elements st; elementIds := elementIds st;
     secondPass := secondPass st; lastIndex := i;
     nanoidCalls := nanoidCalls st |}.

(** One turn of the loop of [addEdges]. *)
Definition addEdge (target : string) (st : ParseState) (source : string)
    : ParseState :=
  let edgeId := edgeArrowId source target in
  if bool_decide (source ∈ elementIds st)
     && negb (bool_decide (edgeId ∈ elementIds st))
     && negb (bool_decide (edgeArrowId target source ∈ elementIds st))
  then withElements st
         (elements st ++ [EEdge (newEdge source target (Some edgeId))])
         ({[edgeId]} ∪ elementIds st)
  else st.

Definition addEdges (sources : list string) (target : string)
    (st : ParseState) : ParseState :=
  fold_left (addEdge target) sources st.

(** [if (!secondPass.has(id)) secondPass.set(id, []);
     secondPass.get(id).push(section)] *)
Fixpoint secondPassPush (courseId section : string)
    (sp : list (string * list string)) : list (string * list string) :=
  match sp with
  | [] => [(courseId, [section])]
  | (k, v) :: rest =>
      if String.eqb k courseId then (k, v ++ [section]) :: rest
      else (k, v) :: secondPassPush courseId section rest
  end.

(** The body of the inner loop of the first pass. [section.match] with the
    global pattern leaves its [lastIndex] at 0. *)
Definition firstPassSection (courseId : string) (st : ParseState)
    (section : string) : ParseState :=
  let st := withLastIndex st 0 in
  match matchAll COURSE_REGEX section with
  | [] => st
  | [m] => addEdges [m] courseId st
  | _ :: _ :: _ =>
      {| elements := elements st; elementIds := elementIds st;
         secondPass := secondPassPush courseId section (secondPass st);
         lastIndex := lastIndex st; nanoidCalls := nanoidCalls st |}
  end.

(** The body of the outer loop of the first pass. *)
Definition firstPassCourse (st : ParseState) (c : CourseData) : ParseState :=
  let '(found, li) := testG COURSE_REGEX (lastIndex st) (prerequisite c) in
  let st := withLastIndex st li in
  if negb found then st
  else fold_left (firstPassSection (cid c)) (splitOn ";" (prerequisite c)) st.

Section Parser.
(** [nanoid i] is the identifier the [i]-th call of [nanoid()] returns. *)
Variable nanoid : nat → string.

Definition maybeConcurrent (section : string) (e : FlowEdge) : FlowEdge :=
  if test CONCURRENT_REGEX section then withConcurrentLabel e else e.

(** The body of the inner loop of the second pass. *)
Definition secondPassSection (ambiguousHandling course : string)
    (st : ParseState) (section : string) : ParseState :=
  let doubleEitherMatch := match_ DOUBLE_EITHER_REGEX section in
  let tripleEitherMatch := match_ TRIPLE_EITHER_REGEX section in
  let matches := orElse tripleEitherMatch doubleEitherMatch in
  let numCourses := length (matchAll COURSE_REGEX section) in
  let st := withLastIndex st 0 in
  if match matches with
     | Some ms => length ms =? numCourses + 1
     | None => false
     end
  then
    let alts := tail (default [] matches) in
    let alreadyRequired := filter (λ m, m ∈ elementIds st) alts in
    match alreadyRequired with
    | [req] =>
        let edge := maybeConcurrent section (newEdge req course None) in
        withElements st (elements st ++ [EEdge edge]) (elementIds st)
    | _ :: _ :: _ =>
        let orNode := newConditionalNode (nanoid (nanoidCalls st)) "or"
                        ZERO_POSITION in
        {| elements :=
             elements st
             ++ [ENode orNode; EEdge (newEdge (nid orNode) course None)]
             ++ map (λ req, EEdge (maybeConcurrent section
                                     (newEdge req (nid orNode) None)))
                    alreadyRequired;
           elementIds := elementIds st;
           secondPass := secondPass st;
           lastIndex := lastIndex st;
           nanoidCalls := S (nanoidCalls st) |}
    | [] =>
        if String.eqb ambiguousHandling "aggressively"
        then addEdges alts course st
        else st
    end
  else if String.eqb ambiguousHandling "aggressively"
  then addEdges (matchAll COURSE_REGEX section) course st
  else st.

Definition secondPassCourse (ambiguousHandling : string) (st : ParseState)
    (entry : string * list string) : ParseState :=
  fold_left (secondPassSection ambiguousHandling (fst entry)) (snd entry) st.

Definition initialState (courseData : list CourseData) : ParseState :=
  {| elements := map (λ c, ENode (newCourseNode c)) courseData;
     elementIds := list_to_set (map cid courseData);
     secondPass := [];
     lastIndex := 0;
     nanoidCalls := 0 |}.

Definition firstPass (courseData : list CourseData) : ParseState :=
  fold_left firstPassCourse courseData (initialState courseData).

Definition generateInitialElements (courseData : list CourseData)
    (ambiguousHandling : string) : list Element :=
  let st := firstPass courseData in
  elements (fold_left (secondPassCourse ambiguousHandling) (secondPass st) st).
End Parser.

End Flow.

(** ** Outcomes of the functions that can fail *)

(** [TypeError]: a property is read from [undefined]. [OutOfFuel]: the
    recursion of [discoverMaxDepths] is deeper than the bound given to the
    embedding (on a cyclic graph the JavaScript recursion has no bound at
    all). [OffArray]: an assignment [elements[i] = ...] whose index is
    [undefined] or past the end; JavaScript then stores the object under a
    non-index key or leaves holes, and the array is no longer a list of
    elements, so the embedding stops there. *)
Inductive failure : Type := TypeError | OutOfFuel | OffArray.

Inductive result (A : Type) : Type :=
| Ok (a : A)
| Err (f : failure).
Arguments Ok {A} a.
Arguments Err {A} f.

#[global] Instance result_bind : MBind result :=
  λ A B k r, match r with Ok a => k a | Err f => Err f end.

(** A loop whose body can fail: [for (const x of xs) acc = body(acc, x)]. *)
Fixpoint forEach {A S} (body : S → A → result S) (xs : list A) (acc : S)
    : result S :=
  match xs with
  | [] => Ok acc
  | x :: rest => acc' ← body acc x ; forEach body rest acc'
  end.

Fixpoint mapR {A B} (f : A → result B) (xs : list A) : result (list B) :=
  match xs with
  | [] => Ok []
  | x :: rest => y ← f x ; ys ← mapR f rest ; Ok (y :: ys)
  end.

(** ** Node metadata: [newNodeData], [sortElementsByDepth] *)

Module Meta.
Import Flow.

Record NodeMeta : Type := {
  depth : nat;
  incomingNodes : list string;
  incomingEdges : list string;
  outgoingEdges : list string;
  outgoingNodes : list string;
  connectedEdges : list string;
  connectedNodes : list string;
}.

Definition withDepth (m : NodeMeta) (d : nat) : NodeMeta :=
  {| depth := d;
     incomingNodes := incomingNodes m; incomingEdges := incomingEdges m;
     outgoingEdges := outgoingEdges m; outgoingNodes := outgoingNodes m;
     connectedEdges := connectedEdges m; connectedNodes := connectedNodes m |}.

Definition edgesOf (elements : list Element) : list FlowEdge :=
  omap (λ x, match x with EEdge e => Some e | ENode _ => None end) elements.

(** React Flow's graph helpers, as the library (react-flow-renderer 9)
    defines them:
    [getConnectedEdges(nodes, edges)] keeps the edges whose source or
    target is the id of one of [nodes];
    [getIncomers(node, elements)] is empty unless [node] is a node, and
    otherwise keeps the elements whose id is the source of an edge with
    target [node.id]; [getOutgoers] is its mirror image. *)
Definition getConnectedEdges (nodes : list Element) (edges : list FlowEdge)
    : list FlowEdge :=
  let nodeIds := map elemId nodes in
  filter (λ e, source e ∈ nodeIds ∨ target e ∈ nodeIds) edges.

Definition getIncomers (node : Element) (elements : list Element)
    : list Element :=
  if isNode node then
    let incomersIds :=
      map source (filter (λ e, target e = elemId node) (edgesOf elements)) in
    filter (λ x, elemId x ∈ incomersIds) elements
  else [].

Definition getOutgoers (node : Element) (elements : list Element)
    : list Element :=
  if isNode node then
    let outgoerIds :=
      map target (filter (λ e, source e = elemId node) (edgesOf elements)) in
    filter (λ x, elemId x ∈ outgoerIds) elements
  else [].

Definition getIncomingEdges (targetNode : Element) (elements : list Element)
    : list FlowEdge :=
  let connectedEdges := getConnectedEdges [targetNode] (edgesOf elements) in
  filter (λ e, target e = elemId targetNode) connectedEdges.

Definition getOutgoingEdges (targetNode : Element) (elements : list Element)
    : list FlowEdge :=
  let connectedEdges := getConnectedEdges [targetNode] (edgesOf elements) in
  filter (λ e, source e = elemId targetNode) connectedEdges.

(** The record [newData] that [newNodeData] builds for one node. *)
Definition newData (node : Element) (elements : list Element) : NodeMeta :=
  let inN := map elemId (getIncomers node elements) in
  let inE := map eid (getIncomingEdges node elements) in
  let outE := map eid (getOutgoingEdges node elements) in
  let outN := map elemId (getOutgoers node elements) in
  {| depth := 0;
     incomingNodes := inN; incomingEdges := inE;
     outgoingEdges := outE; outgoingNodes := outN;
     connectedEdges := inE ++ outE; connectedNodes := inN ++ outN |}.

(** The recursion of the source has no bound; [fuel] bounds its depth
    here. Each visit raises the depth stored for the outgoer and descends
    into it with the raised level. *)
Fixpoint discoverMaxDepths (fuel : nat) (startNodeId : string)
    (startDepth : nat) (nodeData : gmap string NodeMeta)
    : result (gmap string NodeMeta) :=
  match fuel with
  | 0 => Err OutOfFuel
  | S fuel' =>
      match nodeData !! startNodeId with
      | None => Err TypeError
      | Some start =>
          forEach
            (λ nd outgoerId,
               match nd !! outgoerId with
               | None => Err TypeError
               | Some o =>
                   discoverMaxDepths fuel' outgoerId (startDepth + 1)
                     (<[outgoerId :=
                          withDepth o (depth o `max` (startDepth + 1))]> nd)
               end)
            (outgoingNodes start) nodeData
      end
  end.

(** The first loop of [newNodeData]: the metadata map and the roots. *)
Definition collect (elements : list Element)
    : gmap string NodeMeta * list string :=
  fold_left
    (λ (acc : gmap string NodeMeta * list string) node,
       let d := newData node elements in
       (<[elemId node := d]> (fst acc),
        if length (incomingNodes d) =? 0
        then snd acc ++ [elemId node] else snd acc))
    (filter (λ x, isNode x = true) elements) (∅, []).

Definition newNodeData (fuel : nat) (elements : list Element)
    : result (gmap string NodeMeta) :=
  let '(initialNodeData, roots) := collect elements in
  forEach (λ nd root, discoverMaxDepths fuel root 0 nd) roots initialNodeData.

(** The sort key of [sortElementsByDepth]: the depth of a node, and
    [Number.POSITIVE_INFINITY] ([None]) for an edge. Reading the depth of
    a node without metadata throws. *)
Definition sortKey (nodeData : gmap string NodeMeta) (x : Element)
    : result (option nat) :=
  match x with
  | EEdge _ => Ok None
  | ENode n =>
      match nodeData !! nid n with
      | Some m => Ok (Some (depth m))
      | None => Err TypeError
      end
  end.

(** [aVal - bVal <= 0], where the difference of two infinities is [NaN],
    which [sort] takes for 0. *)
Definition keyLe (a b : option nat) : bool :=
  match a, b with
  | Some x, Some y => x <=? y
  | Some _, None => true
  | None, Some _ => false
  | None, None => true
  end.

(** [Array.prototype.sort] is stable; with a comparator that is a weak
    order, as here, its result is the stable sort by that order, which
    insertion from the right computes. *)
Fixpoint insertByKey (kx : option nat * Element)
    (sorted : list (option nat * Element)) : list (option nat * Element) :=
  match sorted with
  | [] => [kx]
  | ky :: rest =>
      if keyLe (fst kx) (fst ky) then kx :: ky :: rest
      else ky :: insertByKey kx rest
  end.

Definition stableSortByKey (l : list (option nat * Element))
    : list (option nat * Element) :=
  foldr insertByKey [] l.

(** The comparator is not called on an array of fewer than two elements. *)
Definition sortElementsByDepth (elements : list Element)
    (nodeData : gmap string NodeMeta) : result (list Element) :=
  match elements with
  | [] | [_] => Ok elements
  | _ =>
      keys ← mapR (sortKey nodeData) elements ;
      Ok (map snd (stableSortByKey (zip keys elements)))
  end.

(** [new Map(elements.map((elem, i) => [elem.id, i]))]: of two elements
    with one id the later one keeps the entry. *)
Definition newElemIndexes (elements : list Element) : gmap string nat :=
  fold_left (λ (m : gmap string nat) (p : nat * Element),
               <[elemId (snd p) := fst p]> m)
    (imap (λ i x, (i, x)) elements) ∅.

End Meta.

(** ** Status propagation *)

Module Status.
Import Flow Meta.

Definition COURSE_STATUSES : list string :=
  ["completed"; "enrolled"; "ready";
   "under-one-away"; "one-away"; "over-one-away"].

Fixpoint indexOf (s : string) (l : list string) : option nat :=
  match l with
  | [] => None
  | x :: rest => if String.eqb x s then Some 0 else S <$> indexOf s rest
  end.

(** JavaScript numbers as they occur here: a status code, [NaN] (what
    [Math.max] makes of [undefined]) and the two infinities [Math.max()]
    and [Math.min()] return for no arguments. *)
Inductive num : Type := Fin (n : nat) | NaN | NegInf | PosInf.

(** [COURSE_STATUS_CODES[className]]; a class name that is no status, or
    [undefined], has no code, and stands for [NaN] in the arithmetic. *)
Definition COURSE_STATUS_CODES (className : option string) : num :=
  match className with
  | Some s => match indexOf s COURSE_STATUSES with
              | Some i => Fin i
              | None => NaN
              end
  | None => NaN
  end.

Definition elemClassName (x : Element) : option string :=
  match x with ENode n => nclassName n | EEdge e => className e end.

Definition elemLabel (x : Element) : option string :=
  match x with ENode _ => None | EEdge e => label e end.

(** [getEdgeStatus(edge)]; [edge] is [undefined] when the lookup in the
    array found nothing. *)
Definition getEdgeStatus (edge : option Element) : result num :=
  match edge with
  | None => Err TypeError
  | Some x =>
      let edgeStatusCode := COURSE_STATUS_CODES (elemClassName x) in
      match edgeStatusCode, elemLabel x with
      | Fin 1, Some l => if String.eqb l "CC" then Ok (Fin 0) else Ok (Fin 1)
      | c, _ => Ok c
      end
  end.

Definition max2 (a b : num) : num :=
  match a, b with
  | NaN, _ | _, NaN => NaN
  | PosInf, _ | _, PosInf => PosInf
  | NegInf, x | x, NegInf => x
  | Fin x, Fin y => Fin (x `max` y)
  end.

Definition min2 (a b : num) : num :=
  match a, b with
  | NaN, _ | _, NaN => NaN
  | NegInf, _ | _, NegInf => NegInf
  | PosInf, x | x, PosInf => x
  | Fin x, Fin y => Fin (x `min` y)
  end.

Definition Math_max (xs : list num) : num := fold_left max2 xs NegInf.
Definition Math_min (xs : list num) : num := fold_left min2 xs PosInf.

(** [elements[elemIndexes.get(id)]] *)
Definition elementAt (elements : list Element) (elemIndexes : gmap string nat)
    (id : string) : option Element :=
  i ← elemIndexes !! id; elements !! i.

Definition withNodeStatus (n : FlowNode) (s : option string) : FlowNode :=
  {| nid := nid n; type := type n; position := position n;
     data := {| course := course (data n); nodeStatus := s;
                nodeConnected := nodeConnected (data n) |};
     nclassName := nclassName n |}.

(** [{ ...elem, className: newStatus }] *)
Definition withClassName (x : Element) (s : option string) : Element :=
  match x with
  | EEdge e =>
      EEdge {| eid := eid e; source := source e; target := target e;
               className := s; label := label e;
               labelBgPadding := labelBgPadding e;
               labelBgBorderRadius := labelBgBorderRadius e |}
  | ENode n =>
      ENode {| nid := nid n; type := type n; position := position n;
               data := data n; nclassName := s |}
  end.

(** The node object is updated in place; each outgoing edge is replaced
    by a copy with the new class name. *)
Definition setNodeStatus (nodeId : string) (newStatus : option string)
    (elements : list Element) (nodeData : gmap string NodeMeta)
    (elemIndexes : gmap string nat) : result (list Element) :=
  match elemIndexes !! nodeId with
  | None => Err TypeError
  | Some i =>
      match elements !! i with
      | Some (ENode n) =>
          let elements := <[i := ENode (withNodeStatus n newStatus)]> elements in
          match nodeData !! nodeId with
          | None => Err TypeError
          | Some md =>
              forEach
                (λ els edgeId,
                   match elemIndexes !! edgeId with
                   | None => Err OffArray
                   | Some j =>
                       match els !! j with
                       | None => Err OffArray
                       | Some x => Ok (<[j := withClassName x newStatus]> els)
                       end
                   end)
                (outgoingEdges md) elements
          end
      | _ => Err TypeError
      end
  end.

(** The status at position [code] of [COURSE_STATUSES]; [undefined] for
    [NaN]. *)
Definition statusAt (code : num) : option string :=
  match code with
  | Fin n => COURSE_STATUSES !! n
  | _ => None
  end.

Definition isStatus (s : string) (current : option string) : bool :=
  match current with Some c => String.eqb c s | None => false end.

(** The [switch (targetNode.type)] of [updateNodeStatus]: the new status
    for a node of type [ty] with status [currentStatus], from the elements
    found for its incoming edge ids. No case of the switch leaves
    [newStatus] undefined ([None]) except through [NaN] or an unknown
    type. *)
Definition newStatusOf (ty : string) (currentStatus : option string)
    (incomingEdges : list (option Element)) : result (option string) :=
  if String.eqb ty "course" then
    codes ← mapR getEdgeStatus incomingEdges;
    let newStatusCode := Math_max codes in
    let newStatusCode :=
      match newStatusCode with NegInf => Fin 0 | c => c end in
    Ok match newStatusCode with
       | Fin 0 =>
           if isStatus "completed" currentStatus
              || isStatus "enrolled" currentStatus
           then currentStatus else Some "ready"
       | Fin 1 => Some "under-one-away"
       | Fin 2 => Some "one-away"
       | Fin _ | PosInf => Some "over-one-away"
       | NaN | NegInf => None
       end
  else if String.eqb ty "and" then
    codes ← mapR getEdgeStatus incomingEdges;
    let newStatusCode := Math_max codes in
    let newStatusCode :=
      match newStatusCode with NegInf => Fin 0 | c => c end in
    Ok (statusAt newStatusCode)
  else if String.eqb ty "or" then
    codes ← mapR getEdgeStatus incomingEdges;
    let newStatusCode := Math_min codes in
    let newStatusCode :=
      match newStatusCode with PosInf => Fin 0 | c => c end in
    Ok (statusAt newStatusCode)
  else Ok None.

Definition updateNodeStatus (nodeId : string) (elements : list Element)
    (nodeData : gmap string NodeMeta) (elemIndexes : gmap string nat)
    : result (list Element) :=
  match elementAt elements elemIndexes nodeId with
  | Some (ENode targetNode) =>
      let currentStatus := nodeStatus (data targetNode) in
      match nodeData !! nodeId with
      | None => Err TypeError
      | Some md =>
          let incomingEdges :=
            map (elementAt elements elemIndexes) (incomingEdges md) in
          newStatus ← newStatusOf (type targetNode) currentStatus
                        incomingEdges;
          setNodeStatus nodeId newStatus elements nodeData elemIndexes
      end
  | _ => Err TypeError
  end.

(** [for (let i = 0; i < numNodes; i++)], counting [i] up from [i] for
    [todo] more turns; the ids are read from the array that was passed
    in, the updates go to the copy. (The copy is shallow: the node
    objects are shared, so the caller's array sees the new node statuses
    too, while its edges keep their class names. Only ids are read from
    the caller's array, and ids do not change.) *)
Fixpoint updateLoop (todo i : nat) (elements updatedElements : list Element)
    (nodeData : gmap string NodeMeta) (elemIndexes : gmap string nat)
    : result (list Element) :=
  match todo with
  | 0 => Ok updatedElements
  | S todo' =>
      match elements !! i with
      | None => Err TypeError
      | Some x =>
          updated ← updateNodeStatus (elemId x) updatedElements
                      nodeData elemIndexes ;
          updateLoop todo' (S i) elements updated nodeData elemIndexes
      end
  end.

Definition updateAllNodes (elements : list Element)
    (nodeData : gmap string NodeMeta) (elemIndexes : gmap string nat)
    : result (list Element) :=
  let updatedElements := elements in
  let numNodes := size nodeData in
  updateLoop numNodes 0 elements updatedElements nodeData elemIndexes.

End Status.

(** ** Predicates the statements use *)

Module Props.
Import Regex Flow Meta Status.

Fixpoint StrForall (P : ascii → Prop) (s : string) : Prop :=
  match s with
  | EmptyString => True
  | String c t => P c ∧ StrForall P t
  end.

(** Every character class of the pattern only accepts characters with [P]. *)
Fixpoint classesIn (P : ascii → Prop) (r : regex) : Prop :=
  match r with
  | Eps | Eos => True
  | Class p => ∀ c, p c = true → P c
  | Seq a b | Alt a b => classesIn P a ∧ classesIn P b
  | Opt a | Plus a | Group a => classesIn P a
  end.

Definition notDash (c : ascii) : Prop := c ≠ "-"%char.

(** No character class of the pattern accepts the character [c]. *)
Fixpoint rejects (c : ascii) (r : regex) : bool :=
  match r with
  | Eps | Eos => true
  | Class p => negb (p c)
  | Seq a b | Alt a b => rejects c a && rejects c b
  | Opt a | Plus a | Group a => rejects c a
  end.

(** [/^(?:[A-Z&]+ )+\d{3}$/.test(s)]: the whole of [s] is one course id. *)
Definition isCourseId (s : string) : bool :=
  bool_decide (is_Some (matchAt (Seq CRS Eos) s)).

(** The ids in [ids] all have an index inside the array. *)
Definition indexesOk (els : list Element) (idx : gmap string nat)
    (ids : list string) : bool :=
  forallb (λ id, match idx !! id with
                 | Some j => j <? length els
                 | None => false
                 end) ids.

(** Some id of [ids] has index [k]. *)
Definition touched (idx : gmap string nat) (ids : list string) (k : nat)
    : bool :=
  bool_decide (Exists (λ id, idx !! id = Some k) ids).

Definition applyClass (s : option string) (b : bool) (x : Element) : Element :=
  if b then withClassName x s else x.

(** The loop of [setNodeStatus] over the outgoing edge ids. *)
Definition classLoop (newStatus : option string) (idx : gmap string nat)
    : list string → list Element → result (list Element) :=
  forEach (λ els edgeId,
     match idx !! edgeId with
     | None => Err OffArray
     | Some j =>
         match els !! j with
         | None => Err OffArray
         | Some x => Ok (<[j := withClassName x newStatus]> els)
         end
     end).

(** [node.data.nodeStatus] of an element, and the element with its status
    and class name blanked: two elements that agree on the latter agree
    on every other field. *)
Definition elemStatus (x : Element) : option string :=
  match x with ENode n => nodeStatus (data n) | EEdge _ => None end.

Definition clearStatus (x : Element) : Element :=
  withClassName
    (match x with
     | ENode n => ENode (withNodeStatus n None)
     | EEdge e => EEdge e
     end) None.

(** The metadata lists as outgoing edges of a node only edges of the
    array that leave this node, as [newNodeData] computes them. *)
Definition outgoingListed (els : list Element) (nd : gmap string NodeMeta)
    : Prop :=
  ∀ id md edgeId,
    nd !! id = Some md → edgeId ∈ outgoingEdges md →
    ∃ e, EEdge e ∈ els ∧ eid e = edgeId ∧ source e = id.

(** The edge [addEdges] pushes for [source]. *)
Definition arrowEdge (target source : string) : Element :=
  EEdge (newEdge source target (Some (edgeArrowId source target))).

(** The clause passes the test of the second pass: one of the two
    either-patterns matches and captures as many ids as the clause has. *)
Definition accepted (section : string) : option (list string) :=
  match orElse (match_ TRIPLE_EITHER_REGEX section)
               (match_ DOUBLE_EITHER_REGEX section) with
  | Some ms =>
      if length ms =? length (matchAll COURSE_REGEX section) + 1
      then Some (tail ms) else None
  | None => None
  end.

(** No accepted either-clause of the course list names a course of the
    list: the second pass then never takes the two branches that push an
    edge without consulting [elementIds]. *)
Definition alternativesAbsent (courseData : list CourseData) : bool :=
  forallb
    (λ c, forallb
            (λ section,
               match accepted section with
               | Some alts =>
                   forallb (λ m, negb (bool_decide (m ∈ map cid courseData)))
                     alts
               | None => true
               end)
            (splitOn ";" (prerequisite c)))
    courseData.

(** Properties of the element array and of the parser state. *)
Definition onePerPair (els : list Element) : Prop :=
  ∀ i j e e',
    els !! i = Some (EEdge e) → els !! j = Some (EEdge e') →
    source e = source e' → target e = target e' → i = j.

Definition noReversePair (els : list Element) : Prop :=
  ∀ e e',
    EEdge e ∈ els → EEdge e' ∈ els →
    source e = target e' → target e = source e' → source e = target e.

Definition edgesRegistered (st : ParseState) : Prop :=
  ∀ e, EEdge e ∈ elements st →
       edgeArrowId (source e) (target e) ∈ elementIds st.

Definition idsFrom (ids0 : gset string) (st : ParseState) : Prop :=
  ∀ x, x ∈ elementIds st → x ∈ ids0 ∨ ¬ StrForall notDash x.

Definition parseInv (ids0 : gset string) (st : ParseState) : Prop :=
  edgesRegistered st ∧ onePerPair (elements st)
  ∧ noReversePair (elements st) ∧ idsFrom ids0 st.

Definition deferredFrom (courseData : list CourseData)
    (sp : list (string * list string)) : Prop :=
  ∀ k secs sec,
    (k, secs) ∈ sp → sec ∈ secs →
    ∃ c, c ∈ courseData ∧ sec ∈ splitOn ";" (prerequisite c).

(** The graph of an element array: [hasEdge els u v] when some edge of
    the array goes from [u] to [v]. The array is acyclic when no id
    reaches itself along one or more edges. *)
Definition hasEdge (els : list Element) (u v : string) : Prop :=
  ∃ e, EEdge e ∈ els ∧ source e = u ∧ target e = v.

Definition acyclic (els : list Element) : Prop :=
  ∀ u, ¬ tc (hasEdge els) u u.

(** A certificate of acyclicity: a numbering that grows along every edge. *)
Definition topoRanked (rank : string → nat) (els : list Element) : bool :=
  forallb (λ e, rank (source e) <? rank (target e)) (edgesOf els).

(** No edge has the id of an edge as its source or target. *)
Definition edgeIdsApart (els : list Element) : bool :=
  forallb
    (λ e, forallb
            (λ e', negb (String.eqb (eid e) (source e'))
                   && negb (String.eqb (eid e) (target e')))
            (edgesOf els))
    (edgesOf els).

(** The depth the metadata records for an id (0 without metadata). *)
Definition depthOf (nd : gmap string NodeMeta) (k : string) : nat :=
  default 0 (depth <$> nd !! k).

(** [u] is a node of the array and lists [v] among its outgoing nodes. *)
Definition outEdge (els : list Element) (u v : string) : Prop :=
  ∃ x, x ∈ els ∧ isNode x = true ∧ elemId x = u
       ∧ v ∈ outgoingNodes (newData x els).

(** [nd] is the initial metadata of the array with other depths. *)
Definition depthsOver (els : list Element) (nd : gmap string NodeMeta)
    : Prop :=
  ∀ k, nd !! k
       = (λ m, withDepth m (depthOf nd k)) <$> (collect els).1 !! k.

(** Every outgoing node of [x] is deeper than level [d]. *)
Definition visitedAt (els : list Element) (nd : gmap string NodeMeta)
    (x : string) (d : nat) : Prop :=
  ∀ y, outEdge els x y → d + 1 ≤ depthOf nd y.

(** Every node off the recursion stack that has a positive depth has been
    visited at its depth. *)
Definition settled (els : list Element) (nd : gmap string NodeMeta)
    (stack : list string) : Prop :=
  ∀ x, x ∉ stack → 0 < depthOf nd x → visitedAt els nd x (depthOf nd x).

(** A root for [newNodeData]: a node whose record has no incoming node. *)
Definition isRoot (els : list Element) (k : string) : Prop :=
  ∃ m, (collect els).1 !! k = Some m ∧ incomingNodes m = [].

(** The body of the loop of [discoverMaxDepths] at level [d], with
    [fuel] left for the calls it makes. *)
Definition dfsBody (fuel d : nat) (nd : gmap string NodeMeta)
    (outgoerId : string) : result (gmap string NodeMeta) :=
  match nd !! outgoerId with
  | None => Err TypeError
  | Some o =>
      discoverMaxDepths fuel outgoerId (d + 1)
        (<[outgoerId := withDepth o (depth o `max` (d + 1))]> nd)
  end.

(** What a run of the traversal from [u] does to the map: depths only
    grow, and only at ids reachable from [u]. *)
Definition grownFrom (els : list Element) (u : string)
    (nd nd' : gmap string NodeMeta) : Prop :=
  depthsOver els nd'
  ∧ (∀ k, depthOf nd k ≤ depthOf nd' k)
  ∧ (∀ k, depthOf nd k ≠ depthOf nd' k → tc (outEdge els) u k).

(** Every node precedes every edge in the array. *)
Definition nodesFirst (els : list Element) : Prop :=
  ∃ nodes edges,
    els = nodes ++ edges
    ∧ Forall (λ x, isNode x = true) nodes
    ∧ Forall (λ x, isEdge x = true) edges.

(** [upd] has, position by position, the elements of [els] up to their
    status and class name. *)
Definition sameShape (els upd : list Element) : Prop :=
  length upd = length els
  ∧ ∀ k x, els !! k = Some x →
           ∃ x', upd !! k = Some x' ∧ clearStatus x' = clearStatus x.

End Props.

(** ** Concrete inputs for the examples *)

Module Examples.
Import Regex Flow Meta Status.

Definition courseRecord (i p : string) : CourseData :=
  {| cid := i; prerequisite := p; display := [] |}.

Definition courseNode (i : string) : Element :=
  ENode (newCourseNode (courseRecord i EmptyString)).

Definition courseNodeWith (i status : string) : Element :=
  ENode (withNodeStatus (newCourseNode (courseRecord i EmptyString))
           (Some status)).

Definition gateNode (ty : string) : Element :=
  ENode (newConditionalNode "g1" ty ZERO_POSITION).

Definition edgeWith (s t cls : string) (lbl : option string) : Element :=
  EEdge {| eid := edgeArrowId s t; source := s; target := t;
           className := Some cls; label := lbl;
           labelBgPadding := None; labelBgBorderRadius := None |}.

(** Three courses, completed, enrolled and ready, feed one gate, which
    feeds a fourth course. *)
Definition gateArray (ty gateId : string) : list Element :=
  [courseNodeWith "CSE 142" "completed";
   courseNodeWith "CSE 143" "enrolled";
   courseNodeWith "MATH 126" "ready";
   gateNode ty;
   courseNode "CSE 311";
   edgeWith "CSE 142" gateId "completed" None;
   edgeWith "CSE 143" gateId "enrolled" None;
   edgeWith "MATH 126" gateId "ready" None;
   edgeWith gateId "CSE 311" "over-one-away" None].

Definition metaOf (els : list Element) : gmap string NodeMeta :=
  match newNodeData (S (length els)) els with
  | Ok nd => nd
  | Err _ => ∅
  end.

(** A numbering of the ids of [gateArray "and" "AND-g1"] that grows along
    its edges. *)
Definition gateRank (s : string) : nat :=
  if String.eqb s "AND-g1" then 1
  else if String.eqb s "CSE 311" then 2 else 0.

(** The values [nanoid()] returns, call by call. *)
Definition nano (n : nat) : string :=
  match n with 0 => "a1" | 1 => "b2" | _ => "c3" end.

End Examples.

(** ** Predicates on the parser's result *)

Module ParserProps.
Import Regex Flow Meta Status Props.

(** The ids of the nodes of an array, in array order. *)
Definition nodeIds (els : list Element) : list string :=
  omap (λ x, match x with ENode n => Some (nid n) | EEdge _ => None end) els.

(** Both ends of every edge are nodes of the array, and the id of the
    edge is the arrow id of its ends. *)
Definition closedEdges (els : list Element) : Prop :=
  ∀ e, EEdge e ∈ els →
    source e ∈ nodeIds els ∧ target e ∈ nodeIds els
    ∧ eid e = edgeArrowId (source e) (target e).

Definition courseNodes (courseData : list CourseData) : list Element :=
  map (λ c, ENode (newCourseNode c)) courseData.

(** The gate the second pass makes at its [i]-th call of [nanoid()]. *)
Definition orGate (nanoid : nat → string) (i : nat) : Element :=
  ENode (newConditionalNode (nanoid i) "or" ZERO_POSITION).

(** What the parser keeps true of its state: the array starts with the
    course nodes and has since gained edges and or-gates only, the gates
    in the order of the [nanoid()] calls; every edge is closed; the ids
    registered without a dash are course ids; the deferred clauses belong
    to courses of the list. *)
Definition parserShape (nanoid : nat → string) (courseData : list CourseData)
    (st : ParseState) : Prop :=
  (∃ rest,
     elements st = courseNodes courseData ++ rest
     ∧ filter (λ x, isNode x = true) rest
       = map (orGate nanoid) (seq 0 (nanoidCalls st)))
  ∧ closedEdges (elements st)
  ∧ idsFrom (list_to_set (map cid courseData)) st
  ∧ ∀ k secs, (k, secs) ∈ secondPass st → k ∈ map cid courseData.

(** [prerequisite] holds at least one course id. *)
Definition hasCourseId (s : string) : bool :=
  match matchAll COURSE_REGEX s with [] => false | _ :: _ => true end.

(** The body of the outer loop of the first pass without the [lastIndex]
    of the pattern object: a course whose text holds no course id is
    skipped, any other has its clauses processed. *)
Definition firstPassCourseFresh (st : ParseState) (c : CourseData)
    : ParseState :=
  if hasCourseId (prerequisite c)
  then fold_left (firstPassSection (cid c)) (splitOn ";" (prerequisite c)) st
  else st.

(** The two runs of the second pass, one in a mode other than
    "aggressively" and one in that mode, side by side. *)
Definition modesAgree (cons aggr : ParseState) : Prop :=
  sublist (elements cons) (elements aggr)
  ∧ nanoidCalls cons = nanoidCalls aggr
  ∧ ∀ m, StrForall notDash m →
         (m ∈ elementIds cons ↔ m ∈ elementIds aggr).

End ParserProps.

(** ** Predicates on the metadata and on the sorted array *)

Module GraphProps.
Import Flow Meta Status Props.

(** The record [md] lists, for the id [k], the edges and the neighbours
    the array has for it. A neighbour is any element, node or edge, whose
    id is the other end of an edge at [k]: that is what [getIncomers] and
    [getOutgoers] select. *)
Definition adjacencyOf (els : list Element) (k : string) (md : NodeMeta)
    : Prop :=
  (∀ id, id ∈ incomingEdges md
         ↔ ∃ e, EEdge e ∈ els ∧ eid e = id ∧ target e = k)
  ∧ (∀ id, id ∈ outgoingEdges md
           ↔ ∃ e, EEdge e ∈ els ∧ eid e = id ∧ source e = k)
  ∧ (∀ u, u ∈ incomingNodes md
          ↔ (∃ y, y ∈ els ∧ elemId y = u) ∧ hasEdge els u k)
  ∧ (∀ v, v ∈ outgoingNodes md
          ↔ (∃ y, y ∈ els ∧ elemId y = v) ∧ hasEdge els k v)
  ∧ connectedEdges md = incomingEdges md ++ outgoingEdges md
  ∧ connectedNodes md = incomingNodes md ++ outgoingNodes md.

(** The map has a record for the ids of the nodes and for nothing else,
    and every record lists the adjacency of its id. *)
Definition describes (els : list Element) (nd : gmap string NodeMeta)
    : Prop :=
  (∀ k, is_Some (nd !! k) ↔ ∃ n, ENode n ∈ els ∧ nid n = k)
  ∧ ∀ k md, nd !! k = Some md → adjacencyOf els k md.

(** A path of [n] steps from a root to [k], each step from a node to one
    of its outgoing nodes. *)
Definition pathFromRoot (els : list Element) (k : string) (n : nat) : Prop :=
  ∃ r, isRoot els r ∧ nsteps (outEdge els) n r k.

(** Every positive depth of the map is the length of a path from a root. *)
Definition realised (els : list Element) (nd : gmap string NodeMeta) : Prop :=
  ∀ k, 0 < depthOf nd k → pathFromRoot els k (depthOf nd k).

(** From [w] a cycle can be reached. *)
Definition reachesCycle (els : list Element) (w : string) : Prop :=
  ∃ u, rtc (outEdge els) w u ∧ tc (outEdge els) u u.

(** The order of the sort keys, on the pairs the sort moves. *)
Definition keyOrder (a b : option nat * Element) : Prop :=
  keyLe a.1 b.1 = true.

(** The order [sortElementsByDepth] establishes between an element and a
    later one. *)
Definition inDepthOrder (nd : gmap string NodeMeta) (x y : Element) : Prop :=
  match x, y with
  | ENode n, ENode m => depthOf nd (nid n) ≤ depthOf nd (nid m)
  | ENode _, EEdge _ => True
  | EEdge _, ENode _ => False
  | EEdge _, EEdge _ => True
  end.

(** The element has the sort key [key]. *)
Definition hasKey (nd : gmap string NodeMeta) (key : option nat)
    (x : Element) : bool :=
  match sortKey nd x with
  | Ok k => bool_decide (k = key)
  | Err _ => false
  end.

End GraphProps.

(** ** More concrete inputs *)

Module MoreExamples.
Import Flow Meta Status Examples.

(** A root that leads into a cycle of two courses. *)
Definition loopArray : list Element :=
  [courseNode "A 100"; courseNode "B 100"; courseNode "C 100";
   edgeWith "A 100" "B 100" "over-one-away" None;
   edgeWith "B 100" "C 100" "over-one-away" None;
   edgeWith "C 100" "B 100" "over-one-away" None].

(** An edge ahead of its two nodes, the deeper node first. *)
Definition unsortedArray : list Element :=
  [edgeWith "CSE 142" "CSE 143" "ready" None;
   courseNode "CSE 143"; courseNode "CSE 142"].

End MoreExamples.

(** ** The caller of the recompute functions *)

Module App.
Import Flow Meta Status.

(** [recalculateElements] of [App.jsx], up to the array it hands to
    [setElements]: metadata, sort, index map, status pass. [fuel] bounds
    the recursion of [newNodeData]. (The copies of the four functions
    that [App.jsx] holds are the ones of the module, with the course rule
    of [updateNodeStatus] for every node.) *)
Definition recalculateElements (fuel : nat) (newElements : list Element)
    : result (list Element) :=
  nodeData ← newNodeData fuel newElements;
  recalculatedElems ← sortElementsByDepth newElements nodeData;
  let elemIndexes := newElemIndexes recalculatedElems in
  updateAllNodes recalculatedElems nodeData elemIndexes.

End App.

(** ** Predicates on the status pass *)

Module StatusProps.
Import Flow Meta Status Props GraphProps.

(** The array, the metadata and the index map belong together: the
    metadata describes the array, the ids of the array are pairwise
    distinct, and the index map is the one of the array. *)
Definition consistent (els : list Element) (nd : gmap string NodeMeta)
    (idx : gmap string nat) : Prop :=
  describes els nd ∧ NoDup (map elemId els) ∧ idx = newElemIndexes els.

(** What a call of [updateNodeStatus] for [id] with new status [s] does
    to one element. *)
Definition updateElem (id : string) (s : option string) (x : Element)
    : Element :=
  match x with
  | ENode m => if bool_decide (nid m = id) then ENode (withNodeStatus m s)
               else x
  | EEdge e => if bool_decide (source e = id) then withClassName x s else x
  end.

(** Every edge that leaves a node carries the status of the node. *)
Definition mirrored (els : list Element) : Prop :=
  ∀ n e, ENode n ∈ els → EEdge e ∈ els → source e = nid n →
         className e = nodeStatus (data n).

(** Every node has the status that [updateNodeStatus] computes for it. *)
Definition atRest (els : list Element) (nd : gmap string NodeMeta)
    (idx : gmap string nat) : Prop :=
  ∀ n md, ENode n ∈ els → nd !! nid n = Some md →
    newStatusOf (type n) (nodeStatus (data n))
      (map (elementAt els idx) (incomingEdges md))
    = Ok (nodeStatus (data n)).

Definition validStatus (s : option string) : Prop :=
  ∃ str, s = Some str ∧ str ∈ COURSE_STATUSES.

Definition knownType (ty : string) : Prop :=
  ty = "course" ∨ ty = "and" ∨ ty = "or".

(** A node of one of the three types with one of the six statuses; an
    edge with one of the six statuses for its class name. *)
Definition validElem (x : Element) : Prop :=
  match x with
  | ENode n => knownType (type n) ∧ validStatus (nodeStatus (data n))
  | EEdge e => validStatus (className e)
  end.

End StatusProps.

(** ** Removing elements: the layout helper and the curriculum dialog *)

Module Layout.
Import Regex Flow Meta.

(** React Flow's [removeElements(elementsToRemove, elements)]
    (react-flow-renderer 9): with [nodeIdsToRemove] the ids of the
    elements to remove, it drops every element whose [id], [target] or
    [source] is among them. A node has no [target] and no [source]. *)
Definition dropped (nodeIdsToRemove : list string) (element : Element) : bool :=
  bool_decide (elemId element ∈ nodeIdsToRemove)
  || match element with
     | EEdge e => bool_decide (target e ∈ nodeIdsToRemove)
                  || bool_decide (source e ∈ nodeIdsToRemove)
     | ENode _ => false
     end.

Definition removeElements (elementsToRemove elements : list Element)
    : list Element :=
  let nodeIdsToRemove := map elemId elementsToRemove in
  filter (λ element, dropped nodeIdsToRemove element = false) elements.

(** The body of the two inner loops of [filterUnconditionalElements]:
    the test looks the arrow id up in the node metadata. *)
Definition bridge (tempNodeData : gmap string NodeMeta) (iNode : string)
    (tempElements : list Element) (oNode : string) : list Element :=
  let edgeId := edgeArrowId iNode oNode in
  if bool_decide (is_Some (tempNodeData !! edgeId)) then tempElements
  else tempElements ++ [EEdge (newEdge iNode oNode None)].

(** One turn of the outer loop, on the pair of [tempElements] and
    [tempNodeData]. *)
Definition filterStep (fuel : nat)
    (acc : list Element * gmap string NodeMeta) (elem : Element)
    : result (list Element * gmap string NodeMeta) :=
  match acc.2 !! elemId elem with
  | None => Err TypeError
  | Some node =>
      let tempElements :=
        fold_left
          (λ els iNode, fold_left (bridge acc.2 iNode) (outgoingNodes node) els)
          (incomingNodes node) acc.1 in
      let tempElements := removeElements [elem] tempElements in
      tempNodeData ← newNodeData fuel tempElements;
      Ok (tempElements, tempNodeData)
  end.

Definition filterUnconditionalElements (fuel : nat)
    (condNodes elems : list Element) (nData : gmap string NodeMeta)
    : result (list Element) :=
  acc ← forEach (filterStep fuel) condNodes (elems, nData);
  Ok acc.1.

End Layout.

Module Dialog.
Import Regex Flow Meta Layout.

(** [newCurriculumFlow] of the new-flow dialog, from the course records
    it has fetched to the array it hands to [generateNewFlow]: nodes of
    other curricula that no edge touches are removed. *)
Definition externalOrphans (curriculum : string)
    (newElements : list Element) : list Element :=
  let edges := edgesOf newElements in
  filter (λ elem,
            (isNode elem
             && negb (String.prefix curriculum (elemId elem))
             && (length (getConnectedEdges [elem] edges) =? 0)) = true)
    newElements.

Definition curriculumElements (nanoid : nat → string) (curriculum : string)
    (data : list CourseData) (ambiguousHandling : string) : list Element :=
  let newElements := generateInitialElements nanoid data ambiguousHandling in
  removeElements (externalOrphans curriculum newElements) newElements.

End Dialog.

Module LayoutProps.
Import Flow Meta Layout.

(** No node has the id of [g], and no edge starts or ends at it. *)
Definition clearOf (g : string) (x : Element) : Prop :=
  match x with
  | ENode n => nid n ≠ g
  | EEdge e => source e ≠ g ∧ target e ≠ g
  end.

Definition notGt (c : ascii) : Prop := c ≠ ">"%char.

(** The element is an edge that starts or ends at [k]. *)
Definition touches (k : string) (x : Element) : bool :=
  match x with
  | EEdge e => bool_decide (source e = k) || bool_decide (target e = k)
  | ENode _ => false
  end.

End LayoutProps.

(** ** The click handler *)

Module Handlers.
Import Flow Meta Status.

(** [new Set(list)]: the values in the order of their first occurrence. *)
Fixpoint setOf (seen l : list string) : list string :=
  match l with
  | [] => []
  | x :: rest =>
      if bool_decide (x ∈ seen) then setOf seen rest
      else x :: setOf (x :: seen) rest
  end.

(** The [switch] of [onElementClick]: [None] is the [default: return]. *)
Definition nextStatus (s : option string) : option string :=
  match s with
  | Some str =>
      if String.eqb str "ready" then Some "enrolled"
      else if String.eqb str "enrolled" then Some "completed"
      else None
  | None => None
  end.

(** The [updateNodeStatus] that [App.jsx] holds and its handlers call:
    the course rule of the module's function, for a node of any type. *)
Definition updateNodeStatus (nodeId : string) (elements : list Element)
    (nodeData : gmap string NodeMeta) (elemIndexes : gmap string nat)
    : result (list Element) :=
  match elementAt elements elemIndexes nodeId with
  | Some (ENode targetNode) =>
      let currentStatus := nodeStatus (data targetNode) in
      match nodeData !! nodeId with
      | None => Err TypeError
      | Some md =>
          let incomingEdges :=
            map (elementAt elements elemIndexes) (incomingEdges md) in
          newStatus ← newStatusOf "course" currentStatus incomingEdges;
          setNodeStatus nodeId newStatus elements nodeData elemIndexes
      end
  | _ => Err TypeError
  end.

(** [onElementClick] of [App.jsx], up to the array it hands to
    [setElements]; [Ok None] when the handler returns without calling it.
    [altKey] is [event.altKey]. (What [recordFlowState] pushes on the
    undo stack is not part of the result. The node objects are shared
    with the array of the current state, as in [updateAllNodes].) *)
Definition onElementClick (altKey : bool) (targetElem : Element)
    (elements : list Element) (nodeData : gmap string NodeMeta)
    (elemIndexes : gmap string nat) : result (option (list Element)) :=
  if altKey && isNode targetElem then
    let nodeId := elemId targetElem in
    match elementAt elements elemIndexes nodeId with
    | Some (ENode n) =>
        match nextStatus (nodeStatus (data n)) with
        | None => Ok None
        | Some newStatus =>
            newElements ← setNodeStatus nodeId (Some newStatus) elements
                            nodeData elemIndexes;
            match nodeData !! nodeId with
            | None => Err TypeError
            | Some md =>
                let firstDiff := outgoingNodes md in
                newElements ←
                  forEach (λ els id,
                             updateNodeStatus id els nodeData elemIndexes)
                    firstDiff newElements;
                outs ← mapR (λ id, match nodeData !! id with
                                   | Some m => Ok (outgoingNodes m)
                                   | None => Err TypeError
                                   end) firstDiff;
                let secondDiff := setOf [] (concat outs) in
                newElements ←
                  forEach (λ els id,
                             updateNodeStatus id els nodeData elemIndexes)
                    secondDiff newElements;
                Ok (Some newElements)
            end
        end
    | _ => Err TypeError
    end
  else Ok None.

(** [updateAllNodes] as [App.jsx] holds it: the loop of the module's
    function over the [updateNodeStatus] above. *)
Fixpoint updateLoop (todo i : nat) (elements updatedElements : list Element)
    (nodeData : gmap string NodeMeta) (elemIndexes : gmap string nat)
    : result (list Element) :=
  match todo with
  | 0 => Ok updatedElements
  | S todo' =>
      match elements !! i with
      | None => Err TypeError
      | Some x =>
          updated ← updateNodeStatus (elemId x) updatedElements
                      nodeData elemIndexes ;
          updateLoop todo' (S i) elements updated nodeData elemIndexes
      end
  end.

Definition updateAllNodes (elements : list Element)
    (nodeData : gmap string NodeMeta) (elemIndexes : gmap string nat)
    : result (list Element) :=
  let updatedElements := elements in
  let numNodes := size nodeData in
  updateLoop numNodes 0 elements updatedElements nodeData elemIndexes.

(** [recalculateElements] over the functions that [App.jsx] holds
    ([newNodeData], [sortElementsByDepth] and [newElemIndexes] are, word
    for word, those of the module). *)
Definition recalculateElements (fuel : nat) (newElements : list Element)
    : result (list Element) :=
  nodeData ← newNodeData fuel newElements;
  recalculatedElems ← sortElementsByDepth newElements nodeData;
  let elemIndexes := newElemIndexes recalculatedElems in
  updateAllNodes recalculatedElems nodeData elemIndexes.

(** [onElementsRemove], up to the array it hands to [setElements]. *)
Definition onElementsRemove (fuel : nat) (targetElems elements : list Element)
    : result (list Element) :=
  recalculateElements fuel (Layout.removeElements targetElems elements).

(** What [onConnect] does to an element before it adds the edge: a node
    is no longer marked as connected. (On an edge it resets [animated]
    and [style], which the model does not carry.) *)
Definition unhover (elem : Element) : Element :=
  match elem with
  | ENode n =>
      ENode {| nid := nid n; type := type n; position := position n;
               data := {| course := course (data n);
                          nodeStatus := nodeStatus (data n);
                          nodeConnected := false |};
               nclassName := nclassName n |}
  | EEdge _ => elem
  end.

(** The array [onConnect] recalculates: the elements, and the new edge.
    Its class name is [data.status] of the source, a property no node
    has. *)
Definition connected (source target : string) (elements : list Element)
    : list Element :=
  map unhover elements
  ++ [EEdge {| eid := edgeArrowId source target;
               source := source; target := target;
               className := None; label := None;
               labelBgPadding := None; labelBgBorderRadius := None |}].

(** [onConnect], up to the array it hands to [setElements]; [Ok None]
    when the guard refuses the edge. *)
Definition onConnect (fuel : nat) (source target : string)
    (elements : list Element) (elemIndexes : gmap string nat)
    : result (option (list Element)) :=
  let newEdgeId := edgeArrowId source target in
  let reverseEdgeId := edgeArrowId target source in
  if negb (bool_decide (is_Some (elemIndexes !! newEdgeId)))
     && negb (bool_decide (is_Some (elemIndexes !! reverseEdgeId)))
  then
    match elementAt elements elemIndexes source with
    | Some (ENode _) =>
        newElements ← recalculateElements fuel
                        (connected source target elements);
        Ok (Some newElements)
    | _ => Err TypeError
    end
  else Ok None.

End Handlers.

(** ** Statuses as a function of the node id *)

Module ClickProps.
Import Flow Meta Status Props GraphProps StatusProps.

(** The code of a status (0 for what has none). *)
Definition cod (s : option string) : nat :=
  match COURSE_STATUS_CODES s with Fin n => n | _ => 0 end.

(** The code an edge contributes whose source has status [s] and whose
    label is [l]: [getEdgeStatus] on the class name [s]. *)
Definition effl (s l : option string) : nat :=
  match cod s, l with
  | 1, Some l => if String.eqb l "CC" then 0 else 1
  | c, _ => c
  end.

Definition incomingOf (els : list Element) (k : string) : list FlowEdge :=
  filter (λ e, target e = k) (edgesOf els).

(** The greatest code the incoming edges of [k] contribute when the
    statuses of the nodes are [sigma] and every edge carries the status
    of its source. *)
Definition needOf (els : list Element) (sigma : string → option string)
    (k : string) : nat :=
  foldr Nat.max 0
    (map (λ e, effl (sigma (source e)) (label e)) (incomingOf els k)).

(** The [switch] of the course rule on the greatest code. *)
Definition courseRule (m : nat) (cur : option string) : option string :=
  match m with
  | 0 => if isStatus "completed" cur || isStatus "enrolled" cur
         then cur else Some "ready"
  | 1 => Some "under-one-away"
  | 2 => Some "one-away"
  | _ => Some "over-one-away"
  end.

Definition setAt (y : string) (b : option string)
    (sigma : string → option string) : string → option string :=
  λ k, if bool_decide (k = y) then b else sigma k.

(** One call of [updateNodeStatus] for the course [y], on the statuses. *)
Definition stepAt (els : list Element) (y : string)
    (sigma : string → option string) : string → option string :=
  setAt y (courseRule (needOf els sigma y) (sigma y)) sigma.

(** The calls for the ids of a list, one after the other. *)
Definition runAt (els : list Element) (ids : list string)
    (sigma : string → option string) : string → option string :=
  fold_left (λ sg y, stepAt els y sg) ids sigma.

Definition restAt (els : list Element) (sigma : string → option string)
    (k : string) : Prop :=
  courseRule (needOf els sigma k) (sigma k) = sigma k.

Definition isNodeId (els : list Element) (k : string) : Prop :=
  ∃ n, ENode n ∈ els ∧ nid n = k.

Definition endsAreNodes (els : list Element) : Prop :=
  ∀ e, EEdge e ∈ els → isNodeId els (source e) ∧ isNodeId els (target e).

Definition allCourses (els : list Element) : Prop :=
  ∀ n, ENode n ∈ els → type n = "course".

Definition validOn (els : list Element) (sigma : string → option string)
    : Prop :=
  ∀ k, isNodeId els k → validStatus (sigma k).

(** The status the array has for an id. *)
Definition stat (upd : list Element) (idx : gmap string nat) (k : string)
    : option string :=
  match elementAt upd idx k with Some x => elemStatus x | None => None end.

(** Every edge carries the status of its source. *)
Definition carries (upd : list Element) (idx : gmap string nat) : Prop :=
  ∀ e, EEdge e ∈ upd → className e = stat upd idx (source e).

Definition validNodes (els : list Element) : Prop :=
  ∀ m, ENode m ∈ els → validStatus (nodeStatus (data m)).

(** The array [upd] is the array [els] up to statuses, and its statuses
    are those of [sigma]. *)
Definition tracks (els : list Element) (nd : gmap string NodeMeta)
    (idx : gmap string nat) (upd : list Element)
    (sigma : string → option string) : Prop :=
  consistent upd nd idx
  ∧ sameShape els upd
  ∧ (∀ sg k, needOf upd sg k = needOf els sg k)
  ∧ (∀ k, isNodeId upd k ↔ isNodeId els k)
  ∧ (∀ k, stat upd idx k = sigma k)
  ∧ carries upd idx.

(** What holds of the statuses [sigma] during the calls that follow a
    click on [v], which took them from [sigma0] by giving [v] the status
    [s0]: codes have not grown; a status that has changed has code 2 at
    least, and code 4 at least away from the outgoing nodes of [v]; and
    recomputing a node would not raise its code. *)
Definition clickInv (els : list Element) (v : string) (s0 : option string)
    (sigma0 sigma : string → option string) : Prop :=
  validOn els sigma
  ∧ sigma v = s0
  ∧ (∀ k, cod (sigma k) ≤ cod (sigma0 k))
  ∧ (∀ k, k ≠ v → sigma k ≠ sigma0 k → 2 ≤ cod (sigma k))
  ∧ (∀ k, k ≠ v → sigma k ≠ sigma0 k →
          hasEdge els v k ∨ 4 ≤ cod (sigma k))
  ∧ (∀ k, isNodeId els k →
          cod (courseRule (needOf els sigma k) (sigma k)) ≤ cod (sigma k)).

(** [k] is at rest as long as its parents other than [v] have the status
    they had. *)
Definition restIfParentsOld (els : list Element) (v : string)
    (sigma0 sigma : string → option string) (k : string) : Prop :=
  (∀ e, EEdge e ∈ els → target e = k → source e ≠ v →
        sigma (source e) = sigma0 (source e)) →
  restAt els sigma k.

End ClickProps.

Module ClickExamples.
Import Flow Meta Status Examples.

(** A chain of three courses, settled, the first one ready. *)
Definition chainArray : list Element :=
  [courseNodeWith "CSE 142" "ready";
   courseNodeWith "CSE 143" "one-away";
   courseNodeWith "CSE 311" "over-one-away";
   edgeWith "CSE 142" "CSE 143" "ready" None;
   edgeWith "CSE 143" "CSE 311" "one-away" None].

(** A chain of four courses. *)
Definition longChain : list Element :=
  [courseNode "CSE 142"; courseNode "CSE 143"; courseNode "CSE 311";
   courseNode "CSE 332";
   edgeWith "CSE 142" "CSE 143" "ready" None;
   edgeWith "CSE 143" "CSE 311" "one-away" None;
   edgeWith "CSE 311" "CSE 332" "over-one-away" None].

Definition chainRank (s : string) : nat :=
  if String.eqb s "CSE 143" then 1
  else if String.eqb s "CSE 311" then 2 else 0.

End ClickExamples.

(** ** Opening a saved flow *)

Module OpenFile.
Import Flow Meta.

(** [betaToBeta1] of the open-file dialog: every node is rebuilt with its
    [id], the type "course", its [position] and its [data] (so without a
    class name); an edge is kept as it is. *)
Definition betaToBeta1 (elems : list Element) : list Element :=
  map (λ elem,
         match elem with
         | ENode n =>
             ENode {| nid := nid n; type := "course";
                      position := position n; data := data n;
                      nclassName := None |}
         | EEdge _ => elem
         end) elems.

End OpenFile.

Module ShapeProps.
Import Flow Meta.

(** Two elements of one kind with one id and, for edges, the same two
    ends; two arrays that agree in this, position by position. *)
Definition sameEnds (x y : Element) : Prop :=
  elemId x = elemId y
  ∧ match x, y with
    | ENode _, ENode _ => True
    | EEdge e, EEdge e' => source e = source e' ∧ target e = target e'
    | _, _ => False
    end.

Definition sameGraph (a b : list Element) : Prop := Forall2 sameEnds a b.

End ShapeProps.

(** * Properties *)

(** ** The patterns on sample clauses *)

Section RegexExamples.
Import Regex.

Example crs_all :
  matchAll COURSE_REGEX "Either E E 215 or MATH 3091; XCSE 142, A&B 12"
  = ["E E 215"; "MATH 309"; "XCSE 142"].
Proof. vm_compute. reflexivity. Qed.

Example double_ex :
  match_ DOUBLE_EITHER_REGEX "Either MATH 124 or MATH 134"
  = Some ["Either MATH 124 or MATH 134"; "MATH 124"; "MATH 134"].
Proof. vm_compute. reflexivity. Qed.

Example double_in_triple :
  match_ DOUBLE_EITHER_REGEX "CSE 311, CSE 321, or CSE 331" = None
  ∧ match_ DOUBLE_EITHER_REGEX "CSE 311, CSE 321 or CSE 331"
    = Some ["CSE 321 or CSE 331"; "CSE 321"; "CSE 331"].
Proof. vm_compute. split; reflexivity. Qed.

Example triple_ex :
  match_ TRIPLE_EITHER_REGEX "either CSE 311, CSE 321, or CSE 331."
  = Some ["either CSE 311, CSE 321, or CSE 331";
          "CSE 311"; "CSE 321"; "CSE 331"].
Proof. vm_compute. reflexivity. Qed.

Example concurrent_ex :
  test CONCURRENT_REGEX "MATH 124, which may be taken concurrently." = true
  ∧ test CONCURRENT_REGEX "which may be taken concurrently. Instructor ok" = true
  ∧ test CONCURRENT_REGEX "which may be taken concurrently with X" = false.
Proof. vm_compute. repeat split; reflexivity. Qed.

Example split_ex :
  splitOn ";" "CSE 142; CSE 143;" = ["CSE 142"; " CSE 143"; EmptyString].
Proof. vm_compute. reflexivity. Qed.

Example testG_ex :
  testG COURSE_REGEX 0 "see CSE 142" = (true, 11)
  ∧ testG COURSE_REGEX 11 "CSE 142; CSE 143" = (true, 16)
  ∧ testG COURSE_REGEX 7 "CSE 142" = (false, 0).
Proof. vm_compute. repeat split; reflexivity. Qed.
End RegexExamples.

(** ** Strings and the matcher *)

Section StringFacts.
Import Regex Props.

Lemma app_cons_str (c : ascii) (s t : string) :
  String c s +:+ t = String c (s +:+ t).
Proof. reflexivity. Qed.

Lemma app_nil_str (t : string) : EmptyString +:+ t = t.
Proof. reflexivity. Qed.

Lemma length_app_str (s t : string) :
  String.length (s +:+ t) = String.length s + String.length t.
Proof.
  induction s as [|c s IH]; [done|].
  rewrite app_cons_str. simpl. by rewrite IH.
Qed.

Lemma app_assoc_str (s t u : string) : (s +:+ t) +:+ u = s +:+ t +:+ u.
Proof.
  induction s as [|c s IH]; [done|]. rewrite !app_cons_str. by rewrite IH.
Qed.

Lemma app_empty_r_str (s : string) : s +:+ EmptyString = s.
Proof.
  induction s as [|c s IH]; [done|]. rewrite app_cons_str. by rewrite IH.
Qed.

Lemma substring_prefix (s t : string) :
  String.substring 0 (String.length s) (s +:+ t) = s.
Proof.
  induction s as [|c s IH].
  - rewrite app_nil_str. by destruct t.
  - rewrite app_cons_str. simpl. by rewrite IH.
Qed.

Lemma consumed_app (s t : string) : consumed (s +:+ t) t = s.
Proof.
  unfold consumed. rewrite length_app_str.
  replace (String.length s + String.length t - String.length t)
    with (String.length s) by lia.
  apply substring_prefix.
Qed.

Lemma StrForall_app P (s t : string) :
  StrForall P (s +:+ t) ↔ StrForall P s ∧ StrForall P t.
Proof.
  induction s as [|c s IH].
  - rewrite app_nil_str. simpl. tauto.
  - rewrite app_cons_str. simpl. rewrite IH. tauto.
Qed.

Lemma StrForall_impl (P Q : ascii → Prop) (s : string) :
  (∀ c, P c → Q c) → StrForall P s → StrForall Q s.
Proof. intros HPQ. induction s; simpl; [done | intros [? ?]; auto]. Qed.

Lemma orElse_Some {R} (a b : option R) (x : R) :
  orElse a b = Some x → a = Some x ∨ (a = None ∧ b = Some x).
Proof. destruct a; simpl; intros; simplify_eq; auto. Qed.

(** What a successful run of the matcher consumed, and what it captured,
    consists of characters the classes of the pattern accept. *)
Lemma rmatch_prefix {R} (P : ascii → Prop) (r : regex) :
  classesIn P r →
  ∀ (s : string) (caps : list string) (k : cont (R:=R)) (res : R),
    rmatch r s caps k = Some res →
    ∃ s1 s2 cs,
      s = s1 +:+ s2 ∧ StrForall P s1 ∧ Forall (StrForall P) cs
      ∧ k s2 (caps ++ cs) = Some res.
Proof.
  induction r as [| |p|r1 IH1 r2 IH2|r1 IH1 r2 IH2|r1 IH1|r1 IH1|r1 IH1];
    intros Hcl s caps k res Hm; cbn [rmatch classesIn] in Hm, Hcl.
  - exists EmptyString, s, []. by rewrite app_nil_r.
  - destruct s; [|done]. exists EmptyString, EmptyString, [].
    by rewrite app_nil_r.
  - destruct s as [|c t]; [done|]. destruct (p c) eqn:Hp; [|done].
    exists (String c EmptyString), t, []. rewrite app_nil_r. simpl. auto.
  - destruct Hcl as [Hc1 Hc2].
    destruct (IH1 Hc1 _ _ _ _ Hm) as (s1 & s' & cs1 & -> & HP1 & HF1 & Hk1).
    destruct (IH2 Hc2 _ _ _ _ Hk1) as (s2 & s'' & cs2 & -> & HP2 & HF2 & Hk2).
    exists (s1 +:+ s2), s'', (cs1 ++ cs2).
    rewrite app_assoc_str, StrForall_app, Forall_app, app_assoc. auto.
  - destruct Hcl as [Hc1 Hc2].
    destruct (orElse_Some _ _ _ Hm) as [H|[_ H]]; eauto.
  - destruct (orElse_Some _ _ _ Hm) as [H|[_ H]]; [eauto|].
    exists EmptyString, s, []. by rewrite app_nil_r.
  - revert Hm. generalize (S (String.length s)). intros fuel.
    revert s caps. induction fuel as [|fuel IHf]; intros s caps Hm; [done|].
    simpl in Hm.
    destruct (IH1 Hcl _ _ _ _ Hm) as (s1 & s' & cs1 & -> & HP1 & HF1 & Hk1).
    destruct (orElse_Some _ _ _ Hk1) as [H|[_ H]].
    + destruct (_ <? _); [|done].
      destruct (IHf _ _ H) as (s2 & s'' & cs2 & -> & HP2 & HF2 & Hk2).
      exists (s1 +:+ s2), s'', (cs1 ++ cs2).
      rewrite app_assoc_str, StrForall_app, Forall_app, app_assoc. auto.
    + exists s1, s', cs1. auto.
  - destruct (IH1 Hcl _ _ _ _ Hm) as (s1 & s' & cs1 & -> & HP1 & HF1 & Hk1).
    rewrite consumed_app in Hk1.
    exists s1, s', (cs1 ++ [s1]). rewrite Forall_app, Forall_singleton.
    rewrite app_assoc. auto.
Qed.

Lemma matchAt_prefix (P : ascii → Prop) (r : regex) (s : string) ms rest :
  classesIn P r → matchAt r s = Some (ms, rest) →
  ∃ full cs, ms = full :: cs ∧ s = full +:+ rest
             ∧ StrForall P full ∧ Forall (StrForall P) cs.
Proof.
  intros Hcl Hm. unfold matchAt in Hm.
  destruct (rmatch_prefix P r Hcl _ _ _ _ Hm)
    as (s1 & s2 & cs & -> & HP & HF & Hk).
  simpl in Hk. rewrite consumed_app in Hk. simplify_eq. eauto 10.
Qed.

Lemma exec_captures (P : ascii → Prop) (r : regex) (s : string) ms rest :
  classesIn P r → exec r s = Some (ms, rest) → Forall (StrForall P) ms.
Proof.
  intros Hcl. induction s as [|c s IH]; simpl.
  - destruct (matchAt r EmptyString) as [[ms' rest']|] eqn:Hm; [|done].
    intros ?; simplify_eq.
    destruct (matchAt_prefix P _ _ _ _ Hcl Hm) as (?&?&->&_&?&?).
    by constructor.
  - destruct (matchAt r (String c s)) as [[ms' rest']|] eqn:Hm; [|done].
    intros ?; simplify_eq.
    destruct (matchAt_prefix P _ _ _ _ Hcl Hm) as (?&?&->&_&?&?).
    by constructor.
Qed.

Lemma matchAllFrom_tokens (P : ascii → Prop) (r : regex) (s : string) n :
  classesIn P r → Forall (StrForall P) (matchAllFrom r n s).
Proof.
  intros Hcl. revert n. induction s as [|c s IH]; intros n; simpl.
  - destruct n; [|done].
    destruct (matchAt r EmptyString) as [[[|full ?] ?]|] eqn:Hm; try done.
    destruct (matchAt_prefix P _ _ _ _ Hcl Hm) as (?&?&?&_&?&?).
    simplify_eq. by repeat constructor.
  - destruct n; [|done].
    destruct (matchAt r (String c s)) as [[[|full ?] ?]|] eqn:Hm; try done.
    destruct (matchAt_prefix P _ _ _ _ Hcl Hm) as (?&?&?&_&?&?).
    simplify_eq. by constructor.
Qed.
End StringFacts.

(** ** The arrow id *)

Section ArrowId.
Import Regex Flow Props.

Lemma rejects_classesIn (c0 : ascii) (r : regex) :
  rejects c0 r = true → classesIn (λ c, c ≠ c0) r.
Proof.
  induction r; simpl; try done.
  - intros Hn c Hp ->. by rewrite Hp in Hn.
  - intros [? ?]%andb_prop. auto.
  - intros [? ?]%andb_prop. auto.
Qed.

Lemma CRS_notDash : classesIn notDash CRS.
Proof. by apply rejects_classesIn. Qed.

Lemma DOUBLE_notDash : classesIn notDash DOUBLE_EITHER_REGEX.
Proof. by apply rejects_classesIn. Qed.

Lemma TRIPLE_notDash : classesIn notDash TRIPLE_EITHER_REGEX.
Proof. by apply rejects_classesIn. Qed.

Lemma isCourseId_notDash (s : string) :
  isCourseId s = true → StrForall notDash s.
Proof.
  unfold isCourseId. intros [[ms rest] Hm]%bool_decide_eq_true.
  unfold matchAt in Hm. cbn [rmatch] in Hm.
  destruct (rmatch_prefix notDash CRS CRS_notDash _ _ _ _ Hm)
    as (s1 & s2 & cs & -> & HP & _ & Hk).
  destruct s2; [|done]. by rewrite app_empty_r_str.
Qed.

(** The separator is found where the first dash is, so a source without
    a dash fixes the split. *)
Lemma edgeArrowId_inj (a b c d : string) :
  StrForall notDash a → StrForall notDash c →
  edgeArrowId a b = edgeArrowId c d → a = c ∧ b = d.
Proof.
  unfold edgeArrowId. revert c.
  induction a as [|x a IH]; intros [|y c] Ha Hc Heq.
  - rewrite !app_nil_str in Heq. split; [done|].
    by injection Heq.
  - exfalso. rewrite app_nil_str, app_cons_str in Heq.
    injection Heq as -> Heq. destruct c as [|z c].
    + rewrite app_nil_str in Heq. discriminate.
    + rewrite app_cons_str in Heq. injection Heq as <- _.
      simpl in Hc. by destruct Hc as (_ & ? & _).
  - exfalso. rewrite app_nil_str, app_cons_str in Heq.
    injection Heq as <- Heq. destruct a as [|z a].
    + rewrite app_nil_str in Heq. discriminate.
    + rewrite app_cons_str in Heq. injection Heq as -> _.
      simpl in Ha. by destruct Ha as (_ & ? & _).
  - rewrite !app_cons_str in Heq. injection Heq as -> Heq.
    simpl in Ha, Hc. destruct Ha as [_ Ha], Hc as [_ Hc].
    destruct (IH c Ha Hc Heq) as [-> ->]. done.
Qed.

(** C7. On course ids that match the course-id pattern, [edgeArrowId] is
    a function of its two arguments (equal pairs give equal ids) and is
    injective in the ordered pair: equal ids come from equal sources and
    equal targets. *)
Theorem edgeArrowId_deterministic_injective (a b c d : string) :
  isCourseId a = true → isCourseId b = true →
  isCourseId c = true → isCourseId d = true →
  (a = c → b = d → edgeArrowId a b = edgeArrowId c d)
  ∧ (edgeArrowId a b = edgeArrowId c d → a = c ∧ b = d).
Proof.
  intros Ha _ Hc _. split.
  - by intros -> ->.
  - apply edgeArrowId_inj; by apply isCourseId_notDash.
Qed.

Lemma edgeArrowId_deterministic_injective_witness :
  (edgeArrowId "CSE 142" "CSE 143" = edgeArrowId "CSE 142" "CSE 143"
   → "CSE 142" = "CSE 142" ∧ "CSE 143" = "CSE 143")
  ∧ edgeArrowId "E E 215" "MATH 309" = "E E 215 -> MATH 309".
Proof.
  split; [|reflexivity].
  apply (edgeArrowId_deterministic_injective
           "CSE 142" "CSE 143" "CSE 142" "CSE 143");
    vm_compute; reflexivity.
Defined.
End ArrowId.

(** ** Status propagation *)

Section StatusFacts.
Import Flow Meta Status Props.

Lemma newElemIndexes_snoc (els : list Element) (x : Element) :
  newElemIndexes (els ++ [x])
  = <[elemId x := length els]> (newElemIndexes els).
Proof.
  unfold newElemIndexes. rewrite imap_app, fold_left_app. simpl.
  by rewrite Nat.add_0_r.
Qed.

Lemma newElemIndexes_lookup (els : list Element) (id : string) (k : nat) :
  newElemIndexes els !! id = Some k →
  ∃ x, els !! k = Some x ∧ elemId x = id.
Proof.
  induction els as [|x els IH] using rev_ind; [done|].
  rewrite newElemIndexes_snoc. intros H.
  destruct (decide (elemId x = id)) as [<-|Hne].
  - rewrite lookup_insert_eq in H. simplify_eq. exists x.
    by rewrite lookup_app_r, Nat.sub_diag.
  - rewrite lookup_insert_ne in H by done.
    destruct (IH H) as (y & Hy & <-). exists y.
    by rewrite lookup_app_l by (by eapply lookup_lt_Some).
Qed.

Lemma newElemIndexes_is_Some (els : list Element) (x : Element) :
  x ∈ els → ∃ k, newElemIndexes els !! elemId x = Some k ∧ k < length els.
Proof.
  intros Hx.
  assert (is_Some (newElemIndexes els !! elemId x)) as [k Hk].
  { induction els as [|y els IH] using rev_ind; [by inversion Hx|].
    rewrite newElemIndexes_snoc.
    destruct (decide (elemId y = elemId x)) as [->|Hne].
    - rewrite lookup_insert_eq. eauto.
    - rewrite lookup_insert_ne by done. apply IH.
      apply elem_of_app in Hx as [?|Hx]; [done|].
      apply list_elem_of_singleton in Hx. by subst. }
  exists k. split; [done|].
  destruct (newElemIndexes_lookup _ _ _ Hk) as (y & Hy & _).
  by eapply lookup_lt_Some.
Qed.

Lemma newElemIndexes_NoDup (els : list Element) (k : nat) (x : Element) :
  NoDup (map elemId els) → els !! k = Some x →
  newElemIndexes els !! elemId x = Some k.
Proof.
  intros Hnd Hk.
  destruct (newElemIndexes_is_Some els x) as (j & Hj & _).
  { by eapply list_elem_of_lookup_2. }
  destruct (newElemIndexes_lookup _ _ _ Hj) as (y & Hy & Hid).
  assert (j = k); [|by subst].
  eapply NoDup_lookup; [exact Hnd| |].
  - by rewrite list_lookup_fmap, Hy; simpl; rewrite Hid.
  - by rewrite list_lookup_fmap, Hk.
Qed.

Lemma withClassName_idemp (x : Element) (s : option string) :
  withClassName (withClassName x s) s = withClassName x s.
Proof. by destruct x. Qed.

Lemma touched_cons idx id ids k :
  touched idx (id :: ids) k
  = bool_decide (idx !! id = Some k) || touched idx ids k.
Proof.
  unfold touched. apply eq_true_iff_eq.
  rewrite orb_true_iff, !bool_decide_eq_true, Exists_cons. done.
Qed.

Lemma indexesOk_spec els idx ids :
  indexesOk els idx ids = true
  ↔ ∀ id, id ∈ ids → ∃ j, idx !! id = Some j ∧ j < length els.
Proof.
  unfold indexesOk. rewrite forallb_forall. split.
  - intros H id Hid%list_elem_of_In. specialize (H id Hid).
    destruct (idx !! id) as [j|]; [|done].
    apply Nat.ltb_lt in H. eauto.
  - intros H id Hid%list_elem_of_In.
    destruct (H id Hid) as (j & -> & Hlt). by apply Nat.ltb_lt.
Qed.

Lemma classLoop_ok s idx ids els :
  indexesOk els idx ids = true →
  ∃ els', classLoop s idx ids els = Ok els'
          ∧ length els' = length els
          ∧ ∀ k, els' !! k = applyClass s (touched idx ids k) <$> els !! k.
Proof.
  revert els. induction ids as [|id ids IH]; intros els Hok.
  - exists els. split_and!; [done..|]. intros k. simpl.
    by destruct (els !! k).
  - rewrite indexesOk_spec in Hok.
    destruct (Hok id) as (j & Hj & Hlt); [left|].
    destruct (lookup_lt_is_Some_2 els j Hlt) as [x Hx].
    unfold classLoop. simpl. rewrite Hj, Hx. simpl.
    destruct (IH (<[j:=withClassName x s]> els)) as (els' & Hrun & Hlen & Hk).
    { apply indexesOk_spec. intros id' Hid'.
      destruct (Hok id') as (j' & ? & ?); [by right|].
      exists j'. by rewrite length_insert. }
    exists els'. split; [exact Hrun|]. split.
    { by rewrite Hlen, length_insert. }
    intros k. rewrite Hk, touched_cons.
    destruct (decide (j = k)) as [->|Hne].
    + rewrite list_lookup_insert_eq, Hx by done.
      rewrite Hj, bool_decide_true by done. simpl.
      unfold applyClass. destruct (touched idx ids k); [|done].
      by rewrite withClassName_idemp.
    + rewrite list_lookup_insert_ne by done.
      rewrite Hj, bool_decide_false by congruence. done.
Qed.

Lemma classLoop_inv s idx ids els els' :
  classLoop s idx ids els = Ok els' → indexesOk els idx ids = true.
Proof.
  rewrite indexesOk_spec.
  revert els. induction ids as [|id ids IH]; intros els Hrun id' Hid'.
  - by inversion Hid'.
  - unfold classLoop in Hrun. simpl in Hrun.
    destruct (idx !! id) as [j|] eqn:Hj; [|done].
    destruct (els !! j) as [x|] eqn:Hx; [|done]. simpl in Hrun.
    apply elem_of_cons in Hid' as [->|Hid'].
    + exists j. split; [done|]. by eapply lookup_lt_Some.
    + destruct (IH _ Hrun id' Hid') as (j' & ? & Hlt).
      exists j'. by rewrite length_insert in Hlt.
Qed.

Lemma setNodeStatus_unfold nodeId s els nd idx i n md :
  idx !! nodeId = Some i → els !! i = Some (ENode n) →
  nd !! nodeId = Some md →
  setNodeStatus nodeId s els nd idx
  = classLoop s idx (outgoingEdges md)
      (<[i := ENode (withNodeStatus n s)]> els).
Proof. intros Hi Hn Hmd. unfold setNodeStatus. by rewrite Hi, Hn, Hmd. Qed.

Lemma setNodeStatus_inv nodeId s els nd idx els' :
  setNodeStatus nodeId s els nd idx = Ok els' →
  ∃ i n md, idx !! nodeId = Some i ∧ els !! i = Some (ENode n)
            ∧ nd !! nodeId = Some md.
Proof.
  unfold setNodeStatus.
  destruct (idx !! nodeId) as [i|]; [|done].
  destruct (els !! i) as [[n|e]|] eqn:Hn; try done.
  destruct (nd !! nodeId) as [md|]; [|done]. intros _. eauto 10.
Qed.

(** What [setNodeStatus] leaves at each position. *)
Lemma setNodeStatus_ok nodeId s els nd idx i n md :
  idx !! nodeId = Some i → els !! i = Some (ENode n) →
  nd !! nodeId = Some md → indexesOk els idx (outgoingEdges md) = true →
  ∃ els', setNodeStatus nodeId s els nd idx = Ok els'
    ∧ length els' = length els
    ∧ ∀ k, els' !! k
           = applyClass s (touched idx (outgoingEdges md) k)
             <$> (<[i := ENode (withNodeStatus n s)]> els) !! k.
Proof.
  intros Hi Hn Hmd Hok.
  rewrite (setNodeStatus_unfold _ _ _ _ _ _ _ _ Hi Hn Hmd).
  destruct (classLoop_ok s idx (outgoingEdges md)
              (<[i:=ENode (withNodeStatus n s)]> els))
    as (els' & Hrun & Hlen & Hk).
  { rewrite indexesOk_spec in Hok. apply indexesOk_spec.
    intros id Hid. destruct (Hok id Hid) as (j & ? & ?).
    exists j. by rewrite length_insert. }
  exists els'. rewrite Hlen, length_insert. done.
Qed.

Lemma setNodeStatus_node nodeId s els nd idx i n md :
  idx !! nodeId = Some i → els !! i = Some (ENode n) →
  nd !! nodeId = Some md → indexesOk els idx (outgoingEdges md) = true →
  ∃ els' n', setNodeStatus nodeId s els nd idx = Ok els'
    ∧ els' !! i = Some (ENode n') ∧ nodeStatus (data n') = s.
Proof.
  intros Hi Hn Hmd Hok.
  destruct (setNodeStatus_ok _ s _ _ _ _ _ _ Hi Hn Hmd Hok)
    as (els' & Hrun & _ & Hk).
  exists els'. specialize (Hk i).
  rewrite list_lookup_insert_eq in Hk by (by eapply lookup_lt_Some).
  simpl in Hk. unfold applyClass in Hk.
  destruct (touched _ _ _); simpl in Hk; eauto.
Qed.

Lemma updateNodeStatus_unfold nodeId els nd idx i n md :
  idx !! nodeId = Some i → els !! i = Some (ENode n) →
  nd !! nodeId = Some md →
  updateNodeStatus nodeId els nd idx
  = (newStatus ← newStatusOf (type n) (nodeStatus (data n))
                   (map (elementAt els idx) (incomingEdges md));
     setNodeStatus nodeId newStatus els nd idx).
Proof.
  intros Hi Hn Hmd. unfold updateNodeStatus, elementAt.
  rewrite Hi. simpl. by rewrite Hn, Hmd.
Qed.

Lemma updateNodeStatus_inv nodeId els nd idx els' :
  updateNodeStatus nodeId els nd idx = Ok els' →
  ∃ i n md s, idx !! nodeId = Some i ∧ els !! i = Some (ENode n)
    ∧ nd !! nodeId = Some md
    ∧ newStatusOf (type n) (nodeStatus (data n))
        (map (elementAt els idx) (incomingEdges md)) = Ok s
    ∧ setNodeStatus nodeId s els nd idx = Ok els'.
Proof.
  unfold updateNodeStatus, elementAt.
  destruct (idx !! nodeId) as [i|] eqn:Hi; [|done]. simpl.
  destruct (els !! i) as [[n|e]|] eqn:Hn; try done.
  destruct (nd !! nodeId) as [md|] eqn:Hmd; [|done].
  destruct (newStatusOf _ _ _) as [s|] eqn:Hs; [|done].
  simpl. intros Hset. eauto 10.
Qed.

(** C1, as the code has it. For an [and] gate whose incoming edges have
    the effective status codes 0, 1 and 2, [updateNodeStatus] sets the
    status at position 2 of the status list, which is [ready] (the code
    of [one-away] is 4); for an [or] gate with the same codes it sets
    [completed], the status of code 0. *)
Theorem gate_status_codes_012 nodeId els nd idx i n md :
  idx !! nodeId = Some i → els !! i = Some (ENode n) →
  nd !! nodeId = Some md →
  mapR getEdgeStatus (map (elementAt els idx) (incomingEdges md))
    = Ok [Fin 0; Fin 1; Fin 2] →
  indexesOk els idx (outgoingEdges md) = true →
  (type n = "and" →
   ∃ els' n', updateNodeStatus nodeId els nd idx = Ok els'
     ∧ els' !! i = Some (ENode n')
     ∧ nodeStatus (data n') = Some "ready"
     ∧ COURSE_STATUS_CODES (Some "ready") = Fin 2)
  ∧ (type n = "or" →
     ∃ els' n', updateNodeStatus nodeId els nd idx = Ok els'
       ∧ els' !! i = Some (ENode n')
       ∧ nodeStatus (data n') = Some "completed"
       ∧ COURSE_STATUS_CODES (Some "completed") = Fin 0).
Proof.
  intros Hi Hn Hmd Hcodes Hok.
  split; intros Hty;
    rewrite (updateNodeStatus_unfold _ _ _ _ _ _ _ Hi Hn Hmd);
    unfold newStatusOf; rewrite Hty; simpl; rewrite Hcodes; simpl;
    match goal with
    | |- context [setNodeStatus _ ?s _ _ _] =>
        destruct (setNodeStatus_node nodeId s _ _ _ _ _ _ Hi Hn Hmd Hok)
          as (els' & n' & Hrun & Hk & Hs)
    end; eauto 10.
Qed.

Lemma gate_status_codes_012_witness :
  ∃ els' n',
    updateNodeStatus "AND-g1" (Examples.gateArray "and" "AND-g1")
      (Examples.metaOf (Examples.gateArray "and" "AND-g1"))
      (newElemIndexes (Examples.gateArray "and" "AND-g1")) = Ok els'
    ∧ els' !! 3 = Some (ENode n')
    ∧ nodeStatus (data n') = Some "ready"
    ∧ COURSE_STATUS_CODES (Some "ready") = Fin 2.
Proof.
  eapply (gate_status_codes_012 "AND-g1"
            (Examples.gateArray "and" "AND-g1")
            (Examples.metaOf (Examples.gateArray "and" "AND-g1"))
            (newElemIndexes (Examples.gateArray "and" "AND-g1")) 3);
    vm_compute; reflexivity.
Defined.

(** C1, as stated, fails: on the array of [Examples.gateArray] the [and]
    gate has incoming effective codes 0, 1, 2 and does not end up
    [one-away]. *)
Lemma and_gate_012_is_not_one_away :
  let els := Examples.gateArray "and" "AND-g1" in
  let nd := Examples.metaOf els in
  let idx := newElemIndexes els in
  (∃ md, nd !! "AND-g1" = Some md
         ∧ mapR getEdgeStatus (map (elementAt els idx) (incomingEdges md))
           = Ok [Fin 0; Fin 1; Fin 2])
  ∧ ¬ ∃ els' n', updateNodeStatus "AND-g1" els nd idx = Ok els'
                 ∧ els' !! 3 = Some (ENode n')
                 ∧ nodeStatus (data n') = Some "one-away".
Proof.
  intros els nd idx. split.
  - eexists. split; vm_compute; reflexivity.
  - intros (els' & n' & Hrun & Hk & Hs).
    vm_compute in Hrun. injection Hrun as <-.
    vm_compute in Hk. injection Hk as <-.
    vm_compute in Hs. discriminate.
Qed.

(** C6. A [course] node without incoming edges keeps the status
    [enrolled], and likewise [completed]; with any other status it
    becomes [ready]. *)
Theorem course_without_prerequisites nodeId els nd idx i n md :
  idx !! nodeId = Some i → els !! i = Some (ENode n) →
  type n = "course" →
  nd !! nodeId = Some md → incomingEdges md = [] →
  indexesOk els idx (outgoingEdges md) = true →
  ∃ els' n', updateNodeStatus nodeId els nd idx = Ok els'
    ∧ els' !! i = Some (ENode n')
    ∧ (nodeStatus (data n) = Some "enrolled" →
       nodeStatus (data n') = Some "enrolled")
    ∧ (nodeStatus (data n) = Some "completed" →
       nodeStatus (data n') = Some "completed")
    ∧ (nodeStatus (data n) ≠ Some "enrolled" →
       nodeStatus (data n) ≠ Some "completed" →
       nodeStatus (data n') = Some "ready").
Proof.
  intros Hi Hn Hty Hmd Hin Hok.
  rewrite (updateNodeStatus_unfold _ _ _ _ _ _ _ Hi Hn Hmd).
  unfold newStatusOf. rewrite Hty, Hin. simpl.
  match goal with
  | |- context [setNodeStatus _ ?s _ _ _] =>
      destruct (setNodeStatus_node nodeId s _ _ _ _ _ _ Hi Hn Hmd Hok)
        as (els' & n' & Hrun & Hk & Hs)
  end.
  exists els', n'. split; [done|]. split; [done|].
  rewrite Hs. unfold isStatus.
  destruct (nodeStatus (data n)) as [c|]; simpl.
  - destruct (String.eqb_spec c "completed") as [Hc|Hc];
      destruct (String.eqb_spec c "enrolled") as [He|He]; simpl;
      split_and!; intros; congruence.
  - split_and!; done.
Qed.

Lemma course_without_prerequisites_witness :
  ∃ els' n',
    updateNodeStatus "CSE 143" (Examples.gateArray "and" "AND-g1")
      (Examples.metaOf (Examples.gateArray "and" "AND-g1"))
      (newElemIndexes (Examples.gateArray "and" "AND-g1")) = Ok els'
    ∧ els' !! 1 = Some (ENode n')
    ∧ nodeStatus (data n') = Some "enrolled".
Proof.
  destruct (course_without_prerequisites "CSE 143"
              (Examples.gateArray "and" "AND-g1")
              (Examples.metaOf (Examples.gateArray "and" "AND-g1"))
              (newElemIndexes (Examples.gateArray "and" "AND-g1")) 1
              (withNodeStatus
                 (newCourseNode (Examples.courseRecord "CSE 143" EmptyString))
                 (Some "enrolled"))
              (default (newData (Examples.courseNode "CSE 143") [])
                 (Examples.metaOf (Examples.gateArray "and" "AND-g1")
                    !! "CSE 143")))
    as (els' & n' & Hrun & Hk & Hen & _);
    [vm_compute; reflexivity..|].
  exists els', n'. split; [exact Hrun|]. split; [exact Hk|].
  apply Hen. reflexivity.
Defined.

Lemma applyClass_clear s b x : clearStatus (applyClass s b x) = clearStatus x.
Proof. by destruct b, x. Qed.

Lemma applyClass_status s b x : elemStatus (applyClass s b x) = elemStatus x.
Proof. by destruct b, x. Qed.

Lemma touched_true idx ids k :
  touched idx ids k = true → ∃ id, id ∈ ids ∧ idx !! id = Some k.
Proof.
  unfold touched. rewrite bool_decide_eq_true, Exists_exists. done.
Qed.

(** Position by position, what a successful [updateNodeStatus] changes. *)
Lemma updateNodeStatus_positions nodeId els nd idx els' :
  updateNodeStatus nodeId els nd idx = Ok els' →
  length els' = length els
  ∧ ∀ k x, els !! k = Some x →
      ∃ x', els' !! k = Some x'
        ∧ clearStatus x' = clearStatus x
        ∧ (elemStatus x' ≠ elemStatus x → idx !! nodeId = Some k)
        ∧ (elemClassName x' ≠ elemClassName x →
           ∃ md edgeId, nd !! nodeId = Some md
             ∧ edgeId ∈ outgoingEdges md ∧ idx !! edgeId = Some k).
Proof.
  intros Hrun.
  destruct (updateNodeStatus_inv _ _ _ _ _ Hrun)
    as (i & n & md & s & Hi & Hn & Hmd & _ & Hset).
  assert (indexesOk els idx (outgoingEdges md) = true) as Hok.
  { rewrite (setNodeStatus_unfold _ _ _ _ _ _ _ _ Hi Hn Hmd) in Hset.
    apply classLoop_inv in Hset. rewrite indexesOk_spec in Hset.
    apply indexesOk_spec. intros id Hid.
    destruct (Hset id Hid) as (j & ? & Hlt).
    rewrite length_insert in Hlt. eauto. }
  destruct (setNodeStatus_ok _ s _ _ _ _ _ _ Hi Hn Hmd Hok)
    as (els'' & Hrun' & Hlen & Hk).
  rewrite Hset in Hrun'. injection Hrun' as <-.
  split; [done|]. intros k x Hx.
  assert (∃ y, (<[i:=ENode (withNodeStatus n s)]> els) !! k = Some y
               ∧ clearStatus y = clearStatus x
               ∧ (elemStatus y ≠ elemStatus x → k = i)
               ∧ elemClassName y = elemClassName x) as (y & Hy & Hc & Hst & Hcl).
  { destruct (decide (i = k)) as [->|Hne].
    - rewrite list_lookup_insert_eq by (by eapply lookup_lt_Some).
      rewrite Hn in Hx. injection Hx as <-. eauto.
    - rewrite list_lookup_insert_ne by done. exists x. by rewrite Hx. }
  specialize (Hk k). rewrite Hy in Hk. simpl in Hk.
  eexists. split; [exact Hk|].
  rewrite applyClass_clear, applyClass_status.
  split; [done|]. split; [by intros ->%Hst|].
  destruct (touched idx (outgoingEdges md) k) eqn:Ht; simpl.
  - intros _. destruct (touched_true _ _ _ Ht) as (edgeId & ? & ?). eauto.
  - by rewrite Hcl.
Qed.

(** C9. A successful [updateNodeStatus] keeps the length of the array and,
    at every position, every field other than [nodeStatus] and
    [className]; [nodeStatus] can only change at the position of the node
    itself, and [className] only at the positions of the ids the metadata
    lists as the node's outgoing edges. When the index map and the
    metadata are those of the array (ids pairwise distinct), this means:
    only the status of the node [nodeId] and the class names of edges
    with source [nodeId] can change. *)
Theorem updateNodeStatus_frame nodeId els nd idx els' :
  updateNodeStatus nodeId els nd idx = Ok els' →
  length els' = length els
  ∧ ∀ k x, els !! k = Some x →
      ∃ x', els' !! k = Some x'
        ∧ clearStatus x' = clearStatus x
        ∧ (elemStatus x' ≠ elemStatus x → idx !! nodeId = Some k)
        ∧ (elemClassName x' ≠ elemClassName x →
           ∃ md edgeId, nd !! nodeId = Some md
             ∧ edgeId ∈ outgoingEdges md ∧ idx !! edgeId = Some k)
        ∧ (idx = newElemIndexes els → NoDup (map elemId els) →
           outgoingListed els nd →
           (elemStatus x' ≠ elemStatus x → elemId x = nodeId)
           ∧ (elemClassName x' ≠ elemClassName x →
              ∃ e, x = EEdge e ∧ source e = nodeId)).
Proof.
  intros Hrun.
  destruct (updateNodeStatus_positions _ _ _ _ _ Hrun) as [Hlen Hpos].
  split; [done|]. intros k x Hx.
  destruct (Hpos k x Hx) as (x' & Hx' & Hclear & Hst & Hcl).
  exists x'. split_and!; [done..|].
  intros -> Hnd Hlisted. split.
  - intros Hi%Hst.
    destruct (newElemIndexes_lookup _ _ _ Hi) as (z & Hz & <-). congruence.
  - intros (md & edgeId & Hmd & Hin & Hidx)%Hcl.
    destruct (Hlisted _ _ _ Hmd Hin) as (e & He & <- & Hsrc).
    apply list_elem_of_lookup in He as [k' Hk'].
    pose proof (newElemIndexes_NoDup _ _ _ Hnd Hk') as Hidx'. simpl in Hidx'.
    assert (k' = k) as -> by congruence.
    exists e. split; [congruence|done].
Qed.

Lemma updateNodeStatus_frame_witness :
  ∃ els',
    updateNodeStatus "AND-g1" (Examples.gateArray "and" "AND-g1")
      (Examples.metaOf (Examples.gateArray "and" "AND-g1"))
      (newElemIndexes (Examples.gateArray "and" "AND-g1")) = Ok els'
    ∧ length els' = length (Examples.gateArray "and" "AND-g1").
Proof.
  eexists. split; [vm_compute; reflexivity|].
  eapply (updateNodeStatus_frame "AND-g1"
            (Examples.gateArray "and" "AND-g1")
            (Examples.metaOf (Examples.gateArray "and" "AND-g1"))
            (newElemIndexes (Examples.gateArray "and" "AND-g1"))).
  vm_compute. reflexivity.
Defined.
End StatusFacts.

(** ** The parser *)

Section ParserFacts.
Import Regex Flow Props.
Implicit Types nanoid : nat → string.

Lemma arrow_has_dash (s t : string) : ¬ StrForall notDash (edgeArrowId s t).
Proof.
  unfold edgeArrowId. rewrite StrForall_app. intros [_ H].
  rewrite !app_cons_str in H. simpl in H.
  destruct H as (_ & Hd & _). by apply Hd.
Qed.

Lemma addEdge_guard target st source :
  addEdge target st source
  = if bool_decide ((source ∈ elementIds st)
                    ∧ (edgeArrowId source target ∉ elementIds st)
                    ∧ (edgeArrowId target source ∉ elementIds st))
    then withElements st (elements st ++ [arrowEdge target source])
           ({[edgeArrowId source target]} ∪ elementIds st)
    else st.
Proof.
  unfold addEdge.
  destruct (decide (source ∈ elementIds st));
    destruct (decide (edgeArrowId source target ∈ elementIds st));
    destruct (decide (edgeArrowId target source ∈ elementIds st));
    repeat (rewrite ?bool_decide_true, ?bool_decide_false by tauto; simpl);
    done.
Qed.

Lemma addEdges_absent sources target st :
  (∀ m, m ∈ sources → m ∉ elementIds st) →
  addEdges sources target st = st.
Proof.
  unfold addEdges. induction sources as [|m rest IH]; intros Habs; [done|].
  simpl. rewrite addEdge_guard, bool_decide_false.
  - apply IH. intros m' Hm'. apply Habs. by right.
  - intros [Hin _]. by apply (Habs m); [left|].
Qed.

Lemma filter_absent (ids : gset string) (alts : list string) :
  (∀ m, m ∈ alts → m ∉ ids) → filter (λ m, m ∈ ids) alts = [].
Proof.
  induction alts as [|m rest IH]; intros Habs; [done|].
  rewrite filter_cons_False by (apply Habs; left).
  apply IH. intros m' Hm'. apply Habs. by right.
Qed.

Lemma secondPassSection_accepted nanoid mode course st section alts :
  accepted section = Some alts →
  secondPassSection nanoid mode course st section
  = let st0 := withLastIndex st 0 in
    match filter (λ m, m ∈ elementIds st) alts with
    | [req] =>
        withElements st0
          (elements st ++
           [EEdge (maybeConcurrent section (newEdge req course None))])
          (elementIds st)
    | (_ :: _ :: _) as alreadyRequired =>
        let orNode := newConditionalNode (nanoid (nanoidCalls st)) "or"
                        ZERO_POSITION in
        {| elements :=
             elements st
             ++ [ENode orNode; EEdge (newEdge (nid orNode) course None)]
             ++ map (λ req, EEdge (maybeConcurrent section
                                     (newEdge req (nid orNode) None)))
                    alreadyRequired;
           elementIds := elementIds st;
           secondPass := secondPass st;
           lastIndex := 0;
           nanoidCalls := S (nanoidCalls st) |}
    | [] =>
        if String.eqb mode "aggressively"
        then addEdges alts course st0 else st0
    end.
Proof.
  unfold accepted, secondPassSection. intros Hacc.
  destruct (orElse _ _) as [ms|]; [|done].
  destruct (length ms =? _); [|done]. simplify_eq. simpl.
  by destruct (filter _ _) as [|? [|? ?]].
Qed.

Lemma secondPassSection_rejected nanoid mode course st section :
  accepted section = None →
  secondPassSection nanoid mode course st section
  = if String.eqb mode "aggressively"
    then addEdges (matchAll COURSE_REGEX section) course (withLastIndex st 0)
    else withLastIndex st 0.
Proof.
  unfold accepted, secondPassSection. intros Hacc.
  destruct (orElse _ _) as [ms|]; [|done].
  by destruct (length ms =? _).
Qed.

(** C3, as the code has it. The clause "Either MATH 124 or MATH 134" of
    owner MATH 125, with neither alternative among the ids of the
    elements, adds no element and registers no id, under "conservative",
    under "aggressively" and under any other mode: [addEdges] refuses a
    source that is no element. *)
Theorem either_clause_unknown_alternatives nanoid mode st :
  "MATH 124" ∉ elementIds st → "MATH 134" ∉ elementIds st →
  elements (secondPassSection nanoid mode "MATH 125" st
              "Either MATH 124 or MATH 134") = elements st
  ∧ elementIds (secondPassSection nanoid mode "MATH 125" st
                  "Either MATH 124 or MATH 134") = elementIds st.
Proof.
  intros H124 H134.
  rewrite (secondPassSection_accepted _ _ _ _ _ ["MATH 124"; "MATH 134"])
    by (vm_compute; reflexivity).
  assert (∀ m, m ∈ ["MATH 124"; "MATH 134"] → m ∉ elementIds st) as Habs.
  { intros m Hm. repeat (apply elem_of_cons in Hm as [->|Hm]); try done.
    by inversion Hm. }
  cbv zeta. rewrite filter_absent by done.
  destruct (String.eqb mode "aggressively"); [|done].
  by rewrite addEdges_absent.
Qed.

Lemma either_clause_unknown_alternatives_witness :
  elements (secondPassSection Examples.nano "aggressively" "MATH 125"
              (initialState
                 [Examples.courseRecord "MATH 125" "Either MATH 124 or MATH 134"])
              "Either MATH 124 or MATH 134")
  = [ENode (newCourseNode
              (Examples.courseRecord "MATH 125" "Either MATH 124 or MATH 134"))].
Proof.
  apply (either_clause_unknown_alternatives Examples.nano "aggressively"
           (initialState
              [Examples.courseRecord "MATH 125" "Either MATH 124 or MATH 134"]));
    vm_compute; intros H; discriminate H.
Defined.

Example single_course_clause :
  map elemId
    (generateInitialElements Examples.nano
       [Examples.courseRecord "CSE 142" EmptyString;
        Examples.courseRecord "CSE 143" "CSE 142"] "conservative")
  = ["CSE 142"; "CSE 143"; "CSE 142 -> CSE 143"].
Proof. vm_compute. reflexivity. Qed.

Example one_alternative_present :
  map elemId
    (generateInitialElements Examples.nano
       [Examples.courseRecord "MATH 124" EmptyString;
        Examples.courseRecord "MATH 125" "Either MATH 124 or MATH 134"]
       "conservative")
  = ["MATH 124"; "MATH 125"; "MATH 124 -> MATH 125"]
  ∧ map elemId
      (generateInitialElements Examples.nano
         [Examples.courseRecord "MATH 124" EmptyString;
          Examples.courseRecord "MATH 125" "Either MATH 124 or MATH 134"]
         "aggressively")
    = ["MATH 124"; "MATH 125"; "MATH 124 -> MATH 125"].
Proof. vm_compute. split; reflexivity. Qed.

Example either_clause_conservative :
  generateInitialElements Examples.nano
    [Examples.courseRecord "MATH 125" "Either MATH 124 or MATH 134"]
    "conservative"
  = [ENode (newCourseNode
              (Examples.courseRecord "MATH 125" "Either MATH 124 or MATH 134"))].
Proof. vm_compute. reflexivity. Qed.

Example or_gate_for_two_present_alternatives :
  map elemId
    (generateInitialElements Examples.nano
       [Examples.courseRecord "CSE 311" EmptyString;
        Examples.courseRecord "CSE 321" EmptyString;
        Examples.courseRecord "CSE 332" "CSE 311, CSE 321, or CSE 331"]
       "conservative")
  = ["CSE 311"; "CSE 321"; "CSE 332"; "OR-a1";
     "OR-a1 -> CSE 332"; "CSE 311 -> OR-a1"; "CSE 321 -> OR-a1"].
Proof. vm_compute. reflexivity. Qed.

(** C3, as stated, fails in its second half: under "aggressively" the
    clause adds no edge either. *)
Lemma aggressively_adds_no_edge_from_unknown_alternatives :
  generateInitialElements Examples.nano
    [Examples.courseRecord "MATH 125" "Either MATH 124 or MATH 134"]
    "aggressively"
  = [ENode (newCourseNode
              (Examples.courseRecord "MATH 125" "Either MATH 124 or MATH 134"))]
  ∧ ¬ ∃ e, EEdge e ∈ generateInitialElements Examples.nano
                       [Examples.courseRecord "MATH 125"
                          "Either MATH 124 or MATH 134"]
                       "aggressively"
           ∧ source e = "MATH 124" ∧ target e = "MATH 125".
Proof.
  assert (generateInitialElements Examples.nano
            [Examples.courseRecord "MATH 125" "Either MATH 124 or MATH 134"]
            "aggressively"
          = [ENode (newCourseNode
               (Examples.courseRecord "MATH 125" "Either MATH 124 or MATH 134"))])
    as Heq by (vm_compute; reflexivity).
  split; [exact Heq|]. rewrite Heq. intros (e & He & _).
  apply list_elem_of_singleton in He. discriminate.
Qed.

(** C4. A deferred clause that the triple-either pattern matches with all
    its course ids captured, and of which more than one alternative is
    among the element ids, appends exactly: one [or] gate, one edge from
    the gate to the owning course, and one edge into the gate from each
    alternative that is present. Nothing else is appended, so no edge
    leads from an alternative to the owning course. *)
Theorem triple_either_or_gate nanoid mode course st section ms :
  match_ TRIPLE_EITHER_REGEX section = Some ms →
  length ms = length (matchAll COURSE_REGEX section) + 1 →
  1 < length (filter (λ m, m ∈ elementIds st) (tail ms)) →
  let orNode :=
    newConditionalNode (nanoid (nanoidCalls st)) "or" ZERO_POSITION in
    type orNode = "or"
    ∧ nid orNode = "OR-" +:+ nanoid (nanoidCalls st)
    ∧ elements (secondPassSection nanoid mode course st section)
      = elements st
        ++ [ENode orNode; EEdge (newEdge (nid orNode) course None)]
        ++ map (λ req, EEdge (maybeConcurrent section
                                (newEdge req (nid orNode) None)))
               (filter (λ m, m ∈ elementIds st) (tail ms))
    ∧ Forall (λ x, ∃ e, x = EEdge e ∧ target e = nid orNode
                        ∧ source e ∈ elementIds st ∧ source e ∈ tail ms)
        (map (λ req, EEdge (maybeConcurrent section
                              (newEdge req (nid orNode) None)))
             (filter (λ m, m ∈ elementIds st) (tail ms))).
Proof.
  intros Hm Hlen Hmany orNode.
  split; [done|]. split; [done|]. split.
  - rewrite (secondPassSection_accepted _ _ _ _ _ (tail ms)).
    + cbv zeta.
      destruct (filter (λ m, m ∈ elementIds st) (tail ms)) as [|a [|b l]];
        simpl in Hmany; try lia. done.
    + unfold accepted. rewrite Hm. simpl. rewrite Hlen, Nat.eqb_refl. done.
  - apply Forall_forall. intros x (req & -> & Hreq)%list_elem_of_fmap.
    apply list_elem_of_filter in Hreq as [Hin Htl].
    eexists. split; [done|]. unfold maybeConcurrent.
    by destruct (test CONCURRENT_REGEX section).
Qed.

Lemma triple_either_or_gate_witness :
    map elemId
        (elements
           (secondPassSection Examples.nano "conservative" "CSE 332"
              (initialState
                 [Examples.courseRecord "CSE 311" EmptyString;
                  Examples.courseRecord "CSE 321" EmptyString;
                  Examples.courseRecord "CSE 332"
                    "CSE 311, CSE 321, or CSE 331"])
              "CSE 311, CSE 321, or CSE 331"))
      = ["CSE 311"; "CSE 321"; "CSE 332"; "OR-a1";
         "OR-a1 -> CSE 332"; "CSE 311 -> OR-a1"; "CSE 321 -> OR-a1"].
Proof.
  destruct (triple_either_or_gate Examples.nano "conservative" "CSE 332"
              (initialState
                 [Examples.courseRecord "CSE 311" EmptyString;
                  Examples.courseRecord "CSE 321" EmptyString;
                  Examples.courseRecord "CSE 332"
                    "CSE 311, CSE 321, or CSE 331"])
              "CSE 311, CSE 321, or CSE 331"
              ["CSE 311, CSE 321, or CSE 331";
               "CSE 311"; "CSE 321"; "CSE 331"])
    as (_ & _ & Hels & _).
  - vm_compute. reflexivity.
  - vm_compute. reflexivity.
  - vm_compute. lia.
  - rewrite Hels. vm_compute. reflexivity.
Defined.

Lemma addEdge_fields target st source :
  secondPass (addEdge target st source) = secondPass st
  ∧ lastIndex (addEdge target st source) = lastIndex st
  ∧ nanoidCalls (addEdge target st source) = nanoidCalls st.
Proof. rewrite addEdge_guard. by destruct (bool_decide _). Qed.

(** What [addEdges] appends, for sources that are course-id tokens. *)
Lemma addEdges_spec sources target st :
  Forall (StrForall notDash) sources →
  ∃ added,
    sublist added sources
    ∧ elements (addEdges sources target st)
      = elements st ++ map (arrowEdge target) added
    ∧ elementIds (addEdges sources target st)
      = list_to_set (map (λ m, edgeArrowId m target) added) ∪ elementIds st
    ∧ (∀ m, m ∈ added →
         (m ∈ elementIds st)
         ∧ (edgeArrowId m target ∉ elementIds st)
         ∧ (edgeArrowId target m ∉ elementIds st))
    ∧ (StrForall notDash target →
       ∀ m, m ∈ sources → m ∈ elementIds st →
            edgeArrowId m target ∉ elementIds st →
            edgeArrowId target m ∉ elementIds st → m ∈ added).
Proof.
  unfold addEdges. revert st.
  induction sources as [|m rest IH]; intros st Hnd.
  - exists []. split_and!; [done|by rewrite app_nil_r|set_solver|..].
    + intros m Hm. by inversion Hm.
    + intros _ m Hm. by inversion Hm.
  - apply Forall_cons in Hnd as [Hm Hrest]. simpl.
    rewrite addEdge_guard. case_bool_decide as Hg.
    + destruct (IH (withElements st (elements st ++ [arrowEdge target m])
                      ({[edgeArrowId m target]} ∪ elementIds st)) Hrest)
        as (added & Hsub & Hels & Hids & Hfwd & Hbwd).
      simpl in Hels, Hids, Hfwd, Hbwd.
      exists (m :: added). split_and!.
      * by apply sublist_skip.
      * rewrite Hels, <- app_assoc. done.
      * rewrite Hids. simpl. set_solver.
      * intros m' [->|Hm']%elem_of_cons; [done|].
        destruct (Hfwd m' Hm') as (H1 & H2 & H3).
        split_and!; [|set_solver..].
        apply elem_of_union in H1 as [H1|H1]; [|done].
        apply elem_of_singleton in H1. exfalso.
        apply (arrow_has_dash m target). rewrite <- H1.
        eapply Forall_forall; [exact Hrest|].
        by eapply (sublist_subseteq added rest).
      * intros Ht m' [->|Hm']%elem_of_cons Hin Hf Hr; [left|].
        destruct (decide (m' = m)) as [->|Hne]; [left|right].
        apply Hbwd; [done..|set_solver| |].
        -- intros [H|H]%elem_of_union; [|done].
           apply elem_of_singleton in H.
           apply edgeArrowId_inj in H as [? _]; [done| |done].
           by eapply Forall_forall.
        -- intros [H|H]%elem_of_union; [|done].
           apply elem_of_singleton in H.
           apply edgeArrowId_inj in H as [-> ->]; done.
    + destruct (IH st Hrest) as (added & Hsub & Hels & Hids & Hfwd & Hbwd).
      exists added. split_and!; [by apply sublist_cons|done..|].
      intros Ht m' [->|Hm']%elem_of_cons Hin Hf Hr; [by destruct Hg|].
      by apply Hbwd.
Qed.

Lemma COURSE_tokens_notDash (section : string) :
  Forall (StrForall notDash) (matchAll COURSE_REGEX section).
Proof. apply matchAllFrom_tokens, CRS_notDash. Qed.

(** C8, as the code has it. A deferred clause that fails the acceptance
    test of the second pass adds nothing unless the mode is
    "aggressively"; under "aggressively" it adds edges to the owning
    course from course-id tokens of the clause, in their order, and only
    from tokens that are ids of elements and for which neither the arrow
    id nor the reverse arrow id is registered; when the owner's id has no
    dash, every such token gets its edge. The function returns in every
    case. *)
Theorem unparsed_clause nanoid mode course st section :
  accepted section = None →
  (mode ≠ "aggressively" →
   elements (secondPassSection nanoid mode course st section) = elements st
   ∧ elementIds (secondPassSection nanoid mode course st section)
     = elementIds st)
  ∧ (mode = "aggressively" →
     ∃ added,
       sublist added (matchAll COURSE_REGEX section)
       ∧ elements (secondPassSection nanoid mode course st section)
         = elements st ++ map (arrowEdge course) added
       ∧ (∀ m, m ∈ added →
            (m ∈ elementIds st)
            ∧ (edgeArrowId m course ∉ elementIds st)
            ∧ (edgeArrowId course m ∉ elementIds st))
       ∧ (StrForall notDash course →
          ∀ m, m ∈ matchAll COURSE_REGEX section → m ∈ elementIds st →
               edgeArrowId m course ∉ elementIds st →
               edgeArrowId course m ∉ elementIds st → m ∈ added)).
Proof.
  intros Hrej. rewrite secondPassSection_rejected by done. split.
  - intros Hmode. apply String.eqb_neq in Hmode. by rewrite Hmode.
  - intros ->. rewrite String.eqb_refl.
    destruct (addEdges_spec (matchAll COURSE_REGEX section) course
                (withLastIndex st 0) (COURSE_tokens_notDash section))
      as (added & Hsub & Hels & _ & Hfwd & Hbwd).
    exists added. split_and!; done.
Qed.

Lemma unparsed_clause_witness :
  ∃ added,
    sublist added ["CSE 142"; "CSE 143"; "MATH 126"]
    ∧ elements (secondPassSection Examples.nano "aggressively" "CSE 333"
                  (initialState
                     [Examples.courseRecord "CSE 143" EmptyString;
                      Examples.courseRecord "CSE 333"
                        "CSE 142 and CSE 143 and MATH 126"])
                  "CSE 142 and CSE 143 and MATH 126")
      = elements (initialState
                    [Examples.courseRecord "CSE 143" EmptyString;
                     Examples.courseRecord "CSE 333"
                       "CSE 142 and CSE 143 and MATH 126"])
        ++ map (arrowEdge "CSE 333") added.
Proof.
  destruct (unparsed_clause Examples.nano "aggressively" "CSE 333"
              (initialState
                 [Examples.courseRecord "CSE 143" EmptyString;
                  Examples.courseRecord "CSE 333"
                    "CSE 142 and CSE 143 and MATH 126"])
              "CSE 142 and CSE 143 and MATH 126")
    as [_ Hagg]; [vm_compute; reflexivity|].
  destruct (Hagg eq_refl) as (added & Hsub & Hels & _).
  exists added. split; [exact Hsub|exact Hels].
Defined.

(** C8, as stated, fails under "aggressively": the clause below matches
    neither either-pattern and has two course ids, none of them an
    element, and no edge is added. *)
Lemma aggressively_skips_unknown_tokens :
  accepted "CSE 142 and CSE 143" = None
  ∧ matchAll COURSE_REGEX "CSE 142 and CSE 143" = ["CSE 142"; "CSE 143"]
  ∧ generateInitialElements Examples.nano
      [Examples.courseRecord "CSE 333" "CSE 142 and CSE 143"] "aggressively"
    = [ENode (newCourseNode
                (Examples.courseRecord "CSE 333" "CSE 142 and CSE 143"))].
Proof. vm_compute. split_and!; reflexivity. Qed.

(** *** Edges added under the guard of [addEdges] *)

Lemma addEdge_inv ids0 tgt st src :
  parseInv ids0 st → parseInv ids0 (addEdge tgt st src).
Proof.
  intros (Hreg & Hone & Hrev & Hfrom). rewrite addEdge_guard.
  case_bool_decide as Hg; [|done]. destruct Hg as (Hsrc & Hfwd & Hbwd).
  unfold arrowEdge.
  split_and!.
  - intros e [He|He]%elem_of_app; simpl.
    + apply elem_of_union_r. by apply Hreg.
    + apply list_elem_of_singleton in He. injection He as ->. simpl.
      by apply elem_of_union_l, elem_of_singleton.
  - intros i j e e' Hi Hj Hs Ht. simpl in Hi, Hj.
    apply lookup_app_Some in Hi as [Hi|[Hli Hi]];
      apply lookup_app_Some in Hj as [Hj|[Hlj Hj]].
    + by eapply Hone.
    + exfalso. apply list_lookup_singleton_Some in Hj as [_ Hj].
      injection Hj as <-. simpl in Hs, Ht. apply Hfwd.
      rewrite <- Hs, <- Ht. apply Hreg. by eapply list_elem_of_lookup_2.
    + exfalso. apply list_lookup_singleton_Some in Hi as [_ Hi].
      injection Hi as <-. simpl in Hs, Ht. apply Hfwd.
      rewrite Hs, Ht. apply Hreg. by eapply list_elem_of_lookup_2.
    + apply list_lookup_singleton_Some in Hi as [Hi _].
      apply list_lookup_singleton_Some in Hj as [Hj _]. lia.
  - intros e e' [He|He]%elem_of_app [He'|He']%elem_of_app Hs Ht;
      simpl in *.
    + by eapply Hrev.
    + exfalso. apply list_elem_of_singleton in He'. injection He' as ->.
      simpl in Hs, Ht. apply Hbwd. rewrite <- Hs, <- Ht. by apply Hreg.
    + exfalso. apply list_elem_of_singleton in He. injection He as ->.
      simpl in Hs, Ht. apply Hbwd. rewrite Hs, Ht. by apply Hreg.
    + apply list_elem_of_singleton in He, He'.
      injection He as ->. injection He' as ->. simpl in *. done.
  - intros x [Hx|Hx]%elem_of_union; simpl.
    + apply elem_of_singleton in Hx as ->. right. apply arrow_has_dash.
    + by apply Hfrom.
Qed.

Lemma addEdges_inv ids0 sources target st :
  parseInv ids0 st → parseInv ids0 (addEdges sources target st).
Proof.
  unfold addEdges. revert st.
  induction sources as [|m rest IH]; intros st Hinv; [done|].
  simpl. by apply IH, addEdge_inv.
Qed.

Lemma addEdges_fields sources target st :
  secondPass (addEdges sources target st) = secondPass st.
Proof.
  unfold addEdges. revert st.
  induction sources as [|m rest IH]; intros st; [done|].
  simpl. rewrite IH. apply addEdge_fields.
Qed.

Lemma secondPassPush_elem courseId section sp k secs sec :
  (k, secs) ∈ secondPassPush courseId section sp → sec ∈ secs →
  sec = section ∨ ∃ secs', (k, secs') ∈ sp ∧ sec ∈ secs'.
Proof.
  induction sp as [|[k' v] rest IH]; simpl.
  - intros Hin%list_elem_of_singleton Hsec. injection Hin as -> ->.
    apply list_elem_of_singleton in Hsec. by left.
  - destruct (String.eqb k' courseId).
    + intros [Hin|Hin]%elem_of_cons Hsec.
      * injection Hin as -> ->.
        apply elem_of_app in Hsec as [Hsec|Hsec].
        -- right. exists v. split; [left|done].
        -- apply list_elem_of_singleton in Hsec. by left.
      * right. exists secs. split; [by right|done].
    + intros [Hin|Hin]%elem_of_cons Hsec.
      * injection Hin as -> ->. right. exists v. split; [left|done].
      * destruct (IH Hin Hsec) as [?|(secs' & ? & ?)]; [by left|].
        right. exists secs'. split; [by right|done].
Qed.

Lemma firstPassSection_inv ids0 courseData c st section :
  c ∈ courseData → section ∈ splitOn ";" (prerequisite c) →
  parseInv ids0 st ∧ deferredFrom courseData (secondPass st) →
  parseInv ids0 (firstPassSection (cid c) st section)
  ∧ deferredFrom courseData (secondPass (firstPassSection (cid c) st section)).
Proof.
  intros Hc Hsec [Hinv Hdef]. unfold firstPassSection.
  destruct (matchAll COURSE_REGEX section) as [|m [|m' rest]].
  - done.
  - split; [by apply addEdges_inv|]. by rewrite addEdges_fields.
  - split; [done|]. simpl. intros k secs sec Hin Hs.
    destruct (secondPassPush_elem _ _ _ _ _ _ Hin Hs)
      as [->|(secs' & Hin' & Hs')]; [eauto|].
    by eapply Hdef.
Qed.

Lemma fold_left_inv {A S} (P : S → Prop) (f : S → A → S) (l : list A) (s : S) :
  (∀ s x, x ∈ l → P s → P (f s x)) → P s → P (fold_left f l s).
Proof.
  revert s. induction l as [|x l IH]; intros s Hstep Hs; [done|].
  simpl. apply IH.
  - intros s' y Hy. apply Hstep. by right.
  - apply Hstep; [left|done].
Qed.

Lemma firstPassCourse_inv ids0 courseData c st :
  c ∈ courseData →
  parseInv ids0 st ∧ deferredFrom courseData (secondPass st) →
  parseInv ids0 (firstPassCourse st c)
  ∧ deferredFrom courseData (secondPass (firstPassCourse st c)).
Proof.
  intros Hc HP. unfold firstPassCourse.
  destruct (testG _ _ _) as [found li]. destruct found; simpl; [|done].
  apply (fold_left_inv
           (λ st, parseInv ids0 st ∧ deferredFrom courseData (secondPass st)));
    [|done].
  intros st' section Hsec. by apply firstPassSection_inv.
Qed.

Lemma initialState_inv courseData :
  parseInv (list_to_set (map cid courseData)) (initialState courseData)
  ∧ deferredFrom courseData (secondPass (initialState courseData)).
Proof.
  assert (∀ e, EEdge e ∉ elements (initialState courseData)) as Hno.
  { intros e (c & Hc & _)%list_elem_of_fmap. done. }
  split; [split_and!|].
  - intros e He. by destruct (Hno e).
  - intros i j e e' Hi. destruct (Hno e). by eapply list_elem_of_lookup_2.
  - intros e e' He. by destruct (Hno e).
  - intros x Hx. by left.
  - intros k secs sec Hin. by inversion Hin.
Qed.

Lemma firstPass_inv courseData :
  parseInv (list_to_set (map cid courseData)) (firstPass courseData)
  ∧ deferredFrom courseData (secondPass (firstPass courseData)).
Proof.
  unfold firstPass.
  apply (fold_left_inv
           (λ st, parseInv (list_to_set (map cid courseData)) st
                  ∧ deferredFrom courseData (secondPass st)));
    [|apply initialState_inv].
  intros st c Hc. by apply firstPassCourse_inv.
Qed.

Lemma accepted_notDash section alts :
  accepted section = Some alts → Forall (StrForall notDash) alts.
Proof.
  unfold accepted, match_. intros Hacc.
  destruct (exec TRIPLE_EITHER_REGEX section) as [[ms rest]|] eqn:Ht; simpl in Hacc.
  - destruct (length ms =? _); [|done]. injection Hacc as <-.
    pose proof (exec_captures notDash _ _ _ _ TRIPLE_notDash Ht) as HF.
    destruct ms; [done|]. by apply Forall_cons in HF as [_ ?].
  - destruct (exec DOUBLE_EITHER_REGEX section) as [[ms rest]|] eqn:Hd;
      simpl in Hacc; [|done].
    destruct (length ms =? _); [|done]. injection Hacc as <-.
    pose proof (exec_captures notDash _ _ _ _ DOUBLE_notDash Hd) as HF.
    destruct ms; [done|]. by apply Forall_cons in HF as [_ ?].
Qed.

Lemma secondPassSection_inv nanoid ids0 mode course st section :
  (∀ alts, accepted section = Some alts → ∀ m, m ∈ alts → m ∉ ids0) →
  parseInv ids0 st →
  parseInv ids0 (secondPassSection nanoid mode course st section).
Proof.
  intros Habs Hinv.
  assert (parseInv ids0 (withLastIndex st 0)) as Hinv0 by done.
  destruct (accepted section) as [alts|] eqn:Hacc.
  - rewrite (secondPassSection_accepted _ _ _ _ _ _ Hacc). cbv zeta.
    rewrite filter_absent.
    + destruct (String.eqb mode "aggressively"); [|done].
      by apply addEdges_inv.
    + intros m Hm Hin. destruct Hinv as (_ & _ & _ & Hfrom).
      destruct (Hfrom m Hin) as [H0|Hd].
      * by apply (Habs alts eq_refl m).
      * apply Hd. eapply Forall_forall; [|exact Hm].
        by eapply accepted_notDash.
  - rewrite secondPassSection_rejected by done.
    destruct (String.eqb mode "aggressively"); [|done].
    by apply addEdges_inv.
Qed.

Lemma alternativesAbsent_spec courseData c section alts m :
  alternativesAbsent courseData = true →
  c ∈ courseData → section ∈ splitOn ";" (prerequisite c) →
  accepted section = Some alts → m ∈ alts →
  m ∉ (list_to_set (map cid courseData) : gset string).
Proof.
  unfold alternativesAbsent. rewrite forallb_forall.
  intros Hall Hc%list_elem_of_In Hsec%list_elem_of_In Hacc Hm%list_elem_of_In.
  specialize (Hall c Hc). rewrite forallb_forall in Hall.
  specialize (Hall section Hsec). rewrite Hacc, forallb_forall in Hall.
  specialize (Hall m Hm). apply negb_true_iff, bool_decide_eq_false in Hall.
  by rewrite elem_of_list_to_set.
Qed.

(** C2, as the code has it. When no accepted either-clause names a course
    of the list (so that every edge is pushed by [addEdges]), the element
    list of [generateInitialElements] has, for either mode, at most one
    edge per ordered pair of ids, and holds an edge together with its
    reverse only when the two are one self-loop [a -> a], which a course
    naming itself in a single-course clause does get. *)
Theorem guarded_edges_unique nanoid courseData mode :
  alternativesAbsent courseData = true →
  onePerPair (generateInitialElements nanoid courseData mode)
  ∧ noReversePair (generateInitialElements nanoid courseData mode).
Proof.
  intros Habs. unfold generateInitialElements. cbv zeta.
  destruct (firstPass_inv courseData) as [Hinv Hdef].
  assert (∀ sp st,
            deferredFrom courseData sp →
            parseInv (list_to_set (map cid courseData)) st →
            parseInv (list_to_set (map cid courseData))
              (fold_left (secondPassCourse nanoid mode) sp st)) as Hfold.
  { induction sp as [|[k secs] sp IH]; intros st Hd Hi; [done|].
    simpl. apply IH.
    - intros k' secs' sec Hin Hsec. eapply Hd; [by right|done].
    - unfold secondPassCourse. simpl.
      apply (fold_left_inv (parseInv (list_to_set (map cid courseData))));
        [|done].
      intros st' sec Hsec Hinv'. apply secondPassSection_inv; [|done].
      intros alts Hacc m Hm.
      destruct (Hd k secs sec) as (c & Hc & Hs); [left|done|].
      by eapply alternativesAbsent_spec. }
  destruct (Hfold _ _ Hdef Hinv) as (_ & ? & ? & _). done.
Qed.

Lemma guarded_edges_unique_witness :
  onePerPair
    (generateInitialElements Examples.nano
       [Examples.courseRecord "BIOL 180" "BIOL 200";
        Examples.courseRecord "BIOL 200" "BIOL 180; either CHEM 142 or CHEM 145";
        Examples.courseRecord "BIOL 220" "BIOL 180 and BIOL 200"]
       "aggressively").
Proof.
  apply (guarded_edges_unique Examples.nano
           [Examples.courseRecord "BIOL 180" "BIOL 200";
            Examples.courseRecord "BIOL 200" "BIOL 180; either CHEM 142 or CHEM 145";
            Examples.courseRecord "BIOL 220" "BIOL 180 and BIOL 200"]
           "aggressively").
  vm_compute. reflexivity.
Defined.

(** C2, as stated, fails: a course whose prerequisite names the course
    itself gets the self-loop. *)
Lemma course_naming_itself_gets_self_loop :
  ∃ e, EEdge e ∈ generateInitialElements Examples.nano
                   [Examples.courseRecord "CSE 142" "CSE 142"] "conservative"
       ∧ source e = "CSE 142" ∧ target e = "CSE 142".
Proof.
  exists (newEdge "CSE 142" "CSE 142" (Some "CSE 142 -> CSE 142")).
  split; [|done]. vm_compute. apply list_elem_of_In. right. left. reflexivity.
Qed.

(** The two branches of the second pass that push an edge for an
    alternative already among the elements do not consult [elementIds]:
    the same edge can be pushed twice, and against an existing reverse
    edge. *)
Lemma unchecked_alternative_edges :
  map elemId
    (generateInitialElements Examples.nano
       [Examples.courseRecord "A 100" "B 100 or C 100; B 100 or C 100";
        Examples.courseRecord "B 100" "A 100"] "conservative")
  = ["A 100"; "B 100"; "A 100 -> B 100"; "B 100 -> A 100"; "B 100 -> A 100"].
Proof. vm_compute. reflexivity. Qed.
End ParserFacts.

(** ** Node metadata *)

Section MetaFacts.
Import Flow Meta Props.

Lemma edgesOf_elem (els : list Element) (e : FlowEdge) :
  e ∈ edgesOf els ↔ EEdge e ∈ els.
Proof.
  unfold edgesOf. rewrite list_elem_of_omap. split.
  - intros ([n|e'] & Hin & Heq); simplify_eq. done.
  - intros Hin. exists (EEdge e). done.
Qed.

Lemma outgoingNodes_elem (els : list Element) (x : Element) (v : string) :
  isNode x = true →
  v ∈ outgoingNodes (newData x els)
  ↔ (∃ y, y ∈ els ∧ elemId y = v) ∧ hasEdge els (elemId x) v.
Proof.
  intros Hx. unfold newData, getOutgoers. simpl. rewrite Hx.
  rewrite list_elem_of_fmap. split.
  - intros (y & -> & Hy). apply list_elem_of_filter in Hy as [Hin Hy].
    split; [eauto|].
    apply list_elem_of_fmap in Hin as (e & Ht & He).
    apply list_elem_of_filter in He as [Hs He].
    exists e. by rewrite <- edgesOf_elem.
  - intros [(y & Hy & <-) (e & He & Hs & Ht)]. exists y. split; [done|].
    apply list_elem_of_filter. split; [|done].
    apply list_elem_of_fmap. exists e. split; [done|].
    apply list_elem_of_filter. by rewrite edgesOf_elem.
Qed.

Lemma incomingNodes_elem (els : list Element) (x : Element) (u : string) :
  isNode x = true →
  u ∈ incomingNodes (newData x els)
  ↔ (∃ y, y ∈ els ∧ elemId y = u) ∧ hasEdge els u (elemId x).
Proof.
  intros Hx. unfold newData, getIncomers. simpl. rewrite Hx.
  rewrite list_elem_of_fmap. split.
  - intros (y & -> & Hy). apply list_elem_of_filter in Hy as [Hin Hy].
    split; [eauto|].
    apply list_elem_of_fmap in Hin as (e & Ht & He).
    apply list_elem_of_filter in He as [Hs He].
    exists e. by rewrite <- edgesOf_elem.
  - intros [(y & Hy & <-) (e & He & Hs & Ht)]. exists y. split; [done|].
    apply list_elem_of_filter. split; [|done].
    apply list_elem_of_fmap. exists e. split; [done|].
    apply list_elem_of_filter. by rewrite edgesOf_elem.
Qed.

Lemma outgoingEdges_elem (els : list Element) (x : Element) (id : string) :
  id ∈ outgoingEdges (newData x els)
  ↔ ∃ e, EEdge e ∈ els ∧ eid e = id ∧ source e = elemId x.
Proof.
  unfold newData, getOutgoingEdges, getConnectedEdges. simpl.
  rewrite list_elem_of_fmap. split.
  - intros (e & -> & He). apply list_elem_of_filter in He as [Hs He].
    apply list_elem_of_filter in He as [_ He].
    exists e. by rewrite <- edgesOf_elem.
  - intros (e & He & <- & Hs). exists e. split; [done|].
    apply list_elem_of_filter. split; [done|].
    apply list_elem_of_filter. rewrite edgesOf_elem. split; [|done].
    left. rewrite Hs. left.
Qed.

Lemma incomingEdges_elem (els : list Element) (x : Element) (id : string) :
  id ∈ incomingEdges (newData x els)
  ↔ ∃ e, EEdge e ∈ els ∧ eid e = id ∧ target e = elemId x.
Proof.
  unfold newData, getIncomingEdges, getConnectedEdges. simpl.
  rewrite list_elem_of_fmap. split.
  - intros (e & -> & He). apply list_elem_of_filter in He as [Hs He].
    apply list_elem_of_filter in He as [_ He].
    exists e. by rewrite <- edgesOf_elem.
  - intros (e & He & <- & Hs). exists e. split; [done|].
    apply list_elem_of_filter. split; [done|].
    apply list_elem_of_filter. rewrite edgesOf_elem. split; [|done].
    right. rewrite Hs. left.
Qed.

(** The record of a node depends on the node through its id only. *)
Lemma newData_id (els : list Element) (x y : Element) :
  isNode x = true → isNode y = true → elemId x = elemId y →
  newData x els = newData y els.
Proof.
  intros Hx Hy Hid.
  unfold newData, getIncomers, getOutgoers, getIncomingEdges,
    getOutgoingEdges, getConnectedEdges.
  simpl. by rewrite Hx, Hy, Hid.
Qed.

Lemma collect_fold (els l : list Element) :
  Forall (λ x, isNode x = true) l →
  let acc :=
    fold_left
      (λ (acc : gmap string NodeMeta * list string) node,
         let d := newData node els in
         (<[elemId node := d]> (fst acc),
          if length (incomingNodes d) =? 0
          then snd acc ++ [elemId node] else snd acc))
      l (∅, []) in
  (∀ k m, acc.1 !! k = Some m
          ↔ ∃ x, x ∈ l ∧ elemId x = k ∧ m = newData x els)
  ∧ (∀ r, r ∈ acc.2
          ↔ ∃ x, x ∈ l ∧ elemId x = r
                 ∧ incomingNodes (newData x els) = []).
Proof.
  induction l as [|x l IH] using rev_ind; intros Hall; cbv zeta.
  - simpl. split.
    + intros k m. split; [done|]. intros (x & Hx & _). by inversion Hx.
    + intros r. split; [by inversion 1|].
      intros (x & Hx & _). by inversion Hx.
  - apply Forall_app in Hall as [Hl Hx]. rewrite Forall_singleton in Hx.
    destruct (IH Hl) as [IHm IHr]. clear IH.
    rewrite fold_left_app. simpl. split.
    + intros k m. destruct (decide (elemId x = k)) as [<-|Hne].
      * rewrite lookup_insert_eq. split.
        -- intros [= <-]. exists x. split; [|done].
           apply elem_of_app. right. left.
        -- intros (y & Hy & Hid & ->). f_equal.
           apply newData_id; [done| |done].
           apply elem_of_app in Hy as [Hy|Hy].
           ++ by eapply Forall_forall in Hy; [|exact Hl].
           ++ apply list_elem_of_singleton in Hy. by subst.
      * rewrite lookup_insert_ne by done. rewrite IHm. split.
        -- intros (y & Hy & ?). exists y. split; [|done].
           apply elem_of_app. by left.
        -- intros (y & Hy & Hid & ->). exists y. split; [|done].
           apply elem_of_app in Hy as [Hy|Hy]; [done|].
           apply list_elem_of_singleton in Hy. by subst.
    + intros r.
      assert (r ∈ (if length (incomingNodes (newData x els)) =? 0
                   then (fold_left
                      (λ (acc : gmap string NodeMeta * list string) node,
                         let d := newData node els in
                         (<[elemId node := d]> (fst acc),
                          if length (incomingNodes d) =? 0
                          then snd acc ++ [elemId node] else snd acc))
                      l (∅, [])).2 ++ [elemId x]
                   else (fold_left
                      (λ (acc : gmap string NodeMeta * list string) node,
                         let d := newData node els in
                         (<[elemId node := d]> (fst acc),
                          if length (incomingNodes d) =? 0
                          then snd acc ++ [elemId node] else snd acc))
                      l (∅, [])).2)
              ↔ (∃ y, y ∈ l ∧ elemId y = r
                      ∧ incomingNodes (newData y els) = [])
                ∨ (elemId x = r ∧ incomingNodes (newData x els) = []))
        as ->.
      { destruct (length _ =? 0) eqn:Hlen.
        - apply Nat.eqb_eq, length_zero_iff_nil in Hlen.
          rewrite elem_of_app, IHr, list_elem_of_singleton. naive_solver.
        - apply Nat.eqb_neq in Hlen. rewrite IHr. split; [by left|].
          intros [?|[_ Hnil]]; [done|]. by rewrite Hnil in Hlen. }
      split.
      * intros [(y & Hy & ?)|[? ?]].
        -- exists y. split; [|done]. apply elem_of_app. by left.
        -- exists x. split; [|done]. apply elem_of_app. right. left.
      * intros (y & Hy & Hid & Hnil).
        apply elem_of_app in Hy as [Hy|Hy]; [left; eauto|].
        apply list_elem_of_singleton in Hy. subst. by right.
Qed.

Lemma collect_spec (els : list Element) :
  (∀ k m, (collect els).1 !! k = Some m
          ↔ ∃ x, x ∈ els ∧ isNode x = true ∧ elemId x = k
                 ∧ m = newData x els)
  ∧ (∀ r, r ∈ (collect els).2
          ↔ ∃ x, x ∈ els ∧ isNode x = true ∧ elemId x = r
                 ∧ incomingNodes (newData x els) = []).
Proof.
  destruct (collect_fold els (filter (λ x, isNode x = true) els))
    as [Hm Hr].
  { apply Forall_forall. intros x Hx.
    by apply list_elem_of_filter in Hx as [? _]. }
  unfold collect. split.
  - intros k m. rewrite Hm. split.
    + intros (x & [? ?]%list_elem_of_filter & ?). eauto 10.
    + intros (x & ? & ? & ?). exists x. by rewrite list_elem_of_filter.
  - intros r. rewrite Hr. split.
    + intros (x & [? ?]%list_elem_of_filter & ?). eauto 10.
    + intros (x & ? & ? & ?). exists x. by rewrite list_elem_of_filter.
Qed.

Lemma collect_size (els : list Element) :
  size (collect els).1 ≤ length els.
Proof.
  unfold collect.
  etrans; [|apply (length_filter (λ x, isNode x = true) els)].
  generalize (filter (λ x, isNode x = true) els) as l.
  induction l as [|x l IH] using rev_ind; [done|].
  rewrite fold_left_app, length_app.
  set (acc := fold_left _ l _) in *. simpl.
  destruct (acc.1 !! elemId x) eqn:Hk;
    [rewrite map_size_insert_Some by done
    |rewrite map_size_insert_None by done]; lia.
Qed.

Lemma withDepth_withDepth (m : NodeMeta) (a b : nat) :
  withDepth (withDepth m a) b = withDepth m b.
Proof. done. Qed.

Lemma edgeIdsApart_spec (els : list Element) (e e' : FlowEdge) :
  edgeIdsApart els = true → EEdge e ∈ els → EEdge e' ∈ els →
  eid e ≠ source e' ∧ eid e ≠ target e'.
Proof.
  unfold edgeIdsApart. rewrite forallb_forall.
  intros Hall He%edgesOf_elem%list_elem_of_In He'%edgesOf_elem%list_elem_of_In.
  specialize (Hall e He). rewrite forallb_forall in Hall.
  specialize (Hall e' He').
  apply andb_prop in Hall as [H1%negb_true_iff%String.eqb_neq
                                H2%negb_true_iff%String.eqb_neq].
  done.
Qed.

Lemma topoRanked_acyclic (rank : string → nat) (els : list Element) :
  topoRanked rank els = true → acyclic els.
Proof.
  unfold topoRanked. rewrite forallb_forall. intros Hall.
  assert (∀ u v, tc (hasEdge els) u v → rank u < rank v) as Hlt.
  { intros u v Htc. induction Htc as [u v (e & He & <- & <-)
                                     |u w v (e & He & <- & <-) _ IH].
    - apply Nat.ltb_lt, Hall, list_elem_of_In. by apply edgesOf_elem.
    - etrans; [|exact IH].
      apply Nat.ltb_lt, Hall, list_elem_of_In. by apply edgesOf_elem. }
  intros u Hu. apply Hlt in Hu. lia.
Qed.
End MetaFacts.

(** *** Depth discovery on an acyclic array *)

Section Depths.
Import Flow Meta Props.
Variable els : list Element.
Hypothesis Hacyc : acyclic els.
Hypothesis Hapart : edgeIdsApart els = true.

Lemma inDom_node (k : string) :
  is_Some ((collect els).1 !! k)
  ↔ ∃ x, x ∈ els ∧ isNode x = true ∧ elemId x = k.
Proof.
  destruct (collect_spec els) as [Hm _]. split.
  - intros [m (x & ? & ? & ? & _)%Hm]. eauto.
  - intros (x & ? & ? & ?). exists (newData x els). apply Hm. eauto 10.
Qed.

Lemma outEdge_hasEdge (u v : string) : outEdge els u v → hasEdge els u v.
Proof.
  intros (x & Hx & Hn & <- & Hv).
  by apply outgoingNodes_elem in Hv as [_ ?].
Qed.

Lemma outEdge_target_node (u v : string) :
  outEdge els u v → is_Some ((collect els).1 !! v).
Proof.
  intros (x & Hx & Hn & <- & Hv).
  apply outgoingNodes_elem in Hv as [(y & Hy & <-) (e & He & _ & Ht)]; [|done].
  apply inDom_node. exists y. split; [done|]. split; [|done].
  destruct y as [n|e']; [done|]. exfalso.
  destruct (edgeIdsApart_spec els e' e Hapart Hy He) as [_ Hne].
  by apply Hne.
Qed.

Lemma outEdge_source_node (u v : string) :
  outEdge els u v → is_Some ((collect els).1 !! u).
Proof. intros (x & Hx & Hn & <- & Hv). apply inDom_node. eauto. Qed.

Lemma tc_outEdge_hasEdge (u v : string) :
  tc (outEdge els) u v → tc (hasEdge els) u v.
Proof.
  induction 1 as [u v H|u w v H _ IH].
  - by apply tc_once, outEdge_hasEdge.
  - eapply tc_l; [|exact IH]. by apply outEdge_hasEdge.
Qed.

Lemma outEdge_acyclic (u : string) : ¬ tc (outEdge els) u u.
Proof. intros H. by apply (Hacyc u), tc_outEdge_hasEdge. Qed.

(** The outgoing nodes the map stores for [u] are the out-neighbours. *)
Lemma outEdge_stored (u v : string) (m : NodeMeta) :
  (collect els).1 !! u = Some m →
  v ∈ outgoingNodes m ↔ outEdge els u v.
Proof.
  destruct (collect_spec els) as [Hm _].
  intros (x & Hx & Hn & <- & ->)%Hm. split.
  - intros Hv. exists x. done.
  - intros (y & Hy & Hny & Hid & Hv).
    by rewrite (newData_id els x y).
Qed.

(** An incoming node of [v] has an edge to [v] as an out-neighbour. *)
Lemma incoming_outEdge (v u : string) (m : NodeMeta) :
  (collect els).1 !! v = Some m → u ∈ incomingNodes m → outEdge els u v.
Proof.
  destruct (collect_spec els) as [Hm _].
  intros (x & Hx & Hn & <- & ->)%Hm Hu.
  apply incomingNodes_elem in Hu as [(y & Hy & <-) (e & He & Hs & Ht)];
    [|done].
  assert (isNode y = true) as Hny.
  { destruct y as [n|e']; [done|]. exfalso.
    destruct (edgeIdsApart_spec els e' e Hapart Hy He) as [Hne _].
    by apply Hne. }
  exists y. split_and!; [done..|].
  apply outgoingNodes_elem; [done|]. split; [eauto|]. by exists e.
Qed.

Lemma outEdge_incoming (u v : string) (m : NodeMeta) :
  (collect els).1 !! v = Some m → outEdge els u v → u ∈ incomingNodes m.
Proof.
  destruct (collect_spec els) as [Hm _].
  intros (x & Hx & Hn & <- & ->)%Hm (y & Hy & Hny & <- & Hv).
  apply outgoingNodes_elem in Hv as [_ He]; [|done].
  apply incomingNodes_elem; [done|]. split; [eauto|done].
Qed.

Lemma stack_bound (stack : list string) :
  NoDup stack → (∀ s, s ∈ stack → is_Some ((collect els).1 !! s)) →
  length stack ≤ size (collect els).1.
Proof.
  intros Hnd Hin.
  rewrite <- (size_list_to_set (C:=gset string) stack Hnd).
  rewrite <- (size_dom (D:=gset string) (collect els).1).
  apply subseteq_size. intros s Hs%elem_of_list_to_set.
  apply elem_of_dom. by apply Hin.
Qed.

Lemma forEach_cons {A S} (body : S → A → result S) x xs acc :
  forEach body (x :: xs) acc = (acc' ← body acc x; forEach body xs acc').
Proof. reflexivity. Qed.

Lemma discoverMaxDepths_S fuel u d (nd : gmap string NodeMeta) :
  discoverMaxDepths (S fuel) u d nd
  = match nd !! u with
    | None => Err TypeError
    | Some start => forEach (dfsBody fuel d) (outgoingNodes start) nd
    end.
Proof. reflexivity. Qed.

Lemma depthsOver_init : depthsOver els (collect els).1.
Proof.
  intros k. unfold depthOf.
  destruct ((collect els).1 !! k) as [m|] eqn:Hk; [|done]. simpl.
  destruct (collect_spec els) as [Hm _].
  apply Hm in Hk as (x & _ & _ & _ & ->). done.
Qed.

Lemma depthsOver_lookup (nd : gmap string NodeMeta) k :
  depthsOver els nd → is_Some ((collect els).1 !! k) →
  ∃ m0, (collect els).1 !! k = Some m0
        ∧ nd !! k = Some (withDepth m0 (depthOf nd k)).
Proof. intros Hover [m0 Hm0]. exists m0. by rewrite Hover, Hm0. Qed.

Lemma depthsOver_raise (nd : gmap string NodeMeta) v o d' :
  depthsOver els nd → nd !! v = Some o →
  depthsOver els (<[v := withDepth o d']> nd)
  ∧ depthOf (<[v := withDepth o d']> nd) v = d'
  ∧ ∀ k, k ≠ v → depthOf (<[v := withDepth o d']> nd) k = depthOf nd k.
Proof.
  intros Hover Hv.
  assert (depthOf (<[v := withDepth o d']> nd) v = d') as Hd.
  { unfold depthOf. by rewrite lookup_insert_eq. }
  assert (∀ k, k ≠ v → depthOf (<[v := withDepth o d']> nd) k = depthOf nd k)
    as Hother.
  { intros k Hk. unfold depthOf. by rewrite lookup_insert_ne. }
  split; [|done]. intros k. destruct (decide (k = v)) as [->|Hne].
  - rewrite Hd, lookup_insert_eq. rewrite Hover in Hv.
    destruct ((collect els).1 !! v) as [m0|]; [|done]. simpl in *.
    by simplify_eq.
  - rewrite Hother, lookup_insert_ne by done. apply Hover.
Qed.

Lemma visitedAt_mono (nd nd' : gmap string NodeMeta) x d :
  (∀ k, depthOf nd k ≤ depthOf nd' k) →
  visitedAt els nd x d → visitedAt els nd' x d.
Proof. intros Hmono Hv y Hy. specialize (Hv y Hy). specialize (Hmono y). lia. Qed.

(** The traversal from [u] at level [d], with the ancestors of [u] on
    the stack: on an acyclic array it returns as soon as the fuel covers
    the nodes not on the stack, and leaves every out-neighbour of [u]
    deeper than [d]. *)
Lemma discoverMaxDepths_ok fuel :
  ∀ u d (nd : gmap string NodeMeta) stack,
    depthsOver els nd →
    is_Some ((collect els).1 !! u) →
    NoDup (u :: stack) →
    (∀ s, s ∈ stack →
          is_Some ((collect els).1 !! s) ∧ tc (outEdge els) s u) →
    size (collect els).1 < fuel + length (u :: stack) →
    settled els nd (u :: stack) →
    ∃ nd', discoverMaxDepths fuel u d nd = Ok nd'
           ∧ grownFrom els u nd nd'
           ∧ visitedAt els nd' u d
           ∧ settled els nd' (u :: stack).
Proof.
  induction fuel as [|fuel IH];
    intros u d nd stack Hover Hu Hnd Hstack Hfuel Hset.
  { exfalso.
    assert (length (u :: stack) ≤ size (collect els).1); [|simpl in *; lia].
    apply stack_bound; [done|].
    intros s [->|Hs]%elem_of_cons; [done|]. by apply Hstack. }
  rewrite discoverMaxDepths_S.
  destruct (depthsOver_lookup nd u Hover Hu) as (m0 & Hm0 & Hndu).
  rewrite Hndu. simpl.
  assert (∀ outs cur,
            (∀ y, y ∈ outs → outEdge els u y) →
            depthsOver els cur → settled els cur (u :: stack) →
            ∃ nd', forEach (dfsBody fuel d) outs cur = Ok nd'
                   ∧ grownFrom els u cur nd'
                   ∧ (∀ y, y ∈ outs → d + 1 ≤ depthOf nd' y)
                   ∧ settled els nd' (u :: stack)) as Hloop.
  { induction outs as [|v rest IHr]; intros cur Houts Hcur Hsetc.
    { exists cur. split; [done|]. split; [by split_and!|].
      split; [|done]. intros y Hy. by inversion Hy. }
    assert (outEdge els u v) as Hv by (apply Houts; left).
    pose proof (outEdge_target_node u v Hv) as Hvdom.
    destruct (depthsOver_lookup cur v Hcur Hvdom) as (mv & Hmv & Hcurv).
    destruct (depthsOver_raise cur v _
                (depth (withDepth mv (depthOf cur v)) `max` (d + 1))
                Hcur Hcurv) as (Hraised & Hdv & Hother).
    simpl in Hraised, Hdv, Hother.
    set (raised := <[v := withDepth (withDepth mv (depthOf cur v))
                             (depthOf cur v `max` (d + 1))]> cur) in *.
    assert (∀ k, depthOf cur k ≤ depthOf raised k) as Hmono1.
    { intros k. destruct (decide (k = v)) as [->|Hne].
      - rewrite Hdv. lia.
      - by rewrite Hother. }
    assert (v ∉ u :: stack) as Hfresh.
    { intros [->|Hs]%elem_of_cons.
      - by apply (outEdge_acyclic u), tc_once.
      - apply (outEdge_acyclic v). eapply tc_r; [|exact Hv].
        by apply Hstack. }
    destruct (IH v (d + 1) raised (u :: stack)) as (nd2 & Hrun & Hg2 & Hvis2 & Hset2).
    - done.
    - done.
    - by apply NoDup_cons.
    - intros s [->|Hs]%elem_of_cons.
      + split; [done|]. by apply tc_once.
      + split; [by apply Hstack|]. eapply tc_r; [|exact Hv]. by apply Hstack.
    - simpl in *. lia.
    - intros x Hx Hpos.
      assert (x ≠ v) as Hxv by (intros ->; apply Hx; left).
      rewrite Hother in Hpos |- * by done.
      apply (visitedAt_mono cur); [done|].
      apply Hsetc; [|done]. intros Hin. apply Hx. by right.
    - destruct Hg2 as (Hover2 & Hmono2 & Hch2).
      assert (settled els nd2 (u :: stack)) as Hset2'.
      { intros x Hx Hpos. destruct (decide (x = v)) as [->|Hxv].
        - assert (depthOf nd2 v = depthOf raised v) as Heq.
          { destruct (decide (depthOf raised v = depthOf nd2 v)); [done|].
            exfalso. by apply (outEdge_acyclic v), Hch2. }
          rewrite Heq, Hdv.
          destruct (decide (depthOf cur v ≤ d + 1)) as [Hle|Hgt].
          + by rewrite Nat.max_r.
          + rewrite Nat.max_l by lia.
            apply (visitedAt_mono cur).
            { intros k. etrans; [apply Hmono1|apply Hmono2]. }
            apply Hsetc; [done|lia].
        - apply Hset2; [|done].
          intros [->|Hin]%elem_of_cons; [done|]. by apply Hx. }
      destruct (IHr nd2) as (nd' & Hrun' & (Hover' & Hmono' & Hch') & Hdeep & Hset').
      { intros y Hy. apply Houts. by right. }
      { done. }
      { done. }
      exists nd'. split.
      { assert (dfsBody fuel d cur v = Ok nd2) as Hbody.
        { unfold dfsBody. rewrite Hcurv. exact Hrun. }
        rewrite forEach_cons, Hbody. exact Hrun'. }
      split; [split_and!|split].
      + done.
      + intros k. etrans; [apply Hmono1|]. etrans; [apply Hmono2|apply Hmono'].
      + intros k Hne.
        destruct (decide (depthOf nd2 k = depthOf nd' k)) as [E3|N3];
          [|by apply Hch'].
        destruct (decide (depthOf raised k = depthOf nd2 k)) as [E2|N2].
        * destruct (decide (k = v)) as [->|Hkv]; [by apply tc_once|].
          rewrite Hother in E2 by done. congruence.
        * eapply tc_l; [exact Hv|]. by apply Hch2.
      + intros y [->|Hy]%elem_of_cons; [|by apply Hdeep].
        etrans; [|apply Hmono']. etrans; [|apply Hmono2].
        rewrite Hdv. lia.
      + done. }
  destruct (Hloop (outgoingNodes m0) nd) as (nd' & Hrun & Hg & Hdeep & Hset').
  { intros y Hy. by apply (outEdge_stored u y m0). }
  { done. }
  { done. }
  exists nd'. split_and!; [done..| |done].
  intros y Hy. apply Hdeep. by apply (outEdge_stored u y m0).
Qed.

Lemma roots_isRoot (r : string) : r ∈ (collect els).2 ↔ isRoot els r.
Proof.
  destruct (collect_spec els) as [Hm Hr]. rewrite Hr. split.
  - intros (x & Hx & Hn & Hid & Hnil). exists (newData x els).
    split; [|done]. apply Hm. eauto 10.
  - intros (m & (x & Hx & Hn & Hid & ->)%Hm & Hnil). eauto 10.
Qed.

Lemma isRoot_no_outEdge (r w : string) : isRoot els r → ¬ outEdge els w r.
Proof.
  intros (m & Hm & Hnil) Hw.
  pose proof (outEdge_incoming w r m Hm Hw) as Hin.
  rewrite Hnil in Hin. by inversion Hin.
Qed.

Lemma isRoot_unreachable (r w : string) :
  isRoot els r → ¬ tc (outEdge els) w r.
Proof.
  intros Hr Htc. induction Htc as [w r Hw|w y r _ _ IH]; [|by apply IH].
  by apply (isRoot_no_outEdge r w).
Qed.

(** The loop of [newNodeData] over the roots. *)
Lemma roots_loop_ok fuel :
  size (collect els).1 < fuel →
  ∀ rs (P : string → Prop) (nd : gmap string NodeMeta),
    (∀ r, r ∈ rs → isRoot els r) →
    depthsOver els nd → settled els nd [] →
    (∀ r, P r → visitedAt els nd r 0) →
    (∀ r, isRoot els r → depthOf nd r = 0) →
    ∃ nd', forEach (λ nd root, discoverMaxDepths fuel root 0 nd) rs nd = Ok nd'
           ∧ depthsOver els nd' ∧ settled els nd' []
           ∧ (∀ r, P r ∨ r ∈ rs → visitedAt els nd' r 0)
           ∧ (∀ r, isRoot els r → depthOf nd' r = 0).
Proof.
  intros Hfuel.
  induction rs as [|r rs IH]; intros P nd Hroots Hover Hset Hdone Hzero.
  { exists nd. split_and!; try done.
    intros r [?|Hr]; [by apply Hdone|by inversion Hr]. }
  assert (isRoot els r) as Hr by (apply Hroots; left).
  destruct (discoverMaxDepths_ok fuel r 0 nd [])
    as (nd1 & Hrun & (Hover1 & Hmono1 & Hch1) & Hvis1 & Hset1).
  - done.
  - destruct Hr as (m & Hm & _). by exists m.
  - apply NoDup_singleton.
  - intros s Hs. by inversion Hs.
  - simpl. lia.
  - intros x Hx Hpos. apply Hset; [|done]. intros Hin. by inversion Hin.
  - assert (∀ k, isRoot els k → depthOf nd1 k = 0) as Hzero1.
    { intros k Hk. rewrite <- (Hzero k Hk).
      destruct (decide (depthOf nd k = depthOf nd1 k)); [done|].
      exfalso. by apply (isRoot_unreachable k r), Hch1. }
    destruct (IH (λ r', P r' ∨ r' = r) nd1)
      as (nd' & Hrun' & Hover' & Hset' & Hdone' & Hzero').
    + intros r' Hr'. apply Hroots. by right.
    + done.
    + intros x _ Hpos. apply Hset1; [|done].
      intros ->%list_elem_of_singleton. rewrite Hzero1 in Hpos by done. lia.
    + intros r' [Hr'| ->].
      * by apply (visitedAt_mono nd), Hdone.
      * done.
    + done.
    + exists nd'. split.
      { rewrite forEach_cons, Hrun. exact Hrun'. }
      split_and!; try done.
      intros r' [Hr'|[->|Hr']%elem_of_cons]; apply Hdone'; auto.
Qed.

(** On an acyclic array every node that is no root descends from one. *)
Lemma root_ancestor n :
  ∀ x stack,
    is_Some ((collect els).1 !! x) → NoDup (x :: stack) →
    (∀ s, s ∈ stack →
          is_Some ((collect els).1 !! s) ∧ tc (outEdge els) x s) →
    size (collect els).1 < n + length (x :: stack) →
    isRoot els x ∨ ∃ r, isRoot els r ∧ tc (outEdge els) r x.
Proof.
  induction n as [|n IH]; intros x stack Hx Hnd Hstack Hn.
  { exfalso.
    assert (length (x :: stack) ≤ size (collect els).1); [|simpl in *; lia].
    apply stack_bound; [done|].
    intros s [->|Hs]%elem_of_cons; [done|]. by apply Hstack. }
  destruct Hx as [m Hm].
  destruct (incomingNodes m) as [|w ws] eqn:Hin; [left; by exists m|].
  assert (outEdge els w x) as Hw.
  { apply (incoming_outEdge x w m); [done..|]. rewrite Hin. left. }
  assert (w ∉ x :: stack) as Hfresh.
  { intros [->|Hs]%elem_of_cons.
    - by apply (outEdge_acyclic x), tc_once.
    - apply (outEdge_acyclic x). eapply tc_r; [|exact Hw]. by apply Hstack. }
  destruct (IH w (x :: stack)) as [Hroot|(r & Hr & Hreach)].
  - by eapply outEdge_source_node.
  - by apply NoDup_cons.
  - intros s [->|Hs]%elem_of_cons.
    + split; [by exists m|by apply tc_once].
    + split; [by apply Hstack|]. eapply tc_l; [exact Hw|]. by apply Hstack.
  - simpl in *. lia.
  - right. exists w. split; [done|]. by apply tc_once.
  - right. exists r. split; [done|]. eapply tc_r; done.
Qed.

Lemma newNodeData_unfold fuel :
  newNodeData fuel els
  = forEach (λ nd root, discoverMaxDepths fuel root 0 nd)
      (collect els).2 (collect els).1.
Proof. unfold newNodeData. by destruct (collect els). Qed.

Lemma newNodeData_ok fuel :
  length els < fuel →
  ∃ nd, newNodeData fuel els = Ok nd
        ∧ depthsOver els nd
        ∧ (∀ r, isRoot els r → depthOf nd r = 0)
        ∧ (∀ x, is_Some ((collect els).1 !! x) →
                visitedAt els nd x (depthOf nd x)).
Proof.
  intros Hfuel. pose proof (collect_size els) as Hsize.
  rewrite newNodeData_unfold.
  destruct (roots_loop_ok fuel ltac:(lia)
              (collect els).2 (λ _, False) (collect els).1)
    as (nd & Hrun & Hover & Hset & Hdone & Hzero).
  - intros r. apply roots_isRoot.
  - apply depthsOver_init.
  - intros x _ Hpos. exfalso. revert Hpos. unfold depthOf.
    destruct ((collect els).1 !! x) as [m|] eqn:Hm; simpl; [|lia].
    destruct (collect_spec els) as [Hspec _].
    apply Hspec in Hm as (y & _ & _ & _ & ->). simpl. lia.
  - done.
  - intros r (m & Hm & _). unfold depthOf. rewrite Hm. simpl.
    destruct (collect_spec els) as [Hspec _].
    by apply Hspec in Hm as (y & _ & _ & _ & ->).
  - exists nd. split_and!; try done.
    intros x Hx.
    destruct (decide (0 < depthOf nd x)) as [Hpos|Hz].
    { apply Hset; [|done]. intros Hin. by inversion Hin. }
    destruct (root_ancestor (S (length els)) x [])
      as [Hroot|(r & Hr & Hreach)].
    + done.
    + apply NoDup_singleton.
    + intros s Hs. by inversion Hs.
    + simpl. lia.
    + replace (depthOf nd x) with 0 by lia.
      apply Hdone. right. by apply roots_isRoot.
    + exfalso. apply Hz.
      assert (visitedAt els nd r 0) as Hvr.
      { apply Hdone. right. by apply roots_isRoot. }
      clear Hz Hx. revert x Hreach.
      apply (tc_ind_r (λ x, 0 < depthOf nd x)).
      * intros z Hz. specialize (Hvr z Hz). lia.
      * intros y z _ Hyz Hy.
        assert (visitedAt els nd y (depthOf nd y)) as Hvy.
        { apply Hset; [|done]. intros Hin. by inversion Hin. }
        specialize (Hvy z Hyz). lia.
Qed.
End Depths.

Section DepthTheorem.
Import Flow Meta Props.

(** C5. On an acyclic element array (no edge id doubling as an edge
    endpoint), [newNodeData] returns, given fuel beyond the number of
    elements; in its result every node has metadata, every node without
    incoming edges has depth 0, and along every edge [u -> v] between
    nodes the depth grows: [depth v >= depth u + 1]. *)
Theorem newNodeData_depths (els : list Element) (fuel : nat) :
  acyclic els → edgeIdsApart els = true → length els < fuel →
  ∃ nd, newNodeData fuel els = Ok nd
    ∧ (∀ n, ENode n ∈ els → is_Some (nd !! nid n))
    ∧ (∀ n, ENode n ∈ els →
            (∀ e, EEdge e ∈ els → target e ≠ nid n) →
            depthOf nd (nid n) = 0)
    ∧ (∀ e mu mv, EEdge e ∈ els →
            nd !! source e = Some mu → nd !! target e = Some mv →
            depth mu + 1 ≤ depth mv).
Proof.
  intros Hacyc Hapart Hfuel.
  destruct (newNodeData_ok els Hacyc Hapart fuel Hfuel)
    as (nd & Hrun & Hover & Hzero & Hvis).
  assert (∀ k, is_Some (nd !! k) ↔ is_Some ((collect els).1 !! k)) as Hdom.
  { intros k. rewrite (Hover k).
    destruct ((collect els).1 !! k); simpl; split; intros [? ?]; eauto. }
  exists nd. split; [done|]. split_and!.
  - intros n Hn. apply Hdom, inDom_node. exists (ENode n). done.
  - intros n Hn Hnoin. apply Hzero.
    destruct (collect_spec els) as [Hm _].
    exists (newData (ENode n) els). split.
    + apply Hm. exists (ENode n). done.
    + destruct (incomingNodes (newData (ENode n) els)) as [|u us] eqn:Hin;
        [done|]. exfalso.
      assert (u ∈ incomingNodes (newData (ENode n) els)) as Hu
        by (rewrite Hin; left).
      apply incomingNodes_elem in Hu as [_ (e & He & _ & Ht)]; [|done].
      by apply (Hnoin e).
  - intros e mu mv He Hmu Hmv.
    assert (is_Some ((collect els).1 !! source e)) as Hsdom
      by (apply Hdom; eauto).
    assert (is_Some ((collect els).1 !! target e)) as Htdom
      by (apply Hdom; eauto).
    assert (outEdge els (source e) (target e)) as Hout.
    { apply inDom_node in Hsdom as (x & Hx & Hnx & Hidx).
      apply inDom_node in Htdom as (y & Hy & Hny & Hidy).
      exists x. split_and!; [done..|].
      apply outgoingNodes_elem; [done|]. split; [eauto|].
      exists e. by rewrite Hidx. }
    specialize (Hvis (source e) Hsdom (target e) Hout).
    unfold depthOf in Hvis. rewrite Hmu, Hmv in Hvis. simpl in Hvis. lia.
Qed.

Lemma newNodeData_depths_witness :
  ∃ nd, newNodeData 10 (Examples.gateArray "and" "AND-g1") = Ok nd
    ∧ depthOf nd "CSE 142" = 0
    ∧ depthOf nd "AND-g1" = 1
    ∧ depthOf nd "CSE 311" = 2.
Proof.
  destruct (newNodeData_depths (Examples.gateArray "and" "AND-g1") 10)
    as (nd & Hrun & _ & _ & _).
  - apply (topoRanked_acyclic Examples.gateRank). vm_compute. reflexivity.
  - vm_compute. reflexivity.
  - vm_compute. lia.
  - exists nd. split; [exact Hrun|].
    vm_compute in Hrun. injection Hrun as <-.
    vm_compute. repeat split; reflexivity.
Defined.

(** Whatever the array, a successful [newNodeData] returns the initial
    records with other depths. *)
Lemma discoverMaxDepths_depthsOver (els : list Element) fuel :
  ∀ u d (nd nd' : gmap string NodeMeta),
    depthsOver els nd → discoverMaxDepths fuel u d nd = Ok nd' →
    depthsOver els nd'.
Proof.
  induction fuel as [|fuel IH]; intros u d nd nd' Hover Hrun; [done|].
  rewrite discoverMaxDepths_S in Hrun.
  destruct (nd !! u) as [start|]; [|done].
  revert nd Hover Hrun. generalize (outgoingNodes start) as outs.
  induction outs as [|v rest IHr]; intros nd Hover Hrun.
  - simpl in Hrun. by injection Hrun as <-.
  - rewrite forEach_cons in Hrun.
    destruct (dfsBody fuel d nd v) as [nd2|] eqn:Hrec; [|done].
    unfold dfsBody in Hrec.
    destruct (nd !! v) as [o|] eqn:Hv; [|done].
    simpl in Hrun. apply (IHr nd2); [|done].
    apply (IH _ _ _ _ (proj1 (depthsOver_raise els nd v o _ Hover Hv)) Hrec).
Qed.

Lemma newNodeData_depthsOver (els : list Element) fuel nd :
  newNodeData fuel els = Ok nd → depthsOver els nd.
Proof.
  rewrite newNodeData_unfold.
  pose proof (depthsOver_init els) as Hover. revert Hover.
  generalize (collect els).1 as nd0. generalize (collect els).2 as roots.
  induction roots as [|r roots IH]; intros nd0 Hover Hrun.
  - simpl in Hrun. by injection Hrun as <-.
  - rewrite forEach_cons in Hrun.
    destruct (discoverMaxDepths fuel r 0 nd0) as [nd1|] eqn:Hrec; [|done].
    simpl in Hrun. apply (IH nd1); [|done].
    by eapply discoverMaxDepths_depthsOver.
Qed.

Lemma depthsOver_outgoingListed (els : list Element) nd :
  depthsOver els nd → outgoingListed els nd.
Proof.
  intros Hover id md edgeId Hmd Hin. rewrite Hover in Hmd.
  destruct ((collect els).1 !! id) as [m0|] eqn:Hm0; [|done].
  simpl in Hmd. injection Hmd as <-. simpl in Hin.
  destruct (collect_spec els) as [Hm _].
  apply Hm in Hm0 as (x & _ & _ & <- & ->).
  by apply outgoingEdges_elem in Hin.
Qed.

Lemma newNodeData_outgoingListed (els : list Element) fuel nd :
  newNodeData fuel els = Ok nd → outgoingListed els nd.
Proof.
  intros Hrun. by eapply depthsOver_outgoingListed, newNodeData_depthsOver.
Qed.
End DepthTheorem.

(** ** The full recompute pass *)

Section UpdateAll.
Import Flow Meta Status Props.

Lemma forEach_app {A S} (body : S → A → result S) (xs ys : list A) acc :
  forEach body (xs ++ ys) acc = (acc' ← forEach body xs acc; forEach body ys acc').
Proof.
  revert acc. induction xs as [|x xs IH]; intros acc; [done|].
  simpl. destruct (body acc x); simpl; [apply IH|done].
Qed.

(** The counting loop visits the ids of the entries [i .. i + todo - 1]
    of the array that was passed in, in this order, once each. *)
Lemma updateLoop_forEach nd idx (els : list Element) :
  ∀ todo i upd,
    i + todo ≤ length els →
    updateLoop todo i els upd nd idx
    = forEach (λ upd id, updateNodeStatus id upd nd idx)
        (map elemId (take todo (drop i els))) upd.
Proof.
  induction todo as [|todo IH]; intros i upd Hlen; [done|].
  destruct (lookup_lt_is_Some_2 els i ltac:(lia)) as [x Hx].
  simpl. rewrite Hx, (drop_S _ _ _ Hx). simpl.
  destruct (updateNodeStatus _ _ _ _); simpl; [|done].
  apply IH. lia.
Qed.

Lemma sameShape_refl (els : list Element) : sameShape els els.
Proof. split; [done|]. eauto. Qed.

Lemma update_sameShape els upd upd' id nd idx :
  sameShape els upd → updateNodeStatus id upd nd idx = Ok upd' →
  sameShape els upd'.
Proof.
  intros [Hlen Hpos] Hrun.
  destruct (updateNodeStatus_positions _ _ _ _ _ Hrun) as [Hlen' Hpos'].
  split; [congruence|]. intros k x Hx.
  destruct (Hpos k x Hx) as (y & Hy & Hcy).
  destruct (Hpos' k y Hy) as (z & Hz & Hcz & _).
  exists z. split; [done|congruence].
Qed.

Lemma getEdgeStatus_Some (x : Element) : ∃ c, getEdgeStatus (Some x) = Ok c.
Proof.
  unfold getEdgeStatus.
  destruct (COURSE_STATUS_CODES (elemClassName x)) as [[|[|n]]| | |];
    destruct (elemLabel x) as [l|]; try destruct (String.eqb l "CC"); eauto.
Qed.

Lemma mapR_ok {A B} (f : A → result B) (l : list A) :
  (∀ a, a ∈ l → ∃ b, f a = Ok b) → ∃ bs, mapR f l = Ok bs.
Proof.
  induction l as [|a l IH]; intros Hall; [by exists []|].
  destruct (Hall a) as [b Hb]; [left|].
  destruct IH as [bs Hbs]; [intros a' Ha'; apply Hall; by right|].
  exists (b :: bs). simpl. rewrite Hb. simpl. by rewrite Hbs.
Qed.

Lemma newStatusOf_ok ty cur (l : list (option Element)) codes :
  mapR getEdgeStatus l = Ok codes → ∃ s, newStatusOf ty cur l = Ok s.
Proof.
  intros Hcodes. unfold newStatusOf. rewrite Hcodes. simpl.
  destruct (String.eqb ty "course"); [eauto|].
  destruct (String.eqb ty "and"); [eauto|].
  destruct (String.eqb ty "or"); eauto.
Qed.

Lemma clearStatus_node (x : Element) (n : FlowNode) :
  clearStatus x = clearStatus (ENode n) → ∃ n', x = ENode n'.
Proof. destruct x; [eauto|done]. Qed.

Lemma clearStatus_edge (x : Element) (e : FlowEdge) :
  clearStatus x = clearStatus (EEdge e) → ∃ e', x = EEdge e'.
Proof. destruct x; [done|eauto]. Qed.

Section Consistent.
Variable els : list Element.
Variable nd : gmap string NodeMeta.
Hypothesis Hover : depthsOver els nd.
Hypothesis Hnodup : NoDup (map elemId els).

Lemma meta_of_node (n : FlowNode) :
  ENode n ∈ els →
  ∃ md, nd !! nid n = Some md
        ∧ (∀ id, id ∈ incomingEdges md ++ outgoingEdges md →
                 ∃ e, EEdge e ∈ els ∧ eid e = id).
Proof.
  intros Hn. destruct (collect_spec els) as [Hm _].
  assert ((collect els).1 !! nid n = Some (newData (ENode n) els)) as Hm0.
  { apply Hm. exists (ENode n). done. }
  eexists. split; [by rewrite Hover, Hm0|].
  simpl. intros id [Hin|Hout]%elem_of_app.
  - apply incomingEdges_elem in Hin as (e & ? & ? & _). eauto.
  - apply outgoingEdges_elem in Hout as (e & ? & ? & _). eauto.
Qed.

Lemma no_meta_of_edge (e : FlowEdge) : EEdge e ∈ els → nd !! eid e = None.
Proof.
  intros He. rewrite Hover.
  destruct ((collect els).1 !! eid e) as [m|] eqn:Hm; [|done]. exfalso.
  destruct (collect_spec els) as [Hspec _].
  apply Hspec in Hm as (x & Hx & Hnx & Hid & _).
  apply list_elem_of_lookup in He as [i Hi].
  apply list_elem_of_lookup in Hx as [j Hj].
  assert (i = j) as ->.
  { eapply NoDup_lookup; [exact Hnodup| |].
    - by rewrite list_lookup_fmap, Hi.
    - by rewrite list_lookup_fmap, Hj; simpl; rewrite Hid. }
  rewrite Hi in Hj. injection Hj as <-. done.
Qed.

Lemma index_in_shape upd (x : Element) :
  sameShape els upd → x ∈ els →
  ∃ k x', newElemIndexes els !! elemId x = Some k
          ∧ els !! k = Some x ∧ upd !! k = Some x'
          ∧ clearStatus x' = clearStatus x ∧ k < length upd.
Proof.
  intros [Hlen Hpos] [k Hk]%list_elem_of_lookup.
  destruct (Hpos k x Hk) as (x' & Hx' & Hc).
  exists k, x'. split_and!; try done.
  - by apply newElemIndexes_NoDup.
  - by eapply lookup_lt_Some.
Qed.

(** On an array shaped like [els], recomputing a node of [els] succeeds. *)
Lemma node_update_ok upd (n : FlowNode) :
  sameShape els upd → ENode n ∈ els →
  ∃ upd', updateNodeStatus (nid n) upd nd (newElemIndexes els) = Ok upd'.
Proof.
  intros Hshape Hn.
  destruct (index_in_shape upd (ENode n) Hshape Hn)
    as (k & x' & Hidx & Hk & Hupd & Hclear & _).
  destruct (clearStatus_node _ _ Hclear) as [n' ->].
  destruct (meta_of_node n Hn) as (md & Hmd & Hids).
  simpl in Hidx.
  rewrite (updateNodeStatus_unfold _ _ _ _ _ _ _ Hidx Hupd Hmd).
  destruct (mapR_ok getEdgeStatus
              (map (elementAt upd (newElemIndexes els)) (incomingEdges md)))
    as [codes Hcodes].
  { intros a (id & -> & Hid)%list_elem_of_fmap.
    destruct (Hids id) as (e & He & <-); [apply elem_of_app; by left|].
    destruct (index_in_shape upd (EEdge e) Hshape He)
      as (j & y & Hj & _ & Hy & _).
    unfold elementAt. simpl in Hj. rewrite Hj. simpl. rewrite Hy.
    apply getEdgeStatus_Some. }
  destruct (newStatusOf_ok (type n') (nodeStatus (data n')) _ _ Hcodes)
    as [s Hs].
  rewrite Hs. simpl.
  destruct (setNodeStatus_ok (nid n) s upd nd (newElemIndexes els) k n' md)
    as (upd' & Hrun & _); [done..| |eauto].
  apply indexesOk_spec. intros id Hid.
  destruct (Hids id) as (e & He & <-); [apply elem_of_app; by right|].
  destruct (index_in_shape upd (EEdge e) Hshape He)
    as (j & y & Hj & _ & _ & _ & Hlt).
  eauto.
Qed.

(** On such an array, recomputing under the id of an edge throws. *)
Lemma edge_update_fails upd (e : FlowEdge) :
  sameShape els upd → EEdge e ∈ els →
  updateNodeStatus (eid e) upd nd (newElemIndexes els) = Err TypeError.
Proof.
  intros Hshape He.
  destruct (index_in_shape upd (EEdge e) Hshape He)
    as (k & x' & Hidx & _ & Hupd & Hclear & _).
  destruct (clearStatus_edge _ _ Hclear) as [e' ->].
  unfold updateNodeStatus, elementAt. simpl in Hidx.
  rewrite Hidx. simpl. by rewrite Hupd.
Qed.

Lemma nodes_forEach_ok (l : list Element) :
  ∀ upd,
    (∀ x, x ∈ l → isNode x = true ∧ x ∈ els) → sameShape els upd →
    ∃ upd', forEach (λ upd id,
                       updateNodeStatus id upd nd (newElemIndexes els))
              (map elemId l) upd = Ok upd'
            ∧ sameShape els upd'.
Proof.
  induction l as [|x l IH]; intros upd Hl Hshape; [by exists upd|].
  destruct (Hl x) as [Hnx Hx]; [left|].
  destruct x as [n|e]; [|done].
  destruct (node_update_ok upd n Hshape Hx) as [upd1 Hrun].
  destruct (IH upd1) as (upd' & Hrun' & Hshape').
  - intros y Hy. apply Hl. by right.
  - by eapply update_sameShape.
  - exists upd'. split; [|done]. simpl. rewrite Hrun. exact Hrun'.
Qed.

Lemma size_meta :
  size nd = length (filter (λ x, isNode x = true) els).
Proof.
  rewrite <- (size_dom (D:=gset string) nd).
  assert (dom nd
          = list_to_set (map elemId (filter (λ x, isNode x = true) els)))
    as ->.
  { apply set_eq. intros k.
    rewrite elem_of_dom, elem_of_list_to_set, Hover, list_elem_of_fmap.
    destruct (collect_spec els) as [Hm _]. split.
    - intros [md Hmd].
      destruct ((collect els).1 !! k) as [m0|] eqn:Hm0; [|done].
      apply Hm in Hm0 as (x & Hx & Hnx & <- & _).
      exists x. split; [done|]. by apply list_elem_of_filter.
    - intros (x & -> & [Hnx Hx]%list_elem_of_filter).
      assert ((collect els).1 !! elemId x = Some (newData x els)) as ->.
      { apply Hm. eauto. }
      eauto. }
  rewrite size_list_to_set, length_map; [done|].
  eapply sublist_NoDup; [exact Hnodup|].
  apply fmap_sublist, sublist_filter.
Qed.
End Consistent.

Lemma nodesFirst_take (els : list Element) :
  nodesFirst els →
  take (length (filter (λ x, isNode x = true) els)) els
  = filter (λ x, isNode x = true) els.
Proof.
  intros (nodes & edges & -> & Hn & He).
  assert (filter (λ x, isNode x = true) nodes = nodes) as Hfn.
  { clear He. induction nodes as [|x l IH]; [done|].
    apply Forall_cons in Hn as [Hx Hl].
    rewrite filter_cons_True by done. by rewrite IH. }
  assert (filter (λ x, isNode x = true) edges = []) as Hfe.
  { clear Hn Hfn. induction edges as [|x l IH]; [done|].
    apply Forall_cons in He as [Hx Hl].
    rewrite filter_cons_False; [by apply IH|]. by destruct x. }
  rewrite filter_app, Hfn, Hfe, app_nil_r. apply take_app_length.
Qed.

Lemma nodesFirst_or_not (els : list Element) :
  nodesFirst els
  ∨ ∃ pre e post n,
      els = pre ++ EEdge e :: post
      ∧ Forall (λ x, isNode x = true) pre ∧ ENode n ∈ post.
Proof.
  induction els as [|x els IH].
  - left. exists [], []. by split_and!.
  - destruct x as [n|e].
    + destruct IH as [(nodes & edges & -> & Hn & He)
                     |(pre & e & post & n' & -> & Hpre & Hpost)].
      * left. exists (ENode n :: nodes), edges. split_and!; [done| |done].
        by constructor.
      * right. exists (ENode n :: pre), e, post, n'.
        split_and!; [done| |done]. by constructor.
    + destruct (decide (Forall (λ x, isEdge x = true) els)) as [Hall|Hnot].
      * left. exists [], (EEdge e :: els). split_and!; [done..|].
        by constructor.
      * right. apply not_Forall_Exists in Hnot; [|apply _].
        apply Exists_exists in Hnot as (y & Hy & Hny).
        destruct y as [n|e']; [|by destruct Hny].
        exists [], e, els, n. by split_and!.
Qed.

(** C10. With the metadata and the index map of the array (ids pairwise
    distinct): the metadata has one entry per node and none for an edge
    id; [updateAllNodes] calls [updateNodeStatus] on the ids of the first
    [size nodeData] entries, in order, once each, and on no other entry;
    when every node precedes every edge these entries are exactly the
    nodes and the pass returns; otherwise some edge is among them and the
    pass throws a [TypeError]. *)
Theorem updateAllNodes_first_entries els nd idx :
  depthsOver els nd → idx = newElemIndexes els → NoDup (map elemId els) →
  size nd = length (filter (λ x, isNode x = true) els)
  ∧ (∀ e, EEdge e ∈ els → nd !! eid e = None)
  ∧ updateAllNodes els nd idx
    = forEach (λ upd id, updateNodeStatus id upd nd idx)
        (map elemId (take (size nd) els)) els
  ∧ (nodesFirst els →
     take (size nd) els = filter (λ x, isNode x = true) els
     ∧ ∃ els', updateAllNodes els nd idx = Ok els' ∧ sameShape els els')
  ∧ (¬ nodesFirst els → updateAllNodes els nd idx = Err TypeError).
Proof.
  intros Hover -> Hnodup.
  pose proof (size_meta els nd Hover Hnodup) as Hsize.
  assert (updateAllNodes els nd (newElemIndexes els)
          = forEach (λ upd id,
                       updateNodeStatus id upd nd (newElemIndexes els))
              (map elemId (take (size nd) els)) els) as Hcalls.
  { unfold updateAllNodes. rewrite updateLoop_forEach.
    - by rewrite drop_0.
    - rewrite Hsize. simpl. apply length_filter. }
  split; [done|]. split; [by apply no_meta_of_edge|]. split; [done|]. split.
  - intros Hfirst. rewrite Hcalls, Hsize, nodesFirst_take by done.
    split; [done|].
    apply (nodes_forEach_ok els nd Hover Hnodup); [|apply sameShape_refl].
    intros x [? ?]%list_elem_of_filter. done.
  - intros Hnot.
    destruct (nodesFirst_or_not els)
      as [?|(pre & e & post & n & Hels & Hpre & Hpost)]; [done|].
    assert (length pre < size nd) as Hlt.
    { rewrite Hsize, Hels, filter_app, length_app.
      assert (filter (λ x, isNode x = true) pre = pre) as ->.
      { clear -Hpre. induction pre as [|x l IH]; [done|].
        apply Forall_cons in Hpre as [Hx Hl].
        rewrite filter_cons_True by done. by rewrite IH. }
      rewrite filter_cons_False by done.
      assert (0 < length (filter (λ x, isNode x = true) post)); [|lia].
      assert (ENode n ∈ filter (λ x, isNode x = true) post) as Hin
        by (by apply list_elem_of_filter).
      destruct (filter _ post); [by inversion Hin|simpl; lia]. }
    rewrite Hcalls.
    assert (take (size nd) els
            = pre ++ EEdge e :: take (size nd - S (length pre)) post) as ->.
    { rewrite Hels, take_app, take_ge by lia.
      destruct (size nd - length pre) as [|m] eqn:Hm; [lia|].
      simpl. do 3 f_equal. lia. }
    rewrite map_app, forEach_app.
    destruct (nodes_forEach_ok els nd Hover Hnodup pre els)
      as (upd & -> & Hshape).
    + intros x Hx. split.
      * by eapply Forall_forall in Hx; [|exact Hpre].
      * rewrite Hels. apply elem_of_app. by left.
    + apply sameShape_refl.
    + simpl. rewrite (edge_update_fails els nd Hnodup); [done..|].
      rewrite Hels. apply elem_of_app. right. left.
Qed.

Lemma updateAllNodes_first_entries_witness :
  ∃ els',
    updateAllNodes (Examples.gateArray "and" "AND-g1")
      (Examples.metaOf (Examples.gateArray "and" "AND-g1"))
      (newElemIndexes (Examples.gateArray "and" "AND-g1")) = Ok els'
    ∧ sameShape (Examples.gateArray "and" "AND-g1") els'.
Proof.
  destruct (updateAllNodes_first_entries
              (Examples.gateArray "and" "AND-g1")
              (Examples.metaOf (Examples.gateArray "and" "AND-g1"))
              (newElemIndexes (Examples.gateArray "and" "AND-g1")))
    as (_ & _ & _ & Hfirst & _).
  - apply (newNodeData_depthsOver _ 10). vm_compute. reflexivity.
  - reflexivity.
  - apply (bool_decide_unpack _). vm_compute. exact I.
  - apply Hfirst.
    exists (take 5 (Examples.gateArray "and" "AND-g1")),
           (drop 5 (Examples.gateArray "and" "AND-g1")).
    split; [reflexivity|]. split; repeat constructor.
Defined.

(** *** The order [sortElementsByDepth] produces *)

Lemma insertByKey_perm kx l : insertByKey kx l ≡ₚ kx :: l.
Proof.
  induction l as [|ky l IH]; [done|]. simpl.
  destruct (keyLe kx.1 ky.1); [done|].
  rewrite IH. apply Permutation_swap.
Qed.

Lemma stableSortByKey_perm l : stableSortByKey l ≡ₚ l.
Proof.
  induction l as [|kx l IH]; [done|]. simpl.
  by rewrite insertByKey_perm, IH.
Qed.

Lemma insertByKey_finite_first kx l :
  (∃ a b, l = a ++ b ∧ Forall (λ p, is_Some p.1) a
          ∧ Forall (λ p, p.1 = None) b) →
  ∃ a b, insertByKey kx l = a ++ b ∧ Forall (λ p, is_Some p.1) a
         ∧ Forall (λ p, p.1 = None) b.
Proof.
  intros (a & b & -> & Ha & Hb).
  induction a as [|ky a IH]; simpl.
  - destruct kx as [[k|] x].
    + exists [(Some k, x)], b. split_and!; [|by repeat constructor|done].
      destruct b as [|[kb xb] b]; [done|]. simpl.
      apply Forall_cons in Hb as [Hkb _]. simpl in Hkb. by subst.
    + exists [], ((None, x) :: b). split_and!; [|done|by constructor].
      destruct b as [|[kb xb] b]; [done|]. simpl.
      apply Forall_cons in Hb as [Hkb _]. simpl in Hkb. by subst.
  - apply Forall_cons in Ha as [Hky Ha]. specialize (IH Ha).
    destruct (keyLe kx.1 ky.1) eqn:Hle.
    + destruct kx as [[k|] x].
      * exists ((Some k, x) :: ky :: a), b.
        split_and!; [done| |done]. by repeat constructor.
      * destruct Hky as [d Hd]. simpl in Hle. by rewrite Hd in Hle.
    + destruct IH as (a' & b' & -> & Ha' & Hb').
      exists (ky :: a'), b'. split_and!; [done| |done]. by constructor.
Qed.

(** The sorted array has every node before every edge and is a
    rearrangement of the array. *)
Lemma sortElementsByDepth_nodesFirst els nd els' :
  sortElementsByDepth els nd = Ok els' → nodesFirst els' ∧ els' ≡ₚ els.
Proof.
  unfold sortElementsByDepth.
  destruct els as [|x [|y rest]].
  - intros [= <-]. split; [|done]. exists [], []. by split_and!.
  - intros [= <-]. split; [|done]. destruct x.
    + exists [ENode n], []. split_and!; by repeat constructor.
    + exists [], [EEdge e]. split_and!; by repeat constructor.
  - generalize (x :: y :: rest) as els. clear x y rest. intros els.
    destruct (mapR (sortKey nd) els) as [keys|] eqn:Hkeys; [|done].
    simpl. intros [= <-].
    assert (length keys = length els
            ∧ Forall (λ p, is_Some p.1 ↔ isNode p.2 = true) (zip keys els))
      as [Hlen Hkind].
    { revert keys Hkeys. induction els as [|x els IH]; intros keys Hkeys.
      - simpl in Hkeys. injection Hkeys as <-. done.
      - simpl in Hkeys.
        destruct (sortKey nd x) as [k|] eqn:Hk; [|done]. simpl in Hkeys.
        destruct (mapR (sortKey nd) els) as [ks|]; [|done].
        simpl in Hkeys. injection Hkeys as <-.
        destruct (IH ks eq_refl) as [Hl Hf]. split; [simpl; by rewrite Hl|].
        simpl. constructor; [|done]. simpl.
        destruct x as [n|e]; simpl in Hk.
        + destruct (nd !! nid n); [|done]. injection Hk as <-.
          split; [done|eauto].
        + injection Hk as <-. split; [by intros [? ?]|done]. }
    pose proof (stableSortByKey_perm (zip keys els)) as Hperm.
    split.
    + assert (∃ a b, stableSortByKey (zip keys els) = a ++ b
                     ∧ Forall (λ p, is_Some p.1) a
                     ∧ Forall (λ p, p.1 = None) b)
        as (a & b & Hab & Ha & Hb).
      { generalize (zip keys els) as l. clear. intros l.
        induction l as [|kx l IH]; simpl.
        - exists [], []. by split_and!.
        - by apply insertByKey_finite_first. }
      assert (Forall (λ p, is_Some p.1 ↔ isNode p.2 = true) (a ++ b))
        as Hkind'.
      { rewrite <- Hab. by rewrite Hperm. }
      apply Forall_app in Hkind' as [Hka Hkb].
      exists (map snd a), (map snd b). rewrite Hab, map_app.
      split_and!; [done|..].
      * apply Forall_fmap, Forall_forall. intros p Hp. simpl.
        eapply Forall_forall in Ha; [|exact Hp].
        eapply Forall_forall in Hka; [|exact Hp]. by apply Hka.
      * apply Forall_fmap, Forall_forall. intros p Hp. simpl.
        eapply Forall_forall in Hb; [|exact Hp].
        eapply Forall_forall in Hkb; [|exact Hp].
        destruct (p.2) as [n|e]; [|done].
        destruct Hkb as [_ Hk]. destruct (Hk eq_refl) as [d Hd]. congruence.
    + rewrite Hperm. change (map snd (zip keys els)) with ((zip keys els).*2).
      rewrite snd_zip by lia. done.
Qed.
End UpdateAll.

(** ** The shape of the parser's result *)

Section ParserShape.
Import Regex Flow Props ParserProps.
Implicit Types nanoid : nat → string.

Lemma nodeIds_app (a b : list Element) :
  nodeIds (a ++ b) = nodeIds a ++ nodeIds b.
Proof. unfold nodeIds. apply omap_app. Qed.

Lemma nodeIds_elem (els : list Element) (k : string) :
  k ∈ nodeIds els ↔ ∃ n, ENode n ∈ els ∧ nid n = k.
Proof.
  unfold nodeIds. rewrite list_elem_of_omap. split.
  - intros ([n|e] & Hin & Hk); [|done]. exists n. by simplify_eq.
  - intros (n & Hin & <-). by exists (ENode n).
Qed.

Lemma nodeIds_courseNodes (courseData : list CourseData) :
  nodeIds (courseNodes courseData) = map cid courseData.
Proof.
  induction courseData as [|c l IH]; [done|].
  change (cid c :: nodeIds (courseNodes l) = cid c :: map cid l).
  by rewrite IH.
Qed.

Lemma closedEdges_app (els new : list Element) :
  closedEdges els →
  (∀ e, EEdge e ∈ new →
        source e ∈ nodeIds (els ++ new) ∧ target e ∈ nodeIds (els ++ new)
        ∧ eid e = edgeArrowId (source e) (target e)) →
  closedEdges (els ++ new).
Proof.
  intros Hc Hnew e [He|He]%elem_of_app; [|by apply Hnew].
  destruct (Hc e He) as (Hs & Ht & Hid). rewrite nodeIds_app.
  split_and!; [apply elem_of_app; by left..|done].
Qed.

Lemma parserShape_course_node nanoid courseData st k :
  parserShape nanoid courseData st → k ∈ map cid courseData →
  k ∈ nodeIds (elements st).
Proof.
  intros ((rest & Hels & _) & _) Hk.
  rewrite Hels, nodeIds_app, nodeIds_courseNodes. apply elem_of_app. by left.
Qed.

Lemma parserShape_source nanoid courseData st m :
  parserShape nanoid courseData st → StrForall notDash m →
  m ∈ elementIds st → m ∈ map cid courseData.
Proof.
  intros (_ & _ & Hfrom & _) Hm Hin.
  destruct (Hfrom m Hin) as [H0|Hd]; [|done].
  by apply elem_of_list_to_set in H0.
Qed.

Lemma addEdge_shape nanoid courseData tgt st src :
  tgt ∈ map cid courseData → StrForall notDash src →
  parserShape nanoid courseData st →
  parserShape nanoid courseData (addEdge tgt st src).
Proof.
  intros Htgt Hsrc Hsh. rewrite addEdge_guard.
  case_bool_decide as Hg; [|done]. destruct Hg as (Hin & _ & _).
  pose proof (parserShape_source _ _ _ _ Hsh Hsrc Hin) as Hsrc'.
  pose proof (parserShape_course_node _ _ _ _ Hsh Hsrc') as Hs.
  pose proof (parserShape_course_node _ _ _ _ Hsh Htgt) as Ht.
  destruct Hsh as ((rest & Hels & Hgates) & Hclosed & Hfrom & Hkeys).
  split_and!; simpl.
  - exists (rest ++ [arrowEdge tgt src]). split.
    + by rewrite Hels, app_assoc.
    + rewrite filter_app, Hgates. unfold arrowEdge.
      rewrite filter_cons_False by done. by rewrite filter_nil, app_nil_r.
  - apply closedEdges_app; [done|].
    intros e He%list_elem_of_singleton. unfold arrowEdge in He.
    injection He as ->. simpl. rewrite nodeIds_app.
    split_and!; [apply elem_of_app; by left..|done].
  - intros x [Hx|Hx]%elem_of_union.
    + apply elem_of_singleton in Hx as ->. right. apply arrow_has_dash.
    + by apply Hfrom.
  - done.
Qed.

Lemma addEdges_shape nanoid courseData sources tgt st :
  tgt ∈ map cid courseData → Forall (StrForall notDash) sources →
  parserShape nanoid courseData st →
  parserShape nanoid courseData (addEdges sources tgt st).
Proof.
  intros Htgt. unfold addEdges. revert st.
  induction sources as [|m rest IH]; intros st Hnd Hsh; [done|].
  apply Forall_cons in Hnd as [Hm Hrest]. simpl.
  apply IH; [done|]. by apply addEdge_shape.
Qed.

Lemma secondPassPush_key courseId section sp k secs :
  (k, secs) ∈ secondPassPush courseId section sp →
  k = courseId ∨ ∃ secs', (k, secs') ∈ sp.
Proof.
  induction sp as [|[k' v] rest IH]; simpl.
  - intros Hin%list_elem_of_singleton. injection Hin as -> ->. by left.
  - destruct (String.eqb k' courseId).
    + intros [Hin|Hin]%elem_of_cons.
      * injection Hin as -> ->. right. exists v. left.
      * right. exists secs. by right.
    + intros [Hin|Hin]%elem_of_cons.
      * injection Hin as -> ->. right. exists v. left.
      * destruct (IH Hin) as [?|(secs' & ?)]; [by left|].
        right. exists secs'. by right.
Qed.

Lemma firstPassSection_shape nanoid courseData c st section :
  c ∈ courseData →
  parserShape nanoid courseData st →
  parserShape nanoid courseData (firstPassSection (cid c) st section).
Proof.
  intros Hc Hsh. unfold firstPassSection.
  assert (cid c ∈ map cid courseData) as Hcid
    by (apply list_elem_of_fmap; eauto).
  assert (parserShape nanoid courseData (withLastIndex st 0)) as Hsh0 by done.
  pose proof (COURSE_tokens_notDash section) as Htok.
  destruct (matchAll COURSE_REGEX section) as [|m [|m' rest]].
  - done.
  - by apply addEdges_shape.
  - destruct Hsh as (Hpre & Hclosed & Hfrom & Hkeys).
    split_and!; [done..|]. simpl. intros k secs Hin.
    destruct (secondPassPush_key _ _ _ _ _ Hin) as [->|(secs' & Hin')]; eauto.
Qed.

Lemma firstPassCourse_shape nanoid courseData c st :
  c ∈ courseData →
  parserShape nanoid courseData st →
  parserShape nanoid courseData (firstPassCourse st c).
Proof.
  intros Hc Hsh. unfold firstPassCourse.
  destruct (testG _ _ _) as [found li]. destruct found; simpl; [|done].
  apply (fold_left_inv (parserShape nanoid courseData)); [|done].
  intros st' section _. by apply firstPassSection_shape.
Qed.

Lemma initialState_shape nanoid courseData :
  parserShape nanoid courseData (initialState courseData).
Proof.
  split_and!; simpl.
  - exists []. by rewrite app_nil_r.
  - intros e (c & Hc & _)%list_elem_of_fmap. done.
  - intros x Hx. by left.
  - intros k secs Hin. by inversion Hin.
Qed.

Lemma firstPass_shape nanoid courseData :
  parserShape nanoid courseData (firstPass courseData).
Proof.
  unfold firstPass.
  apply (fold_left_inv (parserShape nanoid courseData));
    [|apply initialState_shape].
  intros st c Hc. by apply firstPassCourse_shape.
Qed.

Lemma maybeConcurrent_ends section (e : FlowEdge) :
  source (maybeConcurrent section e) = source e
  ∧ target (maybeConcurrent section e) = target e
  ∧ eid (maybeConcurrent section e) = eid e.
Proof. unfold maybeConcurrent. by destruct (test _ _). Qed.

Lemma filter_nodes_edges {A} (f : A → FlowEdge) (l : list A) :
  filter (λ x, isNode x = true) (map (λ r, EEdge (f r)) l) = [].
Proof.
  induction l as [|r l IH]; [done|]. simpl. by rewrite filter_cons_False.
Qed.

Lemma secondPassSection_shape nanoid courseData mode course st section :
  course ∈ map cid courseData →
  parserShape nanoid courseData st →
  parserShape nanoid courseData
    (secondPassSection nanoid mode course st section).
Proof.
  intros Hcourse Hsh.
  assert (parserShape nanoid courseData (withLastIndex st 0)) as Hsh0 by done.
  destruct (accepted section) as [alts|] eqn:Hacc.
  - rewrite (secondPassSection_accepted _ _ _ _ _ _ Hacc). cbv zeta.
    pose proof (accepted_notDash _ _ Hacc) as Halts.
    assert (∀ req, req ∈ filter (λ m, m ∈ elementIds st) alts →
                   req ∈ map cid courseData) as Hreq.
    { intros req [Hin Hreq]%list_elem_of_filter.
      eapply parserShape_source; [done| |done].
      by eapply Forall_forall. }
    pose proof (parserShape_course_node _ _ _ _ Hsh Hcourse) as Hc.
    destruct (filter (λ m, m ∈ elementIds st) alts)
      as [|req [|req' more]] eqn:Hfil.
    + destruct (String.eqb mode "aggressively"); [|done].
      by apply addEdges_shape.
    + assert (req ∈ nodeIds (elements st)) as Hr.
      { eapply parserShape_course_node; [done|]. apply Hreq. left. }
      destruct Hsh as ((rest & Hels & Hgates) & Hclosed & Hfrom & Hkeys).
      destruct (maybeConcurrent_ends section (newEdge req course None))
        as (Hs & Ht & Hi).
      split_and!; simpl; [| |done..].
      * eexists (rest ++ [_]). split; [by rewrite Hels, app_assoc|].
        rewrite filter_app, Hgates.
        rewrite filter_cons_False by done. by rewrite filter_nil, app_nil_r.
      * apply closedEdges_app; [done|].
        intros e He%list_elem_of_singleton. injection He as ->.
        rewrite Hs, Ht, Hi, nodeIds_app. simpl.
        split_and!; [apply elem_of_app; by left..|done].
    + set (reqs := req :: req' :: more) in *.
      set (orNode := newConditionalNode (nanoid (nanoidCalls st)) "or"
                       ZERO_POSITION).
      assert (∀ r, r ∈ reqs → r ∈ nodeIds (elements st)) as Hr.
      { intros r Hin. eapply parserShape_course_node; [done|]. by apply Hreq. }
      destruct Hsh as ((rest & Hels & Hgates) & Hclosed & Hfrom & Hkeys).
      split_and!; cbn [elements nanoidCalls]; [| |done..].
      * eexists (rest ++ _). split; [rewrite Hels, <- app_assoc; reflexivity|].
        rewrite !filter_app, Hgates, seq_S, map_app. f_equal.
        rewrite filter_cons_True by done.
        rewrite filter_cons_False by done.
        by rewrite (filter_nodes_edges
                      (λ r, maybeConcurrent section
                              (newEdge r (nid orNode) None))).
      * apply closedEdges_app; [done|].
        assert (nid orNode ∈ nodeIds
                  (elements st ++ [ENode orNode;
                     EEdge (newEdge (nid orNode) course None)] ++
                   map (λ r, EEdge (maybeConcurrent section
                                      (newEdge r (nid orNode) None))) reqs))
          as Hgate.
        { rewrite nodeIds_app. apply elem_of_app. right.
          apply nodeIds_elem. exists orNode. split; [left|done]. }
        intros e [He|[He|He]%elem_of_cons]%elem_of_cons; [done| |].
        -- injection He as ->. simpl. split_and!; [done| |done].
           rewrite nodeIds_app. apply elem_of_app. by left.
        -- apply list_elem_of_fmap in He as (r & He & Hin).
           assert (e = maybeConcurrent section (newEdge r (nid orNode) None))
             as -> by congruence.
           destruct (maybeConcurrent_ends section
                       (newEdge r (nid orNode) None)) as (Hs & Ht & Hi).
           rewrite Hs, Ht, Hi. simpl. split_and!; [|done..].
           rewrite nodeIds_app. apply elem_of_app. left. by apply Hr.
  - rewrite secondPassSection_rejected by done.
    destruct (String.eqb mode "aggressively"); [|done].
    apply addEdges_shape; [done|apply COURSE_tokens_notDash|done].
Qed.

Lemma secondPassSection_fields nanoid mode course st section :
  secondPass (secondPassSection nanoid mode course st section)
  = secondPass st.
Proof.
  destruct (accepted section) as [alts|] eqn:Hacc.
  - rewrite (secondPassSection_accepted _ _ _ _ _ _ Hacc). cbv zeta.
    destruct (filter _ alts) as [|req [|req' more]]; [|done..].
    destruct (String.eqb mode "aggressively"); [|done].
    by rewrite addEdges_fields.
  - rewrite secondPassSection_rejected by done.
    destruct (String.eqb mode "aggressively"); [|done].
    by rewrite addEdges_fields.
Qed.

Lemma secondPass_shape nanoid courseData mode sp st :
  (∀ k secs, (k, secs) ∈ sp → k ∈ map cid courseData) →
  parserShape nanoid courseData st →
  parserShape nanoid courseData
    (fold_left (secondPassCourse nanoid mode) sp st).
Proof.
  revert st. induction sp as [|[k secs] sp IH]; intros st Hkeys Hsh; [done|].
  simpl. apply IH; [intros k' secs' Hin; eapply Hkeys; by right|].
  unfold secondPassCourse. simpl.
  apply (fold_left_inv (parserShape nanoid courseData)); [|done].
  intros st' sec _ Hsh'. apply secondPassSection_shape; [|done].
  eapply Hkeys. left.
Qed.

Lemma generateInitialElements_shape nanoid courseData mode :
  ∃ st, generateInitialElements nanoid courseData mode = elements st
        ∧ parserShape nanoid courseData st.
Proof.
  eexists. split; [reflexivity|].
  pose proof (firstPass_shape nanoid courseData) as Hsh.
  apply secondPass_shape; [|done]. by destruct Hsh as (_ & _ & _ & Hkeys).
Qed.

(** X1. In the array [generateInitialElements] returns, whatever the
    course list and the mode, both ends of every edge are ids of nodes of
    the array, and the id of every edge is the arrow id of its source and
    target: the parser leaves no edge dangling. *)
Theorem generateInitialElements_closed nanoid courseData mode :
  ∀ e, EEdge e ∈ generateInitialElements nanoid courseData mode →
    (∃ n, ENode n ∈ generateInitialElements nanoid courseData mode
          ∧ nid n = source e)
    ∧ (∃ n, ENode n ∈ generateInitialElements nanoid courseData mode
            ∧ nid n = target e)
    ∧ eid e = edgeArrowId (source e) (target e).
Proof.
  destruct (generateInitialElements_shape nanoid courseData mode)
    as (st & -> & _ & Hclosed & _).
  intros e He. destruct (Hclosed e He) as (Hs & Ht & Hid).
  apply nodeIds_elem in Hs, Ht. done.
Qed.

Lemma generateInitialElements_closed_witness :
  (∃ n, ENode n ∈ generateInitialElements Examples.nano
                     [Examples.courseRecord "CSE 142" EmptyString;
                      Examples.courseRecord "CSE 143" "CSE 142"]
                     "conservative"
        ∧ nid n = "CSE 142")
  ∧ (∃ n, ENode n ∈ generateInitialElements Examples.nano
                       [Examples.courseRecord "CSE 142" EmptyString;
                        Examples.courseRecord "CSE 143" "CSE 142"]
                       "conservative"
          ∧ nid n = "CSE 143")
  ∧ "CSE 142 -> CSE 143" = edgeArrowId "CSE 142" "CSE 143".
Proof.
  apply (generateInitialElements_closed Examples.nano
           [Examples.courseRecord "CSE 142" EmptyString;
            Examples.courseRecord "CSE 143" "CSE 142"]
           "conservative"
           (newEdge "CSE 142" "CSE 143" (Some "CSE 142 -> CSE 143"))).
  apply list_elem_of_In. vm_compute. tauto.
Defined.

(** X2. The array [generateInitialElements] returns starts with one
    course node per course record, in the order of the records; what
    follows are edges and or-gates only, and the gates are, in order, the
    ones made from the successive values of [nanoid()]. No course node is
    dropped, moved or changed. *)
Theorem generateInitialElements_nodes nanoid courseData mode :
  ∃ rest gates,
    generateInitialElements nanoid courseData mode
    = map (λ c, ENode (newCourseNode c)) courseData ++ rest
    ∧ filter (λ x, isNode x = true) rest
      = map (λ i, ENode (newConditionalNode (nanoid i) "or" ZERO_POSITION))
          (seq 0 gates).
Proof.
  destruct (generateInitialElements_shape nanoid courseData mode)
    as (st & -> & (rest & Hels & Hgates) & _).
  by exists rest, (nanoidCalls st).
Qed.

End ParserShape.

(** ** The two modes of the second pass, and the first pass without
       the state of the pattern object *)

Section ParserModes.
Import Regex Flow Props ParserProps.
Implicit Types nanoid : nat → string.

Lemma addEdges_counters sources target st :
  lastIndex (addEdges sources target st) = lastIndex st
  ∧ nanoidCalls (addEdges sources target st) = nanoidCalls st.
Proof.
  unfold addEdges. revert st.
  induction sources as [|m rest IH]; intros st; [done|].
  simpl. destruct (IH (addEdge target st m)) as [-> ->].
  by destruct (addEdge_fields target st m) as (_ & -> & ->).
Qed.

Lemma addEdges_agree sources target cons aggr :
  Forall (StrForall notDash) sources →
  modesAgree cons aggr → modesAgree cons (addEdges sources target aggr).
Proof.
  intros Hnd (Hsub & Hcalls & Hids).
  destruct (addEdges_spec sources target aggr Hnd)
    as (added & _ & Hels & Hids' & _).
  split_and!.
  - rewrite Hels. by apply sublist_inserts_r.
  - rewrite Hcalls. by destruct (addEdges_counters sources target aggr) as [_ ->].
  - intros m Hm. rewrite Hids', (Hids m Hm), elem_of_union.
    split; [by right|]. intros [Hin|Hin]; [|done].
    apply elem_of_list_to_set, list_elem_of_fmap in Hin as (m' & -> & _).
    by destruct (arrow_has_dash m' target).
Qed.

Lemma filter_agree (alts : list string) (cons aggr : ParseState) :
  Forall (StrForall notDash) alts → modesAgree cons aggr →
  filter (λ m, m ∈ elementIds cons) alts
  = filter (λ m, m ∈ elementIds aggr) alts.
Proof.
  intros Hnd (_ & _ & Hids).
  induction Hnd as [|m rest Hm Hrest IH]; [done|].
  rewrite !filter_cons, IH.
  destruct (decide (m ∈ elementIds cons)) as [Hin|Hin];
    destruct (decide (m ∈ elementIds aggr)) as [Hin'|Hin']; try done.
  - destruct Hin'. by apply Hids.
  - destruct Hin. by apply Hids.
Qed.

Lemma secondPassSection_agree nanoid mode course cons aggr section :
  mode ≠ "aggressively" → modesAgree cons aggr →
  modesAgree (secondPassSection nanoid mode course cons section)
    (secondPassSection nanoid "aggressively" course aggr section).
Proof.
  intros Hmode%String.eqb_neq Hag.
  assert (modesAgree (withLastIndex cons 0) (withLastIndex aggr 0)) as Hag0
    by done.
  destruct (accepted section) as [alts|] eqn:Hacc.
  - rewrite !(secondPassSection_accepted _ _ _ _ _ _ Hacc). cbv zeta.
    pose proof (accepted_notDash _ _ Hacc) as Halts.
    rewrite <- (filter_agree alts cons aggr Halts Hag), Hmode.
    destruct Hag as (Hsub & Hcalls & Hids).
    destruct (filter (λ m, m ∈ elementIds cons) alts) as [|req [|req' more]].
    + simpl. by apply addEdges_agree.
    + split_and!; simpl; [|done..]. by apply sublist_app.
    + rewrite <- Hcalls. split_and!; simpl; [|done..]. by apply sublist_app.
  - rewrite !secondPassSection_rejected by done. rewrite Hmode. simpl.
    apply addEdges_agree; [apply COURSE_tokens_notDash|done].
Qed.

Lemma secondPass_agree nanoid mode sp cons aggr :
  mode ≠ "aggressively" → modesAgree cons aggr →
  modesAgree (fold_left (secondPassCourse nanoid mode) sp cons)
    (fold_left (secondPassCourse nanoid "aggressively") sp aggr).
Proof.
  intros Hmode. revert cons aggr.
  induction sp as [|[k secs] sp IH]; intros cons aggr Hag; [done|].
  simpl. apply IH. unfold secondPassCourse. simpl.
  clear IH. revert cons aggr Hag.
  induction secs as [|sec secs IH]; intros cons aggr Hag; [done|].
  simpl. by apply IH, secondPassSection_agree.
Qed.

(** X3. For one course list and one sequence of [nanoid()] values, the
    array [generateInitialElements] returns in any mode is a sublist of
    the array it returns in the mode "aggressively": that mode only adds
    edges, and removes, replaces or reorders nothing, gates included. *)
Theorem aggressively_only_adds nanoid courseData mode :
  sublist (generateInitialElements nanoid courseData mode)
    (generateInitialElements nanoid courseData "aggressively").
Proof.
  destruct (decide (mode = "aggressively")) as [->|Hmode]; [done|].
  unfold generateInitialElements. cbv zeta.
  by destruct (secondPass_agree nanoid mode
                 (secondPass (firstPass courseData))
                 (firstPass courseData) (firstPass courseData) Hmode)
    as [Hsub _].
Qed.

Lemma classesIn_True (r : regex) : classesIn (λ _, True) r.
Proof. induction r; simpl; auto. Qed.

Lemma matchAt_full (r : regex) (s : string) ms rest :
  matchAt r s = Some (ms, rest) → ∃ full cs, ms = full :: cs.
Proof.
  intros Hm.
  destruct (matchAt_prefix (λ _, True) r s ms rest (classesIn_True r) Hm)
    as (full & cs & -> & _). eauto.
Qed.

Lemma exec_matchAll (r : regex) (s : string) :
  exec r s = None ↔ matchAll r s = [].
Proof.
  unfold matchAll. induction s as [|c t IH]; simpl.
  - destruct (matchAt r EmptyString) as [[ms rest]|] eqn:Hm; [|done].
    destruct (matchAt_full _ _ _ _ Hm) as (full & cs & ->). done.
  - destruct (matchAt r (String c t)) as [[ms rest]|] eqn:Hm; [|done].
    destruct (matchAt_full _ _ _ _ Hm) as (full & cs & ->). done.
Qed.

Lemma testG_fresh (r : regex) (s : string) :
  fst (testG r 0 s) = match matchAll r s with [] => false | _ :: _ => true end
  ∧ (fst (testG r 0 s) = false → snd (testG r 0 s) = 0).
Proof.
  unfold testG. simpl. pose proof (exec_matchAll r s) as Hex.
  destruct (exec r s) as [[ms rest]|].
  - simpl. destruct (matchAll r s) as [|m l]; [|done].
    destruct Hex as [_ Hex]. by specialize (Hex eq_refl).
  - simpl. destruct Hex as [Hex _]. by rewrite (Hex eq_refl).
Qed.

Lemma splitOn_cons (sep : ascii) (s : string) :
  ∃ x xs, splitOn sep s = x :: xs.
Proof.
  induction s as [|c t (x & xs & IH)]; simpl; [eauto|].
  destruct (Ascii.eqb c sep); [eauto|]. rewrite IH. eauto.
Qed.

Lemma firstPassSection_lastIndex courseId st section :
  lastIndex (firstPassSection courseId st section) = 0.
Proof.
  unfold firstPassSection.
  destruct (matchAll COURSE_REGEX section) as [|m [|m' rest]]; [done| |done].
  by destruct (addEdges_counters [m] courseId (withLastIndex st 0)) as [-> _].
Qed.

Lemma firstPassCourse_fresh st c :
  lastIndex st = 0 →
  firstPassCourse st c = firstPassCourseFresh st c
  ∧ lastIndex (firstPassCourse st c) = 0.
Proof.
  intros Hli. unfold firstPassCourse, firstPassCourseFresh, hasCourseId.
  rewrite Hli.
  destruct (testG_fresh COURSE_REGEX (prerequisite c)) as [Hfst Hsnd].
  destruct (testG COURSE_REGEX 0 (prerequisite c)) as [found li].
  simpl in Hfst, Hsnd. rewrite <- Hfst.
  destruct found; simpl.
  - destruct (splitOn_cons ";" (prerequisite c)) as (x & xs & ->). simpl.
    split; [done|].
    change (firstPassSection (cid c) (withLastIndex st li) x)
      with (firstPassSection (cid c) st x).
    generalize (firstPassSection_lastIndex (cid c) st x).
    generalize (firstPassSection (cid c) st x). clear.
    induction xs as [|y ys IH]; intros st' Hst'; [done|].
    simpl. apply IH, firstPassSection_lastIndex.
  - rewrite (Hsnd eq_refl). split; [|done].
    destruct st; simpl in *; by subst.
Qed.

(** X4. The first pass tests each prerequisite text with the one global
    pattern object, whose [lastIndex] survives from call to call. The
    state never leaks from one course into the next: after every course
    [lastIndex] is 0 again, so that each course is skipped exactly when
    its own text holds no course id, and has all its clauses processed
    otherwise, whatever the texts of the courses before it were. *)
Theorem firstPass_lastIndex_reset (courseData : list CourseData) :
  firstPass courseData
  = fold_left firstPassCourseFresh courseData (initialState courseData)
  ∧ lastIndex (firstPass courseData) = 0.
Proof.
  unfold firstPass.
  assert (lastIndex (initialState courseData) = 0) as H0 by done.
  revert H0. generalize (initialState courseData).
  induction courseData as [|c l IH]; intros st Hst; [done|].
  simpl. destruct (firstPassCourse_fresh st c Hst) as [Heq Hli].
  rewrite <- Heq. by apply IH.
Qed.

End ParserModes.

(** ** More on the metadata *)

Section MetaMore.
Import Flow Meta Props GraphProps.

Lemma depthsOver_stored (els : list Element) nd k md :
  depthsOver els nd → nd !! k = Some md →
  ∃ x, x ∈ els ∧ isNode x = true ∧ elemId x = k
       ∧ (collect els).1 !! k = Some (newData x els)
       ∧ md = withDepth (newData x els) (depthOf nd k).
Proof.
  intros Hover Hmd. rewrite Hover in Hmd.
  destruct ((collect els).1 !! k) as [m0|] eqn:Hm0; [|done].
  simpl in Hmd. injection Hmd as <-.
  destruct (collect_spec els) as [Hm _].
  apply Hm in Hm0 as (x & Hx & Hn & Hid & ->). eauto 10.
Qed.

Lemma depthsOver_describes (els : list Element) nd :
  depthsOver els nd → describes els nd.
Proof.
  intros Hover. split.
  - intros k. rewrite (Hover k). split.
    + intros [md Hmd].
      destruct ((collect els).1 !! k) as [m0|] eqn:Hm0; [|done].
      assert (is_Some ((collect els).1 !! k)) as Hs by eauto.
      apply inDom_node in Hs as ([n|e] & Hx & Hn & Hid); [|done]. eauto.
    + intros (n & Hn & Hid).
      assert (is_Some ((collect els).1 !! k)) as [m0 ->].
      { apply inDom_node. exists (ENode n). done. }
      simpl. eauto.
  - intros k md Hmd.
    destruct (depthsOver_stored els nd k md Hover Hmd)
      as (x & Hx & Hn & <- & _ & ->).
    split_and!; simpl; [..|done|done].
    + intros id. apply incomingEdges_elem.
    + intros id. apply outgoingEdges_elem.
    + intros u. by apply incomingNodes_elem.
    + intros v. by apply outgoingNodes_elem.
Qed.

(** X5. Whenever [newNodeData] returns, the map has a record for the id
    of every node of the array and for no other id, and the record of an
    id lists exactly the ids of the edges of the array that end there,
    of those that start there, and of the elements at the other end of
    these edges, with the two [connected] lists their concatenations.
    Cycles, dangling edges and duplicate ids make no difference to
    this. *)
Theorem newNodeData_adjacency (fuel : nat) (els : list Element) nd :
  newNodeData fuel els = Ok nd →
  (∀ k, is_Some (nd !! k) ↔ ∃ n, ENode n ∈ els ∧ nid n = k)
  ∧ ∀ k md, nd !! k = Some md →
      (∀ id, id ∈ incomingEdges md
             ↔ ∃ e, EEdge e ∈ els ∧ eid e = id ∧ target e = k)
      ∧ (∀ id, id ∈ outgoingEdges md
               ↔ ∃ e, EEdge e ∈ els ∧ eid e = id ∧ source e = k)
      ∧ (∀ u, u ∈ incomingNodes md
              ↔ (∃ y, y ∈ els ∧ elemId y = u) ∧ hasEdge els u k)
      ∧ (∀ v, v ∈ outgoingNodes md
              ↔ (∃ y, y ∈ els ∧ elemId y = v) ∧ hasEdge els k v)
      ∧ connectedEdges md = incomingEdges md ++ outgoingEdges md
      ∧ connectedNodes md = incomingNodes md ++ outgoingNodes md.
Proof.
  intros Hrun. apply newNodeData_depthsOver in Hrun.
  exact (depthsOver_describes els nd Hrun).
Qed.

Lemma newNodeData_adjacency_witness :
  "CSE 142 -> AND-g1"
  ∈ incomingEdges
      (default (newData (Examples.gateNode "and") [])
         (Examples.metaOf (Examples.gateArray "and" "AND-g1") !! "AND-g1"))
  ↔ ∃ e, EEdge e ∈ Examples.gateArray "and" "AND-g1"
         ∧ eid e = "CSE 142 -> AND-g1" ∧ target e = "AND-g1".
Proof.
  destruct (newNodeData_adjacency 10 (Examples.gateArray "and" "AND-g1")
              (Examples.metaOf (Examples.gateArray "and" "AND-g1")))
    as [_ Hadj]; [vm_compute; reflexivity|].
  destruct (Examples.metaOf (Examples.gateArray "and" "AND-g1") !! "AND-g1")
    as [md|] eqn:Hmd; [|vm_compute in Hmd; discriminate].
  destruct (Hadj "AND-g1" md Hmd) as (Hin & _). exact (Hin _).
Defined.

Lemma collect_depth0 (els : list Element) (k : string) :
  depthOf (collect els).1 k = 0.
Proof.
  unfold depthOf. destruct ((collect els).1 !! k) as [m|] eqn:Hm; [|done].
  destruct (collect_spec els) as [Hs _].
  apply Hs in Hm as (x & _ & _ & _ & ->). done.
Qed.

Lemma stored_outs (els : list Element) nd u start :
  depthsOver els nd → nd !! u = Some start →
  ∀ v, v ∈ outgoingNodes start ↔ outEdge els u v.
Proof.
  intros Hover Hu v.
  destruct (depthsOver_stored els nd u start Hover Hu)
    as (x & Hx & Hn & Hid & Hc & ->).
  exact (outEdge_stored els u v (newData x els) Hc).
Qed.

Lemma discoverMaxDepths_realised (els : list Element) fuel :
  ∀ u d nd nd',
    depthsOver els nd → pathFromRoot els u d → realised els nd →
    discoverMaxDepths fuel u d nd = Ok nd' → realised els nd'.
Proof.
  induction fuel as [|fuel IH]; intros u d nd nd' Hover Hpath Hreal Hrun;
    [done|].
  rewrite discoverMaxDepths_S in Hrun.
  destruct (nd !! u) as [start|] eqn:Hu; [|done].
  assert (∀ v, v ∈ outgoingNodes start → outEdge els u v) as Hout
    by (intros v; apply (stored_outs els nd u start Hover Hu)).
  clear Hu. revert nd Hover Hreal Hrun.
  induction (outgoingNodes start) as [|v rest IHr]; intros nd Hover Hreal Hrun.
  - simpl in Hrun. by injection Hrun as <-.
  - rewrite forEach_cons in Hrun.
    destruct (dfsBody fuel d nd v) as [nd2|] eqn:Hrec; [|done].
    unfold dfsBody in Hrec. destruct (nd !! v) as [o|] eqn:Hv; [|done].
    simpl in Hrun.
    destruct (depthsOver_raise els nd v o (depth o `max` (d + 1)) Hover Hv)
      as (Hover1 & Hdv & Hdk).
    assert (pathFromRoot els v (d + 1)) as Hpv.
    { destruct Hpath as (r & Hr & Hsteps). exists r. split; [done|].
      rewrite Nat.add_1_r. eapply nsteps_r; [done|]. apply Hout. left. }
    apply (IHr (λ w Hw, Hout w (list_elem_of_further _ _ _ Hw)) nd2);
      [by eapply discoverMaxDepths_depthsOver| |done].
    apply (IH v (d + 1) _ nd2 Hover1 Hpv); [|done].
    intros k Hk. destruct (decide (k = v)) as [->|Hne].
    + rewrite Hdv in *.
      assert (depthOf nd v = depth o) as Hdo
        by (unfold depthOf; by rewrite Hv).
      destruct (decide (d + 1 ≤ depth o)).
      * rewrite Nat.max_l by lia. rewrite <- Hdo. apply Hreal. lia.
      * by rewrite Nat.max_r by lia.
    + rewrite Hdk in * by done. by apply Hreal.
Qed.

Lemma newNodeData_realised (els : list Element) fuel nd :
  newNodeData fuel els = Ok nd → realised els nd.
Proof.
  rewrite newNodeData_unfold.
  assert (realised els (collect els).1) as Hreal.
  { intros k Hk. rewrite collect_depth0 in Hk. lia. }
  assert (∀ r, r ∈ (collect els).2 → isRoot els r) as Hroots
    by (intros r; apply roots_isRoot).
  pose proof (depthsOver_init els) as Hover.
  revert Hover Hreal Hroots.
  generalize (collect els).1 as nd0. generalize (collect els).2 as roots.
  induction roots as [|r roots IH]; intros nd0 Hover Hreal Hroots Hrun.
  - simpl in Hrun. by injection Hrun as <-.
  - rewrite forEach_cons in Hrun.
    destruct (discoverMaxDepths fuel r 0 nd0) as [nd1|] eqn:Hrec; [|done].
    simpl in Hrun. apply (IH nd1); [| |intros; apply Hroots; by right|done].
    + by eapply discoverMaxDepths_depthsOver.
    + eapply discoverMaxDepths_realised; [done| |done..].
      exists r. split; [apply Hroots; left|constructor].
Qed.

(** X6. Whenever [newNodeData] returns, a positive depth is the length
    of an actual path: for an id with depth [d > 0] there is a node
    without incoming nodes from which [d] steps, each from a node to one
    of its outgoing nodes, lead to the id. So an id that no root reaches
    keeps depth 0, on a cycle or not. *)
Theorem newNodeData_depth_is_path (fuel : nat) (els : list Element) nd :
  newNodeData fuel els = Ok nd →
  (∀ k, 0 < depthOf nd k →
        ∃ r, isRoot els r ∧ nsteps (outEdge els) (depthOf nd k) r k)
  ∧ (∀ k, (∀ r, isRoot els r → ¬ rtc (outEdge els) r k) → depthOf nd k = 0).
Proof.
  intros Hrun. pose proof (newNodeData_realised els fuel nd Hrun) as Hreal.
  split; [exact Hreal|].
  intros k Hno. destruct (decide (depthOf nd k = 0)) as [|Hpos]; [done|].
  destruct (Hreal k) as (r & Hr & Hsteps); [lia|].
  destruct (Hno r Hr). by eapply rtc_nsteps_2.
Qed.

Lemma newNodeData_depth_is_path_witness :
  ∃ r, isRoot (Examples.gateArray "and" "AND-g1") r
       ∧ nsteps (outEdge (Examples.gateArray "and" "AND-g1")) 2 r "CSE 311".
Proof.
  destruct (newNodeData_depth_is_path 10 (Examples.gateArray "and" "AND-g1")
              (Examples.metaOf (Examples.gateArray "and" "AND-g1")))
    as [Hpath _]; [vm_compute; reflexivity|].
  apply (Hpath "CSE 311"). vm_compute. lia.
Defined.

Lemma path_depth (els : list Element) nd n u k :
  (∀ x, is_Some ((collect els).1 !! x) → visitedAt els nd x (depthOf nd x)) →
  nsteps (outEdge els) n u k → depthOf nd u + n ≤ depthOf nd k.
Proof.
  intros Hvis. induction 1 as [x|n x y z Hxy Hyz IH]; [lia|].
  pose proof (Hvis x (outEdge_source_node els x y Hxy) y Hxy). lia.
Qed.

(** X7. On an acyclic array (no edge id doubling as an edge endpoint)
    and with fuel beyond the number of elements, the depth [newNodeData]
    gives a node is the length of the longest path that ends at the node:
    no path into the node is longer, and a path of exactly that length
    comes from a root. *)
Theorem newNodeData_longest_path (els : list Element) (fuel : nat) :
  acyclic els → edgeIdsApart els = true → length els < fuel →
  ∃ nd, newNodeData fuel els = Ok nd
    ∧ ∀ k, is_Some (nd !! k) →
        (∀ n u, nsteps (outEdge els) n u k → n ≤ depthOf nd k)
        ∧ ∃ r, isRoot els r ∧ nsteps (outEdge els) (depthOf nd k) r k.
Proof.
  intros Hacyc Hapart Hfuel.
  destruct (newNodeData_ok els Hacyc Hapart fuel Hfuel)
    as (nd & Hrun & Hover & Hzero & Hvis).
  exists nd. split; [done|]. intros k [md Hk]. split.
  - intros n u Hsteps. pose proof (path_depth els nd n u k Hvis Hsteps). lia.
  - destruct (decide (depthOf nd k = 0)) as [H0|Hpos].
    + exists k. rewrite H0. split; [|constructor].
      destruct (depthsOver_stored els nd k md Hover Hk)
        as (x & Hx & Hn & Hid & Hc & _).
      exists (newData x els). split; [done|].
      destruct (incomingNodes (newData x els)) as [|u us] eqn:Hin; [done|].
      exfalso.
      assert (outEdge els u k) as Hout.
      { eapply incoming_outEdge; [done..|]. rewrite Hin. left. }
      pose proof (Hvis u (outEdge_source_node els u k Hout) k Hout). lia.
    + apply (newNodeData_realised els fuel nd Hrun). lia.
Qed.

Lemma newNodeData_longest_path_witness :
  ∃ nd, newNodeData 10 (Examples.gateArray "and" "AND-g1") = Ok nd
    ∧ ∀ n u, nsteps (outEdge (Examples.gateArray "and" "AND-g1")) n u "CSE 311"
             → n ≤ depthOf nd "CSE 311".
Proof.
  destruct (newNodeData_longest_path (Examples.gateArray "and" "AND-g1") 10)
    as (nd & Hrun & Hmax).
  - apply (topoRanked_acyclic Examples.gateRank). vm_compute. reflexivity.
  - vm_compute. reflexivity.
  - vm_compute. lia.
  - exists nd. split; [exact Hrun|].
    destruct (Hmax "CSE 311") as [Hle _]; [|exact Hle].
    apply (depthsOver_describes _ _ (newNodeData_depthsOver _ _ _ Hrun)).
    exists (newCourseNode (Examples.courseRecord "CSE 311" EmptyString)).
    split; [|reflexivity]. apply list_elem_of_In. vm_compute. tauto.
Defined.

Lemma reachesCycle_step (els : list Element) (w : string) :
  reachesCycle els w → ∃ v, outEdge els w v ∧ reachesCycle els v.
Proof.
  intros (u & Hwu & Huu). destruct Hwu as [w|w y u Hwy Hyu].
  - inversion Huu as [? ? Hstep|? y ? Hstep Hrest]; subst.
    + exists w. split; [done|]. exists w. split; [constructor|done].
    + exists y. split; [done|]. exists w. split; [by apply tc_rtc|done].
  - exists y. split; [done|]. by exists u.
Qed.

Lemma forEach_fails {A S} (inv : S → Prop) (body : S → A → result S)
    (xs : list A) (x : A) :
  x ∈ xs →
  (∀ acc y acc', inv acc → body acc y = Ok acc' → inv acc') →
  (∀ acc, inv acc → ∃ f, body acc x = Err f) →
  ∀ acc, inv acc → ∃ f, forEach body xs acc = Err f.
Proof.
  intros Hin Hpres Hfail.
  induction xs as [|y xs IH]; intros acc Hacc; [by inversion Hin|].
  rewrite forEach_cons. apply elem_of_cons in Hin as [<-|Hin].
  - destruct (Hfail acc Hacc) as [f ->]. simpl. eauto.
  - destruct (body acc y) as [acc'|f] eqn:Hb; [|simpl; eauto].
    simpl. apply IH; eauto.
Qed.

Lemma dfsBody_depthsOver (els : list Element) fuel d nd v nd' :
  depthsOver els nd → dfsBody fuel d nd v = Ok nd' → depthsOver els nd'.
Proof.
  intros Hover Hrec. unfold dfsBody in Hrec.
  destruct (nd !! v) as [o|] eqn:Hv; [|done].
  eapply discoverMaxDepths_depthsOver; [|done].
  by apply depthsOver_raise.
Qed.

Lemma discoverMaxDepths_diverges (els : list Element) fuel :
  ∀ u d nd,
    depthsOver els nd → reachesCycle els u →
    ∃ f, discoverMaxDepths fuel u d nd = Err f.
Proof.
  induction fuel as [|fuel IH]; intros u d nd Hover Hcyc; [simpl; eauto|].
  rewrite discoverMaxDepths_S.
  destruct (nd !! u) as [start|] eqn:Hu; [|eauto].
  destruct (reachesCycle_step els u Hcyc) as (v & Huv & Hv).
  apply (forEach_fails (depthsOver els) _ _ v); [| | |done].
  - by apply (stored_outs els nd u start Hover Hu).
  - intros acc y acc' Hacc Hb. by eapply dfsBody_depthsOver.
  - intros acc Hacc. unfold dfsBody.
    destruct (acc !! v) as [o|] eqn:Hv'; [|eauto].
    apply IH; [|done]. by apply depthsOver_raise.
Qed.

(** X8. A cycle that a root reaches keeps [newNodeData] from returning:
    when from a node without incoming nodes, steps from a node to one of
    its outgoing nodes lead to a node that reaches itself, the run fails
    for every bound on the depth of the recursion (the recursion of the
    source has no bound, and does not end). *)
Theorem newNodeData_cycle_diverges (els : list Element) (r u : string) :
  isRoot els r → rtc (outEdge els) r u → tc (outEdge els) u u →
  ∀ fuel, ∃ f, newNodeData fuel els = Err f.
Proof.
  intros Hr Hru Huu fuel. rewrite newNodeData_unfold.
  apply (forEach_fails (depthsOver els) _ _ r).
  - by apply roots_isRoot.
  - intros acc y acc' Hacc Hb. by eapply discoverMaxDepths_depthsOver.
  - intros acc Hacc. apply (discoverMaxDepths_diverges els); [done|].
    by exists u.
  - apply depthsOver_init.
Qed.

Lemma newNodeData_cycle_diverges_witness :
  ∃ f, newNodeData 1000 MoreExamples.loopArray = Err f.
Proof.
  assert (∀ u v x,
            x ∈ MoreExamples.loopArray → isNode x = true → elemId x = u →
            v ∈ outgoingNodes (newData x MoreExamples.loopArray) →
            outEdge MoreExamples.loopArray u v) as Hout
    by (intros u v x; exists x; done).
  apply (newNodeData_cycle_diverges MoreExamples.loopArray "A 100" "B 100").
  - exists (newData (Examples.courseNode "A 100") MoreExamples.loopArray).
    split; vm_compute; reflexivity.
  - eapply rtc_l; [|apply rtc_refl].
    apply (Hout _ _ (Examples.courseNode "A 100")); [|done..|];
      apply list_elem_of_In; vm_compute; tauto.
  - eapply tc_l; [|apply tc_once].
    + apply (Hout _ _ (Examples.courseNode "B 100")); [|done..|];
        apply list_elem_of_In; vm_compute; tauto.
    + apply (Hout _ _ (Examples.courseNode "C 100")); [|done..|];
        apply list_elem_of_In; vm_compute; tauto.
Defined.

End MetaMore.

(** ** More on [sortElementsByDepth] and [newElemIndexes] *)

Section SortMore.
Import Flow Meta Props GraphProps.

Lemma keyLe_total (a b : option nat) : keyLe a b = false → keyLe b a = true.
Proof.
  destruct a as [x|], b as [y|]; simpl; try done.
  intros H%Nat.leb_gt. apply Nat.leb_le. lia.
Qed.

Lemma keyLe_trans (a b c : option nat) :
  keyLe a b = true → keyLe b c = true → keyLe a c = true.
Proof.
  destruct a as [x|], b as [y|], c as [z|]; simpl; try done.
  intros H1%Nat.leb_le H2%Nat.leb_le. apply Nat.leb_le. lia.
Qed.

Lemma insertByKey_sorted kx l :
  StronglySorted keyOrder l → StronglySorted keyOrder (insertByKey kx l).
Proof.
  induction 1 as [|ky rest Hrest IH Hall]; simpl.
  - repeat constructor.
  - destruct (keyLe kx.1 ky.1) eqn:Hle.
    + constructor; [by constructor|]. constructor; [done|].
      eapply Forall_impl; [exact Hall|].
      intros kz Hz. by eapply keyLe_trans.
    + constructor; [done|]. rewrite insertByKey_perm.
      constructor; [by apply keyLe_total|done].
Qed.

Lemma stableSortByKey_sorted l : StronglySorted keyOrder (stableSortByKey l).
Proof.
  induction l as [|kx l IH]; simpl; [constructor|].
  by apply insertByKey_sorted.
Qed.

Lemma StronglySorted_lookup {A} (R : relation A) (l : list A) i j a b :
  StronglySorted R l → i < j → l !! i = Some a → l !! j = Some b → R a b.
Proof.
  intros Hs. revert i j. induction Hs as [|x l Hs IH Hall]; intros i j Hij Hi Hj.
  - done.
  - destruct j as [|j]; [lia|]. simpl in Hj. destruct i as [|i].
    + simpl in Hi. injection Hi as <-.
      eapply Forall_forall; [exact Hall|]. by eapply list_elem_of_lookup_2.
    + simpl in Hi. apply (IH i j); [lia|done..].
Qed.

(** In a stable sort the elements of one key keep their order. *)
Lemma insertByKey_stable (c : option nat) kx l :
  filter (λ p : option nat * Element, p.1 = c) (insertByKey kx l)
  = filter (λ p : option nat * Element, p.1 = c) (kx :: l).
Proof.
  induction l as [|ky rest IH]; simpl; [done|].
  destruct (keyLe kx.1 ky.1) eqn:Hle; [done|].
  rewrite filter_cons, IH, !filter_cons.
  destruct (decide (ky.1 = c)) as [Hy|Hy];
    destruct (decide (kx.1 = c)) as [Hx|Hx]; try done.
  exfalso. rewrite Hx, <- Hy in Hle.
  destruct (ky.1) as [y|]; simpl in Hle; [|done].
  apply Nat.leb_gt in Hle. lia.
Qed.

Lemma stableSortByKey_stable (c : option nat) l :
  filter (λ p : option nat * Element, p.1 = c) (stableSortByKey l)
  = filter (λ p : option nat * Element, p.1 = c) l.
Proof.
  induction l as [|kx l IH]; simpl; [done|].
  by rewrite insertByKey_stable, !filter_cons, IH.
Qed.

Lemma mapR_keys nd (els : list Element) keys :
  mapR (sortKey nd) els = Ok keys →
  Forall (λ p, sortKey nd p.2 = Ok p.1) (zip keys els)
  ∧ map snd (zip keys els) = els.
Proof.
  revert keys. induction els as [|x els IH]; intros keys Hk; simpl in Hk.
  - injection Hk as <-. by split.
  - destruct (sortKey nd x) as [k|] eqn:Hx; [|done]. simpl in Hk.
    destruct (mapR (sortKey nd) els) as [ks|]; [|done]. simpl in Hk.
    injection Hk as <-. destruct (IH ks eq_refl) as [HF Hm].
    split; simpl; [by constructor|by rewrite Hm].
Qed.

Lemma keyed_inDepthOrder nd (p q : option nat * Element) :
  sortKey nd p.2 = Ok p.1 → sortKey nd q.2 = Ok q.1 →
  keyOrder p q → inDepthOrder nd p.2 q.2.
Proof.
  destruct p as [kp [n|e]], q as [kq [m|e']]; unfold keyOrder; simpl;
    unfold depthOf.
  - destruct (nd !! nid n) as [mn|]; [|done].
    destruct (nd !! nid m) as [mm|]; [|done].
    intros [= <-] [= <-]. simpl. by intros ?%Nat.leb_le.
  - done.
  - destruct (nd !! nid m) as [mm|]; [|done]. by intros [= <-] [= <-].
  - done.
Qed.

Lemma filter_hasKey nd key (l : list (option nat * Element)) :
  Forall (λ p, sortKey nd p.2 = Ok p.1) l →
  filter (λ x, hasKey nd key x = true) (map snd l)
  = map snd (filter (λ p : option nat * Element, p.1 = key) l).
Proof.
  induction 1 as [|p l Hp Hl IH]; [done|].
  assert (hasKey nd key p.2 = bool_decide (p.1 = key)) as Hkey
    by (unfold hasKey; by rewrite Hp).
  simpl. rewrite !filter_cons, IH.
  destruct (decide (p.1 = key)) as [Hk|Hk].
  - rewrite decide_True; [done|]. by rewrite Hkey, bool_decide_true.
  - rewrite decide_False; [done|]. by rewrite Hkey, bool_decide_false.
Qed.

(** X9. When [sortElementsByDepth] returns, its result is a permutation
    of the array in the order of the sort keys: a node is never behind an
    edge, and of two nodes the later has the greater or the same depth.
    The sort is stable for this comparator (the difference of two
    infinities counts as 0): the elements of one key, so the nodes of one
    depth and all the edges, keep the order they had. *)
Theorem sortElementsByDepth_order (els : list Element) nd els' :
  sortElementsByDepth els nd = Ok els' →
  els' ≡ₚ els
  ∧ (∀ i j x y, i < j → els' !! i = Some x → els' !! j = Some y →
                inDepthOrder nd x y)
  ∧ (∀ key, filter (λ x, hasKey nd key x = true) els'
            = filter (λ x, hasKey nd key x = true) els).
Proof.
  intros Hsort.
  split; [by apply (sortElementsByDepth_nodesFirst els nd)|].
  unfold sortElementsByDepth in Hsort.
  destruct els as [|a [|b rest]].
  - injection Hsort as <-. split; [|done]. intros i j x y _ Hi. done.
  - injection Hsort as <-. split; [|done].
    intros [|i] [|j] x y Hij Hi Hj; try done; lia.
  - set (l := a :: b :: rest) in *.
    destruct (mapR (sortKey nd) l) as [keys|] eqn:Hkeys; [|done].
    simpl in Hsort. injection Hsort as <-.
    destruct (mapR_keys nd l keys Hkeys) as [HF Hm].
    assert (Forall (λ p, sortKey nd p.2 = Ok p.1)
              (stableSortByKey (zip keys l))) as HF'
      by (by rewrite stableSortByKey_perm).
    pose proof HF' as HF''.
    split.
    + intros i j x y Hij Hi Hj.
      apply list_lookup_fmap_Some in Hi as (p & -> & Hi).
      apply list_lookup_fmap_Some in Hj as (q & -> & Hj).
      rewrite Forall_forall in HF'.
      apply keyed_inDepthOrder.
      * apply HF'. by eapply list_elem_of_lookup_2.
      * apply HF'. by eapply list_elem_of_lookup_2.
      * eapply (StronglySorted_lookup keyOrder _ i j);
          [apply stableSortByKey_sorted|done..].
    + intros key. rewrite (filter_hasKey nd key _ HF'').
      rewrite stableSortByKey_stable, <- (filter_hasKey nd key _ HF).
      by rewrite Hm.
Qed.

Lemma sortElementsByDepth_order_witness :
  [Examples.courseNode "CSE 142"; Examples.courseNode "CSE 143";
   Examples.edgeWith "CSE 142" "CSE 143" "ready" None]
  ≡ₚ MoreExamples.unsortedArray.
Proof.
  destruct (sortElementsByDepth_order MoreExamples.unsortedArray
              (Examples.metaOf MoreExamples.unsortedArray)
              [Examples.courseNode "CSE 142"; Examples.courseNode "CSE 143";
               Examples.edgeWith "CSE 142" "CSE 143" "ready" None])
    as [Hperm _]; [vm_compute; reflexivity|exact Hperm].
Defined.

Lemma mapR_sortKey nd (els : list Element) :
  (∃ keys, mapR (sortKey nd) els = Ok keys
           ∧ ∀ n, ENode n ∈ els → is_Some (nd !! nid n))
  ∨ (mapR (sortKey nd) els = Err TypeError
     ∧ ∃ n, ENode n ∈ els ∧ nd !! nid n = None).
Proof.
  induction els as [|x els IH]; simpl.
  - left. exists []. split; [done|]. intros n Hn. by inversion Hn.
  - destruct x as [n|e]; simpl.
    + destruct (nd !! nid n) as [m|] eqn:Hn; simpl.
      * destruct IH as [(keys & -> & Hall)|(-> & n' & Hn' & Hnone)]; simpl.
        -- left. eexists. split; [done|].
           intros n' [Heq|Hin]%elem_of_cons; [|by apply Hall].
           injection Heq as ->. by rewrite Hn.
        -- right. split; [done|]. exists n'. split; [by right|done].
      * right. split; [done|]. exists n. split; [left|done].
    + destruct IH as [(keys & -> & Hall)|(-> & n' & Hn' & Hnone)]; simpl.
      * left. eexists. split; [done|].
        intros n' [Heq|Hin]%elem_of_cons; [done|by apply Hall].
      * right. split; [done|]. exists n'. split; [by right|done].
Qed.

(** X10. [sortElementsByDepth] reads the depth of a node only inside the
    comparator, which is not called on fewer than two elements: such an
    array is returned as it is, metadata or not. On two or more elements
    the call returns exactly when every node of the array has metadata,
    and throws a [TypeError] otherwise; edges need none. *)
Theorem sortElementsByDepth_fails (els : list Element) nd :
  (length els < 2 → sortElementsByDepth els nd = Ok els)
  ∧ (2 ≤ length els →
     ((∀ n, ENode n ∈ els → is_Some (nd !! nid n))
      → ∃ els', sortElementsByDepth els nd = Ok els')
     ∧ ((∃ n, ENode n ∈ els ∧ nd !! nid n = None)
        → sortElementsByDepth els nd = Err TypeError)).
Proof.
  split.
  - destruct els as [|a [|b rest]]; simpl; [done..|lia].
  - intros Hlen. destruct els as [|a [|b rest]]; simpl in Hlen; [lia..|].
    unfold sortElementsByDepth. set (l := a :: b :: rest).
    destruct (mapR_sortKey nd l) as [(keys & -> & Hall)|(-> & n & Hn & Hnone)].
    + split; [simpl; eauto|].
      intros (n & Hn & Hnone). destruct (Hall n Hn) as [m Hm]. congruence.
    + split; [|done]. intros Hall. destruct (Hall n Hn) as [m Hm]. congruence.
Qed.

(** X11. [newElemIndexes] maps an id to the last position of the array
    that holds an element with this id, and has no entry for an id that
    no element has: a lookup through the map always lands on an element
    with the id asked for, and of two elements with one id the earlier
    one cannot be reached. *)
Theorem newElemIndexes_last (els : list Element) (id : string) :
  match newElemIndexes els !! id with
  | Some k =>
      (∃ x, els !! k = Some x ∧ elemId x = id)
      ∧ ∀ j y, els !! j = Some y → elemId y = id → j ≤ k
  | None => id ∉ map elemId els
  end.
Proof.
  induction els as [|x els IH] using rev_ind.
  - unfold newElemIndexes. simpl. rewrite lookup_empty. by intros ?%elem_of_nil.
  - rewrite newElemIndexes_snoc.
    destruct (decide (elemId x = id)) as [Hid|Hid].
    + rewrite <- Hid, lookup_insert_eq. split.
      * exists x. split; [|done]. by rewrite lookup_app_r, Nat.sub_diag by lia.
      * intros j y Hj _. apply lookup_lt_Some in Hj.
        rewrite length_app in Hj. simpl in Hj. lia.
    + rewrite lookup_insert_ne by done.
      destruct (newElemIndexes els !! id) as [k|].
      * destruct IH as [(x0 & Hk & Hx0) Hlast]. split.
        -- exists x0. split; [|done]. by apply lookup_app_l_Some.
        -- intros j y Hj Hy.
           apply lookup_app_Some in Hj as [Hj|[_ Hj]]; [by eapply Hlast|].
           apply list_lookup_singleton_Some in Hj as [_ <-]. done.
      * rewrite map_app. intros [Hin|Hin]%elem_of_app; [done|].
        simpl in Hin. apply list_elem_of_singleton in Hin. done.
Qed.

End SortMore.

(** ** One call of [updateNodeStatus], in full *)

Section UpdateEffect.
Import Flow Meta Status Props GraphProps StatusProps.

Lemma same_id (els : list Element) (x y : Element) :
  NoDup (map elemId els) → x ∈ els → y ∈ els → elemId x = elemId y → x = y.
Proof.
  intros Hnodup [i Hi]%list_elem_of_lookup [j Hj]%list_elem_of_lookup Hid.
  assert (i = j) as ->.
  { eapply NoDup_lookup; [exact Hnodup| |].
    - by rewrite list_lookup_fmap, Hi.
    - by rewrite list_lookup_fmap, Hj; simpl; rewrite Hid. }
  congruence.
Qed.

Lemma clearStatus_skeleton (x' x : Element) :
  clearStatus x' = clearStatus x →
  elemId x' = elemId x
  ∧ match x', x with
    | ENode n', ENode n => type n' = type n
    | EEdge e', EEdge e => source e' = source e ∧ target e' = target e
                           ∧ label e' = label e
    | _, _ => False
    end.
Proof. destruct x' as [n'|e'], x as [n|e]; simpl; intros [=]; done. Qed.

Lemma updateElem_clear id s x : clearStatus (updateElem id s x) = clearStatus x.
Proof.
  destruct x as [m|e]; simpl; by case_bool_decide.
Qed.

Lemma skeleton_ids (f : Element → Element) (els : list Element) :
  (∀ x, clearStatus (f x) = clearStatus x) →
  map elemId (map f els) = map elemId els.
Proof.
  intros Hf. rewrite map_map. apply map_ext. intros x.
  by destruct (clearStatus_skeleton (f x) x (Hf x)).
Qed.

Lemma newElemIndexes_ids (els upd : list Element) :
  map elemId upd = map elemId els → newElemIndexes upd = newElemIndexes els.
Proof.
  revert upd. induction els as [|x els IH] using rev_ind; intros upd Hids.
  - destruct upd; [done|]. done.
  - destruct upd as [|y upd _] using rev_ind.
    + rewrite map_app in Hids. by destruct (map elemId els).
    + rewrite !map_app in Hids. simpl in Hids.
      apply app_inj_tail in Hids as [Hids Hy].
      rewrite !newElemIndexes_snoc, (IH upd Hids), Hy.
      f_equal. rewrite <- (length_map elemId upd), Hids. apply length_map.
Qed.

Lemma skeleton_edge (f : Element → Element) (els : list Element) id a b :
  (∀ x, clearStatus (f x) = clearStatus x) →
  (∃ e, EEdge e ∈ map f els ∧ eid e = id ∧ source e = a ∧ target e = b)
  ↔ (∃ e, EEdge e ∈ els ∧ eid e = id ∧ source e = a ∧ target e = b).
Proof.
  intros Hf. split.
  - intros (e' & (x & Hx & Hin)%list_elem_of_fmap & Hid & Hs & Ht).
    destruct (clearStatus_skeleton (f x) x (Hf x)) as [Hi Hsk].
    rewrite <- Hx in Hi, Hsk. destruct x as [n|e]; [done|].
    simpl in Hi. destruct Hsk as (Hs' & Ht' & _).
    exists e. split_and!; congruence.
  - intros (e & Hin & Hid & Hs & Ht).
    destruct (clearStatus_skeleton (f (EEdge e)) (EEdge e) (Hf _)) as [Hi Hsk].
    destruct (f (EEdge e)) as [n'|e'] eqn:Hfe; [done|].
    simpl in Hi. destruct Hsk as (Hs' & Ht' & _).
    exists e'. split_and!; [|congruence..].
    rewrite <- Hfe. apply list_elem_of_fmap. eauto.
Qed.

Lemma skeleton_node (f : Element → Element) (els : list Element) k :
  (∀ x, clearStatus (f x) = clearStatus x) →
  (∃ n, ENode n ∈ map f els ∧ nid n = k) ↔ (∃ n, ENode n ∈ els ∧ nid n = k).
Proof.
  intros Hf. split.
  - intros (n' & (x & Hx & Hin)%list_elem_of_fmap & Hk).
    destruct (clearStatus_skeleton (f x) x (Hf x)) as [Hi Hsk].
    rewrite <- Hx in Hi, Hsk. destruct x as [n|e]; [|done].
    exists n. split; [done|]. simpl in Hi. congruence.
  - intros (n & Hin & Hk).
    destruct (clearStatus_skeleton (f (ENode n)) (ENode n) (Hf _)) as [Hi Hsk].
    destruct (f (ENode n)) as [n'|e'] eqn:Hfe; [|done].
    exists n'. split; [|simpl in Hi; congruence].
    rewrite <- Hfe. apply list_elem_of_fmap. eauto.
Qed.

Lemma skeleton_elem (f : Element → Element) (els : list Element) k :
  (∀ x, clearStatus (f x) = clearStatus x) →
  (∃ y, y ∈ map f els ∧ elemId y = k) ↔ (∃ y, y ∈ els ∧ elemId y = k).
Proof.
  intros Hf. split.
  - intros (y' & (x & -> & Hin)%list_elem_of_fmap & Hk).
    exists x. split; [done|].
    destruct (clearStatus_skeleton (f x) x (Hf x)) as [Hi _]. congruence.
  - intros (y & Hin & Hk). exists (f y). split.
    + apply list_elem_of_fmap. eauto.
    + destruct (clearStatus_skeleton (f y) y (Hf y)) as [Hi _]. congruence.
Qed.

Lemma skeleton_hasEdge (f : Element → Element) (els : list Element) u v :
  (∀ x, clearStatus (f x) = clearStatus x) →
  hasEdge (map f els) u v ↔ hasEdge els u v.
Proof.
  intros Hf. unfold hasEdge. split.
  - intros (e & He & Hs & Ht).
    destruct (proj1 (skeleton_edge f els (eid e) u v Hf)) as (e0 & ?);
      [by exists e|]. exists e0. tauto.
  - intros (e & He & Hs & Ht).
    destruct (proj2 (skeleton_edge f els (eid e) u v Hf)) as (e0 & ?);
      [by exists e|]. exists e0. tauto.
Qed.

Lemma describes_skeleton (f : Element → Element) (els : list Element) nd :
  (∀ x, clearStatus (f x) = clearStatus x) →
  describes els nd → describes (map f els) nd.
Proof.
  intros Hf [Hdom Hadj]. split.
  - intros k. by rewrite Hdom, skeleton_node.
  - intros k md Hmd.
    destruct (Hadj k md Hmd) as (HiE & HoE & HiN & HoN & HcE & HcN).
    split_and!; [| | | |done..].
    + intros id. rewrite HiE. split.
      * intros (e & He & Hid & Ht).
        destruct (proj2 (skeleton_edge f els id (source e) k Hf))
          as (e0 & ?); [by exists e|]. exists e0. tauto.
      * intros (e & He & Hid & Ht).
        destruct (proj1 (skeleton_edge f els id (source e) k Hf))
          as (e0 & ?); [by exists e|]. exists e0. tauto.
    + intros id. rewrite HoE. split.
      * intros (e & He & Hid & Hs).
        destruct (proj2 (skeleton_edge f els id k (target e) Hf))
          as (e0 & ?); [by exists e|]. exists e0. tauto.
      * intros (e & He & Hid & Hs).
        destruct (proj1 (skeleton_edge f els id k (target e) Hf))
          as (e0 & ?); [by exists e|]. exists e0. tauto.
    + intros u. by rewrite HiN, skeleton_elem, skeleton_hasEdge.
    + intros v. by rewrite HoN, skeleton_elem, skeleton_hasEdge.
Qed.

Lemma consistent_skeleton (f : Element → Element) els nd idx :
  (∀ x, clearStatus (f x) = clearStatus x) →
  consistent els nd idx → consistent (map f els) nd idx.
Proof.
  intros Hf (Hdesc & Hnodup & ->). split_and!.
  - by apply describes_skeleton.
  - by rewrite skeleton_ids.
  - symmetry. apply newElemIndexes_ids. by apply skeleton_ids.
Qed.

Lemma consistent_index els nd idx (x : Element) :
  consistent els nd idx → x ∈ els →
  ∃ k, idx !! elemId x = Some k ∧ els !! k = Some x.
Proof.
  intros (_ & Hnodup & ->) [k Hk]%list_elem_of_lookup.
  exists k. split; [by apply newElemIndexes_NoDup|done].
Qed.

Lemma consistent_elementAt els nd idx (x : Element) :
  consistent els nd idx → x ∈ els → elementAt els idx (elemId x) = Some x.
Proof.
  intros Hc Hx. destruct (consistent_index els nd idx x Hc Hx) as (k & Hk & Hx').
  unfold elementAt. rewrite Hk. done.
Qed.

Lemma consistent_at els nd idx id k (x : Element) :
  consistent els nd idx → idx !! id = Some k → els !! k = Some x →
  elemId x = id.
Proof.
  intros (_ & _ & ->) Hk Hx.
  destruct (newElemIndexes_lookup els id k Hk) as (y & Hy & Hid). congruence.
Qed.

(** The positions [setNodeStatus] rewrites are those of the edges that
    leave the node. *)
Lemma consistent_touched els nd idx id md k (x : Element) :
  consistent els nd idx → nd !! id = Some md → els !! k = Some x →
  touched idx (outgoingEdges md) k
  = match x with
    | ENode _ => false
    | EEdge e => bool_decide (source e = id)
    end.
Proof.
  intros Hc Hmd Hx. pose proof Hc as ((_ & Hadj) & Hnodup & Hidx).
  destruct (Hadj id md Hmd) as (_ & HoE & _).
  assert (x ∈ els) as Hin by (by eapply list_elem_of_lookup_2).
  assert (Exists (λ edgeId, idx !! edgeId = Some k) (outgoingEdges md)
          ↔ ∃ e, x = EEdge e ∧ source e = id) as Hiff.
  { rewrite Exists_exists. split.
    - intros (edgeId & Hout & Hk).
      pose proof (consistent_at els nd idx edgeId k x Hc Hk Hx) as Hid.
      apply HoE in Hout as (e & He & Heid & Hs).
      exists e. split; [|done].
      apply (same_id els); [done..|]. simpl. congruence.
    - intros (e & -> & Hs).
      exists (eid e). split; [apply HoE; eauto|].
      subst idx. by apply (newElemIndexes_NoDup els k (EEdge e)). }
  unfold touched. destruct x as [n|e].
  - apply bool_decide_eq_false. rewrite Hiff. by intros (e & ? & _).
  - apply bool_decide_ext. rewrite Hiff. split.
    + by intros (e' & [= <-] & Hs).
    + intros Hs. eauto.
Qed.

Lemma updateNodeStatus_map els nd idx (n : FlowNode) :
  consistent els nd idx → ENode n ∈ els →
  ∃ md s,
    nd !! nid n = Some md
    ∧ newStatusOf (type n) (nodeStatus (data n))
        (map (elementAt els idx) (incomingEdges md)) = Ok s
    ∧ updateNodeStatus (nid n) els nd idx
      = Ok (map (updateElem (nid n) s) els).
Proof.
  intros Hc Hn. pose proof Hc as ((Hdom & Hadj) & Hnodup & Hidx).
  destruct (consistent_index els nd idx (ENode n) Hc Hn) as (i & Hi & Hni).
  simpl in Hi.
  destruct (proj2 (Hdom (nid n))) as [md Hmd]; [eauto|].
  destruct (Hadj (nid n) md Hmd) as (HiE & HoE & _).
  rewrite (updateNodeStatus_unfold _ _ _ _ _ _ _ Hi Hni Hmd).
  destruct (mapR_ok getEdgeStatus
              (map (elementAt els idx) (incomingEdges md))) as [codes Hcodes].
  { intros a (id & -> & Hid)%list_elem_of_fmap.
    apply HiE in Hid as (e & He & <- & _).
    pose proof (consistent_elementAt els nd idx (EEdge e) Hc He) as Hat.
    simpl in Hat. rewrite Hat. apply getEdgeStatus_Some. }
  destruct (newStatusOf_ok (type n) (nodeStatus (data n)) _ _ Hcodes)
    as [s Hs].
  exists md, s. split; [done|]. split; [done|]. rewrite Hs. simpl.
  destruct (setNodeStatus_ok (nid n) s els nd idx i n md)
    as (els' & -> & Hlen & Hpos); [done..| |].
  { apply indexesOk_spec. intros id Hid.
    apply HoE in Hid as (e & He & <- & _).
    destruct (consistent_index els nd idx (EEdge e) Hc He) as (j & Hj & Hej).
    exists j. split; [done|]. by eapply lookup_lt_Some. }
  f_equal. apply list_eq. intros k.
  rewrite Hpos, list_lookup_fmap.
  destruct (els !! k) as [x|] eqn:Hx.
  - assert (x ∈ els) as Hin by (by eapply list_elem_of_lookup_2).
    destruct (decide (k = i)) as [->|Hki].
    + rewrite list_lookup_insert_eq by (by eapply lookup_lt_Some).
      assert (x = ENode n) as -> by congruence. simpl.
      rewrite (consistent_touched els nd idx (nid n) md i (ENode n)) by done.
      by rewrite bool_decide_true.
    + rewrite list_lookup_insert_ne, Hx by done. simpl.
      rewrite (consistent_touched els nd idx (nid n) md k x) by done.
      destruct x as [m|e]; simpl; [|by case_bool_decide].
      rewrite bool_decide_false; [done|]. intros Hid.
      assert (ENode m = ENode n) as Heq by (by apply (same_id els)).
      destruct Hki. eapply NoDup_lookup; [exact Hnodup| |].
      * by rewrite list_lookup_fmap, Hx.
      * by rewrite list_lookup_fmap, Hni; simpl; rewrite Hid.
  - rewrite list_lookup_insert_ne, Hx; [done|].
    intros <-. apply lookup_lt_Some in Hni. apply lookup_ge_None in Hx. lia.
Qed.

End UpdateEffect.

(** ** The status pass, call by call *)

Section Pass.
Import Flow Meta Status Props GraphProps StatusProps.

Lemma sameShape_map (f : Element → Element) (els : list Element) :
  (∀ x, clearStatus (f x) = clearStatus x) → sameShape els (map f els).
Proof.
  intros Hf. split; [apply length_map|].
  intros k x Hx. exists (f x). split; [|done].
  by rewrite list_lookup_fmap, Hx.
Qed.

Lemma sameShape_trans (a b c : list Element) :
  sameShape a b → sameShape b c → sameShape a c.
Proof.
  intros [Hl1 H1] [Hl2 H2]. split; [congruence|].
  intros k x Hx. destruct (H1 k x Hx) as (y & Hy & Hcy).
  destruct (H2 k y Hy) as (z & Hz & Hcz). exists z. split; [done|congruence].
Qed.

Lemma sameShape_ids (els upd : list Element) :
  sameShape els upd → map elemId upd = map elemId els.
Proof.
  intros [Hlen Hpos]. apply list_eq. intros k. rewrite !list_lookup_fmap.
  destruct (els !! k) as [x|] eqn:Hx.
  - destruct (Hpos k x Hx) as (x' & -> & Hc). simpl.
    by destruct (clearStatus_skeleton x' x Hc) as [-> _].
  - apply lookup_ge_None in Hx.
    rewrite (proj2 (lookup_ge_None upd k)); [done|lia].
Qed.

Lemma pass_ind nd idx (all : list string)
    (I : list string → list Element → Prop) :
  (∀ pre w post upd n md s,
     all = pre ++ w :: post → consistent upd nd idx →
     ENode n ∈ upd → nid n = w → nd !! w = Some md →
     newStatusOf (type n) (nodeStatus (data n))
       (map (elementAt upd idx) (incomingEdges md)) = Ok s →
     I pre upd → I (pre ++ [w]) (map (updateElem w s) upd)) →
  ∀ ids pre upd,
    all = pre ++ ids → consistent upd nd idx →
    (∀ id, id ∈ ids → ∃ n, ENode n ∈ upd ∧ nid n = id) → I pre upd →
    ∃ upd',
      forEach (λ upd id, updateNodeStatus id upd nd idx) ids upd = Ok upd'
      ∧ consistent upd' nd idx ∧ sameShape upd upd' ∧ I all upd'.
Proof.
  intros Hstep. induction ids as [|w ids IH]; intros pre upd Hall Hc Hnodes HI.
  - exists upd. rewrite app_nil_r in Hall. subst.
    split_and!; [done|done|apply sameShape_refl|done].
  - destruct (Hnodes w) as (n & Hn & Hw); [left|].
    destruct (updateNodeStatus_map upd nd idx n Hc Hn)
      as (md & s & Hmd & Hs & Hrun).
    rewrite Hw in Hmd, Hrun.
    assert (∀ x, clearStatus (updateElem w s x) = clearStatus x) as Hf
      by (intros; apply updateElem_clear).
    destruct (IH (pre ++ [w]) (map (updateElem w s) upd))
      as (upd' & Hrun' & Hc' & Hsh & HI').
    + by rewrite <- app_assoc.
    + by apply consistent_skeleton.
    + intros id Hid. apply skeleton_node; [done|]. apply Hnodes. by right.
    + by eapply Hstep.
    + exists upd'. split_and!; [|done| |done].
      * simpl. rewrite Hrun. exact Hrun'.
      * eapply sameShape_trans; [|exact Hsh]. by apply sameShape_map.
Qed.

Lemma consistent_size els nd idx :
  consistent els nd idx →
  size nd = length (filter (λ x, isNode x = true) els).
Proof.
  intros ((Hdom & _) & Hnodup & _).
  rewrite <- (size_dom (D:=gset string) nd).
  assert (dom nd
          = list_to_set (map elemId (filter (λ x, isNode x = true) els)))
    as ->.
  { apply set_eq. intros k.
    rewrite elem_of_dom, elem_of_list_to_set, Hdom, list_elem_of_fmap. split.
    - intros (n & Hn & <-). exists (ENode n). split; [done|].
      by apply list_elem_of_filter.
    - intros ([n|e] & -> & [Hnx Hx]%list_elem_of_filter); [eauto|done]. }
  rewrite size_list_to_set, length_map; [done|].
  eapply sublist_NoDup; [exact Hnodup|].
  apply fmap_sublist, sublist_filter.
Qed.

(** With the nodes ahead of the edges, the pass is one call per node, in
    array order. *)
Lemma updateAllNodes_calls els nd idx upd :
  consistent els nd idx → nodesFirst els → sameShape els upd →
  updateAllNodes upd nd idx
  = forEach (λ upd id, updateNodeStatus id upd nd idx)
      (map elemId (filter (λ x, isNode x = true) els)) upd.
Proof.
  intros Hc Hfirst Hsh. pose proof (consistent_size els nd idx Hc) as Hsize.
  unfold updateAllNodes. rewrite updateLoop_forEach, drop_0.
  - rewrite <- nodesFirst_take, <- Hsize by done.
    by rewrite <- !firstn_map, (sameShape_ids els upd Hsh).
  - destruct Hsh as [-> _]. rewrite Hsize. simpl. apply length_filter.
Qed.

Lemma node_ids_listed (els : list Element) (id : string) :
  id ∈ map elemId (filter (λ x, isNode x = true) els)
  ↔ ∃ n, ENode n ∈ els ∧ nid n = id.
Proof.
  rewrite list_elem_of_fmap. split.
  - intros ([n|e] & -> & [Hnx Hx]%list_elem_of_filter); [eauto|done].
  - intros (n & Hn & <-). exists (ENode n). split; [done|].
    by apply list_elem_of_filter.
Qed.

Lemma pass_all els nd idx (I : list string → list Element → Prop) :
  consistent els nd idx → nodesFirst els →
  (∀ pre w post upd n md s,
     map elemId (filter (λ x, isNode x = true) els) = pre ++ w :: post →
     consistent upd nd idx → sameShape els upd →
     ENode n ∈ upd → nid n = w → nd !! w = Some md →
     newStatusOf (type n) (nodeStatus (data n))
       (map (elementAt upd idx) (incomingEdges md)) = Ok s →
     I pre upd → I (pre ++ [w]) (map (updateElem w s) upd)) →
  I [] els →
  ∃ els', updateAllNodes els nd idx = Ok els'
          ∧ consistent els' nd idx ∧ sameShape els els'
          ∧ I (map elemId (filter (λ x, isNode x = true) els)) els'.
Proof.
  intros Hc Hfirst Hstep HI.
  rewrite (updateAllNodes_calls els nd idx els Hc Hfirst (sameShape_refl els)).
  set (all := map elemId (filter (λ x, isNode x = true) els)) in *.
  assert (∀ pre w post upd n md s,
            all = pre ++ w :: post → consistent upd nd idx →
            ENode n ∈ upd → nid n = w → nd !! w = Some md →
            newStatusOf (type n) (nodeStatus (data n))
              (map (elementAt upd idx) (incomingEdges md)) = Ok s →
            sameShape els upd ∧ I pre upd →
            sameShape els (map (updateElem w s) upd)
            ∧ I (pre ++ [w]) (map (updateElem w s) upd)) as Hstep'.
  { intros pre w post upd n md s Hall Hcu Hn Hw Hmd Hs [Hshu HIu]. split.
    - eapply sameShape_trans; [exact Hshu|].
      apply sameShape_map. intros; apply updateElem_clear.
    - by eapply Hstep. }
  destruct (pass_ind nd idx all (λ pre upd, sameShape els upd ∧ I pre upd)
              Hstep' all [] els eq_refl Hc)
    as (els' & Hrun & Hc' & Hsh & _ & HI').
  - intros id. apply node_ids_listed.
  - split; [apply sameShape_refl|done].
  - eauto.
Qed.

End Pass.

(** ** What the status pass establishes *)

Section PassFacts.
Import Flow Meta Status Props GraphProps StatusProps.

(** X12. With metadata and index map that belong to the array (ids
    pairwise distinct), a call of [updateNodeStatus] for a node returns,
    and its effect is exactly this: the node takes the new status, every
    edge that leaves the node takes it as its class name, and every other
    element stays as it is. A call for an id that no node has throws a
    [TypeError]. *)
Theorem updateNodeStatus_effect els nd idx :
  consistent els nd idx →
  (∀ n, ENode n ∈ els →
        ∃ md s,
          nd !! nid n = Some md
          ∧ newStatusOf (type n) (nodeStatus (data n))
              (map (elementAt els idx) (incomingEdges md)) = Ok s
          ∧ updateNodeStatus (nid n) els nd idx
            = Ok (map (λ x, match x with
                            | ENode m =>
                                if bool_decide (nid m = nid n)
                                then ENode (withNodeStatus m s) else x
                            | EEdge e =>
                                if bool_decide (source e = nid n)
                                then withClassName x s else x
                            end) els))
  ∧ (∀ id, (∀ n, ENode n ∈ els → nid n ≠ id) →
           updateNodeStatus id els nd idx = Err TypeError).
Proof.
  intros Hc. split.
  - intros n Hn. exact (updateNodeStatus_map els nd idx n Hc Hn).
  - intros id Hno. unfold updateNodeStatus, elementAt.
    destruct (idx !! id) as [k|] eqn:Hk; [|done]. simpl.
    destruct (els !! k) as [[n|e]|] eqn:Hx; [|done..].
    destruct (Hno n); [by eapply list_elem_of_lookup_2|].
    by apply (consistent_at els nd idx id k (ENode n)).
Qed.

Lemma updateNodeStatus_effect_witness :
  updateNodeStatus "AND-g1" (Examples.gateArray "and" "AND-g1")
    (Examples.metaOf (Examples.gateArray "and" "AND-g1"))
    (newElemIndexes (Examples.gateArray "and" "AND-g1"))
  = Ok (map (updateElem "AND-g1" (Some "ready"))
          (Examples.gateArray "and" "AND-g1")).
Proof.
  destruct (updateNodeStatus_effect (Examples.gateArray "and" "AND-g1")
              (Examples.metaOf (Examples.gateArray "and" "AND-g1"))
              (newElemIndexes (Examples.gateArray "and" "AND-g1")))
    as [Hnode _].
  - split_and!; [|apply (bool_decide_unpack _); vm_compute; exact I|done].
    apply depthsOver_describes, (newNodeData_depthsOver _ 10).
    vm_compute. reflexivity.
  - destruct (Hnode (newConditionalNode "g1" "and" ZERO_POSITION))
      as (md & s & Hmd & Hs & Hrun).
    + apply list_elem_of_In. vm_compute. tauto.
    + vm_compute in Hmd. injection Hmd as <-.
      vm_compute in Hs. injection Hs as <-. exact Hrun.
Defined.

Lemma code_valid (cls : option string) :
  validStatus cls → ∃ c, c < 6 ∧ COURSE_STATUS_CODES cls = Fin c.
Proof.
  intros (str & -> & Hin). unfold COURSE_STATUSES in Hin.
  repeat (apply elem_of_cons in Hin as [->|Hin]);
    [..|by apply elem_of_nil in Hin];
    eexists; (split; [|reflexivity]); lia.
Qed.

Lemma getEdgeStatus_valid (x : Element) :
  validStatus (elemClassName x) →
  ∃ c, c < 6 ∧ getEdgeStatus (Some x) = Ok (Fin c).
Proof.
  intros (c & Hc & Hcode)%code_valid. unfold getEdgeStatus. rewrite Hcode.
  destruct c as [|[|c]].
  - exists 0. split; [lia|done].
  - destruct (elemLabel x) as [l|]; [|exists 1; split; [lia|done]].
    destruct (String.eqb l "CC");
      [exists 0|exists 1]; (split; [lia|done]).
  - exists (S (S c)). split; [lia|done].
Qed.

Lemma mapR_codes (l : list (option Element)) :
  (∀ a, a ∈ l → ∃ c, c < 6 ∧ getEdgeStatus a = Ok (Fin c)) →
  ∃ codes, mapR getEdgeStatus l = Ok codes
           ∧ Forall (λ v, ∃ c, c < 6 ∧ v = Fin c) codes.
Proof.
  induction l as [|a l IH]; intros Hall; [by exists []|].
  destruct (Hall a) as (c & Hc & Ha); [left|].
  destruct IH as (codes & Hcodes & HF); [intros; apply Hall; by right|].
  exists (Fin c :: codes). simpl. rewrite Ha. simpl. rewrite Hcodes.
  split; [done|]. constructor; eauto.
Qed.

Lemma Math_max_fin (codes : list num) :
  Forall (λ v, ∃ c, c < 6 ∧ v = Fin c) codes →
  Math_max codes = NegInf ∨ ∃ m, m < 6 ∧ Math_max codes = Fin m.
Proof.
  unfold Math_max. intros HF.
  assert (∀ acc, acc = NegInf ∨ (∃ a, a < 6 ∧ acc = Fin a) →
                 fold_left max2 codes acc = NegInf
                 ∨ ∃ m, m < 6 ∧ fold_left max2 codes acc = Fin m) as Hgen.
  { induction HF as [|v codes (c & Hc & ->) HF IH]; intros acc Hacc; [done|].
    simpl. apply IH. right.
    destruct Hacc as [->|(a & Ha & ->)]; simpl;
      [exists c|exists (a `max` c)]; (split; [lia|done]). }
  apply Hgen. by left.
Qed.

Lemma Math_min_fin (codes : list num) :
  Forall (λ v, ∃ c, c < 6 ∧ v = Fin c) codes →
  Math_min codes = PosInf ∨ ∃ m, m < 6 ∧ Math_min codes = Fin m.
Proof.
  unfold Math_min. intros HF.
  assert (∀ acc, acc = PosInf ∨ (∃ a, a < 6 ∧ acc = Fin a) →
                 fold_left min2 codes acc = PosInf
                 ∨ ∃ m, m < 6 ∧ fold_left min2 codes acc = Fin m) as Hgen.
  { induction HF as [|v codes (c & Hc & ->) HF IH]; intros acc Hacc; [done|].
    simpl. apply IH. right.
    destruct Hacc as [->|(a & Ha & ->)]; simpl;
      [exists c|exists (a `min` c)]; (split; [lia|done]). }
  apply Hgen. by left.
Qed.

Lemma statusAt_valid (m : nat) : m < 6 → validStatus (statusAt (Fin m)).
Proof.
  intros Hm. do 6 (destruct m as [|m]; [eexists; split; [reflexivity|];
    unfold COURSE_STATUSES; set_solver|]). lia.
Qed.

Lemma isStatus_eq s cur : isStatus s cur = true → cur = Some s.
Proof.
  destruct cur as [c|]; simpl; [|done]. by intros ->%String.eqb_eq.
Qed.

Lemma newStatusOf_valid ty cur (l : list (option Element)) :
  knownType ty →
  (∀ a, a ∈ l → ∃ c, c < 6 ∧ getEdgeStatus a = Ok (Fin c)) →
  ∃ s, newStatusOf ty cur l = Ok s ∧ validStatus s.
Proof.
  intros Hty Hall. destruct (mapR_codes l Hall) as (codes & Hcodes & HF).
  unfold newStatusOf. rewrite Hcodes. simpl.
  destruct Hty as [->|[->| ->]]; simpl.
  - destruct (Math_max_fin codes HF) as [->|(m & Hm & ->)].
    + eexists. split; [reflexivity|].
      destruct (isStatus "completed" cur) eqn:H1;
        [apply isStatus_eq in H1 as ->; simpl;
         eexists; split; [reflexivity|unfold COURSE_STATUSES; set_solver]|].
      destruct (isStatus "enrolled" cur) eqn:H2;
        [apply isStatus_eq in H2 as ->; simpl;
         eexists; split; [reflexivity|unfold COURSE_STATUSES; set_solver]|].
      simpl. eexists. split; [reflexivity|unfold COURSE_STATUSES; set_solver].
    + eexists. split; [reflexivity|].
      destruct m as [|[|[|m]]];
        [|eexists; split; [reflexivity|unfold COURSE_STATUSES; set_solver]..].
      destruct (isStatus "completed" cur) eqn:H1;
        [apply isStatus_eq in H1 as ->; simpl;
         eexists; split; [reflexivity|unfold COURSE_STATUSES; set_solver]|].
      destruct (isStatus "enrolled" cur) eqn:H2;
        [apply isStatus_eq in H2 as ->; simpl;
         eexists; split; [reflexivity|unfold COURSE_STATUSES; set_solver]|].
      simpl. eexists. split; [reflexivity|unfold COURSE_STATUSES; set_solver].
  - destruct (Math_max_fin codes HF) as [->|(m & Hm & ->)].
    + eexists. split; [reflexivity|]. by apply (statusAt_valid 0); lia.
    + eexists. split; [reflexivity|]. by apply statusAt_valid.
  - destruct (Math_min_fin codes HF) as [->|(m & Hm & ->)].
    + eexists. split; [reflexivity|]. by apply (statusAt_valid 0); lia.
    + eexists. split; [reflexivity|]. by apply statusAt_valid.
Qed.

Lemma consistent_incoming els nd idx k md id :
  consistent els nd idx → nd !! k = Some md → id ∈ incomingEdges md →
  ∃ e, EEdge e ∈ els ∧ eid e = id ∧ target e = k
       ∧ elementAt els idx id = Some (EEdge e).
Proof.
  intros Hc Hmd Hid. pose proof Hc as ((_ & Hadj) & _).
  destruct (Hadj k md Hmd) as (HiE & _).
  apply HiE in Hid as (e & He & Heid & Ht).
  exists e. split_and!; [done..|].
  rewrite <- Heid. apply (consistent_elementAt els nd idx (EEdge e) Hc He).
Qed.

Lemma updateElem_valid w s (x : Element) :
  validStatus s → validElem x → validElem (updateElem w s x).
Proof.
  intros Hs. destruct x as [m|e]; simpl; case_bool_decide; simpl; tauto.
Qed.

(** X13. With metadata and index map that belong to the array and the
    nodes ahead of the edges, [updateAllNodes] keeps the statuses within
    the six known ones: when every node has one of the three types and
    one of the six statuses, and every edge one of the six as its class
    name, the pass returns and the same holds of its result. No status
    becomes [undefined]. *)
Theorem updateAllNodes_valid els nd idx :
  consistent els nd idx → nodesFirst els → Forall validElem els →
  ∃ els', updateAllNodes els nd idx = Ok els' ∧ Forall validElem els'.
Proof.
  intros Hc Hfirst Hvalid.
  destruct (pass_all els nd idx (λ _ upd, Forall validElem upd) Hc Hfirst)
    as (els' & Hrun & _ & _ & Hvalid'); [|done|eauto].
  intros pre w post upd n md s _ Hcu _ Hn Hw Hmd Hs HF.
  rewrite Forall_forall in HF.
  destruct (newStatusOf_valid (type n) (nodeStatus (data n))
              (map (elementAt upd idx) (incomingEdges md)))
    as (s' & Hs' & Hvs).
  - by destruct (HF (ENode n) Hn).
  - intros a (id & -> & Hid)%list_elem_of_fmap.
    destruct (consistent_incoming upd nd idx w md id Hcu Hmd Hid)
      as (e & He & _ & _ & ->).
    apply getEdgeStatus_valid. exact (HF (EEdge e) He).
  - assert (s = s') as -> by congruence.
    apply Forall_fmap, Forall_forall. intros x Hx.
    by apply updateElem_valid, HF.
Qed.

Lemma updateAllNodes_valid_witness :
  ∃ els',
    updateAllNodes (Examples.gateArray "and" "AND-g1")
      (Examples.metaOf (Examples.gateArray "and" "AND-g1"))
      (newElemIndexes (Examples.gateArray "and" "AND-g1")) = Ok els'
    ∧ Forall validElem els'.
Proof.
  apply (updateAllNodes_valid (Examples.gateArray "and" "AND-g1")).
  - split_and!; [|apply (bool_decide_unpack _); vm_compute; exact I|done].
    apply depthsOver_describes, (newNodeData_depthsOver _ 10).
    vm_compute. reflexivity.
  - exists (take 5 (Examples.gateArray "and" "AND-g1")),
           (drop 5 (Examples.gateArray "and" "AND-g1")).
    split; [reflexivity|]. split; repeat constructor.
  - unfold validStatus, knownType, COURSE_STATUSES.
    repeat constructor; simpl; eauto 10; eexists; (split; [reflexivity|]);
      set_solver.
Defined.

Lemma updateElem_node w s (upd : list Element) (n' : FlowNode) :
  ENode n' ∈ map (updateElem w s) upd →
  ∃ n, ENode n ∈ upd ∧ nid n' = nid n ∧ type n' = type n
       ∧ nodeStatus (data n')
         = (if bool_decide (nid n = w) then s else nodeStatus (data n)).
Proof.
  intros ([n|e] & Hx & Hin)%list_elem_of_fmap; simpl in Hx.
  - exists n. split; [done|]. case_bool_decide; by injection Hx as ->.
  - by case_bool_decide.
Qed.

Lemma updateElem_edge w s (upd : list Element) (e' : FlowEdge) :
  EEdge e' ∈ map (updateElem w s) upd →
  ∃ e, EEdge e ∈ upd ∧ eid e' = eid e ∧ source e' = source e
       ∧ target e' = target e
       ∧ className e'
         = (if bool_decide (source e = w) then s else className e).
Proof.
  intros ([n|e] & Hx & Hin)%list_elem_of_fmap; simpl in Hx.
  - by case_bool_decide.
  - exists e. split; [done|]. case_bool_decide; by injection Hx as ->.
Qed.

Lemma sameShape_node (els upd : list Element) (n' : FlowNode) :
  sameShape els upd → ENode n' ∈ upd →
  ∃ n, ENode n ∈ els ∧ nid n = nid n'.
Proof.
  intros [Hlen Hpos] [k Hk]%list_elem_of_lookup.
  destruct (lookup_lt_is_Some_2 els k) as [x Hx];
    [rewrite <- Hlen; by eapply lookup_lt_Some|].
  destruct (Hpos k x Hx) as (x' & Hx' & Hcl).
  assert (x' = ENode n') as -> by congruence.
  destruct (clearStatus_skeleton _ _ Hcl) as [Hid Hsk].
  destruct x as [n|e]; [|done]. exists n.
  split; [by eapply list_elem_of_lookup_2|done].
Qed.

(** X14. With metadata and index map that belong to the array and the
    nodes ahead of the edges, [updateAllNodes] returns an array with the
    elements of the given one up to status and class name, in which every
    edge that leaves a node carries the status of that node as its class
    name. *)
Theorem updateAllNodes_mirrors els nd idx :
  consistent els nd idx → nodesFirst els →
  ∃ els', updateAllNodes els nd idx = Ok els'
          ∧ sameShape els els'
          ∧ ∀ n e, ENode n ∈ els' → EEdge e ∈ els' → source e = nid n →
                   className e = nodeStatus (data n).
Proof.
  intros Hc Hfirst.
  destruct (pass_all els nd idx
              (λ pre upd, ∀ n e, ENode n ∈ upd → EEdge e ∈ upd →
                                 source e = nid n → nid n ∈ pre →
                                 className e = nodeStatus (data n))
              Hc Hfirst)
    as (els' & Hrun & _ & Hsh & Hmir).
  - intros pre w post upd n md s _ _ _ _ _ _ _ HI n' e' Hn' He' Hsrc Hin.
    apply updateElem_node in Hn' as (n0 & Hn0 & Hid0 & _ & ->).
    apply updateElem_edge in He' as (e0 & He0 & _ & Hs0 & _ & ->).
    rewrite Hs0, Hid0 in Hsrc. rewrite Hid0 in Hin. rewrite Hsrc.
    case_bool_decide as Hw; [done|].
    apply HI; [done..|].
    apply elem_of_app in Hin as [Hin|Hin%list_elem_of_singleton]; done.
  - intros n e _ _ _ Hin. by apply elem_of_nil in Hin.
  - exists els'. split_and!; [done..|].
    intros n e Hn He Hsrc. apply Hmir; [done..|].
    apply node_ids_listed. by eapply sameShape_node.
Qed.

Lemma updateAllNodes_mirrors_witness :
  ∃ els',
    updateAllNodes (Examples.gateArray "and" "AND-g1")
      (Examples.metaOf (Examples.gateArray "and" "AND-g1"))
      (newElemIndexes (Examples.gateArray "and" "AND-g1")) = Ok els'
    ∧ sameShape (Examples.gateArray "and" "AND-g1") els'.
Proof.
  destruct (updateAllNodes_mirrors (Examples.gateArray "and" "AND-g1")
              (Examples.metaOf (Examples.gateArray "and" "AND-g1"))
              (newElemIndexes (Examples.gateArray "and" "AND-g1")))
    as (els' & Hrun & Hsh & _).
  - split_and!; [|apply (bool_decide_unpack _); vm_compute; exact I|done].
    apply depthsOver_describes, (newNodeData_depthsOver _ 10).
    vm_compute. reflexivity.
  - exists (take 5 (Examples.gateArray "and" "AND-g1")),
           (drop 5 (Examples.gateArray "and" "AND-g1")).
    split; [reflexivity|]. split; repeat constructor.
  - exists els'. split; [exact Hrun|exact Hsh].
Defined.

End PassFacts.

(** ** One pass in depth order settles every status *)

Section Settles.
Import Flow Meta Status Props GraphProps StatusProps.

Lemma newStatusOf_idem ty cur (l : list (option Element)) s :
  newStatusOf ty cur l = Ok s → newStatusOf ty s l = Ok s.
Proof.
  unfold newStatusOf.
  destruct (String.eqb ty "course").
  - destruct (mapR getEdgeStatus l) as [codes|]; [|done]. simpl.
    destruct (Math_max codes) as [[|[|[|n]]]| | |]; simpl;
      try (by intros [= <-]);
      (destruct (isStatus "completed" cur || isStatus "enrolled" cur)
         eqn:Hcur; [intros [= <-]; by rewrite Hcur|by intros [= <-]]).
  - destruct (String.eqb ty "and"); [done|].
    destruct (String.eqb ty "or"); [done|]. by intros [= <-].
Qed.

Lemma withNodeStatus_same (n : FlowNode) :
  withNodeStatus n (nodeStatus (data n)) = n.
Proof. by destruct n as [? ? ? [? ? ?] ?]. Qed.

Lemma withClassName_same (e : FlowEdge) :
  withClassName (EEdge e) (className e) = EEdge e.
Proof. by destruct e. Qed.

Lemma sameShape_hasEdge (els upd : list Element) u v :
  sameShape els upd → hasEdge upd u v → hasEdge els u v.
Proof.
  intros [Hlen Hpos] (e' & [k Hk]%list_elem_of_lookup & Hs & Ht).
  destruct (lookup_lt_is_Some_2 els k) as [x Hx];
    [rewrite <- Hlen; by eapply lookup_lt_Some|].
  destruct (Hpos k x Hx) as (x' & Hx' & Hcl).
  assert (x' = EEdge e') as -> by congruence.
  destruct (clearStatus_skeleton _ _ Hcl) as [Hid Hsk].
  destruct x as [n|e]; [done|]. destruct Hsk as (Hs' & Ht' & _).
  exists e. split_and!; [by eapply list_elem_of_lookup_2|congruence..].
Qed.

Lemma shape_node (els upd : list Element) (n : FlowNode) :
  sameShape els upd → ENode n ∈ els → ∃ n', ENode n' ∈ upd ∧ nid n' = nid n.
Proof.
  intros [Hlen Hpos] [k Hk]%list_elem_of_lookup.
  destruct (Hpos k _ Hk) as (x' & Hx' & Hcl).
  destruct (clearStatus_skeleton _ _ Hcl) as [Hid Hsk].
  destruct x' as [n'|e']; [|done]. exists n'.
  split; [by eapply list_elem_of_lookup_2|done].
Qed.


(** A node at rest whose edges carry its status is left as it is by
    [updateNodeStatus]. *)
Lemma atRest_update els nd idx (n : FlowNode) :
  consistent els nd idx → atRest els nd idx → mirrored els →
  ENode n ∈ els → updateNodeStatus (nid n) els nd idx = Ok els.
Proof.
  intros Hc Hrest Hmir Hn. pose proof Hc as (_ & Hnodup & _).
  destruct (updateNodeStatus_map els nd idx n Hc Hn)
    as (md & s & Hmd & Hs & ->).
  rewrite (Hrest n md Hn Hmd) in Hs. injection Hs as <-.
  f_equal. rewrite <- (map_id els) at 2. apply map_ext_in.
  intros x Hx%list_elem_of_In. destruct x as [m|e]; simpl.
  - case_bool_decide as Hid; [|done].
    assert (ENode m = ENode n) as [= ->] by (by apply (same_id els)).
    by rewrite withNodeStatus_same.
  - case_bool_decide as Hsrc; [|done].
    rewrite <- (Hmir n e Hn Hx Hsrc). apply withClassName_same.
Qed.

Section Ranked.
Variable els : list Element.
Variable nd : gmap string NodeMeta.
Variable idx : gmap string nat.
Variable rank : string → nat.
Hypothesis Hc : consistent els nd idx.
Hypothesis Hfirst : nodesFirst els.
Hypothesis Hsorted :
  StronglySorted (λ a b, rank a ≤ rank b)
    (map elemId (filter (λ x, isNode x = true) els)).
Hypothesis Hstrict :
  ∀ u v, hasEdge els u v →
         (∃ n, ENode n ∈ els ∧ nid n = u) →
         (∃ n, ENode n ∈ els ∧ nid n = v) → rank u < rank v.

Lemma pass_atRest :
  ∃ els', updateAllNodes els nd idx = Ok els'
          ∧ consistent els' nd idx ∧ sameShape els els'
          ∧ atRest els' nd idx ∧ mirrored els'.
Proof.
  set (all := map elemId (filter (λ x, isNode x = true) els)) in *.
  assert (NoDup all) as Hall.
  { destruct Hc as (_ & Hnodup & _).
    eapply sublist_NoDup; [exact Hnodup|].
    apply fmap_sublist, sublist_filter. }
  destruct (pass_all els nd idx
              (λ pre upd,
                 (∀ n md, ENode n ∈ upd → nid n ∈ pre →
                          nd !! nid n = Some md →
                          newStatusOf (type n) (nodeStatus (data n))
                            (map (elementAt upd idx) (incomingEdges md))
                          = Ok (nodeStatus (data n)))
                 ∧ (∀ n e, ENode n ∈ upd → EEdge e ∈ upd →
                           source e = nid n → nid n ∈ pre →
                           className e = nodeStatus (data n)))
              Hc Hfirst)
    as (els' & Hrun & Hc' & Hsh & Hrest & Hmir).
  - intros pre w post upd n md s Hsplit Hcu Hshu Hn Hw Hmd Hs [HIr HIm].
    fold all in Hsplit.
    assert (∀ x, clearStatus (updateElem w s x) = clearStatus x) as Hf
      by (intros; apply updateElem_clear).
    pose proof (consistent_skeleton _ _ _ _ Hf Hcu) as Hcu'.
    assert (w ∉ pre) as Hwpre.
    { rewrite Hsplit in Hall. apply NoDup_app in Hall as (_ & Hdis & _).
      intros Hin. apply (Hdis w Hin). left. }
    assert (∃ n0, ENode n0 ∈ els ∧ nid n0 = w) as Hwnode.
    { apply node_ids_listed. fold all. rewrite Hsplit.
      apply elem_of_app. right. left. }
    split.
    + intros n' md' Hn' Hin Hmd'.
      apply updateElem_node in Hn' as (n0 & Hn0 & Hid0 & Hty0 & Hst0).
      rewrite Hid0 in Hin, Hmd'. rewrite Hty0, Hst0. clear Hid0 Hty0 Hst0 n'.
      assert (rank (nid n0) ≤ rank w) as Hrank.
      { apply elem_of_app in Hin as [Hin|Hin%list_elem_of_singleton];
          [|by rewrite Hin].
        rewrite Hsplit in Hsorted.
        eapply (StronglySorted_app_1_elem_of _ _ _ _ _ Hsorted); [done|left]. }
      assert (map (elementAt (map (updateElem w s) upd) idx)
                (incomingEdges md')
              = map (elementAt upd idx) (incomingEdges md')) as ->.
      { apply map_ext_in. intros id Hid%list_elem_of_In.
        destruct (consistent_incoming upd nd idx _ md' id Hcu Hmd' Hid)
          as (e & He & Heid & Ht & ->).
        assert (source e ≠ w) as Hsrc.
        { intros Hsrc.
          assert (rank w < rank (nid n0)); [|lia].
          apply Hstrict; [|done|by eapply sameShape_node].
          apply (sameShape_hasEdge els upd); [done|]. by exists e. }
        pose proof (consistent_elementAt _ nd idx (updateElem w s (EEdge e))
                      Hcu') as Hat.
        simpl in Hat. rewrite bool_decide_false in Hat by done.
        rewrite <- Heid. apply Hat.
        apply list_elem_of_fmap. exists (EEdge e). split; [|done].
        simpl. by rewrite bool_decide_false. }
      case_bool_decide as Hid.
      * destruct Hcu as (_ & Hnodup & _).
        assert (ENode n0 = ENode n) as [= ->]
          by (apply (same_id upd); [done..|simpl; congruence]).
        assert (md' = md) as -> by congruence.
        by eapply newStatusOf_idem.
      * apply HIr; [done| |done].
        apply elem_of_app in Hin as [Hin|Hin%list_elem_of_singleton]; done.
    + intros n' e' Hn' He' Hsrc Hin.
      apply updateElem_node in Hn' as (n0 & Hn0 & Hid0 & _ & ->).
      apply updateElem_edge in He' as (e0 & He0 & _ & Hs0 & _ & ->).
      rewrite Hs0, Hid0 in Hsrc. rewrite Hid0 in Hin. rewrite Hsrc.
      case_bool_decide as Hid; [done|].
      apply HIm; [done..|].
      apply elem_of_app in Hin as [Hin|Hin%list_elem_of_singleton]; done.
  - split.
    + intros n md _ Hin. by apply elem_of_nil in Hin.
    + intros n e _ _ _ Hin. by apply elem_of_nil in Hin.
  - exists els'. split_and!; [done..| |].
    + intros n md Hn Hmd. apply Hrest; [done| |done].
      apply node_ids_listed. by eapply sameShape_node.
    + intros n e Hn He Hsrc. apply Hmir; [done..|].
      apply node_ids_listed. by eapply sameShape_node.
Qed.

End Ranked.

Lemma describes_perm (els els' : list Element) nd :
  els' ≡ₚ els → describes els nd → describes els' nd.
Proof.
  intros Hperm [Hdom Hadj].
  assert (∀ x, x ∈ els' ↔ x ∈ els) as Hin by (intros x; by rewrite Hperm).
  assert (∀ u v, hasEdge els' u v ↔ hasEdge els u v) as Hedge.
  { intros u v. unfold hasEdge. by setoid_rewrite Hin. }
  split.
  - intros k. rewrite Hdom. by setoid_rewrite Hin.
  - intros k md Hmd.
    destruct (Hadj k md Hmd) as (HiE & HoE & HiN & HoN & HcE & HcN).
    split_and!; [| | | |done..].
    + intros id. rewrite HiE. by setoid_rewrite Hin.
    + intros id. rewrite HoE. by setoid_rewrite Hin.
    + intros u. rewrite HiN, Hedge. by setoid_rewrite Hin.
    + intros v. rewrite HoN, Hedge. by setoid_rewrite Hin.
Qed.

Lemma sortElementsByDepth_total (els : list Element) nd :
  (∀ n, ENode n ∈ els → is_Some (nd !! nid n)) →
  ∃ els', sortElementsByDepth els nd = Ok els'.
Proof.
  intros Hall. unfold sortElementsByDepth.
  destruct els as [|a [|b rest]]; [eauto..|].
  destruct (mapR_sortKey nd (a :: b :: rest))
    as [(keys & -> & _)|(_ & n & Hn & Hnone)]; [simpl; eauto|].
  destruct (Hall n Hn) as [m Hm]. congruence.
Qed.

Lemma keyed_ranked nd (pairs : list (option nat * Element)) :
  StronglySorted keyOrder pairs →
  Forall (λ p, sortKey nd p.2 = Ok p.1) pairs →
  StronglySorted (λ a b, depthOf nd a ≤ depthOf nd b)
    (map elemId (filter (λ x, isNode x = true) (map snd pairs))).
Proof.
  induction 1 as [|p pairs Hs IH Hall]; intros HF; [constructor|].
  apply Forall_cons in HF as [Hp HF].
  destruct p as [k x].
  change (map snd ((k, x) :: pairs)) with (x :: map snd pairs).
  destruct x as [n|e].
  - rewrite filter_cons_True by done.
    change (map elemId (ENode n :: ?l)) with (nid n :: map elemId l).
    constructor; [by apply IH|].
    apply Forall_forall. intros b Hb.
    apply list_elem_of_fmap in Hb as (y & -> & [Hny Hy]%list_elem_of_filter).
    apply list_elem_of_fmap in Hy as (q & -> & Hq).
    rewrite Forall_forall in Hall, HF.
    pose proof (keyed_inDepthOrder nd (k, ENode n) q Hp (HF q Hq) (Hall q Hq))
      as Hord.
    simpl in Hord. by destruct (q.2).
  - rewrite filter_cons_False by done. by apply IH.
Qed.

Lemma sortElementsByDepth_ranked (els : list Element) nd els' :
  sortElementsByDepth els nd = Ok els' →
  StronglySorted (λ a b, depthOf nd a ≤ depthOf nd b)
    (map elemId (filter (λ x, isNode x = true) els')).
Proof.
  unfold sortElementsByDepth. destruct els as [|a [|b rest]].
  - intros [= <-]. constructor.
  - intros [= <-]. destruct a; simpl; repeat constructor.
  - set (l := a :: b :: rest).
    destruct (mapR (sortKey nd) l) as [keys|] eqn:Hkeys; [|done].
    simpl. intros [= <-]. apply keyed_ranked.
    + apply stableSortByKey_sorted.
    + rewrite stableSortByKey_perm. by apply mapR_keys.
Qed.

(** The pipeline of [recalculateElements], step by step: on an acyclic
    array with pairwise distinct ids the three functions return, and the
    array after the pass is at rest, with every edge carrying the status
    of its source. *)
Lemma recalculate_atRest (els : list Element) (fuel : nat) :
  acyclic els → edgeIdsApart els = true → NoDup (map elemId els) →
  length els < fuel →
  ∃ nd sorted els',
    newNodeData fuel els = Ok nd
    ∧ sortElementsByDepth els nd = Ok sorted
    ∧ updateAllNodes sorted nd (newElemIndexes sorted) = Ok els'
    ∧ nodesFirst sorted ∧ sorted ≡ₚ els
    ∧ consistent sorted nd (newElemIndexes sorted)
    ∧ consistent els' nd (newElemIndexes sorted)
    ∧ sameShape sorted els'
    ∧ atRest els' nd (newElemIndexes sorted) ∧ mirrored els'.
Proof.
  intros Hacyc Hapart Hnodup Hfuel.
  destruct (newNodeData_ok els Hacyc Hapart fuel Hfuel)
    as (nd & Hrun & Hover & _ & Hvis).
  pose proof (depthsOver_describes els nd Hover) as Hdesc.
  destruct (sortElementsByDepth_total els nd) as [sorted Hsort].
  { intros n Hn. apply Hdesc. eauto. }
  destruct (sortElementsByDepth_nodesFirst els nd sorted Hsort)
    as [Hfirst Hperm].
  assert (consistent sorted nd (newElemIndexes sorted)) as Hc.
  { split_and!; [by eapply describes_perm| |done].
    assert (map elemId sorted ≡ₚ map elemId els) as ->
      by (by apply Permutation_map).
    done. }
  destruct (pass_atRest sorted nd (newElemIndexes sorted) (depthOf nd)
              Hc Hfirst (sortElementsByDepth_ranked els nd sorted Hsort))
    as (els' & Hpass & Hc' & Hsh & Hrest & Hmir).
  { intros u v (e & He & Hs & Ht) (n & Hn & Hu) (m & Hm & Hv).
    rewrite Hperm in He, Hn, Hm.
    assert (outEdge els u v) as Hout.
    { exists (ENode n). split_and!; [done..|].
      apply outgoingNodes_elem; [done|]. split; [by exists (ENode m)|].
      exists e. simpl. by rewrite Hu. }
    pose proof (Hvis u (outEdge_source_node els u v Hout) v Hout). lia. }
  exists nd, sorted, els'. by split_and!.
Qed.



End Settles.

(** ** Removing elements *)

Section Removal.
Import Regex Flow Meta Props ParserProps GraphProps Layout Dialog LayoutProps.
Implicit Types nanoid : nat → string.

Lemma removeElements_elem (rm els : list Element) (x : Element) :
  x ∈ removeElements rm els
  ↔ x ∈ els ∧ dropped (map elemId rm) x = false.
Proof. unfold removeElements. by rewrite list_elem_of_filter, (comm and). Qed.

Lemma dropped_false (ids : list string) (x : Element) :
  dropped ids x = false
  ↔ (elemId x ∉ ids)
    ∧ (∀ e, x = EEdge e → (target e ∉ ids) ∧ (source e ∉ ids)).
Proof.
  unfold dropped. rewrite orb_false_iff, bool_decide_eq_false.
  destruct x as [n|e].
  - split; [intros [? _]; split; [done|by intros e [=]]|by intros [? _]].
  - rewrite orb_false_iff, !bool_decide_eq_false. split.
    + intros (? & ? & ?). split; [done|]. by intros e' [= <-].
    + intros (? & He). by destruct (He e eq_refl).
Qed.

Lemma removeElements_nil (els : list Element) : removeElements [] els = els.
Proof.
  unfold removeElements. induction els as [|x els IH]; [done|].
  rewrite filter_cons_True, IH; [done|].
  apply dropped_false. simpl. split; [apply not_elem_of_nil|].
  intros e _. split; apply not_elem_of_nil.
Qed.

Lemma removeElements_app (rm a b : list Element) :
  removeElements rm (a ++ b) = removeElements rm a ++ removeElements rm b.
Proof. unfold removeElements. apply filter_app. Qed.

Lemma removeElements_twice (rm : list Element) (g : Element) els :
  removeElements [g] (removeElements rm els) = removeElements (rm ++ [g]) els.
Proof.
  unfold removeElements. rewrite list_filter_filter. apply list_filter_iff.
  intros x. rewrite map_app. simpl.
  rewrite !dropped_false. setoid_rewrite elem_of_app.
  setoid_rewrite list_elem_of_singleton. split.
  - intros [[Hg Hge] [Hr Hre]]. split; [tauto|].
    intros e He. destruct (Hge e He), (Hre e He). tauto.
  - intros [Hi He]. split; (split; [tauto|]);
      intros e Hx; destruct (He e Hx); tauto.
Qed.

Lemma removeElements_edges (rm els : list Element) :
  Forall (λ x, isEdge x = true) els →
  Forall (λ x, isEdge x = true) (removeElements rm els).
Proof.
  intros HF. apply Forall_forall. intros x [Hx _]%removeElements_elem.
  by eapply Forall_forall in HF.
Qed.

Lemma removeElements_clear (g : Element) (els : list Element) (x : Element) :
  x ∈ removeElements [g] els → clearOf (elemId g) x.
Proof.
  intros [_ [Hid He]%dropped_false]%removeElements_elem.
  simpl in Hid, He. rewrite list_elem_of_singleton in Hid.
  destruct x as [n|e]; [done|].
  destruct (He e eq_refl) as [Ht Hs]. rewrite list_elem_of_singleton in Ht, Hs.
  done.
Qed.

(** What the two inner loops push: edges only, each from an incoming
    node to an outgoing node. *)
Lemma bridges_spec nd (ins outs : list string) (els : list Element) :
  ∃ pushed,
    fold_left (λ els iNode, fold_left (bridge nd iNode) outs els) ins els
    = els ++ pushed
    ∧ Forall (λ x, ∃ i o, i ∈ ins ∧ o ∈ outs ∧ x = EEdge (newEdge i o None))
        pushed.
Proof.
  revert els. induction ins as [|i ins IH]; intros els.
  - exists []. by rewrite app_nil_r.
  - simpl.
    assert (∃ p1, fold_left (bridge nd i) outs els = els ++ p1
                  ∧ Forall (λ x, ∃ o, o ∈ outs ∧ x = EEdge (newEdge i o None))
                      p1) as (p1 & -> & Hp1).
    { clear IH. revert els. induction outs as [|o outs IHo]; intros els.
      - exists []. by rewrite app_nil_r.
      - simpl. unfold bridge at 2. case_bool_decide.
        + destruct (IHo els) as (p & -> & Hp). exists p. split; [done|].
          eapply Forall_impl; [exact Hp|].
          intros x (o' & ? & ?). exists o'. split; [by right|done].
        + destruct (IHo (els ++ [EEdge (newEdge i o None)]))
            as (p & -> & Hp).
          exists (EEdge (newEdge i o None) :: p).
          split; [by rewrite <- app_assoc|]. constructor.
          * exists o. split; [left|done].
          * eapply Forall_impl; [exact Hp|].
            intros x (o' & ? & ?). exists o'. split; [by right|done]. }
    destruct (IH (els ++ p1)) as (p2 & -> & Hp2).
    exists (p1 ++ p2). split; [by rewrite app_assoc|].
    apply Forall_app. split.
    + eapply Forall_impl; [exact Hp1|].
      intros x (o & ? & ?). exists i, o. split_and!; [left|done..].
    + eapply Forall_impl; [exact Hp2|].
      intros x (i' & o & ? & ? & ?). exists i', o. split_and!; [by right|done..].
Qed.

Lemma filterStep_inv fuel (gs : list Element) (elems : list Element)
    (acc acc' : list Element * gmap string NodeMeta) (g : Element) :
  (gs ≠ [] → describes acc.1 acc.2) →
  (∀ g0 x, g0 ∈ gs → x ∈ acc.1 → clearOf (elemId g0) x) →
  (∃ added, acc.1 = removeElements gs elems ++ added
            ∧ Forall (λ x, isEdge x = true) added) →
  filterStep fuel acc g = Ok acc' →
  describes acc'.1 acc'.2
  ∧ (∀ g0 x, g0 ∈ gs ++ [g] → x ∈ acc'.1 → clearOf (elemId g0) x)
  ∧ ∃ added, acc'.1 = removeElements (gs ++ [g]) elems ++ added
             ∧ Forall (λ x, isEdge x = true) added.
Proof.
  intros Hdesc Hclear (added & Hacc & Hadded) Hstep.
  unfold filterStep in Hstep.
  destruct (acc.2 !! elemId g) as [node|] eqn:Hnode; [|done].
  destruct (bridges_spec acc.2 (incomingNodes node) (outgoingNodes node) acc.1)
    as (pushed & Hfold & Hpushed).
  rewrite Hfold in Hstep.
  destruct (newNodeData fuel (removeElements [g] (acc.1 ++ pushed)))
    as [nd'|] eqn:Hnd; [|done].
  simpl in Hstep. injection Hstep as <-. simpl.
  split_and!.
  - by eapply depthsOver_describes, newNodeData_depthsOver.
  - intros g0 x [Hg0|Hg0%list_elem_of_singleton]%elem_of_app Hx.
    + apply removeElements_elem in Hx as [Hx _].
      apply elem_of_app in Hx as [Hx|Hx]; [by apply Hclear|].
      destruct (proj1 (Forall_forall _ _) Hpushed x Hx)
        as (i & o & Hi & Ho & ->).
      assert (gs ≠ []) as Hne by (intros ->; by apply elem_of_nil in Hg0).
      destruct (Hdesc Hne) as [_ Hadj].
      destruct (Hadj _ _ Hnode) as (_ & _ & HiN & HoN & _).
      apply HiN in Hi as [_ (e & He & Hs & _)].
      apply HoN in Ho as [_ (e' & He' & _ & Ht)].
      pose proof (Hclear g0 _ Hg0 He) as [Hc1 _].
      pose proof (Hclear g0 _ Hg0 He') as [_ Hc2].
      simpl. split; congruence.
    + subst g0. by eapply removeElements_clear.
  - exists (removeElements [g] (added ++ pushed)). split.
    + rewrite Hacc, <- app_assoc, removeElements_app.
      by rewrite removeElements_twice.
    + apply removeElements_edges, Forall_app. split; [done|].
      eapply Forall_impl; [exact Hpushed|].
      by intros x (i & o & _ & _ & ->).
Qed.

(** X16. Whenever [filterUnconditionalElements] returns, no node of the
    result has the id of one of the conditional nodes and no edge of the
    result starts or ends at one; the result begins with the elements of
    the given array that [removeElements] keeps for the conditional
    nodes, in their order, and what follows are edges only (the bridges
    pushed from an incoming to an outgoing node of a removed gate). *)
Theorem filterUnconditionalElements_removes fuel condNodes elems nData res :
  filterUnconditionalElements fuel condNodes elems nData = Ok res →
  (∀ g x, g ∈ condNodes → x ∈ res →
          match x with
          | ENode n => nid n ≠ elemId g
          | EEdge e => source e ≠ elemId g ∧ target e ≠ elemId g
          end)
  ∧ ∃ added, res = removeElements condNodes elems ++ added
             ∧ Forall (λ x, isEdge x = true) added.
Proof.
  unfold filterUnconditionalElements. intros Hrun.
  destruct (forEach (filterStep fuel) condNodes (elems, nData))
    as [acc|] eqn:Hloop; [|done].
  simpl in Hrun. injection Hrun as <-.
  assert (∀ todo gs acc0,
            (gs ≠ [] → describes acc0.1 acc0.2) →
            (∀ g0 x, g0 ∈ gs → x ∈ acc0.1 → clearOf (elemId g0) x) →
            (∃ added, acc0.1 = removeElements gs elems ++ added
                      ∧ Forall (λ x, isEdge x = true) added) →
            forEach (filterStep fuel) todo acc0 = Ok acc →
            (∀ g0 x, g0 ∈ gs ++ todo → x ∈ acc.1 → clearOf (elemId g0) x)
            ∧ ∃ added, acc.1 = removeElements (gs ++ todo) elems ++ added
                       ∧ Forall (λ x, isEdge x = true) added) as Hgen.
  { induction todo as [|g todo IH]; intros gs acc0 Hd Hc Ha Hrun.
    - simpl in Hrun. injection Hrun as <-. by rewrite app_nil_r.
    - rewrite forEach_cons in Hrun.
      destruct (filterStep fuel acc0 g) as [acc1|] eqn:Hstep; [|done].
      simpl in Hrun.
      destruct (filterStep_inv fuel gs elems acc0 acc1 g Hd Hc Ha Hstep)
        as (Hd1 & Hc1 & Ha1).
      replace (gs ++ g :: todo) with ((gs ++ [g]) ++ todo)
        by (by rewrite <- app_assoc).
      by apply (IH (gs ++ [g]) acc1). }
  apply (Hgen condNodes [] (elems, nData)); [done| | |done].
  - intros g0 x Hg0. by apply elem_of_nil in Hg0.
  - exists []. split; [|done]. simpl.
    by rewrite app_nil_r, removeElements_nil.
Qed.

Lemma filterUnconditionalElements_removes_witness :
  ∃ res,
    filterUnconditionalElements 20 [Examples.gateNode "and"]
      (Examples.gateArray "and" "AND-g1")
      (Examples.metaOf (Examples.gateArray "and" "AND-g1")) = Ok res
    ∧ ∃ added,
        res = removeElements [Examples.gateNode "and"]
                (Examples.gateArray "and" "AND-g1") ++ added
        ∧ Forall (λ x, isEdge x = true) added.
Proof.
  destruct (filterUnconditionalElements 20 [Examples.gateNode "and"]
              (Examples.gateArray "and" "AND-g1")
              (Examples.metaOf (Examples.gateArray "and" "AND-g1")))
    as [res|] eqn:Hrun.
  - exists res. split; [reflexivity|].
    exact (proj2 (filterUnconditionalElements_removes _ _ _ _ _ Hrun)).
  - vm_compute in Hrun. discriminate.
Defined.

(** *** The curriculum dialog *)

Lemma arrow_has_gt (s t : string) : ¬ StrForall notGt (edgeArrowId s t).
Proof.
  unfold edgeArrowId. rewrite StrForall_app. intros [_ H].
  rewrite !app_cons_str in H. simpl in H.
  destruct H as (_ & _ & Hd & _). by apply Hd.
Qed.

Lemma orphan_spec (curriculum : string) (E : list Element) (x : Element) :
  x ∈ externalOrphans curriculum E
  ↔ x ∈ E ∧ isNode x = true
    ∧ String.prefix curriculum (elemId x) = false
    ∧ ∀ e, EEdge e ∈ E → source e ≠ elemId x ∧ target e ≠ elemId x.
Proof.
  unfold externalOrphans. rewrite list_elem_of_filter.
  rewrite !andb_true_iff, negb_true_iff, Nat.eqb_eq, length_zero_iff_nil.
  assert (getConnectedEdges [x] (edgesOf E) = []
          ↔ ∀ e, EEdge e ∈ E → source e ≠ elemId x ∧ target e ≠ elemId x)
    as ->; [|tauto].
  unfold getConnectedEdges. simpl. split.
  - intros Hnil e He.
    assert (e ∉ filter (λ e, source e ∈ [elemId x] ∨ target e ∈ [elemId x])
                  (edgesOf E)) as Hnot
      by (rewrite Hnil; apply not_elem_of_nil).
    rewrite list_elem_of_filter, edgesOf_elem in Hnot.
    setoid_rewrite list_elem_of_singleton in Hnot. tauto.
  - intros Hno.
    destruct (filter _ (edgesOf E)) as [|e l] eqn:Hf; [done|].
    assert (e ∈ filter (λ e, source e ∈ [elemId x] ∨ target e ∈ [elemId x])
                  (edgesOf E)) as Hin by (rewrite Hf; left).
    apply list_elem_of_filter in Hin as [Hends He%edgesOf_elem].
    setoid_rewrite list_elem_of_singleton in Hends.
    destruct (Hno e He). tauto.
Qed.

Lemma touches_spec (k : string) (E : list Element) :
  Exists (λ x, touches k x = true) E
  ↔ ∃ e, EEdge e ∈ E ∧ (source e = k ∨ target e = k).
Proof.
  rewrite Exists_exists. split.
  - intros ([n|e] & Hx & Ht); [done|]. simpl in Ht.
    apply orb_true_iff in Ht. rewrite !bool_decide_eq_true in Ht. eauto.
  - intros (e & He & Hends). exists (EEdge e). split; [done|]. simpl.
    apply orb_true_iff. by rewrite !bool_decide_eq_true.
Qed.

Lemma parser_node_ids nanoid (data : list CourseData) st (n : FlowNode) :
  Forall (λ c, StrForall notGt (cid c)) data →
  (∀ i, StrForall notGt (nanoid i)) →
  parserShape nanoid data st → ENode n ∈ elements st →
  StrForall notGt (nid n).
Proof.
  intros Hdata Hnano ((rest & Hels & Hgates) & _) Hn.
  rewrite Hels in Hn. apply elem_of_app in Hn as [Hn|Hn].
  - apply list_elem_of_fmap in Hn as (c & [= ->] & Hc). simpl.
    by eapply Forall_forall in Hdata.
  - assert (ENode n ∈ filter (λ x, isNode x = true) rest) as Hf
      by (by apply list_elem_of_filter).
    rewrite Hgates in Hf.
    apply list_elem_of_fmap in Hf as (i & [= ->] & _). simpl.
    rewrite !StrForall_app. simpl.
    repeat split; try apply Hnano; vm_compute; discriminate.
Qed.

(** X17. The new-curriculum dialog hands over the parser's array minus
    the nodes of other curricula that no edge touches. With course ids
    and [nanoid()] values free of the character [>] (so that no node id
    is an arrow id): the result is a sublist of the parser's array; every
    edge is kept; a node is kept when its id starts with the curriculum
    or some edge starts or ends at it, and only then; and both ends of
    every edge are still nodes of the result. *)
Theorem curriculumElements_prunes nanoid curriculum data mode :
  Forall (λ c, StrForall notGt (cid c)) data →
  (∀ i, StrForall notGt (nanoid i)) →
  let E := generateInitialElements nanoid data mode in
  let R := curriculumElements nanoid curriculum data mode in
  sublist R E
  ∧ (∀ e, EEdge e ∈ E → EEdge e ∈ R)
  ∧ (∀ n, ENode n ∈ E → String.prefix curriculum (nid n) = true →
          ENode n ∈ R)
  ∧ (∀ n e, ENode n ∈ E → EEdge e ∈ E →
            source e = nid n ∨ target e = nid n → ENode n ∈ R)
  ∧ (∀ n, ENode n ∈ R →
          String.prefix curriculum (nid n) = true
          ∨ ∃ e, EEdge e ∈ R ∧ (source e = nid n ∨ target e = nid n))
  ∧ (∀ e, EEdge e ∈ R →
          (∃ n, ENode n ∈ R ∧ nid n = source e)
          ∧ (∃ n, ENode n ∈ R ∧ nid n = target e)).
Proof.
  intros Hdata Hnano E R.
  destruct (generateInitialElements_shape nanoid data mode)
    as (st & HE & Hshape).
  fold E in HE. pose proof Hshape as (_ & Hclosed & _). rewrite <- HE in Hclosed.
  set (ids := map elemId (externalOrphans curriculum E)).
  assert (R = removeElements (externalOrphans curriculum E) E) as HR by done.
  assert (∀ k, k ∈ ids ↔ ∃ x, x ∈ externalOrphans curriculum E ∧ elemId x = k)
    as Hids.
  { intros k. unfold ids. rewrite list_elem_of_fmap. naive_solver. }
  assert (∀ e, EEdge e ∈ E → EEdge e ∈ R) as Hedges.
  { intros e He. rewrite HR. apply removeElements_elem. split; [done|].
    apply dropped_false. fold ids. split.
    - intros (x & [Hx (Hnx & _)]%orphan_spec & Hid)%Hids.
      destruct x as [n|?]; [|done].
      destruct (Hclosed e He) as (_ & _ & Harrow).
      apply (arrow_has_gt (source e) (target e)).
      rewrite <- Harrow. simpl in Hid. rewrite <- Hid.
      eapply parser_node_ids; [done..|]. by rewrite <- HE.
    - intros e' [= <-]. split.
      + intros (x & (_ & _ & _ & Hno)%orphan_spec & Hid)%Hids.
        by destruct (Hno e He) as [_ ?].
      + intros (x & (_ & _ & _ & Hno)%orphan_spec & Hid)%Hids.
        by destruct (Hno e He) as [? _]. }
  assert (∀ n, ENode n ∈ E → nid n ∉ ids → ENode n ∈ R) as Hkeep.
  { intros n Hn Hid. rewrite HR. apply removeElements_elem. split; [done|].
    apply dropped_false. split; [done|]. by intros e [=]. }
  assert (∀ n e, ENode n ∈ E → EEdge e ∈ E →
                 source e = nid n ∨ target e = nid n → ENode n ∈ R) as Hends.
  { intros n e Hn He Hends. apply Hkeep; [done|].
    intros (x & (_ & _ & _ & Hno)%orphan_spec & Hid)%Hids.
    destruct (Hno e He). simpl in *. destruct Hends; congruence. }
  split_and!; try done.
  - rewrite HR. apply sublist_filter.
  - intros n Hn Hpre. apply Hkeep; [done|].
    intros (x & (_ & _ & Hnp & _)%orphan_spec & Hid)%Hids.
    simpl in *. congruence.
  - intros n Hn. rewrite HR in Hn.
    apply removeElements_elem in Hn as [Hn [Hid _]%dropped_false].
    fold ids in Hid. simpl in Hid.
    destruct (String.prefix curriculum (nid n)) eqn:Hpre; [by left|right].
    destruct (decide (Exists (λ x, touches (nid n) x = true) E)) as [Hex|Hno].
    + apply touches_spec in Hex as (e & He & Hat). eauto.
    + destruct Hid. apply Hids. exists (ENode n). split; [|done].
      apply orphan_spec. split_and!; [done..|].
      intros e He. split; intros Heq; apply Hno, touches_spec; eauto.
  - intros e He. rewrite HR in He.
    apply removeElements_elem in He as [He _].
    destruct (Hclosed e He) as (Hs & Ht & _).
    apply nodeIds_elem in Hs as (n & Hn & Hsn).
    apply nodeIds_elem in Ht as (m & Hm & Htm).
    split; [exists n|exists m]; (split; [|done]); eapply Hends; eauto.
Qed.

Lemma curriculumElements_prunes_witness :
  sublist
    (curriculumElements Examples.nano "CSE"
       [Examples.courseRecord "MATH 124" EmptyString;
        Examples.courseRecord "PHYS 121" EmptyString;
        Examples.courseRecord "CSE 142" "MATH 124"] "conservative")
    (generateInitialElements Examples.nano
       [Examples.courseRecord "MATH 124" EmptyString;
        Examples.courseRecord "PHYS 121" EmptyString;
        Examples.courseRecord "CSE 142" "MATH 124"] "conservative").
Proof.
  apply (curriculumElements_prunes Examples.nano "CSE"
           [Examples.courseRecord "MATH 124" EmptyString;
            Examples.courseRecord "PHYS 121" EmptyString;
            Examples.courseRecord "CSE 142" "MATH 124"] "conservative").
  - repeat constructor; vm_compute; repeat split; discriminate.
  - intros [|[|i]]; vm_compute; repeat split; discriminate.
Defined.

Example curriculum_orphan_removed :
  map elemId
    (curriculumElements Examples.nano "CSE"
       [Examples.courseRecord "MATH 124" EmptyString;
        Examples.courseRecord "PHYS 121" EmptyString;
        Examples.courseRecord "CSE 142" "MATH 124"] "conservative")
  = ["MATH 124"; "CSE 142"; "MATH 124 -> CSE 142"].
Proof. vm_compute. reflexivity. Qed.

End Removal.

(** ** A click propagates two layers deep *)

Section ClickAbstract.
Import Flow Meta Status Props GraphProps StatusProps ClickProps.

Lemma valid_cases (s : option string) :
  validStatus s →
  s = Some "completed" ∨ s = Some "enrolled" ∨ s = Some "ready"
  ∨ s = Some "under-one-away" ∨ s = Some "one-away"
  ∨ s = Some "over-one-away".
Proof.
  intros (str & -> & Hin). unfold COURSE_STATUSES in Hin.
  repeat (apply elem_of_cons in Hin as [->|Hin]); [tauto..|].
  by apply elem_of_nil in Hin.
Qed.

Lemma cod_inj (a b : option string) :
  validStatus a → validStatus b → cod a = cod b → a = b.
Proof.
  intros Ha%valid_cases Hb%valid_cases.
  destruct Ha as [->|[->|[->|[->|[->| ->]]]]];
    destruct Hb as [->|[->|[->|[->|[->| ->]]]]]; by vm_compute.
Qed.

Lemma courseRule_valid (m : nat) (cur : option string) :
  validStatus (courseRule m cur).
Proof.
  assert (∀ s, s ∈ COURSE_STATUSES → validStatus (Some s)) as Hv
    by (intros s Hs; by exists s).
  destruct m as [|[|[|m]]]; simpl;
    [|apply Hv; unfold COURSE_STATUSES; set_solver..].
  destruct (isStatus "completed" cur) eqn:H1;
    [apply isStatus_eq in H1 as ->; apply Hv; unfold COURSE_STATUSES;
     set_solver|].
  destruct (isStatus "enrolled" cur) eqn:H2;
    [apply isStatus_eq in H2 as ->; apply Hv; unfold COURSE_STATUSES;
     set_solver|].
  apply Hv. unfold COURSE_STATUSES. set_solver.
Qed.

(** The code of the status the rule gives. *)
Lemma courseRule_cod (m : nat) (cur : option string) :
  validStatus cur →
  match m with
  | 0 => (cod cur ≤ 1 ∧ courseRule m cur = cur)
         ∨ (2 ≤ cod cur ∧ courseRule m cur = Some "ready")
  | 1 => courseRule m cur = Some "under-one-away"
  | 2 => courseRule m cur = Some "one-away"
  | _ => courseRule m cur = Some "over-one-away"
  end.
Proof.
  intros Hv%valid_cases. destruct m as [|[|[|m]]]; [|done..].
  destruct Hv as [->|[->|[->|[->|[->| ->]]]]]; vm_compute;
    first [left; split; [lia|done]|right; split; [lia|done]].
Qed.

Lemma courseRule_idem (m : nat) (cur : option string) :
  courseRule m (courseRule m cur) = courseRule m cur.
Proof.
  destruct m as [|[|[|m]]]; [|done..]. simpl.
  destruct (isStatus "completed" cur || isStatus "enrolled" cur) eqn:Hc;
    [by rewrite Hc|done].
Qed.

Lemma courseRule_changes (m : nat) (cur : option string) :
  validStatus cur →
  courseRule m cur = cur ∨ 2 ≤ cod (courseRule m cur).
Proof.
  intros Hv. pose proof (courseRule_cod m cur Hv) as Hc.
  destruct m as [|[|[|m]]]; [|right; rewrite Hc; vm_compute; lia..].
  destruct Hc as [[_ ->]|[_ ->]]; [by left|right; vm_compute; lia].
Qed.

Lemma courseRule_mono (m' m : nat) (cur : option string) :
  validStatus cur → m' ≤ m →
  cod (courseRule m' cur) ≤ cod (courseRule m cur).
Proof.
  intros Hv%valid_cases Hle.
  destruct m' as [|[|[|m']]], m as [|[|[|m]]]; try lia;
    destruct Hv as [->|[->|[->|[->|[->| ->]]]]]; vm_compute; lia.
Qed.

(** Codes of the rule's result, by the greatest code. *)
Lemma courseRule_cod_ge (m : nat) (cur : option string) :
  validStatus cur →
  (2 ≤ m → 4 ≤ cod (courseRule m cur))
  ∧ (3 ≤ m → courseRule m cur = Some "over-one-away")
  ∧ (m ≤ 1 → cod (courseRule m cur) ≤ 3)
  ∧ (cod (courseRule m cur) ≤ 2 → m = 0).
Proof.
  intros Hv. pose proof (courseRule_cod m cur Hv) as H.
  destruct m as [|[|[|m]]].
  - split_and!; try lia.
    intros _. destruct H as [[? ->]|[? ->]]; [lia|vm_compute; lia].
  - rewrite H. split_and!; try lia; vm_compute; lia.
  - rewrite H. split_and!; try lia; try done; vm_compute; lia.
  - rewrite H. split_and!; try lia; try done; vm_compute; lia.
Qed.

Lemma effl_le (s l : option string) : effl s l ≤ cod s.
Proof.
  unfold effl. destruct (cod s) as [|[|c]]; [lia| |lia].
  destruct l as [l|]; [|lia]. destruct (String.eqb l "CC"); lia.
Qed.

Lemma effl_high (s l : option string) : 2 ≤ cod s → effl s l = cod s.
Proof. unfold effl. destruct (cod s) as [|[|c]]; [lia..|done]. Qed.

Lemma effl_mono (s s' l : option string) :
  cod s' ≤ cod s → effl s' l ≤ effl s l.
Proof.
  unfold effl. destruct (cod s') as [|[|c']], (cod s) as [|[|c]];
    try lia; destruct l as [l|]; try lia; destruct (String.eqb l "CC"); lia.
Qed.

Lemma foldr_max_ge (l : list nat) (c : nat) :
  c ≤ foldr Nat.max 0 l ↔ c = 0 ∨ ∃ x, x ∈ l ∧ c ≤ x.
Proof.
  induction l as [|x l IH]; simpl.
  - split; [lia|]. intros [->|(x & Hx & _)]; [lia|by apply elem_of_nil in Hx].
  - rewrite Nat.max_le_iff, IH. split.
    + intros [Hx|[->|(y & Hy & Hc)]]; [right; exists x; split; [left|done]
                                       |by left|].
      right. exists y. split; [by right|done].
    + intros [->|(y & [->|Hy]%elem_of_cons & Hc)]; [right; by left|by left|].
      right. right. eauto.
Qed.

Lemma incomingOf_elem (els : list Element) (k : string) (e : FlowEdge) :
  e ∈ incomingOf els k ↔ EEdge e ∈ els ∧ target e = k.
Proof.
  unfold incomingOf. rewrite list_elem_of_filter, edgesOf_elem. tauto.
Qed.

Lemma needOf_ge (els : list Element) sigma (k : string) (c : nat) :
  c ≤ needOf els sigma k
  ↔ c = 0 ∨ ∃ e, EEdge e ∈ els ∧ target e = k
                 ∧ c ≤ effl (sigma (source e)) (label e).
Proof.
  unfold needOf. rewrite foldr_max_ge. split.
  - intros [->|(x & (e & -> & He)%list_elem_of_fmap & Hc)]; [by left|].
    apply incomingOf_elem in He as [He Ht]. right. eauto.
  - intros [->|(e & He & Ht & Hc)]; [by left|]. right.
    eexists. split; [|exact Hc]. apply list_elem_of_fmap.
    exists e. split; [done|]. by apply incomingOf_elem.
Qed.

Lemma needOf_le (els : list Element) sigma (k : string) (c : nat) :
  needOf els sigma k ≤ c
  ↔ ∀ e, EEdge e ∈ els → target e = k →
         effl (sigma (source e)) (label e) ≤ c.
Proof.
  split.
  - intros Hle e He Ht.
    assert (effl (sigma (source e)) (label e) ≤ needOf els sigma k); [|lia].
    apply needOf_ge. right. eauto.
  - intros Hall.
    destruct (decide (needOf els sigma k ≤ c)) as [|Hgt]; [done|].
    assert (S c ≤ needOf els sigma k) as Hc by lia.
    apply needOf_ge in Hc as [?|(e & He & Ht & Hc)]; [lia|].
    specialize (Hall e He Ht). lia.
Qed.

Lemma needOf_mono (els : list Element) sigma sigma' (k : string) :
  (∀ p, cod (sigma' p) ≤ cod (sigma p)) →
  needOf els sigma' k ≤ needOf els sigma k.
Proof.
  intros Hle. apply needOf_le. intros e He Ht.
  etrans; [apply effl_mono, Hle|]. apply needOf_ge. right. eauto.
Qed.

Lemma needOf_ext (els : list Element) sigma sigma' (k : string) :
  (∀ e, EEdge e ∈ els → target e = k →
        sigma' (source e) = sigma (source e)) →
  needOf els sigma' k = needOf els sigma k.
Proof.
  intros Heq. apply Nat.le_antisymm; apply needOf_le; intros e He Ht.
  - rewrite (Heq e He Ht). apply needOf_ge. right. eauto.
  - rewrite <- (Heq e He Ht). apply needOf_ge. right. eauto.
Qed.

Lemma setAt_eq y b sigma : setAt y b sigma y = b.
Proof. unfold setAt. by rewrite bool_decide_true. Qed.

Lemma setAt_ne y b sigma k : k ≠ y → setAt y b sigma k = sigma k.
Proof. intros. unfold setAt. by rewrite bool_decide_false. Qed.

Lemma restAt_ext (els : list Element) sigma sigma' (k : string) :
  (∀ p, sigma' p = sigma p) → restAt els sigma k → restAt els sigma' k.
Proof.
  intros Heq Hr. unfold restAt.
  rewrite (needOf_ext els sigma sigma' k), Heq; [done|]. eauto.
Qed.

End ClickAbstract.

Section ClickRun.
Import Flow Meta Status Props GraphProps StatusProps Handlers ClickProps.

Variable els : list Element.
Variable v : string.
Variable s0 : option string.
Variable sigma0 : string → option string.
Hypothesis Hends : endsAreNodes els.
Hypothesis Hvalid0 : validOn els sigma0.
Hypothesis Hrest0 : ∀ k, isNodeId els k → restAt els sigma0 k.

Lemma courseRule_high (m : nat) (cur : option string) :
  3 ≤ m → courseRule m cur = Some "over-one-away".
Proof. destruct m as [|[|[|m]]]; [lia..|done]. Qed.

Lemma stepAt_self (y : string) sigma :
  ¬ hasEdge els y y →
  needOf els (stepAt els y sigma) y = needOf els sigma y.
Proof.
  intros Hno. apply needOf_ext. intros e He Ht.
  unfold stepAt. rewrite setAt_ne; [done|].
  intros Hs. apply Hno. by exists e.
Qed.

Lemma stepAt_rest_self (y : string) sigma :
  ¬ hasEdge els y y → restAt els (stepAt els y sigma) y.
Proof.
  intros Hno. unfold restAt. rewrite stepAt_self by done.
  unfold stepAt. rewrite !setAt_eq. apply courseRule_idem.
Qed.

Lemma stepAt_rest_away (y k : string) sigma :
  k ≠ y → ¬ hasEdge els y k →
  restAt els sigma k → restAt els (stepAt els y sigma) k.
Proof.
  intros Hk Hno Hr. unfold restAt.
  rewrite (needOf_ext els sigma).
  - unfold stepAt. by rewrite setAt_ne.
  - intros e He Ht. unfold stepAt. rewrite setAt_ne; [done|].
    intros Hs. apply Hno. by exists e.
Qed.

Lemma stepAt_fixed (y : string) sigma :
  courseRule (needOf els sigma y) (sigma y) = sigma y →
  ∀ p, stepAt els y sigma p = sigma p.
Proof.
  intros Heq p. unfold stepAt, setAt. case_bool_decide; [by subst|done].
Qed.

(** A change between two codes from 3 on leaves every other node at
    rest. *)
Lemma stepAt_rest_high (y k : string) sigma :
  k ≠ y → 3 ≤ cod (sigma y) → 3 ≤ cod (stepAt els y sigma y) →
  restAt els sigma k → restAt els (stepAt els y sigma) k.
Proof.
  intros Hk Ha Hb Hr. unfold restAt in *.
  assert (stepAt els y sigma k = sigma k) as Hsame
    by (unfold stepAt; by rewrite setAt_ne).
  rewrite Hsame.
  destruct (decide (3 ≤ needOf els sigma k)) as [Hm|Hm].
  - pose proof Hm as Hm'.
    apply needOf_ge in Hm' as [?|(e & He & Ht & Hc)]; [lia|].
    rewrite courseRule_high in Hr by done.
    rewrite courseRule_high; [done|].
    apply needOf_ge. right. exists e. split; [done|]. split; [done|].
    destruct (decide (source e = y)) as [->|Hs].
    + by rewrite effl_high by lia.
    + unfold stepAt. by rewrite setAt_ne.
  - rewrite (needOf_ext els sigma); [done|].
    intros e He Ht. unfold stepAt. rewrite setAt_ne; [done|].
    intros Hs. apply Hm. apply needOf_ge. right.
    exists e. split; [done|]. split; [done|].
    rewrite Hs. by rewrite effl_high by lia.
Qed.

Lemma clickInv_step (y : string) sigma :
  clickInv els v s0 sigma0 sigma →
  isNodeId els y → y ≠ v → ¬ hasEdge els y y →
  clickInv els v s0 sigma0 (stepAt els y sigma).
Proof.
  intros (Hval & Hv & Hbelow & Hhigh & Hfar & Habove) Hy Hyv Hno.
  set (a := sigma y). set (m := needOf els sigma y).
  set (b := courseRule m a).
  assert (stepAt els y sigma y = b) as Hb by (unfold stepAt; by rewrite setAt_eq).
  assert (∀ k, k ≠ y → stepAt els y sigma k = sigma k) as Hother
    by (intros; unfold stepAt; by rewrite setAt_ne).
  assert (validStatus a) as Hva by (by apply Hval).
  assert (cod b ≤ cod a) as Hba by (by apply Habove).
  assert (∀ p, cod (stepAt els y sigma p) ≤ cod (sigma p)) as Hdown.
  { intros p. destruct (decide (p = y)) as [->|Hp];
      [by rewrite Hb|by rewrite Hother]. }
  split_and!.
  - intros k Hk. destruct (decide (k = y)) as [->|Hky].
    + rewrite Hb. apply courseRule_valid.
    + rewrite Hother by done. by apply Hval.
  - by rewrite Hother.
  - intros k. etrans; [apply Hdown|apply Hbelow].
  - intros k Hkv. destruct (decide (k = y)) as [->|Hky].
    + rewrite Hb. intros Hne.
      destruct (courseRule_changes m a Hva) as [Heq|Hge]; [|done].
      fold b in Heq. rewrite Heq in *. by apply Hhigh.
    + rewrite Hother by done. by apply Hhigh.
  - intros k Hkv. destruct (decide (k = y)) as [->|Hky];
      [|rewrite Hother by done; by apply Hfar].
    rewrite Hb. intros Hne.
    destruct (decide (4 ≤ cod b)) as [|Hlow]; [by right|]. left.
    destruct (decide (Exists (λ e, source e = v ∧ target e = y)
                        (edgesOf els))) as [Hex|Hnone].
    { apply Exists_exists in Hex as (e & He%edgesOf_elem & Hs & Ht).
      by exists e. }
    exfalso.
    assert (m ≤ 1) as Hm.
    { destruct (decide (m ≤ 1)) as [|Hgt]; [done|].
      destruct (courseRule_cod_ge m a Hva) as (H2 & _).
      fold b in H2. specialize (H2 ltac:(lia)). lia. }
    assert (∀ e, EEdge e ∈ els → target e = y →
                 sigma (source e) = sigma0 (source e)) as Hold.
    { intros e He Ht.
      destruct (decide (sigma (source e) = sigma0 (source e))) as [|Hch];
        [done|].
      assert (source e ≠ v) as Hsv.
      { intros Hs. apply Hnone, Exists_exists. exists e.
        split; [by apply edgesOf_elem|done]. }
      pose proof (Hhigh _ Hsv Hch) as H2.
      assert (effl (sigma (source e)) (label e) ≤ m) as Hle
        by (apply needOf_ge; right; eauto).
      rewrite effl_high in Hle by done. lia. }
    assert (needOf els sigma0 y = m) as Hm0
      by (symmetry; by apply needOf_ext).
    pose proof (Hrest0 y Hy) as Hr. unfold restAt in Hr. rewrite Hm0 in Hr.
    destruct (decide (a = sigma0 y)) as [Ha|Ha].
    + apply Hne. unfold b. by rewrite Ha.
    + destruct (Hfar y Hyv Ha) as [(e & He & Hs & Ht)|H4].
      * apply Hnone, Exists_exists. exists e.
        split; [by apply edgesOf_elem|done].
      * destruct (courseRule_cod_ge m (sigma0 y)) as (_ & _ & H3 & _);
          [by apply Hvalid0|].
        specialize (H3 Hm). rewrite Hr in H3.
        pose proof (Hbelow y). fold a in H4. unfold a in *. lia.
  - intros k Hk. destruct (decide (k = y)) as [->|Hky].
    + rewrite stepAt_self by done. rewrite Hb. fold m. unfold b.
      by rewrite courseRule_idem.
    + rewrite Hother by done.
      etrans; [|by apply Habove].
      apply courseRule_mono; [by apply Hval|].
      by apply needOf_mono.
Qed.

Lemma restIfParentsOld_step (y k : string) sigma :
  clickInv els v s0 sigma0 sigma →
  isNodeId els y → y ≠ v → ¬ hasEdge els y y →
  k = y ∨ restIfParentsOld els v sigma0 sigma k →
  restIfParentsOld els v sigma0 (stepAt els y sigma) k.
Proof.
  intros (Hval & Hv & Hbelow & Hhigh & Hfar & Habove) Hy Hyv Hno Hk Hprem.
  destruct (decide (k = y)) as [->|Hky]; [by apply stepAt_rest_self|].
  destruct Hk as [?|IH]; [done|].
  set (a := sigma y). set (b := courseRule (needOf els sigma y) a).
  assert (stepAt els y sigma y = b) as Hb by (unfold stepAt; by rewrite setAt_eq).
  destruct (decide (b = a)) as [Hba|Hba].
  - pose proof (stepAt_fixed y sigma Hba) as Hfix.
    apply (restAt_ext els sigma); [done|].
    apply IH. intros e He Ht Hs. rewrite <- Hfix. by apply Hprem.
  - assert (¬ hasEdge els y k) as Hnone.
    { intros (e & He & Hs & Ht). apply Hba.
      pose proof (Hprem e He Ht ltac:(by rewrite Hs)) as Hold.
      rewrite Hs, Hb in Hold.
      apply cod_inj; [apply courseRule_valid|by apply Hval|].
      pose proof (Habove y Hy) as Hle. fold a in Hle. fold b in Hle.
      pose proof (Hbelow y) as Hle'. fold a in Hle'.
      rewrite <- Hold in Hle'. lia. }
    apply stepAt_rest_away; [done..|].
    apply IH. intros e He Ht Hs.
    rewrite <- (Hprem e He Ht Hs). unfold stepAt. rewrite setAt_ne; [done|].
    intros Hsy. apply Hnone. by exists e.
Qed.

Lemma runAt_cons (y : string) (todo : list string) sigma :
  runAt els (y :: todo) sigma = runAt els todo (stepAt els y sigma).
Proof. done. Qed.

(** The calls for the outgoing nodes of [v]. *)
Lemma firstDiff_run (C : list string) (inG : string → Prop) :
  (∀ y, y ∈ C → isNodeId els y ∧ y ≠ v ∧ ¬ hasEdge els y y) →
  (∀ c k, c ∈ C → hasEdge els c k → inG k) →
  ∀ todo done sigma,
    (∀ y, y ∈ todo → y ∈ C) →
    clickInv els v s0 sigma0 sigma →
    (∀ k, isNodeId els k → k ∉ C → ¬ inG k → restAt els sigma k) →
    (∀ k, k ∈ done → ¬ inG k → restAt els sigma k) →
    (∀ k, k ∈ done → restIfParentsOld els v sigma0 sigma k) →
    clickInv els v s0 sigma0 (runAt els todo sigma)
    ∧ (∀ k, isNodeId els k → k ∉ C → ¬ inG k →
            restAt els (runAt els todo sigma) k)
    ∧ (∀ k, k ∈ done ++ todo → ¬ inG k →
            restAt els (runAt els todo sigma) k)
    ∧ (∀ k, k ∈ done ++ todo →
            restIfParentsOld els v sigma0 (runAt els todo sigma) k).
Proof.
  intros HC HG. induction todo as [|y todo IH];
    intros done sigma Hsub Hinv H1 H2 H3.
  - simpl. by rewrite app_nil_r.
  - rewrite runAt_cons.
    assert (y ∈ C) as HyC by (apply Hsub; left).
    destruct (HC y HyC) as (Hy & Hyv & Hno).
    specialize (IH (done ++ [y]) (stepAt els y sigma)).
    rewrite <- app_assoc in IH. simpl in IH. apply IH.
    + intros y' Hy'. apply Hsub. by right.
    + by apply clickInv_step.
    + intros k Hk HkC HkG. apply stepAt_rest_away; [| |by apply H1].
      * by intros ->.
      * intros He. apply HkG. by apply (HG y).
    + intros k Hk HkG.
      destruct (decide (k = y)) as [->|Hky]; [by apply stepAt_rest_self|].
      apply elem_of_app in Hk as [Hk|Hk%list_elem_of_singleton]; [|done].
      apply stepAt_rest_away; [done| |by apply H2].
      intros He. apply HkG. by apply (HG y).
    + intros k Hk. apply restIfParentsOld_step; [done..|].
      apply elem_of_app in Hk as [Hk|Hk%list_elem_of_singleton];
        [right; by apply H3|by left].
Qed.

(** The calls for the outgoing nodes of those: none of them changes a
    status into one with a code below 3, so what is at rest stays so. *)
Lemma secondDiff_run (todo : list string) :
  ∀ sigma,
    (∀ y, y ∈ todo → isNodeId els y ∧ y ≠ v ∧ ¬ hasEdge els y y) →
    clickInv els v s0 sigma0 sigma →
    (∀ k, isNodeId els k → k ∉ todo → restAt els sigma k) →
    (∀ k, hasEdge els v k → restIfParentsOld els v sigma0 sigma k) →
    clickInv els v s0 sigma0 (runAt els todo sigma)
    ∧ ∀ k, isNodeId els k → restAt els (runAt els todo sigma) k.
Proof.
  induction todo as [|y todo IH]; intros sigma Htodo Hinv Hrest HE.
  - simpl. split; [done|]. intros k Hk. apply Hrest; [done|].
    apply not_elem_of_nil.
  - rewrite runAt_cons.
    destruct (Htodo y) as (Hy & Hyv & Hno); [left|].
    pose proof (clickInv_step y sigma Hinv Hy Hyv Hno) as Hinv'.
    apply IH; [intros y' Hy'; apply Htodo; by right|done| |].
    + intros k Hk Hnot.
      destruct (decide (k = y)) as [->|Hky]; [by apply stepAt_rest_self|].
      assert (restAt els sigma k) as Hr.
      { apply Hrest; [done|]. intros [?|?]%elem_of_cons; done. }
      set (a := sigma y). set (m := needOf els sigma y).
      set (b := courseRule m a).
      assert (stepAt els y sigma y = b) as Hb
        by (unfold stepAt; by rewrite setAt_eq).
      destruct (decide (b = a)) as [Hba|Hba].
      { apply (restAt_ext els sigma); [|done]. by apply stepAt_fixed. }
      destruct Hinv as (Hval & Hv & Hbelow & Hhigh & Hfar & Habove).
      destruct Hinv' as (_ & _ & _ & _ & Hfar' & _).
      assert (validStatus a) as Hva by (by apply Hval).
      assert (cod b ≤ cod a) as Hle by (by apply Habove).
      assert (cod b ≠ cod a) as Hne.
      { intros Hc. apply Hba. apply cod_inj; [apply courseRule_valid|done..]. }
      assert (3 ≤ cod b) as H3.
      { destruct (decide (3 ≤ cod b)) as [|Hlow]; [done|]. exfalso.
        destruct (courseRule_cod_ge m a Hva) as (_ & _ & _ & Hm0).
        fold b in Hm0. specialize (Hm0 ltac:(lia)).
        assert (hasEdge els v y) as Hvy.
        { destruct (Hfar' y Hyv) as [?|H4]; [|done|rewrite Hb in H4; lia].
          rewrite Hb. intros Heq. pose proof (Hbelow y) as Hy0.
          fold a in Hy0. rewrite <- Heq in Hy0. lia. }
        apply Hba. apply (HE y Hvy). intros e He Ht Hs.
        destruct (decide (sigma (source e) = sigma0 (source e))) as [|Hch];
          [done|].
        pose proof (Hhigh _ Hs Hch) as H2.
        assert (effl (sigma (source e)) (label e) ≤ m) as Hle'
          by (apply needOf_ge; right; eauto).
        rewrite effl_high in Hle' by done. lia. }
      apply stepAt_rest_high; [done| |by rewrite Hb|done].
      fold a. lia.
    + intros k Hk. apply restIfParentsOld_step; [done..|].
      right. by apply HE.
Qed.

Lemma nextStatus_cases (cur : option string) (s : string) :
  nextStatus cur = Some s →
  (cur = Some "ready" ∧ s = "enrolled")
  ∨ (cur = Some "enrolled" ∧ s = "completed").
Proof.
  destruct cur as [c|]; [|done]. simpl.
  destruct (String.eqb_spec c "ready") as [->|_]; [intros [= <-]; by left|].
  destruct (String.eqb_spec c "enrolled") as [->|_]; [|done].
  intros [= <-]. by right.
Qed.

(** After the calls for the outgoing nodes of [v] and for the outgoing
    nodes of those, every node is at rest. *)
Lemma click_settles (C G : list string) (s : string) :
  acyclic els → isNodeId els v →
  nextStatus (sigma0 v) = Some s → s0 = Some s →
  (∀ k, k ∈ C ↔ hasEdge els v k) →
  (∀ k, k ∈ G ↔ ∃ c, c ∈ C ∧ hasEdge els c k) →
  runAt els G (runAt els C (setAt v s0 sigma0)) v = s0
  ∧ validOn els (runAt els G (runAt els C (setAt v s0 sigma0)))
  ∧ ∀ k, isNodeId els k →
         restAt els (runAt els G (runAt els C (setAt v s0 sigma0))) k.
Proof.
  intros Hacyc Hv Hnext Hs0 HC HG.
  assert (∀ y, ¬ hasEdge els y y) as Hno
    by (intros y Hy; apply (Hacyc y); by apply tc_once).
  assert (∀ k, hasEdge els v k → isNodeId els k ∧ k ≠ v) as Hchild.
  { intros k Hk. split; [|intros ->; by apply (Hno v)].
    destruct Hk as (e & He & _ & <-). by apply Hends. }
  assert (∀ c k, hasEdge els v c → hasEdge els c k →
                 isNodeId els k ∧ k ≠ v) as Hgrand.
  { intros c k Hc Hk. split.
    - destruct Hk as (e & He & _ & <-). by apply Hends.
    - intros ->. apply (Hacyc v). eapply tc_l; [exact Hc|by apply tc_once]. }
  set (sigma1 := setAt v s0 sigma0).
  assert (∀ k, k ≠ v → sigma1 k = sigma0 k) as Hother
    by (intros; unfold sigma1; by rewrite setAt_ne).
  assert (sigma1 v = s0) as Hs1 by (unfold sigma1; by rewrite setAt_eq).
  pose proof (Hrest0 v Hv) as Hrv. unfold restAt in Hrv.
  assert (needOf els sigma0 v = 0 ∧ cod s0 ≤ cod (sigma0 v)
          ∧ validStatus s0 ∧ courseRule 0 s0 = s0)
    as (Hm0 & Hcs & Hvs & Hrs).
  { rewrite Hs0. destruct (courseRule_cod_ge (needOf els sigma0 v) (sigma0 v))
      as (_ & _ & _ & H0); [by apply Hvalid0|].
    rewrite Hrv in H0.
    destruct (nextStatus_cases _ _ Hnext) as [[Hcur ->]|[Hcur ->]];
      rewrite Hcur in *; (split; [apply H0; vm_compute; lia|]);
      (split; [vm_compute; lia|]); (split; [|done]);
      eexists; (split; [done|]); unfold COURSE_STATUSES; set_solver. }
  assert (∀ p, cod (sigma1 p) ≤ cod (sigma0 p)) as Hdown.
  { intros p. destruct (decide (p = v)) as [->|Hp];
      [by rewrite Hs1|by rewrite Hother]. }
  assert (needOf els sigma1 v = 0) as Hm1.
  { rewrite <- Hm0. apply needOf_ext. intros e He Ht. apply Hother.
    intros Hs. apply (Hno v). by exists e. }
  assert (clickInv els v s0 sigma0 sigma1) as Hinv.
  { split_and!.
    - intros k Hk. destruct (decide (k = v)) as [->|Hkv];
        [by rewrite Hs1|rewrite Hother by done; by apply Hvalid0].
    - done.
    - done.
    - intros k Hkv Hne. by rewrite Hother in Hne.
    - intros k Hkv Hne. by rewrite Hother in Hne.
    - intros k Hk. destruct (decide (k = v)) as [->|Hkv].
      + by rewrite Hm1, Hs1, Hrs.
      + rewrite Hother by done.
        pose proof (Hrest0 k Hk) as Hr. unfold restAt in Hr.
        rewrite <- Hr at 2.
        apply courseRule_mono; [by apply Hvalid0|by apply needOf_mono]. }
  destruct (firstDiff_run C (λ k, k ∈ G)) with (todo := C) (done := @nil string)
    (sigma := sigma1) as (Hinv1 & HrestOut & HrestC & HEC).
  - intros y Hy%HC. destruct (Hchild y Hy). split_and!; [done..|apply Hno].
  - intros c k Hc Hk. apply HG. eauto.
  - done.
  - done.
  - intros k Hk HkC HkG. destruct (decide (k = v)) as [->|Hkv].
    + unfold restAt. by rewrite Hm1, Hs1, Hrs.
    + unfold restAt. rewrite Hother by done.
      rewrite (needOf_ext els sigma0); [by apply Hrest0|].
      intros e He Ht. apply Hother. intros Hs. apply HkC, HC. by exists e.
  - intros k Hk. by apply elem_of_nil in Hk.
  - intros k Hk. by apply elem_of_nil in Hk.
  - simpl in HrestC, HEC.
    destruct (secondDiff_run G (runAt els C sigma1)) as [Hinv2 Hrest2].
    + intros y (c & Hc%HC & Hy)%HG. destruct (Hgrand c y Hc Hy).
      split_and!; [done..|apply Hno].
    + done.
    + intros k Hk HkG. destruct (decide (k ∈ C)) as [HkC|HkC].
      * by apply HrestC.
      * by apply HrestOut.
    + intros k Hk%HC. by apply HEC.
    + split; [apply Hinv2|]. split; [apply Hinv2|done].
Qed.

End ClickRun.

Section ClickArray.
Import Flow Meta Status Props GraphProps StatusProps Handlers ClickProps.

Variable nd : gmap string NodeMeta.
Variable idx : gmap string nat.

Lemma setNodeStatus_map els (n : FlowNode) (s : option string) :
  consistent els nd idx → ENode n ∈ els →
  ∃ md, nd !! nid n = Some md
        ∧ setNodeStatus (nid n) s els nd idx
          = Ok (map (updateElem (nid n) s) els).
Proof.
  intros Hc Hn. pose proof Hc as ((Hdom & Hadj) & Hnodup & Hidx).
  destruct (consistent_index els nd idx (ENode n) Hc Hn) as (i & Hi & Hni).
  simpl in Hi.
  destruct (proj2 (Hdom (nid n))) as [md Hmd]; [eauto|].
  destruct (Hadj (nid n) md Hmd) as (HiE & HoE & _).
  exists md. split; [done|].
  destruct (setNodeStatus_ok (nid n) s els nd idx i n md)
    as (els' & -> & Hlen & Hpos); [done..| |].
  { apply indexesOk_spec. intros id Hid.
    apply HoE in Hid as (e & He & <- & _).
    destruct (consistent_index els nd idx (EEdge e) Hc He) as (j & Hj & Hej).
    exists j. split; [done|]. by eapply lookup_lt_Some. }
  f_equal. apply list_eq. intros k.
  rewrite Hpos, list_lookup_fmap.
  destruct (els !! k) as [x|] eqn:Hx.
  - assert (x ∈ els) as Hin by (by eapply list_elem_of_lookup_2).
    destruct (decide (k = i)) as [->|Hki].
    + rewrite list_lookup_insert_eq by (by eapply lookup_lt_Some).
      assert (x = ENode n) as -> by congruence. simpl.
      rewrite (consistent_touched els nd idx (nid n) md i (ENode n)) by done.
      by rewrite bool_decide_true.
    + rewrite list_lookup_insert_ne, Hx by done. simpl.
      rewrite (consistent_touched els nd idx (nid n) md k x) by done.
      destruct x as [m|e]; simpl; [|by case_bool_decide].
      rewrite bool_decide_false; [done|]. intros Hid.
      assert (ENode m = ENode n) as Heq by (by apply (same_id els)).
      destruct Hki. eapply NoDup_lookup; [exact Hnodup| |].
      * by rewrite list_lookup_fmap, Hx.
      * by rewrite list_lookup_fmap, Hni; simpl; rewrite Hid.
  - rewrite list_lookup_insert_ne, Hx; [done|].
    intros <-. apply lookup_lt_Some in Hni. apply lookup_ge_None in Hx. lia.
Qed.

Lemma click_update_map els (n : FlowNode) :
  consistent els nd idx → ENode n ∈ els →
  ∃ md s,
    nd !! nid n = Some md
    ∧ newStatusOf "course" (nodeStatus (data n))
        (map (elementAt els idx) (incomingEdges md)) = Ok s
    ∧ Handlers.updateNodeStatus (nid n) els nd idx
      = Ok (map (updateElem (nid n) s) els).
Proof.
  intros Hc Hn. pose proof Hc as ((Hdom & Hadj) & Hnodup & Hidx).
  destruct (setNodeStatus_map els n None Hc Hn) as (md & Hmd & _).
  destruct (Hadj (nid n) md Hmd) as (HiE & _).
  destruct (mapR_ok getEdgeStatus
              (map (elementAt els idx) (incomingEdges md))) as [codes Hcodes].
  { intros a (id & -> & Hid)%list_elem_of_fmap.
    apply HiE in Hid as (e & He & <- & _).
    pose proof (consistent_elementAt els nd idx (EEdge e) Hc He) as Hat.
    simpl in Hat. rewrite Hat. apply getEdgeStatus_Some. }
  destruct (newStatusOf_ok "course" (nodeStatus (data n)) _ _ Hcodes)
    as [s Hs].
  exists md, s. split; [done|]. split; [done|].
  unfold Handlers.updateNodeStatus.
  pose proof (consistent_elementAt els nd idx (ENode n) Hc Hn) as Hat.
  simpl in Hat. rewrite Hat, Hmd. cbv zeta. rewrite Hs. simpl.
  destruct (setNodeStatus_map els n s Hc Hn) as (md' & _ & ->). done.
Qed.

Lemma getEdgeStatus_effl (e : FlowEdge) :
  validStatus (className e) →
  getEdgeStatus (Some (EEdge e)) = Ok (Fin (effl (className e) (label e))).
Proof.
  intros (c & Hc & Hcode)%code_valid. unfold getEdgeStatus, effl, cod.
  simpl. rewrite Hcode.
  destruct c as [|[|c]]; [done| |done].
  destruct (label e) as [l|]; [|done]. by destruct (String.eqb l "CC").
Qed.

Lemma Math_max_Fin (cs : list nat) :
  Math_max (map Fin cs)
  = match cs with [] => NegInf | _ => Fin (foldr Nat.max 0 cs) end.
Proof.
  unfold Math_max.
  assert (∀ l a, fold_left max2 (map Fin l) (Fin a)
                 = Fin (a `max` foldr Nat.max 0 l)) as Hgen.
  { induction l as [|c l IH]; intros a; simpl; [f_equal; lia|].
    rewrite IH. f_equal. lia. }
  destruct cs as [|c cs]; [done|]. simpl. rewrite Hgen. done.
Qed.

Lemma nat_le_ext (a b : nat) : (∀ c, c ≤ a ↔ c ≤ b) → a = b.
Proof.
  intros H. apply Nat.le_antisymm; [by apply H|by apply H].
Qed.

(** The course rule on the array is the rule on its statuses. *)
Lemma courseRule_spec upd (k : string) md (cur : option string) :
  consistent upd nd idx → nd !! k = Some md → carries upd idx →
  (∀ e, EEdge e ∈ upd → validStatus (className e)) →
  newStatusOf "course" cur (map (elementAt upd idx) (incomingEdges md))
  = Ok (courseRule (needOf upd (stat upd idx) k) cur).
Proof.
  intros Hc Hmd Hcar Hval. pose proof Hc as ((Hdom & Hadj) & Hnodup & Hidx).
  destruct (Hadj k md Hmd) as (HiE & _).
  assert (∀ ids, (∀ id, id ∈ ids → id ∈ incomingEdges md) →
            ∃ cs, mapR getEdgeStatus (map (elementAt upd idx) ids)
                  = Ok (map Fin cs)
                  ∧ ∀ c, c ∈ cs
                         ↔ ∃ e, EEdge e ∈ upd ∧ eid e ∈ ids
                                ∧ c = effl (className e) (label e))
    as Hcodes.
  { induction ids as [|id ids IH]; intros Hsub.
    - exists []. split; [done|]. intros c. split.
      + by intros ?%elem_of_nil.
      + by intros (e & _ & ?%elem_of_nil & _).
    - destruct IH as (cs & Hrun & Hcs); [intros; apply Hsub; by right|].
      destruct (proj1 (HiE id)) as (e & He & Hid & Ht); [apply Hsub; left|].
      pose proof (consistent_elementAt upd nd idx (EEdge e) Hc He) as Hat.
      simpl in Hat. rewrite Hid in Hat.
      exists (effl (className e) (label e) :: cs). simpl.
      rewrite Hat, (getEdgeStatus_effl e (Hval e He)). simpl. rewrite Hrun.
      split; [done|]. intros c. rewrite elem_of_cons, Hcs. split.
      + intros [->|(e' & He' & Hin & Hc')].
        * exists e. split; [done|]. split; [rewrite Hid; left|done].
        * exists e'. split; [done|]. split; [by right|done].
      + intros (e' & He' & [Hid'|Hin]%elem_of_cons & ->).
        * left. assert (EEdge e' = EEdge e) as [= ->]; [|done].
          apply (same_id upd); [done..|]. simpl. congruence.
        * right. eauto. }
  destruct (Hcodes (incomingEdges md)) as (cs & Hrun & Hcs); [done|].
  unfold newStatusOf. simpl. rewrite Hrun. simpl.
  rewrite Math_max_Fin.
  assert (foldr Nat.max 0 cs = needOf upd (stat upd idx) k) as Hneed.
  { apply nat_le_ext. intros c. rewrite foldr_max_ge, needOf_ge.
    split; (intros [->|Hex]; [by left|right]).
    - destruct Hex as (x & (e & He & Hin & ->)%Hcs & Hle).
      apply HiE in Hin as (e' & He' & Hid & Ht).
      assert (EEdge e' = EEdge e) as [= ->]
        by (apply (same_id upd); [done..|]; simpl; congruence).
      exists e. split; [done|]. split; [done|]. by rewrite <- Hcar.
    - destruct Hex as (e & He & Ht & Hle).
      exists (effl (className e) (label e)). split.
      + apply Hcs. exists e. split; [done|]. split; [|done].
        apply HiE. eauto.
      + by rewrite (Hcar e He). }
  destruct cs as [|c cs]; [by rewrite <- Hneed|].
  rewrite Hneed.
  by destruct (needOf upd (stat upd idx) k) as [|[|[|m]]].
Qed.

Lemma stat_node upd (n : FlowNode) :
  consistent upd nd idx → ENode n ∈ upd →
  stat upd idx (nid n) = nodeStatus (data n).
Proof.
  intros Hc Hn. unfold stat.
  pose proof (consistent_elementAt upd nd idx (ENode n) Hc Hn) as Hat.
  simpl in Hat. by rewrite Hat.
Qed.

Lemma stat_update upd (y k : string) (s : option string) :
  consistent upd nd idx → isNodeId upd y →
  stat (map (updateElem y s) upd) idx k = setAt y s (stat upd idx) k.
Proof.
  intros Hc (n & Hn & Hy). pose proof Hc as (_ & Hnodup & _).
  pose proof (consistent_elementAt upd nd idx (ENode n) Hc Hn) as Hat.
  simpl in Hat. rewrite Hy in Hat.
  unfold stat, setAt, elementAt in *.
  destruct (idx !! k) as [i|] eqn:Hi; simpl.
  - rewrite list_lookup_fmap.
    destruct (upd !! i) as [x|] eqn:Hx; simpl.
    + pose proof (consistent_at upd nd idx k i x Hc Hi Hx) as Hid.
      destruct x as [m|e]; simpl in *.
      * rewrite Hid. by case_bool_decide.
      * assert (k ≠ y) as Hky.
        { intros Hky. rewrite Hky in Hi. rewrite Hi in Hat.
          simpl in Hat. congruence. }
        rewrite (bool_decide_false (k = y)) by done. by case_bool_decide.
    + case_bool_decide as Hky; [|done].
      rewrite Hky in Hi. rewrite Hi in Hat. simpl in Hat. congruence.
  - case_bool_decide as Hky; [|done]. rewrite Hky in Hi.
    by rewrite Hi in Hat.
Qed.

Lemma carries_update upd (y : string) (s : option string) :
  consistent upd nd idx → isNodeId upd y →
  carries upd idx → carries (map (updateElem y s) upd) idx.
Proof.
  intros Hc Hy Hcar e' (x & Hx & Hin)%list_elem_of_fmap.
  rewrite stat_update by done. unfold setAt.
  destruct x as [m|e]; simpl in Hx; [by case_bool_decide|].
  case_bool_decide as Hs.
  - injection Hx as ->. simpl. by rewrite bool_decide_true.
  - injection Hx as ->. rewrite bool_decide_false by done. by apply Hcar.
Qed.

Lemma needOf_skeleton (f : Element → Element) (els : list Element) sg k :
  (∀ x, clearStatus (f x) = clearStatus x) →
  needOf (map f els) sg k = needOf els sg k.
Proof.
  intros Hf. apply Nat.le_antisymm; apply needOf_le; intros e He Ht.
  - apply list_elem_of_fmap in He as (x & Hx & Hin).
    destruct (clearStatus_skeleton (f x) x (Hf x)) as [_ Hsk].
    rewrite <- Hx in Hsk. destruct x as [n|e0]; [done|].
    destruct Hsk as (-> & Ht' & ->).
    apply needOf_ge. right. exists e0. split; [done|].
    split; [congruence|done].
  - destruct (clearStatus_skeleton (f (EEdge e)) (EEdge e) (Hf _)) as [_ Hsk].
    destruct (f (EEdge e)) as [n'|e'] eqn:Hfe; [done|].
    destruct Hsk as (Hs & Ht' & Hl). rewrite <- Hs, <- Hl.
    apply needOf_ge. right. exists e'. split; [|split; [congruence|done]].
    rewrite <- Hfe. apply list_elem_of_fmap. eauto.
Qed.

Lemma tracks_set els upd sigma (y : string) (s : option string) :
  tracks els nd idx upd sigma → isNodeId els y →
  tracks els nd idx (map (updateElem y s) upd) (setAt y s sigma).
Proof.
  intros (Hc & Hshape & Hneed & Hnodes & Hstat & Hcar) Hy.
  assert (isNodeId upd y) as Hy' by (by apply Hnodes).
  split_and!.
  - apply consistent_skeleton; [apply updateElem_clear|done].
  - eapply sameShape_trans; [exact Hshape|].
    apply sameShape_map, updateElem_clear.
  - intros sg k. rewrite needOf_skeleton by apply updateElem_clear. apply Hneed.
  - intros k. rewrite <- Hnodes. unfold isNodeId.
    apply skeleton_node, updateElem_clear.
  - intros k. rewrite stat_update by done. unfold setAt.
    by rewrite Hstat.
  - by apply carries_update.
Qed.

Lemma tracks_valid els upd sigma :
  endsAreNodes els → tracks els nd idx upd sigma → validOn els sigma →
  ∀ e, EEdge e ∈ upd → validStatus (className e).
Proof.
  intros Hends (Hc & Hshape & Hneed & Hnodes & Hstat & Hcar) Hval e He.
  rewrite (Hcar e He), Hstat. apply Hval.
  destruct (sameShape_hasEdge els upd (source e) (target e) Hshape)
    as (e0 & He0 & <- & _); [by exists e|].
  by apply Hends.
Qed.

(** One call on the array is one step on the statuses. *)
Lemma tracks_step els upd sigma (y : string) :
  endsAreNodes els → tracks els nd idx upd sigma → validOn els sigma →
  isNodeId els y →
  Handlers.updateNodeStatus y upd nd idx
  = Ok (map (updateElem y (courseRule (needOf els sigma y) (sigma y))) upd)
  ∧ tracks els nd idx
      (map (updateElem y (courseRule (needOf els sigma y) (sigma y))) upd)
      (stepAt els y sigma).
Proof.
  intros Hends Htr Hval Hy. split; [|by apply tracks_set].
  pose proof (tracks_valid els upd sigma Hends Htr Hval) as Hvale.
  destruct Htr as (Hc & Hshape & Hneed & Hnodes & Hstat & Hcar).
  destruct (proj2 (Hnodes y) Hy) as (n & Hn & <-).
  destruct (click_update_map upd n Hc Hn) as (md & s & Hmd & Hs & ->).
  rewrite (courseRule_spec upd (nid n) md _ Hc Hmd Hcar Hvale) in Hs.
  injection Hs as <-.
  rewrite Hneed, <- Hstat, (stat_node upd n Hc Hn).
  rewrite (needOf_ext els sigma (stat upd idx)); [done|].
  intros e _ _. apply Hstat.
Qed.

Lemma validOn_step els sigma (y : string) :
  validOn els sigma → validOn els (stepAt els y sigma).
Proof.
  intros Hval k Hk. unfold stepAt, setAt.
  case_bool_decide; [apply courseRule_valid|by apply Hval].
Qed.

Lemma tracks_run els (ids : list string) :
  endsAreNodes els → (∀ y, y ∈ ids → isNodeId els y) →
  ∀ upd sigma,
    tracks els nd idx upd sigma → validOn els sigma →
    ∃ upd',
      forEach (λ els id, Handlers.updateNodeStatus id els nd idx) ids upd
      = Ok upd'
      ∧ tracks els nd idx upd' (runAt els ids sigma).
Proof.
  intros Hends. induction ids as [|y ids IH]; intros Hids upd sigma Htr Hval.
  - exists upd. done.
  - destruct (tracks_step els upd sigma y Hends Htr Hval) as [Hrun Htr'];
      [apply Hids; left|].
    destruct (IH (λ y' Hy', Hids y' (proj2 (elem_of_cons _ _ _) (or_intror Hy')))
                _ _ Htr' (validOn_step els sigma y Hval))
      as (upd' & Hrun' & Htr'').
    exists upd'. simpl. rewrite Hrun. simpl. done.
Qed.

End ClickArray.

Section ClickTheorem.
Import Flow Meta Status Props ParserProps GraphProps StatusProps Handlers
  ClickProps.

Lemma map_fixed {A} (f : A → A) (l : list A) :
  map f l = l ↔ ∀ x, x ∈ l → f x = x.
Proof.
  split.
  - intros Hmap x [i Hi]%list_elem_of_lookup.
    assert (map f l !! i = Some (f x)) as Hfx
      by (by rewrite list_lookup_fmap, Hi).
    rewrite Hmap, Hi in Hfx. congruence.
  - intros Hfix. apply list_eq. intros i. rewrite list_lookup_fmap.
    destruct (l !! i) as [x|] eqn:Hx; [|done]. simpl. f_equal.
    apply Hfix. by eapply list_elem_of_lookup_2.
Qed.

Lemma settled_carries els nd idx :
  consistent els nd idx → endsAreNodes els →
  (∀ m, ENode m ∈ els → Handlers.updateNodeStatus (nid m) els nd idx = Ok els) →
  carries els idx
  ∧ ∀ m md, ENode m ∈ els → nd !! nid m = Some md →
            newStatusOf "course" (nodeStatus (data m))
              (map (elementAt els idx) (incomingEdges md))
            = Ok (nodeStatus (data m)).
Proof.
  intros Hc Hends Hset.
  assert (∀ m, ENode m ∈ els →
            ∃ md, nd !! nid m = Some md
              ∧ newStatusOf "course" (nodeStatus (data m))
                  (map (elementAt els idx) (incomingEdges md))
                = Ok (nodeStatus (data m))
              ∧ ∀ e, EEdge e ∈ els → source e = nid m →
                     className e = nodeStatus (data m)) as Hall.
  { intros m Hm.
    destruct (click_update_map nd idx els m Hc Hm)
      as (md & s & Hmd & Hrule & Hrun).
    rewrite (Hset m Hm) in Hrun. injection Hrun as Hmap. symmetry in Hmap.
    pose proof (proj1 (map_fixed _ _) Hmap) as Hfix.
    pose proof (Hfix (ENode m) Hm) as H1. simpl in H1.
    rewrite bool_decide_true in H1 by done. injection H1 as H1.
    apply (f_equal (λ x, nodeStatus (data x))) in H1. simpl in H1.
    subst s. exists md. split; [done|]. split; [done|].
    intros e He Hs. pose proof (Hfix (EEdge e) He) as H2. simpl in H2.
    rewrite bool_decide_true in H2 by done. injection H2 as H2.
    by rewrite <- H2. }
  split.
  - intros e He. destruct (Hends e He) as [(m & Hm & Hs) _].
    destruct (Hall m Hm) as (md & _ & _ & Hcls).
    rewrite (Hcls e He) by done. rewrite <- Hs. symmetry.
    by apply (stat_node nd idx).
  - intros m md Hm Hmd. destruct (Hall m Hm) as (md' & Hmd' & Hrule & _).
    congruence.
Qed.

Lemma tracks_init els nd idx :
  consistent els nd idx → carries els idx →
  tracks els nd idx els (stat els idx).
Proof.
  intros Hc Hcar. split_and!; try done.
  split; [done|]. intros k x Hx. eauto.
Qed.

Lemma validNodes_stat els nd idx :
  consistent els nd idx → validNodes els → validOn els (stat els idx).
Proof.
  intros Hc Hval k (m & Hm & <-). rewrite (stat_node nd idx) by done.
  by apply Hval.
Qed.

Lemma settled_rest els nd idx :
  consistent els nd idx → endsAreNodes els → validNodes els →
  (∀ m, ENode m ∈ els → Handlers.updateNodeStatus (nid m) els nd idx = Ok els) →
  ∀ k, isNodeId els k → restAt els (stat els idx) k.
Proof.
  intros Hc Hends Hval Hset k (m & Hm & <-).
  destruct (settled_carries els nd idx Hc Hends Hset) as [Hcar Hrule].
  pose proof Hc as ((Hdom & _) & _).
  destruct (proj2 (Hdom (nid m))) as [md Hmd]; [eauto|].
  pose proof (Hrule m md Hm Hmd) as Hr.
  rewrite (courseRule_spec nd idx els (nid m) md) in Hr; [|done..|].
  - injection Hr as Hr. unfold restAt.
    by rewrite (stat_node nd idx els m).
  - apply (tracks_valid nd idx els els (stat els idx)); [done| |].
    + by apply tracks_init.
    + by apply (validNodes_stat els nd idx).
Qed.

Lemma rest_settled els nd idx upd sigma :
  endsAreNodes els → tracks els nd idx upd sigma → validOn els sigma →
  (∀ k, isNodeId els k → restAt els sigma k) →
  ∀ m, ENode m ∈ upd → Handlers.updateNodeStatus (nid m) upd nd idx = Ok upd.
Proof.
  intros Hends Htr Hval Hrest m Hm.
  pose proof Htr as (Hc & Hshape & Hneed & Hnodes & Hstat & Hcar).
  assert (isNodeId els (nid m)) as Hk by (apply Hnodes; by exists m).
  destruct (tracks_step nd idx els upd sigma (nid m) Hends Htr Hval Hk)
    as [-> _].
  rewrite (Hrest _ Hk). f_equal. apply map_fixed.
  intros x Hx. destruct x as [m'|e]; simpl; case_bool_decide as Hid; try done.
  - f_equal. rewrite <- Hstat, <- Hid, (stat_node nd idx upd m') by done.
    apply withNodeStatus_same.
  - rewrite <- Hid, <- Hstat, <- (Hcar e Hx). apply withClassName_same.
Qed.

Lemma outgoing_elem els nd idx (k : string) md :
  consistent els nd idx → endsAreNodes els → nd !! k = Some md →
  ∀ y, y ∈ outgoingNodes md ↔ hasEdge els k y.
Proof.
  intros ((_ & Hadj) & _) Hends Hmd y.
  destruct (Hadj k md Hmd) as (_ & _ & _ & HoN & _). rewrite HoN.
  split; [tauto|]. intros Hk. split; [|done].
  destruct Hk as (e & He & _ & <-).
  destruct (Hends e He) as [_ (m & Hm & Ht)]. by exists (ENode m).
Qed.

Lemma setOf_elem (l seen : list string) (x : string) :
  x ∈ setOf seen l ↔ x ∈ l ∧ x ∉ seen.
Proof.
  revert seen. induction l as [|a l IH]; intros seen; simpl.
  - split; [by intros ?%elem_of_nil|by intros [?%elem_of_nil _]].
  - case_bool_decide as Ha.
    + rewrite IH, elem_of_cons. split; [tauto|].
      intros [[->|?] ?]; [done|tauto].
    + rewrite !elem_of_cons, IH, not_elem_of_cons. split.
      * intros [->|(? & ? & ?)]; [split; [by left|done]|tauto].
      * intros [[->|?] ?]; [by left|].
        destruct (decide (x = a)); [by left|right; tauto].
Qed.

Lemma outs_elem (nd : gmap string NodeMeta) (C : list string) :
  (∀ c, c ∈ C → is_Some (nd !! c)) →
  ∃ outs,
    mapR (λ id, match nd !! id with
                | Some m => Ok (outgoingNodes m)
                | None => Err TypeError
                end) C = Ok outs
    ∧ ∀ k, k ∈ concat outs
           ↔ ∃ c md, c ∈ C ∧ nd !! c = Some md ∧ k ∈ outgoingNodes md.
Proof.
  induction C as [|c C IH]; intros Hall.
  - exists []. split; [done|]. intros k. split.
    + by intros ?%elem_of_nil.
    + by intros (c & md & ?%elem_of_nil & _).
  - destruct IH as (outs & Hrun & Hk); [intros; apply Hall; by right|].
    destruct (Hall c) as [md Hmd]; [left|].
    exists (outgoingNodes md :: outs). simpl. rewrite Hmd. simpl.
    rewrite Hrun. split; [done|]. intros k.
    rewrite elem_of_app, Hk. split.
    + intros [Hin|(c' & md' & Hc' & Hmd' & Hin)].
      * exists c, md. split; [left|done].
      * exists c', md'. split; [by right|done].
    + intros (c' & md' & [->|Hc']%elem_of_cons & Hmd' & Hin).
      * left. congruence.
      * right. eauto.
Qed.

Lemma validOn_run els (ids : list string) sigma :
  validOn els sigma → validOn els (runAt els ids sigma).
Proof.
  revert sigma. induction ids as [|y ids IH]; intros sigma Hval; [done|].
  rewrite runAt_cons. by apply IH, validOn_step.
Qed.

(** X18. A click with the alt key on a node whose status is "ready" or
    "enrolled", in a settled array: one in which recomputing any node
    returns the same array. With metadata and index map that belong to
    the array, ids pairwise distinct, no cycle, every edge between two
    nodes and every node status one of the six, [onElementClick] returns
    an array that is the old one up to statuses, in which the clicked
    node has the next status ("enrolled" after "ready", "completed"
    after "enrolled"), and which is settled again. The calls for the
    outgoing nodes of the clicked node and for the outgoing nodes of
    those are enough, however deep the graph below them. *)
Theorem onElementClick_settles els nd idx (targetElem : Element)
    (n : FlowNode) (s : string) :
  consistent els nd idx → acyclic els → endsAreNodes els → validNodes els →
  (∀ m, ENode m ∈ els →
        Handlers.updateNodeStatus (nid m) els nd idx = Ok els) →
  ENode n ∈ els → isNode targetElem = true → elemId targetElem = nid n →
  nextStatus (nodeStatus (data n)) = Some s →
  ∃ els',
    onElementClick true targetElem els nd idx = Ok (Some els')
    ∧ sameShape els els'
    ∧ (∃ n', ENode n' ∈ els' ∧ nid n' = nid n
             ∧ nodeStatus (data n') = Some s)
    ∧ ∀ m, ENode m ∈ els' →
           Handlers.updateNodeStatus (nid m) els' nd idx = Ok els'.
Proof.
  intros Hc Hacyc Hends Hval Hset Hn Hnode Hid Hnext.
  destruct (settled_carries els nd idx Hc Hends Hset) as [Hcar _].
  pose proof (settled_rest els nd idx Hc Hends Hval Hset) as Hrest0.
  pose proof (validNodes_stat els nd idx Hc Hval) as Hvalid0.
  pose proof (tracks_init els nd idx Hc Hcar) as Htr0.
  set (sigma0 := stat els idx) in *.
  assert (isNodeId els (nid n)) as Hv by (by exists n).
  assert (sigma0 (nid n) = nodeStatus (data n)) as Hsv
    by (by apply (stat_node nd idx)).
  destruct (setNodeStatus_map nd idx els n (Some s) Hc Hn) as (md & Hmd & Hrun0).
  pose proof (tracks_set nd idx els els sigma0 (nid n) (Some s) Htr0 Hv)
    as Htr1.
  set (sigma1 := setAt (nid n) (Some s) sigma0) in *.
  assert (validOn els sigma1) as Hvalid1.
  { intros k Hk. unfold sigma1, setAt. case_bool_decide; [|by apply Hvalid0].
    destruct (nextStatus_cases _ _ Hnext) as [[_ ->]|[_ ->]];
      eexists; (split; [done|]); unfold COURSE_STATUSES; set_solver. }
  pose proof (outgoing_elem els nd idx (nid n) md Hc Hends Hmd) as HC.
  set (C := outgoingNodes md) in *.
  assert (∀ u y, hasEdge els u y → isNodeId els y) as Htarget.
  { intros u y (e & He & _ & <-). by apply Hends. }
  destruct (tracks_run nd idx els C Hends) with (upd := map (updateElem (nid n) (Some s)) els)
    (sigma := sigma1) as (upd2 & Hrun1 & Htr2); [|done..|].
  { intros y Hy%HC. by eapply Htarget. }
  destruct (outs_elem nd C) as (outs & Houts & Hout).
  { intros c Hc'%HC. pose proof Hc as ((Hdom & _) & _). apply Hdom.
    by eapply Htarget. }
  set (G := setOf [] (concat outs)).
  assert (∀ k, k ∈ G ↔ ∃ c, c ∈ C ∧ hasEdge els c k) as HG.
  { intros k. unfold G. rewrite setOf_elem, Hout. split.
    - intros [(c & md' & Hc' & Hmd' & Hk) _]. exists c. split; [done|].
      by apply (outgoing_elem els nd idx c md').
    - intros (c & Hc' & Hk). split; [|apply not_elem_of_nil].
      pose proof Hc as ((Hdom & _) & _).
      destruct (proj2 (Hdom c)) as [md' Hmd'];
        [apply HC in Hc'; by eapply Htarget|].
      exists c, md'. split; [done|]. split; [done|].
      by apply (outgoing_elem els nd idx c md'). }
  destruct (tracks_run nd idx els G Hends) with (upd := upd2)
    (sigma := runAt els C sigma1) as (upd3 & Hrun2 & Htr3);
    [|done|by apply validOn_run|].
  { intros y (c & _ & Hy)%HG. by eapply Htarget. }
  destruct (click_settles els (nid n) (Some s) sigma0 Hends Hvalid0 Hrest0
              C G s Hacyc Hv) as (Hfv & Hvalidf & Hrestf); [congruence|done..|].
  fold sigma1 in Hfv, Hvalidf, Hrestf.
  exists upd3. split_and!.
  - unfold onElementClick. rewrite Hnode, Hid. cbn [andb].
    pose proof (consistent_elementAt els nd idx (ENode n) Hc Hn) as Hat.
    simpl in Hat. rewrite Hat, Hnext.
    rewrite Hrun0. simpl. rewrite Hmd. fold C. rewrite Hrun1. simpl.
    rewrite Houts. simpl. fold G. by rewrite Hrun2.
  - apply Htr3.
  - destruct Htr3 as (Hc3 & Hshape & _ & _ & Hstat & _).
    destruct (shape_node els upd3 n Hshape Hn) as (n' & Hn' & Hid').
    exists n'. split; [done|]. split; [done|].
    rewrite <- (stat_node nd idx upd3 n' Hc3 Hn'), Hid', Hstat. done.
  - by apply (rest_settled els nd idx upd3 _ Hends Htr3).
Qed.

Lemma endsAreNodes_check (els : list Element) :
  Forall (λ e, source e ∈ nodeIds els ∧ target e ∈ nodeIds els)
    (edgesOf els) →
  endsAreNodes els.
Proof.
  rewrite Forall_forall. intros Hall e He%edgesOf_elem.
  destruct (Hall e He) as [Hs Ht].
  apply nodeIds_elem in Hs as (ns & Hns & <-).
  apply nodeIds_elem in Ht as (nt & Hnt & <-).
  split; eexists; eauto.
Qed.

Lemma onElementClick_settles_witness :
  ∃ els',
    onElementClick true (Examples.courseNode "CSE 142")
      ClickExamples.chainArray (Examples.metaOf ClickExamples.chainArray)
      (newElemIndexes ClickExamples.chainArray) = Ok (Some els')
    ∧ ∀ m, ENode m ∈ els' →
           Handlers.updateNodeStatus (nid m) els'
             (Examples.metaOf ClickExamples.chainArray)
             (newElemIndexes ClickExamples.chainArray) = Ok els'.
Proof.
  destruct (onElementClick_settles ClickExamples.chainArray
              (Examples.metaOf ClickExamples.chainArray)
              (newElemIndexes ClickExamples.chainArray)
              (Examples.courseNode "CSE 142")
              (withNodeStatus
                 (newCourseNode (Examples.courseRecord "CSE 142" EmptyString))
                 (Some "ready"))
              "enrolled") as (els' & Hrun & _ & _ & Hset).
  - split_and!; [|apply (bool_decide_unpack _); vm_compute; exact I|done].
    apply depthsOver_describes, (newNodeData_depthsOver _ 10).
    vm_compute. reflexivity.
  - apply (topoRanked_acyclic ClickExamples.chainRank). vm_compute.
    reflexivity.
  - apply endsAreNodes_check. apply (bool_decide_unpack _). vm_compute.
    exact I.
  - intros m Hm%list_elem_of_In. simpl in Hm.
    destruct Hm as [Hm|[Hm|[Hm|[Hm|[Hm|[]]]]]]; try discriminate;
      injection Hm as <-; (eexists; split; [reflexivity|]);
      unfold COURSE_STATUSES; set_solver.
  - intros m Hm%list_elem_of_In. simpl in Hm.
    destruct Hm as [Hm|[Hm|[Hm|[Hm|[Hm|[]]]]]]; try discriminate;
      injection Hm as <-; vm_compute; reflexivity.
  - apply list_elem_of_In. left. reflexivity.
  - reflexivity.
  - reflexivity.
  - reflexivity.
  - exists els'. split; [exact Hrun|exact Hset].
Defined.

End ClickTheorem.

(** ** The copies that [App.jsx] holds *)

Section Copies.
Import Flow Meta Status Props ParserProps GraphProps StatusProps Layout
  Handlers ClickProps.

Lemma elementAt_elem (els : list Element) idx id (x : Element) :
  elementAt els idx id = Some x → x ∈ els.
Proof.
  unfold elementAt. destruct (idx !! id) as [i|]; [|done]. simpl.
  apply list_elem_of_lookup_2.
Qed.

Lemma course_update_agree els nd idx (id : string) :
  allCourses els →
  Handlers.updateNodeStatus id els nd idx
  = Status.updateNodeStatus id els nd idx.
Proof.
  intros Hall. unfold Handlers.updateNodeStatus, Status.updateNodeStatus.
  destruct (elementAt els idx id) as [[n|e]|] eqn:Hat; [|done..].
  by rewrite (Hall n (elementAt_elem els idx id _ Hat)).
Qed.

Lemma sameShape_allCourses (els upd : list Element) :
  sameShape els upd → allCourses els → allCourses upd.
Proof.
  intros [Hlen Hpos] Hall n' [k Hk]%list_elem_of_lookup.
  destruct (lookup_lt_is_Some_2 els k) as [x Hx];
    [rewrite <- Hlen; by eapply lookup_lt_Some|].
  destruct (Hpos k x Hx) as (x' & Hx' & Hcl).
  assert (x' = ENode n') as -> by congruence.
  destruct (clearStatus_skeleton _ _ Hcl) as [_ Hsk].
  destruct x as [n|e]; [|done]. rewrite Hsk. apply Hall.
  by eapply list_elem_of_lookup_2.
Qed.

Lemma course_loop_agree nd idx (elements : list Element) (todo : nat) :
  ∀ i upd, allCourses upd →
    Handlers.updateLoop todo i elements upd nd idx
    = Status.updateLoop todo i elements upd nd idx.
Proof.
  induction todo as [|todo IH]; intros i upd Hall; [done|]. simpl.
  destruct (elements !! i) as [x|]; [|done].
  rewrite (course_update_agree upd nd idx (elemId x) Hall).
  destruct (Status.updateNodeStatus (elemId x) upd nd idx) as [upd'|] eqn:Hrun;
    [|done].
  simpl. apply IH. apply (sameShape_allCourses upd); [|done].
  eapply update_sameShape; [apply sameShape_refl|exact Hrun].
Qed.

Lemma course_recalculate_agree (els : list Element) (fuel : nat) :
  allCourses els →
  Handlers.recalculateElements fuel els = App.recalculateElements fuel els.
Proof.
  intros Hall. unfold Handlers.recalculateElements, App.recalculateElements.
  destruct (newNodeData fuel els) as [nd|]; [|done]. simpl.
  destruct (sortElementsByDepth els nd) as [sorted|] eqn:Hsort; [|done].
  simpl. apply course_loop_agree.
  destruct (sortElementsByDepth_nodesFirst els nd sorted Hsort) as [_ Hperm].
  intros n Hn. apply Hall. by rewrite <- Hperm.
Qed.

(** X19. On an array all of whose nodes have the type "course", the
    functions that [App.jsx] holds and the functions of the module
    return the same, call by call, errors included: [updateNodeStatus]
    for every id, metadata and index map, [updateAllNodes], and the
    pipeline of [recalculateElements]. *)
Theorem course_copies_agree (els : list Element) :
  allCourses els →
  (∀ id nd idx, Handlers.updateNodeStatus id els nd idx
                = Status.updateNodeStatus id els nd idx)
  ∧ (∀ nd idx, Handlers.updateAllNodes els nd idx
               = Status.updateAllNodes els nd idx)
  ∧ (∀ fuel, Handlers.recalculateElements fuel els
             = App.recalculateElements fuel els).
Proof.
  intros Hall. split_and!.
  - intros id nd idx. by apply course_update_agree.
  - intros nd idx. by apply course_loop_agree.
  - intros fuel. by apply course_recalculate_agree.
Qed.

Lemma chainArray_courses : allCourses ClickExamples.chainArray.
Proof.
  intros m Hm%list_elem_of_In. simpl in Hm.
  destruct Hm as [Hm|[Hm|[Hm|[Hm|[Hm|[]]]]]]; try discriminate;
    by injection Hm as <-.
Qed.

Lemma course_copies_agree_witness :
  Handlers.recalculateElements 10 ClickExamples.chainArray
  = App.recalculateElements 10 ClickExamples.chainArray.
Proof.
  destruct (course_copies_agree ClickExamples.chainArray chainArray_courses)
    as (_ & _ & Hrun).
  exact (Hrun 10).
Defined.

(** What [removeElements] keeps of an array. *)
Lemma removeElements_sub (rm els : list Element) (x : Element) :
  x ∈ removeElements rm els → x ∈ els.
Proof. by intros [? _]%removeElements_elem. Qed.

Lemma acyclic_sub (els sub : list Element) :
  (∀ x, x ∈ sub → x ∈ els) → acyclic els → acyclic sub.
Proof.
  intros Hsub Hacyc u Hu. apply (Hacyc u).
  eapply tc_congruence with (f := id); [|exact Hu].
  intros a b (e & He & Hs & Ht). exists e. split; [by apply Hsub|done].
Qed.

Lemma edgeIdsApart_iff (els : list Element) :
  edgeIdsApart els = true
  ↔ ∀ e e', EEdge e ∈ els → EEdge e' ∈ els →
            eid e ≠ source e' ∧ eid e ≠ target e'.
Proof.
  unfold edgeIdsApart. rewrite forallb_forall. split.
  - intros H e e' He He'.
    apply edgesOf_elem, list_elem_of_In in He.
    apply edgesOf_elem, list_elem_of_In in He'.
    specialize (H e He). rewrite forallb_forall in H. specialize (H e' He').
    apply andb_true_iff in H as [H1 H2].
    apply negb_true_iff, String.eqb_neq in H1.
    apply negb_true_iff, String.eqb_neq in H2. done.
  - intros H e He%list_elem_of_In%edgesOf_elem.
    apply forallb_forall. intros e' He'%list_elem_of_In%edgesOf_elem.
    destruct (H e e' He He') as [H1 H2].
    apply andb_true_iff. split; apply negb_true_iff, String.eqb_neq; done.
Qed.

(** X20. [onElementsRemove] on an acyclic array of course nodes with
    pairwise distinct ids (no edge id doubling as an endpoint), with fuel
    beyond the number of elements: removal and recalculation return;
    the result is, up to order and statuses, what [removeElements]
    keeps, so it holds no element with the id of a removed one and no
    edge that starts or ends at one; and it is settled: recomputing any
    node with the metadata of the kept elements returns the same
    array. *)
Theorem onElementsRemove_settles (els targetElems : list Element)
    (fuel : nat) :
  acyclic els → edgeIdsApart els = true → NoDup (map elemId els) →
  allCourses els → length els < fuel →
  ∃ nd els',
    onElementsRemove fuel targetElems els = Ok els'
    ∧ newNodeData fuel (removeElements targetElems els) = Ok nd
    ∧ map clearStatus els' ≡ₚ map clearStatus (removeElements targetElems els)
    ∧ (∀ x, x ∈ els' →
            (elemId x ∉ map elemId targetElems)
            ∧ ∀ e, x = EEdge e →
                   (source e ∉ map elemId targetElems)
                   ∧ (target e ∉ map elemId targetElems))
    ∧ (∀ n, ENode n ∈ els' →
            Handlers.updateNodeStatus (nid n) els' nd (newElemIndexes els')
            = Ok els').
Proof.
  intros Hacyc Hapart Hnodup Hall Hfuel.
  set (kept := removeElements targetElems els).
  assert (∀ x, x ∈ kept → x ∈ els) as Hsub
    by (intros x; apply removeElements_sub).
  assert (allCourses kept) as Hallk by (intros n Hn; by apply Hall, Hsub).
  destruct (recalculate_atRest kept fuel)
    as (nd & sorted & els' & Hrun & Hsort & Hpass & Hfirst & Hperm & Hc & Hc'
        & Hsh & Hrest & Hmir).
  - by apply (acyclic_sub els).
  - apply edgeIdsApart_iff. intros e e' He He'.
    apply (proj1 (edgeIdsApart_iff els) Hapart); by apply Hsub.
  - eapply sublist_NoDup; [exact Hnodup|].
    apply fmap_sublist, sublist_filter.
  - eapply Nat.le_lt_trans; [apply length_filter|done].
  - assert (newElemIndexes els' = newElemIndexes sorted) as Hidx
      by (by apply newElemIndexes_ids, sameShape_ids).
    assert (map clearStatus els' = map clearStatus sorted) as Hclear.
    { destruct Hsh as [Hlen Hpos]. apply list_eq. intros k.
      rewrite !list_lookup_fmap.
      destruct (sorted !! k) as [x|] eqn:Hx.
      - destruct (Hpos k x Hx) as (x' & -> & Hcl). simpl. by rewrite Hcl.
      - apply lookup_ge_None in Hx.
        rewrite (proj2 (lookup_ge_None els' k)); [done|lia]. }
    exists nd, els'. split_and!.
    + unfold onElementsRemove. fold kept.
      rewrite (course_recalculate_agree kept fuel Hallk).
      unfold App.recalculateElements. rewrite Hrun. simpl.
      rewrite Hsort. simpl. exact Hpass.
    + done.
    + rewrite Hclear. by apply Permutation_map.
    + intros x' [k Hk]%list_elem_of_lookup.
      destruct Hsh as [Hlen Hpos].
      destruct (lookup_lt_is_Some_2 sorted k) as [x Hx];
        [rewrite <- Hlen; by eapply lookup_lt_Some|].
      destruct (Hpos k x Hx) as (x'' & Hx'' & Hcl).
      assert (x'' = x') as -> by congruence.
      assert (x ∈ kept) as Hin
        by (rewrite <- Hperm; by eapply list_elem_of_lookup_2).
      apply removeElements_elem in Hin as [_ [Hid He]%dropped_false].
      destruct (clearStatus_skeleton _ _ Hcl) as [Hid' Hsk].
      split; [by rewrite Hid'|]. intros e' ->.
      destruct x as [n|e]; [done|]. destruct Hsk as (-> & -> & _).
      destruct (He e eq_refl). done.
    + intros n Hn. rewrite Hidx.
      rewrite course_update_agree.
      * by apply atRest_update.
      * apply (sameShape_allCourses sorted); [done|].
        intros m Hm. apply Hallk. by rewrite <- Hperm.
Qed.

Lemma onElementsRemove_settles_witness :
  ∃ els',
    onElementsRemove 10 [Examples.courseNode "CSE 143"]
      ClickExamples.chainArray = Ok els'
    ∧ ∀ x, x ∈ els' → elemId x ∉ ["CSE 143"].
Proof.
  destruct (onElementsRemove_settles ClickExamples.chainArray
              [Examples.courseNode "CSE 143"] 10)
    as (nd & els' & Hrun & _ & _ & Hgone & _).
  - apply (topoRanked_acyclic ClickExamples.chainRank). vm_compute.
    reflexivity.
  - vm_compute. reflexivity.
  - apply (bool_decide_unpack _). vm_compute. exact I.
  - exact chainArray_courses.
  - vm_compute. lia.
  - exists els'. split; [exact Hrun|]. intros x Hx.
    exact (proj1 (Hgone x Hx)).
Defined.

End Copies.

(** ** What the metadata depends on *)

Section Graph.
Import Flow Meta Status Props ParserProps GraphProps StatusProps OpenFile
  ShapeProps ClickProps.

Lemma edges_rel {B} (P : FlowEdge → Prop) `{∀ e, Decision (P e)}
    (g : FlowEdge → B) (a b : list Element) :
  sameGraph a b →
  (∀ e e', eid e = eid e' → source e = source e' → target e = target e' →
           (P e ↔ P e') ∧ g e = g e') →
  map g (filter P (edgesOf a)) = map g (filter P (edgesOf b)).
Proof.
  intros Hrel Hpg. induction Hrel as [|x y a b [Hid Hk] Hrel IH]; [done|].
  destruct x as [n|e], y as [n'|e']; try done.
  change (edgesOf (EEdge e :: a)) with (e :: edgesOf a).
  change (edgesOf (EEdge e' :: b)) with (e' :: edgesOf b).
  destruct Hk as [Hs Ht]. simpl in Hid.
  destruct (Hpg e e' Hid Hs Ht) as [HP Hg].
  destruct (decide (P e)) as [Hp|Hp].
  - rewrite !filter_cons_True by tauto. simpl. by rewrite Hg, IH.
  - rewrite !filter_cons_False by tauto. done.
Qed.

Lemma ids_rel (ids : list string) (a b : list Element) :
  sameGraph a b →
  map elemId (filter (λ x, elemId x ∈ ids) a)
  = map elemId (filter (λ x, elemId x ∈ ids) b).
Proof.
  intros Hrel. induction Hrel as [|x y a b [Hid Hk] Hrel IH]; [done|].
  destruct (decide (elemId x ∈ ids)) as [Hp|Hp].
  - rewrite !filter_cons_True by congruence. simpl. by rewrite Hid, IH.
  - rewrite !filter_cons_False by congruence. done.
Qed.

Lemma sameGraph_ids (a b : list Element) :
  sameGraph a b → map elemId a = map elemId b.
Proof.
  intros Hrel. induction Hrel as [|x y a b [Hid _] Hrel IH]; [done|].
  simpl. by rewrite Hid, IH.
Qed.

Lemma newData_rel (x y : Element) (a b : list Element) :
  sameEnds x y → sameGraph a b → newData x a = newData y b.
Proof.
  intros [Hid Hk] Hrel.
  assert (isNode x = isNode y) as Hnode
    by (destruct x, y; simpl in *; done).
  assert (map elemId (getIncomers x a) = map elemId (getIncomers y b)) as HiN.
  { unfold getIncomers. rewrite Hnode, Hid. destruct (isNode y); [|done].
    rewrite (edges_rel (λ e, target e = elemId y) source a b Hrel).
    - by apply ids_rel.
    - intros e e' _ -> ->. done. }
  assert (map elemId (getOutgoers x a) = map elemId (getOutgoers y b)) as HoN.
  { unfold getOutgoers. rewrite Hnode, Hid. destruct (isNode y); [|done].
    rewrite (edges_rel (λ e, source e = elemId y) target a b Hrel).
    - by apply ids_rel.
    - intros e e' _ -> ->. done. }
  assert (map eid (getIncomingEdges x a) = map eid (getIncomingEdges y b))
    as HiE.
  { unfold getIncomingEdges, getConnectedEdges. simpl.
    rewrite !list_filter_filter, Hid. apply edges_rel; [done|].
    intros e e' -> -> ->. done. }
  assert (map eid (getOutgoingEdges x a) = map eid (getOutgoingEdges y b))
    as HoE.
  { unfold getOutgoingEdges, getConnectedEdges. simpl.
    rewrite !list_filter_filter, Hid. apply edges_rel; [done|].
    intros e e' -> -> ->. done. }
  unfold newData. cbv zeta. by rewrite HiN, HiE, HoE, HoN.
Qed.

Lemma collect_rel (a b : list Element) :
  sameGraph a b → collect a = collect b.
Proof.
  intros Hrel. unfold collect.
  generalize (∅ : gmap string NodeMeta, @nil string).
  assert (∀ l l', sameGraph l l' →
            ∀ acc : gmap string NodeMeta * list string,
              fold_left
                (λ acc node,
                   let d := newData node a in
                   (<[elemId node := d]> acc.1,
                    if length (incomingNodes d) =? 0
                    then acc.2 ++ [elemId node] else acc.2))
                (filter (λ x, isNode x = true) l) acc
              = fold_left
                  (λ acc node,
                     let d := newData node b in
                     (<[elemId node := d]> acc.1,
                      if length (incomingNodes d) =? 0
                      then acc.2 ++ [elemId node] else acc.2))
                  (filter (λ x, isNode x = true) l') acc) as Hgen.
  { intros l l' Hl. induction Hl as [|x y l l' Hxy Hl IH]; intros acc; [done|].
    pose proof Hxy as [Hid Hk].
    destruct x as [n|e], y as [n'|e']; try done.
    rewrite !filter_cons_True by done. cbn [fold_left]. rewrite IH.
      f_equal. cbv beta zeta.
      rewrite (newData_rel (ENode n) (ENode n') a b Hxy Hrel).
      by rewrite Hid. }
  intros acc. by apply Hgen.
Qed.

Lemma sameShape_sameGraph (els upd : list Element) :
  sameShape els upd → sameGraph els upd.
Proof.
  intros [Hlen Hpos]. apply Forall2_same_length_lookup. split; [done|].
  intros i x y Hx Hy. destruct (Hpos i x Hx) as (y' & Hy' & Hcl).
  assert (y' = y) as -> by congruence.
  destruct (clearStatus_skeleton _ _ Hcl) as [Hid Hsk].
  split; [done|]. destruct y as [n'|e'], x as [n|e]; try done.
  by destruct Hsk as (-> & -> & _).
Qed.

(** X21. The metadata and the index map depend only on the kinds and ids
    of the elements and on the ends of the edges: two arrays that agree
    in these, position by position, have the same [newNodeData] (for any
    fuel, errors included) and the same [newElemIndexes]. Types,
    positions, statuses, class names and labels play no part. *)
Theorem newNodeData_sameGraph (fuel : nat) (a b : list Element) :
  sameGraph a b →
  newNodeData fuel a = newNodeData fuel b
  ∧ newElemIndexes a = newElemIndexes b.
Proof.
  intros Hrel. split.
  - unfold newNodeData. by rewrite (collect_rel a b Hrel).
  - apply newElemIndexes_ids. by apply sameGraph_ids.
Qed.

Lemma newNodeData_sameGraph_witness :
  newNodeData 10 (map (updateElem "AND-g1" (Some "ready"))
                    (Examples.gateArray "and" "AND-g1"))
  = newNodeData 10 (Examples.gateArray "and" "AND-g1").
Proof.
  apply (newNodeData_sameGraph 10).
  unfold sameGraph, sameEnds. repeat constructor.
Defined.

Lemma updateLoop_sameShape nd idx (elements : list Element) (todo : nat) :
  ∀ i upd upd',
    updateLoop todo i elements upd nd idx = Ok upd' → sameShape upd upd'.
Proof.
  induction todo as [|todo IH]; intros i upd upd'; simpl.
  - intros [= <-]. apply sameShape_refl.
  - destruct (elements !! i) as [x|]; [|done].
    destruct (updateNodeStatus (elemId x) upd nd idx) as [upd1|] eqn:Hrun;
      [|done].
    simpl. intros Hloop. eapply sameShape_trans; [|by eapply IH].
    eapply update_sameShape; [apply sameShape_refl|exact Hrun].
Qed.

Lemma betaToBeta1_sameGraph (els : list Element) :
  sameGraph els (betaToBeta1 els).
Proof.
  unfold betaToBeta1, sameGraph.
  induction els as [|[n|e] els IH]; simpl; constructor; done.
Qed.

Lemma setNodeStatus_sameShape nodeId s els nd idx els' :
  setNodeStatus nodeId s els nd idx = Ok els' → sameShape els els'.
Proof.
  intros Hrun.
  destruct (setNodeStatus_inv _ _ _ _ _ _ Hrun) as (i & n & md & Hi & Hn & Hmd).
  pose proof Hrun as Hloop.
  rewrite (setNodeStatus_unfold _ _ _ _ _ _ _ _ Hi Hn Hmd) in Hloop.
  apply classLoop_inv in Hloop.
  assert (indexesOk els idx (outgoingEdges md) = true) as Hok.
  { apply indexesOk_spec. intros id Hid.
    destruct (proj1 (indexesOk_spec _ _ _) Hloop id Hid) as (j & Hj & Hlt).
    exists j. by rewrite length_insert in Hlt. }
  destruct (setNodeStatus_ok nodeId s els nd idx i n md Hi Hn Hmd Hok)
    as (els'' & Hrun' & Hlen & Hpos).
  assert (els'' = els') as -> by congruence.
  split; [done|]. intros k x Hx. rewrite Hpos.
  assert (∀ b y, clearStatus (applyClass s b y) = clearStatus y) as Hcl.
  { intros [|] [m|e]; done. }
  destruct (decide (k = i)) as [->|Hki].
  - rewrite list_lookup_insert_eq by (by eapply lookup_lt_Some).
    eexists. split; [done|]. rewrite Hcl.
    assert (x = ENode n) as -> by congruence. done.
  - rewrite list_lookup_insert_ne, Hx by done.
    eexists. split; [done|]. apply Hcl.
Qed.

Lemma click_update_sameShape nodeId els nd idx els' :
  Handlers.updateNodeStatus nodeId els nd idx = Ok els' → sameShape els els'.
Proof.
  unfold Handlers.updateNodeStatus.
  destruct (elementAt els idx nodeId) as [[n|e]|]; [|done..].
  destruct (nd !! nodeId) as [md|]; [|done]. cbv zeta.
  destruct (newStatusOf _ _ _) as [s|]; [|done]. simpl.
  apply setNodeStatus_sameShape.
Qed.

Lemma forEach_sameShape {A} (body : list Element → A → result (list Element))
    (xs : list A) :
  (∀ els x els', body els x = Ok els' → sameShape els els') →
  ∀ els els', forEach body xs els = Ok els' → sameShape els els'.
Proof.
  intros Hbody. induction xs as [|x xs IH]; intros els els'; simpl.
  - intros [= <-]. apply sameShape_refl.
  - destruct (body els x) as [els1|] eqn:Hx; [|done]. simpl.
    intros Hrun. eapply sameShape_trans; [by eapply Hbody|by apply IH].
Qed.

Lemma click_loop_sameShape nd idx (elements : list Element) (todo : nat) :
  ∀ i upd upd',
    Handlers.updateLoop todo i elements upd nd idx = Ok upd' →
    sameShape upd upd'.
Proof.
  induction todo as [|todo IH]; intros i upd upd'; simpl.
  - intros [= <-]. apply sameShape_refl.
  - destruct (elements !! i) as [x|]; [|done].
    destruct (Handlers.updateNodeStatus (elemId x) upd nd idx)
      as [upd1|] eqn:Hrun; [|done].
    simpl. intros Hloop. eapply sameShape_trans; [|by eapply IH].
    by eapply click_update_sameShape.
Qed.

Lemma onElementClick_sameShape altKey targetElem els nd idx els' :
  Handlers.onElementClick altKey targetElem els nd idx = Ok (Some els') →
  sameShape els els'.
Proof.
  unfold Handlers.onElementClick.
  destruct (altKey && isNode targetElem); [|done].
  destruct (elementAt els idx (elemId targetElem)) as [[n|e]|]; [|done..].
  destruct (Handlers.nextStatus (nodeStatus (data n))) as [s|]; [|done].
  destruct (setNodeStatus _ _ els nd idx) as [els1|] eqn:H1; [|done]. simpl.
  destruct (nd !! elemId targetElem) as [md|]; [|done].
  destruct (forEach _ (outgoingNodes md) els1) as [els2|] eqn:H2; [|done].
  simpl. destruct (mapR _ (outgoingNodes md)) as [outs|]; [|done]. simpl.
  destruct (forEach _ (Handlers.setOf [] (concat outs)) els2)
    as [els3|] eqn:H3; [|done].
  simpl. intros [= <-].
  eapply sameShape_trans; [by eapply setNodeStatus_sameShape|].
  eapply sameShape_trans.
  - eapply forEach_sameShape; [|exact H2].
    intros ? ? ?. apply click_update_sameShape.
  - eapply forEach_sameShape; [|exact H3].
    intros ? ? ?. apply click_update_sameShape.
Qed.

(** X22. The status functions leave metadata and index map valid, which
    is why the handlers do not recompute them: the array that
    [setNodeStatus], [updateNodeStatus], [updateAllNodes] (of the module
    or of [App.jsx]) or [onElementClick] returns has the ids of the
    array it was given in the same positions, the same
    [newElemIndexes] and, for any fuel, the same [newNodeData]. *)
Theorem status_keeps_metadata (fuel : nat) (els : list Element)
    (nd : gmap string NodeMeta) (idx : gmap string nat) (els' : list Element) :
  (∃ id s, setNodeStatus id s els nd idx = Ok els')
  ∨ (∃ id, Status.updateNodeStatus id els nd idx = Ok els')
  ∨ (∃ id, Handlers.updateNodeStatus id els nd idx = Ok els')
  ∨ Status.updateAllNodes els nd idx = Ok els'
  ∨ Handlers.updateAllNodes els nd idx = Ok els'
  ∨ (∃ altKey targetElem,
       Handlers.onElementClick altKey targetElem els nd idx = Ok (Some els')) →
  map elemId els' = map elemId els
  ∧ newElemIndexes els' = newElemIndexes els
  ∧ newNodeData fuel els' = newNodeData fuel els.
Proof.
  intros Hrun.
  assert (sameShape els els') as Hsh.
  { destruct Hrun as [(id & s & Hrun)|[(id & Hrun)|[(id & Hrun)|[Hrun|[Hrun
                      |(altKey & targetElem & Hrun)]]]]].
    - by eapply setNodeStatus_sameShape.
    - eapply update_sameShape; [apply sameShape_refl|exact Hrun].
    - by eapply click_update_sameShape.
    - by eapply updateLoop_sameShape.
    - by eapply click_loop_sameShape.
    - by eapply onElementClick_sameShape. }
  pose proof (sameShape_sameGraph els els' Hsh) as Hrel.
  split_and!.
  - symmetry. by apply sameGraph_ids.
  - apply newElemIndexes_ids. symmetry. by apply sameGraph_ids.
  - unfold newNodeData. by rewrite (collect_rel els els' Hrel).
Qed.

Lemma status_keeps_metadata_witness :
  newNodeData 10
    (map (updateElem "AND-g1" (Some "ready"))
       (Examples.gateArray "and" "AND-g1"))
  = newNodeData 10 (Examples.gateArray "and" "AND-g1").
Proof.
  apply (status_keeps_metadata 10 (Examples.gateArray "and" "AND-g1")
           (Examples.metaOf (Examples.gateArray "and" "AND-g1"))
           (newElemIndexes (Examples.gateArray "and" "AND-g1"))).
  right. left. exists "AND-g1". vm_compute. reflexivity.
Defined.

(** X23. [betaToBeta1] is idempotent; its result has only nodes of type
    "course", so that on it the [updateNodeStatus] of the module and the
    one of [App.jsx] return the same; it keeps, position by position,
    the id and the [data] of every node (its status with it) and every
    edge as it is; and it has the index map and, for any fuel, the
    metadata of the array it was given. *)
Theorem betaToBeta1_courses (els : list Element) :
  betaToBeta1 (betaToBeta1 els) = betaToBeta1 els
  ∧ allCourses (betaToBeta1 els)
  ∧ (∀ id nd idx,
       Handlers.updateNodeStatus id (betaToBeta1 els) nd idx
       = Status.updateNodeStatus id (betaToBeta1 els) nd idx)
  ∧ map elemId (betaToBeta1 els) = map elemId els
  ∧ map elemStatus (betaToBeta1 els) = map elemStatus els
  ∧ edgesOf (betaToBeta1 els) = edgesOf els
  ∧ newElemIndexes (betaToBeta1 els) = newElemIndexes els
  ∧ ∀ fuel, newNodeData fuel (betaToBeta1 els) = newNodeData fuel els.
Proof.
  assert (allCourses (betaToBeta1 els)) as Hall.
  { intros n (x & Hx & _)%list_elem_of_fmap.
    destruct x as [m|e]; [|done]. by injection Hx as ->. }
  pose proof (betaToBeta1_sameGraph els) as Hrel.
  split_and!; [| done | | | | | |].
  - unfold betaToBeta1. rewrite map_map. apply map_ext. by intros [n|e].
  - intros id nd idx. by apply course_update_agree.
  - unfold betaToBeta1. rewrite map_map. apply map_ext. by intros [n|e].
  - unfold betaToBeta1. rewrite map_map. apply map_ext. by intros [n|e].
  - clear Hall Hrel. unfold betaToBeta1.
    induction els as [|[n|e] els IH]; [done|exact IH|].
    change (e :: edgesOf (betaToBeta1 els) = e :: edgesOf els).
    f_equal. exact IH.
  - apply newElemIndexes_ids. symmetry. by apply sameGraph_ids.
  - intros fuel. unfold newNodeData.
    by rewrite (collect_rel els (betaToBeta1 els) Hrel).
Qed.

End Graph.

(** ** Connecting two nodes by hand *)

Section Connect.
Import Flow Meta Status Props ParserProps GraphProps StatusProps Handlers
  ClickProps.

Lemma connected_hasEdge (els : list Element) (source target u v : string) :
  hasEdge els u v → hasEdge (connected source target els) u v.
Proof.
  intros (e & He & Hs & Ht). exists e. split; [|done].
  apply elem_of_app. left. apply list_elem_of_fmap. by exists (EEdge e).
Qed.

Lemma connected_node (els : list Element) (source target k : string) :
  isNodeId els k →
  ∃ x, x ∈ connected source target els ∧ isNode x = true ∧ elemId x = k.
Proof.
  intros (n & Hn & Hk). exists (unhover (ENode n)). split_and!; [|done..].
  apply elem_of_app. left. apply list_elem_of_fmap. eauto.
Qed.

Lemma connected_outEdge (els : list Element) (source target u v : string) :
  isNodeId els u → isNodeId els v →
  hasEdge (connected source target els) u v →
  outEdge (connected source target els) u v.
Proof.
  intros Hu Hv Huv.
  destruct (connected_node els source target u Hu) as (x & Hx & Hnx & Hidx).
  destruct (connected_node els source target v Hv) as (y & Hy & _ & Hidy).
  exists x. split_and!; [done..|].
  apply outgoingNodes_elem; [done|]. rewrite Hidx. split; [eauto|done].
Qed.

Lemma connected_path (els : list Element) (source target a b : string) :
  endsAreNodes els → rtc (hasEdge els) a b →
  rtc (outEdge (connected source target els)) a b.
Proof.
  intros Hends Hab. induction Hab as [a|a c b Hac Hcb IH]; [done|].
  eapply rtc_l; [|exact IH].
  destruct Hac as (e & He & <- & <-).
  destruct (Hends e He) as [Hs Ht].
  apply connected_outEdge; [done..|].
  apply connected_hasEdge. by exists e.
Qed.

Lemma hasEdge_check (els : list Element) (u v : string) :
  existsb (λ e, String.eqb (source e) u && String.eqb (target e) v)
    (edgesOf els) = true →
  hasEdge els u v.
Proof.
  intros (e & He%list_elem_of_In%edgesOf_elem & Huv)%existsb_exists.
  apply andb_true_iff in Huv as [Hu%String.eqb_eq Hv%String.eqb_eq].
  by exists e.
Qed.

(** X24. The guard of [onConnect] refuses an edge whose arrow id, or the
    arrow id of the reverse edge, is indexed; it does not keep longer
    cycles out. When the ids of the array are pairwise distinct, every
    edge joins two nodes, neither arrow id is indexed, and the target
    already leads to the source along edges while some node without
    incoming edges, other than the target, leads to the target, the
    handler passes the guard, adds the edge, and the recalculation does
    not return for any bound on the recursion depth. *)
Theorem onConnect_closes_cycle (els : list Element) (source target r : string) :
  NoDup (map elemId els) → endsAreNodes els →
  newElemIndexes els !! edgeArrowId source target = None →
  newElemIndexes els !! edgeArrowId target source = None →
  isNodeId els source → isNodeId els target →
  isNodeId els r → (∀ u, ¬ hasEdge els u r) → r ≠ target →
  rtc (hasEdge els) r target → rtc (hasEdge els) target source →
  ∀ fuel, ∃ f,
    onConnect fuel source target els (newElemIndexes els) = Err f.
Proof.
  intros Hnodup Hends Hnew Hrev Hs Ht Hr Hroot Hrt Hpath Hback fuel.
  set (els' := connected source target els).
  assert (outEdge els' source target) as Hst.
  { apply connected_outEdge; [done..|].
    exists {| eid := edgeArrowId source target;
              Flow.source := source; Flow.target := target;
              className := None; label := None;
              labelBgPadding := None; labelBgBorderRadius := None |}.
    split; [|done]. apply elem_of_app. right. by left. }
  assert (tc (outEdge els') target target) as Hcyc.
  { eapply tc_rtc_l; [by apply connected_path|]. by apply tc_once. }
  assert (isRoot els' r) as Hr'.
  { destruct (connected_node els source target r Hr) as (x & Hx & Hnx & Hid).
    exists (newData x els'). split.
    - apply (collect_spec els'). eauto 10.
    - destruct (incomingNodes (newData x els')) as [|u l] eqn:Hin; [done|].
      exfalso.
      assert (u ∈ incomingNodes (newData x els')) as Hu
        by (rewrite Hin; left).
      apply incomingNodes_elem in Hu as [_ (e & He & _ & Hte)]; [|done].
      rewrite Hid in Hte.
      apply elem_of_app in He as [(y & Hy & Hin')%list_elem_of_fmap|He].
      + destruct y as [m|e0]; [done|]. injection Hy as ->.
        apply (Hroot (Flow.source e0)). by exists e0.
      + apply list_elem_of_singleton in He. injection He as ->.
        by apply Hrt. }
  assert (∃ f, newNodeData fuel els' = Err f) as [f Hf].
  { rewrite newNodeData_unfold.
    apply (forEach_fails (depthsOver els') _ _ r).
    - by apply roots_isRoot.
    - intros acc y acc' Hacc Hb. by eapply discoverMaxDepths_depthsOver.
    - intros acc Hacc. apply (discoverMaxDepths_diverges els'); [done|].
      exists target. split; [by apply connected_path|done].
    - apply depthsOver_init. }
  exists f. unfold onConnect. rewrite Hnew, Hrev.
  rewrite !bool_decide_false by (by intros [? ?]). cbn [negb andb].
  destruct Hs as (n & [k Hk]%list_elem_of_lookup & Hid).
  pose proof (newElemIndexes_NoDup els k (ENode n) Hnodup Hk) as Hidx.
  simpl in Hidx. rewrite Hid in Hidx.
  unfold elementAt. rewrite Hidx. simpl. rewrite Hk. unfold recalculateElements. fold els'. by rewrite Hf.
Qed.

Lemma onConnect_closes_cycle_witness :
  ∃ f, onConnect 1000 "CSE 332" "CSE 143" ClickExamples.longChain
         (newElemIndexes ClickExamples.longChain) = Err f.
Proof.
  assert (∀ k, k ∈ nodeIds ClickExamples.longChain →
               isNodeId ClickExamples.longChain k) as Hnode
    by (intros k; apply nodeIds_elem).
  apply (onConnect_closes_cycle ClickExamples.longChain
           "CSE 332" "CSE 143" "CSE 142").
  - apply (bool_decide_unpack _). vm_compute. exact I.
  - apply endsAreNodes_check. apply (bool_decide_unpack _). vm_compute.
    exact I.
  - vm_compute. reflexivity.
  - vm_compute. reflexivity.
  - apply Hnode. apply (bool_decide_unpack _). vm_compute. exact I.
  - apply Hnode. apply (bool_decide_unpack _). vm_compute. exact I.
  - apply Hnode. apply (bool_decide_unpack _). vm_compute. exact I.
  - intros u (e & He%list_elem_of_In & _ & Ht). simpl in He.
    destruct He as [He|[He|[He|[He|[He|[He|[He|[]]]]]]]]; try discriminate;
      injection He as <-; discriminate.
  - discriminate.
  - eapply rtc_l; [|apply rtc_refl].
    apply hasEdge_check. vm_compute. reflexivity.
  - eapply (rtc_l _ _ "CSE 311"); [|eapply rtc_l; [|apply rtc_refl]];
      apply hasEdge_check; vm_compute; reflexivity.
Defined.

End Connect.
